(** * Native-call stub generators for AArch64

    A shallow embedding of [universalNativeInvoker_aarch64.cpp]: the two
    stub generators ([ProgrammableInvoker::Generator::generate] and
    [NativeInvokerGenerator::generate]) become functions that produce a list
    of assembler items, and the items get an executable semantics over a
    small AArch64 machine state, so that statements about "the emitted code"
    are statements about running that list. *)

From Stdlib Require Import String ZArith List Lia Bool.
From coqutil Require Import Byte Word.LittleEndianList.
Import ListNotations.
Local Open Scope Z_scope.

(** ** Platform constants and integer helpers *)

Definition wordSize : Z := 8.
Definition LogBytesPerWord : Z := 3.
Definition LogBytesPerInt : Z := 2.
(** Size in bytes of one vector-register slot of the context record. *)
Definition float_reg_size : Z := 16.
(** [sizeof(uintptr_t)] *)
Definition sizeof_uintptr_t : Z := 8.

(** 64-bit registers and 32-bit [unsigned] wrap around. *)
Definition wrap64 (z : Z) : Z := z mod 2 ^ 64.
Definition wrap32 (z : Z) : Z := z mod 2 ^ 32.
Definition wrap128 (z : Z) : Z := z mod 2 ^ 128.

(** A C++ [int]: two's complement on 32 bits. *)
Definition int32 (z : Z) : Z := (z + 2 ^ 31) mod 2 ^ 32 - 2 ^ 31.

Arguments wrap64 z : simpl never.
Arguments wrap32 z : simpl never.
Arguments wrap128 z : simpl never.
Arguments int32 z : simpl never.

(** [align_up(size, alignment)] of utilities/align.hpp for a power of two:
    [(size + alignment - 1) & ~(alignment - 1)]. *)
Definition align_up (size alignment : Z) : Z :=
  Z.land (size + (alignment - 1)) (Z.lnot (alignment - 1)).

(** [is_even(x)]: [(x & 1) == 0]. *)
Definition is_even (x : Z) : bool := Z.land x 1 =? 0.

(** Sign extension of the low [w] bits. *)
Definition sign_extend (w : Z) (z : Z) : Z :=
  let low := z mod 2 ^ w in
  if low <? 2 ^ (w - 1) then low else low - 2 ^ w.

(** ** Registers and location handles *)

Inductive Register : Type := X (encoding : nat).
Inductive FloatRegister : Type := V (encoding : nat).

Definition r0 := X 0.
Definition r8 := X 8.
Definition r9 := X 9.
Definition r10 := X 10.
Definition r11 := X 11.
Definition r12 := X 12.
Definition r13 := X 13.
Definition r14 := X 14.
Definition r15 := X 15.
Definition r19 := X 19.
Definition r28 := X 28.
Definition r29 := X 29.
Definition r30 := X 30.
Definition sp := X 31.
Definition c_rarg0 := r0.
Definition rscratch1 := r8.
Definition rscratch2 := r9.
Definition rthread := r28.
Definition rfp := r29.
Definition lr := r30.
Definition v0 := V 0.

Definition Register_eqb (a b : Register) : bool :=
  match a, b with X n, X m => Nat.eqb n m end.
Definition FloatRegister_eqb (a b : FloatRegister) : bool :=
  match a, b with V n, V m => Nat.eqb n m end.

(** [VMReg]: a register of either class, a stack slot, or the invalid
    handle [VMRegImpl::Bad()]. *)
Inductive VMReg : Type :=
| VMReg_Register (r : Register)
| VMReg_FloatRegister (f : FloatRegister)
| VMReg_stack (slot : Z)
| VMReg_Bad.

Definition as_VMReg (r : Register) : VMReg := VMReg_Register r.

Definition is_valid (v : VMReg) : bool :=
  match v with VMReg_Bad => false | _ => true end.

Definition VMReg_eqb (a b : VMReg) : bool :=
  match a, b with
  | VMReg_Register x, VMReg_Register y => Register_eqb x y
  | VMReg_FloatRegister x, VMReg_FloatRegister y => FloatRegister_eqb x y
  | VMReg_stack x, VMReg_stack y => Z.eqb x y
  | VMReg_Bad, VMReg_Bad => true
  | _, _ => false
  end.

(** [GrowableArray<VMReg>::contains] *)
Definition contains (l : list VMReg) (v : VMReg) : bool :=
  existsb (VMReg_eqb v) l.

(** [BasicType] of the runtime. *)
Inductive BasicType : Type :=
| T_BOOLEAN | T_CHAR | T_FLOAT | T_DOUBLE | T_BYTE | T_SHORT | T_INT | T_LONG
| T_OBJECT | T_ARRAY | T_VOID | T_ADDRESS | T_NARROWOOP | T_METADATA
| T_NARROWKLASS | T_CONFLICT | T_ILLEGAL.

(** ** Assembler items *)

Inductive Label : Type :=
| Ldone | Lnext
| L_after_safepoint_poll | L_safepoint_poll_slow_path
| L_reguard | L_after_reguard.

Definition Label_eqb (a b : Label) : bool :=
  match a, b with
  | Ldone, Ldone | Lnext, Lnext
  | L_after_safepoint_poll, L_after_safepoint_poll
  | L_safepoint_poll_slow_path, L_safepoint_poll_slow_path
  | L_reguard, L_reguard | L_after_reguard, L_after_reguard => true
  | _, _ => false
  end.

(** Entry points of the runtime reached from the slow paths. *)
Inductive RuntimeEntry : Type :=
| check_special_condition_for_native_trans
| reguard_yellow_pages.

(** [Assembler::Membar_mask_bits]; a mask is the list of the bits or-ed
    together. *)
Inductive Membar_mask_bits : Type := LoadLoad | LoadStore | StoreLoad | StoreStore.

Inductive Address : Type :=
| Address_disp (base : Register) (disp : Z)   (* Address(base, disp)  *)
| pre (base : Register) (disp : Z)            (* Address(pre(base, disp))  *)
| post (base : Register) (disp : Z)           (* post(base, disp) *)
| RuntimeAddress (target : RuntimeEntry).

Inductive Condition : Type := EQ | NE.

Inductive insn : Type :=
(* pseudo items: no code *)
| block_comment (text : string)
| bind (l : Label)
(* data processing *)
| mov (rd rs : Register)
| mov_imm (rd : Register) (imm : Z)
| add_imm (rd rn : Register) (imm : Z)
| sub_imm (rd rn : Register) (imm : Z)
| sub (rd rn rm : Register)
| andr (rd rn : Register) (imm : Z)
| lsr (rd rn : Register) (shift : Z)
| ubfx (rd rn : Register) (lsb width : Z)
| sbfx (rd rn : Register) (lsb width : Z)
| c2bool (r : Register)
| lea (rd : Register) (a : Address)
| cmpw (rn : Register) (imm : Z)
(* loads and stores *)
| ldr (rt : Register) (a : Address)
| str (rt : Register) (a : Address)
| ldrw (rt : Register) (a : Address)
| strw (rt : Register) (a : Address)
| ldrb (rt : Register) (a : Address)
| ldrq (vt : FloatRegister) (a : Address)
| strq (vt : FloatRegister) (a : Address)
| stlrw (rt rn : Register)
| membar (mask : list Membar_mask_bits)
(* control *)
| b (l : Label)
| br (c : Condition) (l : Label)
| cbz (rt : Register) (l : Label)
| cbnzw (rt : Register) (l : Label)
| blr (rn : Register)
| ret (rn : Register)
(* macro instructions *)
| enter
| leave
| set_last_Java_frame (last_java_sp last_java_fp : Register) (last_java_pc : Z)
                      (scratch : Register)
| reset_last_Java_frame (clear_fp : bool)
| safepoint_poll (slow_path : Label) (at_return acquire in_nmethod : bool)
                 (tmp : Register)
| verify_sve_vector_length (tmp : Register)
| rt_call (dest : RuntimeEntry) (tmp : Register)
(* one move of the argument shuffle *)
| shuffle_move (src dst : VMReg).

(** ** What the generators take from the rest of the virtual machine

    Constants, field offsets, entry points and the two calling conventions
    are declared outside the translated file; the generators are
    parametric in them. *)

(** [CallingConventionClosure]: the location handle of each argument of a
    signature. *)
Definition CallingConventionClosure := list BasicType -> list VMReg.

Class Runtime : Type := {
  (* JavaThread::*_offset() *)
  thread_state_offset : Z;
  suspend_flags_offset : Z;
  stack_guard_state_offset : Z;
  (* JavaThreadState *)
  _thread_in_native : Z;
  _thread_in_native_trans : Z;
  _thread_in_Java : Z;
  (* StackOverflow::stack_guard_yellow_reserved_disabled *)
  stack_guard_yellow_reserved_disabled : Z;
  (* frame::arg_reg_save_area_bytes *)
  arg_reg_save_area_bytes : Z;
  (* CAST_FROM_FN_PTR(address, f) *)
  entry_address : RuntimeEntry -> Z;
  (* bytes of code an item assembles to *)
  insn_size : insn -> Z;
  (* the managed-code convention and the native convention of a downcall *)
  JavaCallConv : CallingConventionClosure;
  DowncallNativeCallConv : list VMReg -> VMReg -> CallingConventionClosure
}.

(** [ABIDescriptor] and [BufferLayout] of the context-buffer adapter. *)
Record ABIDescriptor : Type := {
  _integer_argument_registers : list Register;
  _integer_return_registers : list Register;
  _vector_argument_registers : list FloatRegister;
  _vector_return_registers : list FloatRegister;
  _stack_alignment_bytes : Z;
  _shadow_space_bytes : Z
}.

Record BufferLayout : Type := {
  stack_args_bytes : Z;
  stack_args : Z;
  arguments_vector : Z;
  arguments_integer : Z;
  arguments_next_pc : Z;
  returns_integer : Z;
  returns_vector : Z
}.

(** [OopMap] and [OopMapSet]: a map lists the frame slots that hold managed
    references; a set keys maps by code offset. *)
Record OopMap : Type := {
  oop_frame_size : Z;
  oop_arg_count : Z;
  oop_entries : list VMReg
}.

Definition new_OopMap (frame_size arg_count : Z) : OopMap :=
  {| oop_frame_size := frame_size; oop_arg_count := arg_count; oop_entries := [] |}.

Definition OopMapSet := list (Z * OopMap).

Definition add_gc_map (s : OopMapSet) (pc_offset : Z) (map : OopMap) : OopMapSet :=
  s ++ [(pc_offset, map)].

(** ** The assembler as a state and error monad

    The state is the code emitted so far; a failed assertion or
    [ShouldNotReachHere()] aborts generation. *)

Module Masm.

Definition Asm (A : Type) : Type := list insn -> option (A * list insn).

Definition pure {A} (a : A) : Asm A := fun c => Some (a, c).

Definition bnd {A B} (m : Asm A) (k : A -> Asm B) : Asm B :=
  fun c => match m c with
           | Some (a, c') => k a c'
           | None => None
           end.

Definition emit (i : insn) : Asm unit := fun c => Some (tt, c ++ [i]).

Definition emit_all (l : list insn) : Asm unit := fun c => Some (tt, c ++ l).

Definition assert (cond : bool) (msg : string) : Asm unit :=
  fun c => if cond then Some (tt, c) else None.

Definition ShouldNotReachHere {A} : Asm A := fun _ => None.

Definition code_size `{Runtime} (c : list insn) : Z :=
  fold_right (fun i n => insn_size i + n) 0 c.

(** [__ pc()]: the address of the next instruction. *)
Definition pc `{Runtime} (code_begin : Z) : Asm Z :=
  fun c => Some (code_begin + code_size c, c).

(** [for (int i = 0; i < l.length(); i++) body(i, l.at(i))] *)
Fixpoint for_each {A} (i : Z) (l : list A) (body : Z -> A -> Asm unit) : Asm unit :=
  match l with
  | [] => pure tt
  | a :: l' => bnd (body i a) (fun _ => for_each (i + 1) l' body)
  end.

Definition run {A} (m : Asm A) : option (A * list insn) := m [].

End Masm.

Import Masm.

Declare Scope asm_scope.
Delimit Scope asm_scope with asm.
Notation "x <- m ;; k" := (bnd m (fun x => k))
  (at level 61, m at next level, right associativity) : asm_scope.
Notation "m ;; k" := (bnd m (fun _ => k))
  (at level 61, right associativity) : asm_scope.
Notation "'__' i" := (emit i) (at level 35, i at level 9) : asm_scope.

(** ** Argument shuffle planner *)

Module Shuffle.

(** A move copies the value of [src] into [dst]. *)
Notation Move := (VMReg * VMReg)%type.

Definition move_src (m : Move) : VMReg := fst m.
Definition move_dst (m : Move) : VMReg := snd m.

(** Modelled from the spec: the pairing of source and destination handles
    (the planner's source is not part of the translated file).  A handle
    that denotes an invalid slot is treated as absent, and a destination
    equal to its source is a no-op that produces no move. *)
Definition pending_moves (srcs dsts : list VMReg) : list Move :=
  filter (fun m => is_valid (move_src m) && is_valid (move_dst m)
                   && negb (VMReg_eqb (move_src m) (move_dst m)))
         (combine srcs dsts).

(** A pending move is non-conflicting when no pending move still has to
    read the location it overwrites. *)
Definition is_free (pending : list Move) (m : Move) : bool :=
  forallb (fun m' => negb (VMReg_eqb (move_src m') (move_dst m))) pending.

(** The first element that satisfies [f], and the list without it. *)
Fixpoint extract (f : Move -> bool) (l : list Move) : option (Move * list Move) :=
  match l with
  | [] => None
  | m :: l' =>
      if f m then Some (m, l')
      else match extract f l' with
           | Some (x, r) => Some (x, m :: r)
           | None => None
           end
  end.

(** Modelled from the spec: the move-order computation of the planner.
    Non-conflicting moves are emitted as they are found.  When every
    pending move conflicts the pending moves contain a cycle: one edge of it
    is routed through the scratch location (its source is stored into the
    scratch location, the rest of the chain is performed, and the scratch
    location is moved into the edge's destination last).  A cycle met while
    the scratch location is still in use is fatal. *)
Fixpoint plan (scratch : VMReg) (fuel : nat) (pending : list Move)
  : option (list Move) :=
  match fuel with
  | O => None
  | S fuel' =>
      match pending with
      | [] => Some []
      | (s, d) :: rest =>
          match extract (is_free pending) pending with
          | Some (m, pending') =>
              option_map (cons m) (plan scratch fuel' pending')
          | None =>
              if existsb (fun m' => VMReg_eqb (move_src m') scratch) pending
              then None
              else option_map (cons (s, scratch))
                              (plan scratch fuel' ((scratch, d) :: rest))
          end
      end
  end.

Definition compute_move_order (scratch : VMReg) (srcs dsts : list VMReg)
  : option (list Move) :=
  let pending := pending_moves srcs dsts in
  plan scratch (2 * length pending + 1) pending.

(** Stack slots are counted in units of [1 << LogBytesPerInt] bytes; the
    stack is kept 16-byte aligned. *)
Definition StackAlignmentInSlots : Z := 4.

(** Modelled from the spec: the number of stack slots the destination
    convention needs beyond what fits in registers (one past the highest
    stack slot it names), rounded up to the stack alignment. *)
Definition stack_slots_needed (dsts : list VMReg) : Z :=
  fold_right (fun v n => match v with
                         | VMReg_stack slot => Z.max (slot + 1) n
                         | _ => n
                         end) 0 dsts.

Record ArgumentShuffle : Type := {
  _moves : list Move;
  _out_arg_stack_slots : Z
}.

(** Modelled from the spec: [ArgumentShuffle::ArgumentShuffle]; the same
    signature is used on both sides, the argument counts match, and each
    convention yields one handle per argument. *)
Definition new_ArgumentShuffle (signature : list BasicType) (num_args : nat)
    (in_conv out_conv : CallingConventionClosure) (shuffle_temp : VMReg)
  : option ArgumentShuffle :=
  let sig := firstn num_args signature in
  let in_regs := firstn num_args (in_conv sig) in
  let out_regs := firstn num_args (out_conv sig) in
  match compute_move_order shuffle_temp in_regs out_regs with
  | Some moves =>
      Some {| _moves := moves;
              _out_arg_stack_slots :=
                align_up (stack_slots_needed out_regs) StackAlignmentInSlots |}
  | None => None
  end.

Definition out_arg_stack_slots (a : ArgumentShuffle) : Z := _out_arg_stack_slots a.

(** Modelled from the spec: [ArgumentShuffle::generate] emits the move
    program in order. *)
Definition generate (a : ArgumentShuffle) : Asm unit :=
  emit_all (map (fun m => shuffle_move (move_src m) (move_dst m)) (_moves a)).

(** Simultaneous-assignment semantics over an environment of locations. *)
Definition Env := VMReg -> Z.

Definition upd (e : Env) (l : VMReg) (v : Z) : Env :=
  fun x => if VMReg_eqb x l then v else e x.

Definition exec_move (e : Env) (m : Move) : Env :=
  upd e (move_dst m) (e (move_src m)).

Definition exec_moves (prog : list Move) (e : Env) : Env :=
  fold_left exec_move prog e.

End Shuffle.

(** ** Return-value spiller *)

Module RegSpiller.

(** Modelled from the spec: bytes a return location takes in the spill
    region; only registers are live return locations. *)
Definition pd_reg_size (reg : VMReg) : Z :=
  match reg with
  | VMReg_Register _ => 8
  | VMReg_FloatRegister _ => 16
  | _ => 0
  end.

Definition compute_spill_area (regs : list VMReg) : Z :=
  fold_right (fun r n => pd_reg_size r + n) 0 regs.

Record t : Type := {
  _regs : list VMReg;
  _spill_size_bytes : Z
}.

Definition new (regs : list VMReg) : t :=
  {| _regs := regs; _spill_size_bytes := compute_spill_area regs |}.

Definition spill_size_bytes (s : t) : Z := _spill_size_bytes s.

(** Modelled from the spec: [spill(offset)] stores each live return
    location, in order, to the stack region that starts [rsp_offset] bytes
    above the stack pointer; [fill(offset)] reloads them from there. *)
Fixpoint spill_code (spill : bool) (rsp_offset : Z) (regs : list VMReg) : list insn :=
  match regs with
  | [] => []
  | reg :: regs' =>
      let here :=
        match reg with
        | VMReg_Register r =>
            [(if spill then str else ldr) r (Address_disp sp rsp_offset)]
        | VMReg_FloatRegister f =>
            [(if spill then strq else ldrq) f (Address_disp sp rsp_offset)]
        | _ => []
        end in
      here ++ spill_code spill (rsp_offset + pd_reg_size reg) regs'
  end.

Definition generate_spill (s : t) (rsp_offset : Z) : Asm unit :=
  emit_all (spill_code true rsp_offset (_regs s)).

Definition generate_fill (s : t) (rsp_offset : Z) : Asm unit :=
  emit_all (spill_code false rsp_offset (_regs s)).

End RegSpiller.

(** ** The context-buffer adapter: [ProgrammableInvoker::Generator] *)

(** [ssize_t] and [(int)] conversions. *)
Definition int64 (z : Z) : Z := (z + 2 ^ 63) mod 2 ^ 64 - 2 ^ 63.

Arguments int64 z : simpl never.

Fixpoint assert_different_registers (l : list Register) : bool :=
  match l with
  | [] => true
  | r :: l' => negb (existsb (Register_eqb r) l') && assert_different_registers l'
  end.

(** The code buffer a generator writes to; [insts_begin] is the address of
    its first instruction. *)
Record CodeBuffer : Type := { insts_begin : Z }.

Module ProgrammableInvoker.

Section Generator.

Context `{Runtime}.
Local Open Scope asm_scope.

(* Registers used in the stub code.  They are all caller-save; rscratch1 is
   avoided as it is r8, the indirect result register of the standard ABI. *)
Definition Rctx := r10.
Definition Rstack_size := r11.
Definition Rwords := r12.
Definition Rtmp := r13.
Definition Rsrc_ptr := r14.
Definition Rdst_ptr := r15.

Definition generate (_abi : ABIDescriptor) (_layout : BufferLayout) : Asm unit :=
  __ enter ;;

  assert (assert_different_registers [Rctx; Rstack_size; rscratch1; rscratch2]) "" ;;

  __ (block_comment "init_and_alloc_stack") ;;

  __ (mov Rctx c_rarg0) ;;
  __ (str Rctx (pre sp (-2 * wordSize))) ;;

  assert (Z.rem (_stack_alignment_bytes _abi) 16 =? 0) "stack must be 16 byte aligned" ;;

  __ (block_comment "allocate_stack") ;;
  __ (ldr Rstack_size (Address_disp Rctx (int32 (stack_args_bytes _layout)))) ;;
  __ (add_imm rscratch2 Rstack_size (int32 (_stack_alignment_bytes _abi - 1))) ;;
  __ (andr rscratch2 rscratch2 (int32 (- _stack_alignment_bytes _abi))) ;;
  __ (sub sp sp rscratch2) ;;

  __ (block_comment "load_arguments") ;;

  __ (ldr Rsrc_ptr (Address_disp Rctx (int32 (stack_args _layout)))) ;;
  __ (lsr Rwords Rstack_size LogBytesPerWord) ;;
  __ (mov Rdst_ptr sp) ;;

  __ (bind Lnext) ;;
  __ (cbz Rwords Ldone) ;;
  __ (ldr Rtmp (post Rsrc_ptr wordSize)) ;;
  __ (str Rtmp (post Rdst_ptr wordSize)) ;;
  __ (sub_imm Rwords Rwords 1) ;;
  __ (b Lnext) ;;
  __ (bind Ldone) ;;

  for_each 0 (_vector_argument_registers _abi) (fun i reg =>
    let offs := int64 (arguments_vector _layout + i * float_reg_size) in
    __ (ldrq reg (Address_disp Rctx offs))) ;;

  for_each 0 (_integer_argument_registers _abi) (fun i reg =>
    let offs := int64 (arguments_integer _layout + i * sizeof_uintptr_t) in
    __ (ldr reg (Address_disp Rctx offs))) ;;

  assert (_shadow_space_bytes _abi =? 0) "shadow space not supported on AArch64" ;;

  (* call target function *)
  __ (block_comment "call target function") ;;
  __ (ldr rscratch2 (Address_disp Rctx (int32 (arguments_next_pc _layout)))) ;;
  __ (blr rscratch2) ;;

  __ (ldr Rctx (Address_disp rfp (-2 * wordSize))) ;;   (* Might have clobbered Rctx *)

  __ (block_comment "store_registers") ;;

  for_each 0 (_integer_return_registers _abi) (fun i reg =>
    let offs := int64 (returns_integer _layout + i * sizeof_uintptr_t) in
    __ (str reg (Address_disp Rctx offs))) ;;

  for_each 0 (_vector_return_registers _abi) (fun i reg =>
    let offs := int64 (returns_vector _layout + i * float_reg_size) in
    __ (strq reg (Address_disp Rctx offs))) ;;

  __ leave ;;
  __ (ret lr).
  (* flush() synchronises the instruction cache and emits nothing *)

(** [generate_adapter]: the code of the stub, [None] when generation hits a
    fatal assertion. *)
Definition generate_adapter (abi : ABIDescriptor) (layout : BufferLayout)
  : option (list insn) :=
  option_map snd (Masm.run (generate abi layout)).

End Generator.

End ProgrammableInvoker.

(** ** The full downcall stub: [NativeInvokerGenerator] *)

Module NativeInvoker.

Record NativeInvokerGenerator : Type := {
  _buffer : CodeBuffer;
  _signature : list BasicType;
  _num_args : nat;
  _ret_bt : BasicType;
  _shadow_space_bytes : Z;
  _input_registers : list VMReg;
  _output_registers : list VMReg
}.

(** The mutable members [generate] fills in. *)
Record Generated : Type := {
  _frame_complete : Z;
  _framesize : Z;
  _oop_maps : OopMapSet
}.

(** The constructor; its assertion rejects multi-register returns. *)
Definition new_NativeInvokerGenerator (buffer : CodeBuffer)
    (signature : list BasicType) (num_args : nat) (ret_bt : BasicType)
    (shadow_space_bytes : Z) (input_registers output_registers : list VMReg)
  : option NativeInvokerGenerator :=
  if (length output_registers <=? 1)%nat
     || ((length output_registers =? 2)%nat
         && negb (is_valid (nth 1 output_registers VMReg_Bad)))
  then Some {| _buffer := buffer;
               _signature := signature;
               _num_args := num_args;
               _ret_bt := ret_bt;
               _shadow_space_bytes := shadow_space_bytes;
               _input_registers := input_registers;
               _output_registers := output_registers |}
  else None.

Definition frame_complete (r : Generated) : Z := _frame_complete r.

Definition framesize (r : Generated) : Z :=
  Z.shiftr (_framesize r) (LogBytesPerWord - LogBytesPerInt).

Definition oop_maps (r : Generated) : OopMapSet := _oop_maps r.

Definition target_uses_register (g : NativeInvokerGenerator) (reg : VMReg) : bool :=
  contains (_input_registers g) reg || contains (_output_registers g) reg.

(** [enum layout] of [generate]. *)
Definition rfp_off : Z := 0.
Definition rfp_off2 : Z := 1.
Definition lr_off : Z := 2.
Definition lr_off2 : Z := 3.
Definition framesize_base : Z := 4.   (* [framesize], inclusive of return address *)

Section Generator.

Context `{Runtime}.
Local Open Scope asm_scope.

Definition lift {A} (o : option A) : Asm A :=
  fun c => match o with Some a => Some (a, c) | None => None end.

(** The [switch (_ret_bt)] that unpacks the native result. *)
Definition unpack_native_result (ret_bt : BasicType) : Asm unit :=
  match ret_bt with
  | T_BOOLEAN => __ (c2bool r0)
  | T_CHAR => __ (ubfx r0 r0 0 16)
  | T_BYTE => __ (sbfx r0 r0 0 8)
  | T_SHORT => __ (sbfx r0 r0 0 16)
  | T_INT => __ (sbfx r0 r0 0 32)
  | T_DOUBLE
  | T_FLOAT =>
      (* Result is in v0 we'll save as needed *)
      pure tt
  | T_VOID => pure tt
  | T_LONG => pure tt
  | _ => ShouldNotReachHere
  end.

Definition generate (g : NativeInvokerGenerator) : Asm Generated :=
  (* we can't use rscratch1 because it is r8, and used by the ABI *)
  let tmp1 := r9 in
  let tmp2 := r10 in
  assert (negb (target_uses_register g (as_VMReg tmp1))) "conflict" ;;
  assert (negb (target_uses_register g (as_VMReg tmp2))) "conflict" ;;
  assert (negb (target_uses_register g (as_VMReg rthread))) "conflict" ;;

  let input_addr_reg := tmp1 in
  let shuffle_reg := r19 in
  let in_conv := JavaCallConv in
  let out_conv := DowncallNativeCallConv (_input_registers g) (as_VMReg input_addr_reg) in
  arg_shuffle <- lift (Shuffle.new_ArgumentShuffle (_signature g) (_num_args g)
                         in_conv out_conv (as_VMReg shuffle_reg)) ;;

  let out_reg_spiller := RegSpiller.new (_output_registers g) in
  let spill_offset := 0 in

  assert (_shadow_space_bytes g =? 0) "not expecting shadow space on AArch64" ;;
  let _framesize := int32 (align_up (int32 (int32 (framesize_base
    + Z.shiftr (RegSpiller.spill_size_bytes out_reg_spiller) LogBytesPerInt)
    + Shuffle.out_arg_stack_slots arg_shuffle)) 4) in
  assert (is_even (Z.quot _framesize 2)) "sp not 16-byte aligned" ;;

  let _oop_maps := @nil (Z * OopMap) in

  start <- pc (insts_begin (_buffer g)) ;;

  __ enter ;;

  (* lr and fp are already in place *)
  __ (sub_imm sp rfp (wrap32 (Z.shiftl (wrap32 (_framesize - 4)) LogBytesPerInt))) ;; (* prolog *)

  here <- pc (insts_begin (_buffer g)) ;;
  let _frame_complete := here - start in

  the_pc <- pc (insts_begin (_buffer g)) ;;
  __ (set_last_Java_frame sp rfp the_pc tmp1) ;;
  let map := new_OopMap _framesize 0 in
  let _oop_maps := add_gc_map _oop_maps (the_pc - start) map in

  (* State transition *)
  __ (mov_imm tmp1 _thread_in_native) ;;
  __ (lea tmp2 (Address_disp rthread thread_state_offset)) ;;
  __ (stlrw tmp1 tmp2) ;;

  __ (block_comment "{ argument shuffle") ;;
  Shuffle.generate arg_shuffle ;;
  __ (block_comment "} argument shuffle") ;;

  __ (blr input_addr_reg) ;;

  (* Unpack native results. *)
  unpack_native_result (_ret_bt g) ;;

  __ (mov_imm tmp1 _thread_in_native_trans) ;;
  __ (strw tmp1 (Address_disp rthread thread_state_offset)) ;;

  (* Force this write out before the read below *)
  __ (membar [LoadLoad; LoadStore; StoreLoad; StoreStore]) ;;

  __ (verify_sve_vector_length tmp1) ;;

  __ (safepoint_poll L_safepoint_poll_slow_path true (* at_return *) true (* acquire *)
                     false (* in_nmethod *) tmp1) ;;

  __ (ldrw tmp1 (Address_disp rthread suspend_flags_offset)) ;;
  __ (cbnzw tmp1 L_safepoint_poll_slow_path) ;;

  __ (bind L_after_safepoint_poll) ;;

  (* change thread state *)
  __ (mov_imm tmp1 _thread_in_Java) ;;
  __ (lea tmp2 (Address_disp rthread thread_state_offset)) ;;
  __ (stlrw tmp1 tmp2) ;;

  __ (block_comment "reguard stack check") ;;
  __ (ldrb tmp1 (Address_disp rthread stack_guard_state_offset)) ;;
  __ (cmpw tmp1 stack_guard_yellow_reserved_disabled) ;;
  __ (br EQ L_reguard) ;;
  __ (bind L_after_reguard) ;;

  __ (reset_last_Java_frame true) ;;

  __ leave ;; (* required for proper stackwalking of RuntimeStub frame *)
  __ (ret lr) ;;

  (* ---------------------------------------------------------------- *)

  __ (block_comment "{ L_safepoint_poll_slow_path") ;;
  __ (bind L_safepoint_poll_slow_path) ;;

  (* Need to save the native result registers around any runtime calls. *)
  RegSpiller.generate_spill out_reg_spiller spill_offset ;;

  __ (mov c_rarg0 rthread) ;;
  assert (arg_reg_save_area_bytes =? 0) "not expecting frame reg save area" ;;
  __ (lea tmp1 (RuntimeAddress check_special_condition_for_native_trans)) ;;
  __ (blr tmp1) ;;

  RegSpiller.generate_fill out_reg_spiller spill_offset ;;

  __ (b L_after_safepoint_poll) ;;
  __ (block_comment "} L_safepoint_poll_slow_path") ;;

  (* ---------------------------------------------------------------- *)

  __ (block_comment "{ L_reguard") ;;
  __ (bind L_reguard) ;;

  RegSpiller.generate_spill out_reg_spiller spill_offset ;;

  __ (rt_call reguard_yellow_pages tmp1) ;;

  RegSpiller.generate_fill out_reg_spiller spill_offset ;;

  __ (b L_after_reguard) ;;

  __ (block_comment "} L_reguard") ;;

  (* ---------------------------------------------------------------- *)

  pure {| _frame_complete := _frame_complete;
          _framesize := _framesize;
          _oop_maps := _oop_maps |}.

(** [RuntimeStub] as [make_native_invoker] builds it. *)
Record RuntimeStub : Type := {
  stub_name : string;
  stub_code : list insn;
  stub_frame_complete : Z;
  stub_frame_size : Z;
  stub_oop_maps : OopMapSet
}.

(** [ProgrammableInvoker::make_native_invoker]; [buffer] stands for the
    code buffer the function allocates. *)
Definition make_native_invoker (buffer : CodeBuffer)
    (signature : list BasicType) (num_args : nat) (ret_bt : BasicType)
    (shadow_space_bytes : Z) (input_registers output_registers : list VMReg)
  : option RuntimeStub :=
  match new_NativeInvokerGenerator buffer signature num_args ret_bt
          shadow_space_bytes input_registers output_registers with
  | None => None
  | Some g =>
      match Masm.run (generate g) with
      | None => None
      | Some (r, code) =>
          Some {| stub_name := "nep_invoker_blob";
                  stub_code := code;
                  stub_frame_complete := frame_complete r;
                  stub_frame_size := framesize r;
                  stub_oop_maps := oop_maps r |}
      end
  end.

Definition supports_native_invoker : bool := true.

End Generator.

End NativeInvoker.

(** ** Executing assembler items

    A machine state holds the general and vector registers, the storage
    behind stack-slot handles, byte-addressed memory, the comparison flag,
    the thread's frame anchor and poll state, and the trace of the
    externally visible events of the run. *)

Module Machine.

Inductive event : Type :=
| Ev_store (addr : Z) (bytes : nat) (value : Z) (release : bool)
| Ev_membar (mask : list Membar_mask_bits)
| Ev_set_last_Java_frame (last_sp last_fp last_pc : Z)
| Ev_reset_last_Java_frame
| Ev_call (target : Z) (arg0 : Z).

Record JavaFrameAnchor : Type := {
  last_Java_sp : Z;
  last_Java_fp : Z;
  last_Java_pc : Z
}.

Record mstate : Type := {
  xreg : Register -> Z;
  vreg : FloatRegister -> Z;
  slot : Z -> Z;
  mem : Z -> byte;
  flag_eq : bool;
  anchor : JavaFrameAnchor;
  poll_armed : bool;
  trace : list event
}.

Definition set_xreg (s : mstate) (r : Register) (v : Z) : mstate :=
  {| xreg := fun x => if Register_eqb x r then v else xreg s x;
     vreg := vreg s; slot := slot s; mem := mem s; flag_eq := flag_eq s;
     anchor := anchor s; poll_armed := poll_armed s; trace := trace s |}.

Definition set_vreg (s : mstate) (f : FloatRegister) (v : Z) : mstate :=
  {| xreg := xreg s;
     vreg := fun x => if FloatRegister_eqb x f then v else vreg s x;
     slot := slot s; mem := mem s; flag_eq := flag_eq s;
     anchor := anchor s; poll_armed := poll_armed s; trace := trace s |}.

Definition set_slot (s : mstate) (n : Z) (v : Z) : mstate :=
  {| xreg := xreg s; vreg := vreg s;
     slot := fun x => if Z.eqb x n then v else slot s x;
     mem := mem s; flag_eq := flag_eq s;
     anchor := anchor s; poll_armed := poll_armed s; trace := trace s |}.

Definition set_mem (s : mstate) (m : Z -> byte) : mstate :=
  {| xreg := xreg s; vreg := vreg s; slot := slot s; mem := m;
     flag_eq := flag_eq s; anchor := anchor s; poll_armed := poll_armed s;
     trace := trace s |}.

Definition set_flag_eq (s : mstate) (f : bool) : mstate :=
  {| xreg := xreg s; vreg := vreg s; slot := slot s; mem := mem s;
     flag_eq := f; anchor := anchor s; poll_armed := poll_armed s;
     trace := trace s |}.

Definition set_anchor (s : mstate) (a : JavaFrameAnchor) : mstate :=
  {| xreg := xreg s; vreg := vreg s; slot := slot s; mem := mem s;
     flag_eq := flag_eq s; anchor := a; poll_armed := poll_armed s;
     trace := trace s |}.

Definition set_trace (s : mstate) (t : list event) : mstate :=
  {| xreg := xreg s; vreg := vreg s; slot := slot s; mem := mem s;
     flag_eq := flag_eq s; anchor := anchor s; poll_armed := poll_armed s;
     trace := t |}.

Definition log (s : mstate) (e : event) : mstate :=
  set_trace s (trace s ++ [e]).

(** Little-endian memory access; addresses wrap around at 64 bits. *)
Fixpoint load_bytes (m : Z -> byte) (a : Z) (n : nat) : list byte :=
  match n with
  | O => []
  | S n' => m (wrap64 a) :: load_bytes m (a + 1) n'
  end.

Fixpoint store_bytes (m : Z -> byte) (a : Z) (bs : list byte) : Z -> byte :=
  match bs with
  | [] => m
  | b0 :: bs' =>
      store_bytes (fun x => if Z.eqb x (wrap64 a) then b0 else m x) (a + 1) bs'
  end.

Definition load (s : mstate) (a : Z) (n : nat) : Z :=
  le_combine (load_bytes (mem s) a n).

Definition store (s : mstate) (a : Z) (n : nat) (v : Z) (release : bool) : mstate :=
  log (set_mem s (store_bytes (mem s) a (le_split n v))) (Ev_store a n v release).

Arguments load s a n : simpl never.
Arguments store s a n v release : simpl never.

(** Location handles as storage. *)
Definition get_loc (s : mstate) (l : VMReg) : Z :=
  match l with
  | VMReg_Register r => xreg s r
  | VMReg_FloatRegister f => vreg s f
  | VMReg_stack n => slot s n
  | VMReg_Bad => 0
  end.

Definition set_loc (s : mstate) (l : VMReg) (v : Z) : mstate :=
  match l with
  | VMReg_Register r => set_xreg s r v
  | VMReg_FloatRegister f => set_vreg s f v
  | VMReg_stack n => set_slot s n v
  | VMReg_Bad => s
  end.

Inductive outcome : Type :=
| Next (c : list insn) (s : mstate)
| Halt (s : mstate)
| Fault.

(** The code after the binding of a label. *)
Fixpoint find_label (l : Label) (c : list insn) : option (list insn) :=
  match c with
  | [] => None
  | bind l' :: c' => if Label_eqb l l' then Some c' else find_label l c'
  | _ :: c' => find_label l c'
  end.

Section Semantics.

Context `{Runtime}.

(** What a called function does to the machine state, by entry address. *)
Variable extern : Z -> mstate -> mstate.

(** Effective address of an operand and the state after base write-back. *)
Definition resolve (a : Address) (s : mstate) : Z * mstate :=
  match a with
  | Address_disp base disp => (wrap64 (xreg s base + disp), s)
  | pre base disp =>
      let ea := wrap64 (xreg s base + disp) in (ea, set_xreg s base ea)
  | post base disp =>
      (wrap64 (xreg s base), set_xreg s base (wrap64 (xreg s base + disp)))
  | RuntimeAddress target => (entry_address target, s)
  end.

Definition goto (P : list insn) (l : Label) (s : mstate) : outcome :=
  match find_label l P with
  | Some c => Next c s
  | None => Fault
  end.

(** A call: the callee runs to its return; the call itself is recorded. *)
Definition call (target : Z) (s : mstate) : mstate :=
  set_trace (extern target s) (trace s ++ [Ev_call target (xreg s c_rarg0)]).

(** One item of the program [P], of which [i :: c] is still to run.  The
    macro instructions are modelled after the assembler's expansions:
    [enter] pushes the frame-pointer/link pair and sets the frame pointer,
    [leave] undoes it, [set_last_Java_frame] publishes the frame triple in
    the thread's anchor, [reset_last_Java_frame] clears it,
    [safepoint_poll] branches when the thread's poll is armed. *)
Definition step (P : list insn) (i : insn) (c : list insn) (s : mstate) : outcome :=
  match i with
  | block_comment _ => Next c s
  | bind _ => Next c s
  | mov rd rs => Next c (set_xreg s rd (xreg s rs))
  | mov_imm rd imm => Next c (set_xreg s rd (wrap64 imm))
  | add_imm rd rn imm => Next c (set_xreg s rd (wrap64 (xreg s rn + imm)))
  | sub_imm rd rn imm => Next c (set_xreg s rd (wrap64 (xreg s rn - imm)))
  | sub rd rn rm => Next c (set_xreg s rd (wrap64 (xreg s rn - xreg s rm)))
  | andr rd rn imm => Next c (set_xreg s rd (Z.land (xreg s rn) (wrap64 imm)))
  | lsr rd rn shift => Next c (set_xreg s rd (Z.shiftr (xreg s rn) shift))
  | ubfx rd rn lsb width =>
      Next c (set_xreg s rd (Z.shiftr (xreg s rn) lsb mod 2 ^ width))
  | sbfx rd rn lsb width =>
      Next c (set_xreg s rd (wrap64 (sign_extend width (Z.shiftr (xreg s rn) lsb))))
  | c2bool r =>
      Next c (set_xreg s r (if Z.land (xreg s r) 255 =? 0 then 0 else 1))
  | lea rd a => let '(ea, s1) := resolve a s in Next c (set_xreg s1 rd ea)
  | cmpw rn imm => Next c (set_flag_eq s (wrap32 (xreg s rn) =? wrap32 imm))
  | ldr rt a => let '(ea, s1) := resolve a s in Next c (set_xreg s1 rt (load s ea 8))
  | ldrw rt a => let '(ea, s1) := resolve a s in Next c (set_xreg s1 rt (load s ea 4))
  | ldrb rt a => let '(ea, s1) := resolve a s in Next c (set_xreg s1 rt (load s ea 1))
  | ldrq vt a => let '(ea, s1) := resolve a s in Next c (set_vreg s1 vt (load s ea 16))
  | str rt a => let '(ea, s1) := resolve a s in Next c (store s1 ea 8 (xreg s rt) false)
  | strw rt a => let '(ea, s1) := resolve a s in Next c (store s1 ea 4 (xreg s rt) false)
  | strq vt a => let '(ea, s1) := resolve a s in Next c (store s1 ea 16 (vreg s vt) false)
  | stlrw rt rn => Next c (store s (wrap64 (xreg s rn)) 4 (xreg s rt) true)
  | membar mask => Next c (log s (Ev_membar mask))
  | b l => goto P l s
  | br EQ l => if flag_eq s then goto P l s else Next c s
  | br NE l => if flag_eq s then Next c s else goto P l s
  | cbz rt l => if xreg s rt =? 0 then goto P l s else Next c s
  | cbnzw rt l => if wrap32 (xreg s rt) =? 0 then Next c s else goto P l s
  | blr rn => Next c (call (xreg s rn) s)
  | ret _ => Halt s
  | enter =>
      let new_sp := wrap64 (xreg s sp - 2 * wordSize) in
      let s1 := store s new_sp 8 (xreg s rfp) false in
      let s2 := store s1 (new_sp + wordSize) 8 (xreg s lr) false in
      Next c (set_xreg (set_xreg s2 sp new_sp) rfp new_sp)
  | leave =>
      let base := xreg s rfp in
      let s1 := set_xreg s rfp (load s base 8) in
      let s2 := set_xreg s1 lr (load s (base + wordSize) 8) in
      Next c (set_xreg s2 sp (wrap64 (base + 2 * wordSize)))
  | set_last_Java_frame last_java_sp last_java_fp last_java_pc scratch =>
      let a := {| last_Java_sp := xreg s last_java_sp;
                  last_Java_fp := xreg s last_java_fp;
                  last_Java_pc := last_java_pc |} in
      let s1 := log (set_anchor s a)
                    (Ev_set_last_Java_frame (xreg s last_java_sp)
                       (xreg s last_java_fp) last_java_pc) in
      Next c (set_xreg s1 scratch
                (if Register_eqb last_java_sp sp then xreg s sp else last_java_pc))
  | reset_last_Java_frame clear_fp =>
      let a := {| last_Java_sp := 0;
                  last_Java_fp := if clear_fp then 0 else last_Java_fp (anchor s);
                  last_Java_pc := 0 |} in
      Next c (log (set_anchor s a) Ev_reset_last_Java_frame)
  | safepoint_poll slow_path _ _ _ tmp =>
      let s1 := set_xreg s tmp (Z.b2z (poll_armed s)) in
      if poll_armed s then goto P slow_path s1 else Next c s1
  | verify_sve_vector_length _ => Next c s
  | rt_call dest tmp =>
      Next c (call (entry_address dest) (set_xreg s tmp (entry_address dest)))
  | shuffle_move src dst =>
      if is_valid src && is_valid dst
      then Next c (set_loc s dst (get_loc s src))
      else Fault
  end.

(** [run fuel P c s]: at most [fuel] items from the point [c] of [P]. *)
Fixpoint run (fuel : nat) (P c : list insn) (s : mstate) : outcome :=
  match fuel with
  | O => Next c s
  | S fuel' =>
      match c with
      | [] => Fault
      | i :: c' =>
          match step P i c' s with
          | Next c'' s' => run fuel' P c'' s'
          | o => o
          end
      end
  end.

End Semantics.

End Machine.


(** ** Derived notions used in the statements *)

(** The items a loop over a register list emits: [f i a] for the [i]-th
    element [a]. *)
Fixpoint mapi {A} (f : Z -> A -> insn) (i : Z) (l : list A) : list insn :=
  match l with
  | [] => []
  | a :: l' => f i a :: mapi f (i + 1) l'
  end.

(** Sources and destinations of a list of moves. *)
Definition srcs_of (P : list Shuffle.Move) : list VMReg := map fst P.
Definition dsts_of (P : list Shuffle.Move) : list VMReg := map snd P.

(** The argument pairs whose two handles are valid. *)
Definition valid_pairs (srcs dsts : list VMReg) : list Shuffle.Move :=
  filter (fun m => is_valid (fst m) && is_valid (snd m)) (combine srcs dsts).

(** A pair of conventions is well formed for a scratch location when
    distinct arguments have distinct destinations and the scratch location
    is used by neither side. *)
Definition shuffle_wf (scratch : VMReg) (srcs dsts : list VMReg) : Prop :=
  is_valid scratch = true
  /\ NoDup (dsts_of (valid_pairs srcs dsts))
  /\ ~ In scratch (srcs_of (valid_pairs srcs dsts))
  /\ ~ In scratch (dsts_of (valid_pairs srcs dsts)).

(** *** The code of the downcall stub, by segment *)

Module Downcall.

Import NativeInvoker.

Section Segments.

Context `{Runtime}.

(** The shuffle the generator plans for [g]. *)
Definition in_regs (g : NativeInvokerGenerator) : list VMReg :=
  firstn (_num_args g) (JavaCallConv (firstn (_num_args g) (_signature g))).

Definition out_regs (g : NativeInvokerGenerator) : list VMReg :=
  firstn (_num_args g)
    (DowncallNativeCallConv (_input_registers g) (as_VMReg r9)
       (firstn (_num_args g) (_signature g))).

Definition the_shuffle (g : NativeInvokerGenerator) : option Shuffle.ArgumentShuffle :=
  Shuffle.new_ArgumentShuffle (_signature g) (_num_args g) JavaCallConv
    (DowncallNativeCallConv (_input_registers g) (as_VMReg r9)) (as_VMReg r19).

(** The items the [switch] on the return type emits. *)
Definition unpack_code (bt : BasicType) : option (list insn) :=
  option_map snd (unpack_native_result bt []).

Definition seg_prologue (fs : Z) : list insn :=
  [enter; sub_imm sp rfp (wrap32 (Z.shiftl (wrap32 (fs - 4)) LogBytesPerInt))].

Definition seg_to_native (the_pc : Z) : list insn :=
  [set_last_Java_frame sp rfp the_pc r9;
   mov_imm r9 _thread_in_native;
   lea r10 (Address_disp rthread thread_state_offset);
   stlrw r9 r10].

Definition seg_moves (moves : list Shuffle.Move) : list insn :=
  map (fun m => shuffle_move (Shuffle.move_src m) (Shuffle.move_dst m)) moves.

Definition seg_shuffle (moves : list Shuffle.Move) : list insn :=
  block_comment "{ argument shuffle" :: seg_moves moves
  ++ [block_comment "} argument shuffle"].

Definition seg_poll : list insn :=
  [mov_imm r9 _thread_in_native_trans;
   strw r9 (Address_disp rthread thread_state_offset);
   membar [LoadLoad; LoadStore; StoreLoad; StoreStore];
   verify_sve_vector_length r9;
   safepoint_poll L_safepoint_poll_slow_path true true false r9;
   ldrw r9 (Address_disp rthread suspend_flags_offset);
   cbnzw r9 L_safepoint_poll_slow_path].

(** From [L_after_safepoint_poll] to the reguard check. *)
Definition seg_to_java : list insn :=
  [mov_imm r9 _thread_in_Java;
   lea r10 (Address_disp rthread thread_state_offset);
   stlrw r9 r10;
   block_comment "reguard stack check";
   ldrb r9 (Address_disp rthread stack_guard_state_offset);
   cmpw r9 stack_guard_yellow_reserved_disabled;
   br EQ L_reguard].

(** From [L_after_reguard] to the return. *)
Definition seg_epilogue : list insn :=
  [reset_last_Java_frame true; leave; ret lr].

Definition seg_poll_slow_body (outs : list VMReg) : list insn :=
  RegSpiller.spill_code true 0 outs
  ++ [mov c_rarg0 rthread;
      lea r9 (RuntimeAddress check_special_condition_for_native_trans);
      blr r9]
  ++ RegSpiller.spill_code false 0 outs
  ++ [b L_after_safepoint_poll].

Definition seg_reguard_body (outs : list VMReg) : list insn :=
  RegSpiller.spill_code true 0 outs
  ++ [rt_call reguard_yellow_pages r9]
  ++ RegSpiller.spill_code false 0 outs
  ++ [b L_after_reguard].

Definition seg_slow_paths (outs : list VMReg) : list insn :=
  block_comment "{ L_safepoint_poll_slow_path"
  :: bind L_safepoint_poll_slow_path
  :: seg_poll_slow_body outs
  ++ block_comment "} L_safepoint_poll_slow_path"
  :: block_comment "{ L_reguard"
  :: bind L_reguard
  :: seg_reguard_body outs
  ++ [block_comment "} L_reguard"].

Definition downcall_code (begin fs : Z) (moves : list Shuffle.Move)
    (unpack : list insn) (outs : list VMReg) : list insn :=
  seg_prologue fs
  ++ seg_to_native (begin + code_size (seg_prologue fs))
  ++ seg_shuffle moves
  ++ blr r9 :: unpack
  ++ seg_poll
  ++ bind L_after_safepoint_poll :: seg_to_java
  ++ bind L_after_reguard :: seg_epilogue
  ++ seg_slow_paths outs.

(** The code at the four labels of the stub. *)
Definition at_after_reguard (outs : list VMReg) : list insn :=
  seg_epilogue ++ seg_slow_paths outs.

Definition at_after_safepoint_poll (outs : list VMReg) : list insn :=
  seg_to_java ++ bind L_after_reguard :: at_after_reguard outs.

Definition at_reguard (outs : list VMReg) : list insn :=
  seg_reguard_body outs ++ [block_comment "} L_reguard"].

Definition at_safepoint_poll_slow_path (outs : list VMReg) : list insn :=
  seg_poll_slow_body outs
  ++ block_comment "} L_safepoint_poll_slow_path"
  :: block_comment "{ L_reguard"
  :: bind L_reguard
  :: at_reguard outs.

(** The frame size [generate] computes, in 4-byte slots. *)
Definition computed_framesize (g : NativeInvokerGenerator)
    (a : Shuffle.ArgumentShuffle) : Z :=
  int32 (align_up (int32 (int32 (framesize_base
    + Z.shiftr (RegSpiller.spill_size_bytes (RegSpiller.new (_output_registers g)))
               LogBytesPerInt)
    + Shuffle.out_arg_stack_slots a)) 4).

End Segments.

End Downcall.

(** Machine-level effect of a move program. *)
Definition apply_moves (moves : list Shuffle.Move) (s : Machine.mstate) : Machine.mstate :=
  fold_left (fun s m => Machine.set_loc s (snd m) (Machine.get_loc s (fst m))) moves s.

Definition is_set_last_Java_frame (i : insn) : bool :=
  match i with set_last_Java_frame _ _ _ _ => true | _ => false end.

(** *** Concrete instances the statements are exercised on *)

Module Examples.

Import NativeInvoker.

(** A runtime with the managed convention passing integer arguments in
    r1, r2, ... and a native convention that hands out the input registers
    in order. *)
Definition example_runtime : Runtime :=
  {| thread_state_offset := 904;
     suspend_flags_offset := 912;
     stack_guard_state_offset := 1040;
     _thread_in_native := 4;
     _thread_in_native_trans := 5;
     _thread_in_Java := 8;
     stack_guard_yellow_reserved_disabled := 2;
     arg_reg_save_area_bytes := 0;
     entry_address := fun e => match e with
                               | check_special_condition_for_native_trans => 28672
                               | reguard_yellow_pages => 28928
                               end;
     insn_size := fun i => match i with
                           | block_comment _ | bind _ => 0
                           | enter | leave => 8
                           | _ => 4
                           end;
     JavaCallConv := fun sig =>
       firstn (length sig) (map VMReg_Register [X 1; X 2; X 3; X 4; X 5; X 6; X 7; X 0]);
     DowncallNativeCallConv := fun ins _ sig => firstn (length sig) ins |}.

(** Two integer arguments whose native registers are the managed ones
    swapped: the planner has a cycle to break. *)
Definition swap_generator : NativeInvokerGenerator :=
  {| _buffer := {| insts_begin := 4096 |};
     _signature := [T_INT; T_INT];
     _num_args := 2;
     _ret_bt := T_INT;
     NativeInvoker._shadow_space_bytes := 0;
     _input_registers := [VMReg_Register (X 2); VMReg_Register (X 1)];
     _output_registers := [VMReg_Register r0] |}.


End Examples.

(** *** Adjustment of the raw native result *)

(** What is done to the raw value for a declared return type: a boolean is
    normalised, a sub-word integer is zero- or sign-extended from its width,
    anything that fills the register or lives in the vector register is left
    alone, the remaining types are not accepted. *)
Inductive adjustment : Type :=
| Normalize
| Zero_extend (width : Z)
| Sign_extend (width : Z)
| Untouched
| Not_accepted.

Definition declared_adjustment (bt : BasicType) : adjustment :=
  match bt with
  | T_BOOLEAN => Normalize
  | T_CHAR => Zero_extend 16
  | T_BYTE => Sign_extend 8
  | T_SHORT => Sign_extend 16
  | T_INT => Sign_extend 32
  | T_FLOAT | T_DOUBLE | T_VOID | T_LONG => Untouched
  | _ => Not_accepted
  end.

(** [result] is the 64-bit register content after adjusting [raw]. *)
Definition adjusted (a : adjustment) (raw result : Z) : Prop :=
  match a with
  | Normalize => result = (if raw mod 256 =? 0 then 0 else 1)
  | Zero_extend w => 0 <= result < 2 ^ w /\ result mod 2 ^ w = raw mod 2 ^ w
  | Sign_extend w =>
      0 <= result < 2 ^ 64
      /\ - 2 ^ (w - 1) <= int64 result < 2 ^ (w - 1)
      /\ int64 result mod 2 ^ w = raw mod 2 ^ w
  | Untouched => result = raw
  | Not_accepted => False
  end.

(** *** The code of the context-buffer adapter, by segment *)

Module Adapter.

Import ProgrammableInvoker.

Definition seg_enter : list insn :=
  [enter;
   block_comment "init_and_alloc_stack";
   mov Rctx c_rarg0;
   str Rctx (pre sp (-2 * wordSize));
   block_comment "allocate_stack"].

Definition seg_alloc (abi : ABIDescriptor) (layout : BufferLayout) : list insn :=
  [ldr Rstack_size (Address_disp Rctx (int32 (stack_args_bytes layout)));
   add_imm rscratch2 Rstack_size (int32 (_stack_alignment_bytes abi - 1));
   andr rscratch2 rscratch2 (int32 (- _stack_alignment_bytes abi));
   sub sp sp rscratch2].

Definition seg_copy_setup (layout : BufferLayout) : list insn :=
  [ldr Rsrc_ptr (Address_disp Rctx (int32 (stack_args layout)));
   lsr Rwords Rstack_size LogBytesPerWord;
   mov Rdst_ptr sp].

(** The body of the copy loop, from the test at [Lnext] to the branch
    back. *)
Definition copy_loop : list insn :=
  [cbz Rwords Ldone;
   ldr Rtmp (post Rsrc_ptr wordSize);
   str Rtmp (post Rdst_ptr wordSize);
   sub_imm Rwords Rwords 1;
   b Lnext].

Definition seg_copy (layout : BufferLayout) : list insn :=
  seg_copy_setup layout ++ bind Lnext :: copy_loop ++ [bind Ldone].

Definition seg_load_vector (abi : ABIDescriptor) (layout : BufferLayout) : list insn :=
  mapi (fun i reg =>
          ldrq reg (Address_disp Rctx (int64 (arguments_vector layout + i * float_reg_size))))
       0 (_vector_argument_registers abi).

Definition seg_load_integer (abi : ABIDescriptor) (layout : BufferLayout) : list insn :=
  mapi (fun i reg =>
          ldr reg (Address_disp Rctx (int64 (arguments_integer layout + i * sizeof_uintptr_t))))
       0 (_integer_argument_registers abi).

Definition seg_call (layout : BufferLayout) : list insn :=
  [block_comment "call target function";
   ldr rscratch2 (Address_disp Rctx (int32 (arguments_next_pc layout)));
   blr rscratch2;
   ldr Rctx (Address_disp rfp (-2 * wordSize))].

Definition seg_store (abi : ABIDescriptor) (layout : BufferLayout) : list insn :=
  block_comment "store_registers"
  :: mapi (fun i reg =>
             str reg (Address_disp Rctx (int64 (returns_integer layout + i * sizeof_uintptr_t))))
          0 (_integer_return_registers abi)
  ++ mapi (fun i reg =>
             strq reg (Address_disp Rctx (int64 (returns_vector layout + i * float_reg_size))))
          0 (_vector_return_registers abi)
  ++ [leave; ret lr].

(** The code from [Ldone] on. *)
Definition after_copy (abi : ABIDescriptor) (layout : BufferLayout) : list insn :=
  seg_load_vector abi layout ++ seg_load_integer abi layout
  ++ seg_call layout ++ seg_store abi layout.

Definition adapter_code (abi : ABIDescriptor) (layout : BufferLayout) : list insn :=
  seg_enter ++ seg_alloc abi layout
  ++ block_comment "load_arguments" :: seg_copy_setup layout
  ++ bind Lnext :: copy_loop ++ bind Ldone :: after_copy abi layout.

(** One iteration of the copy loop, and [w] of them. *)
Definition copy_word (s : Machine.mstate) : Machine.mstate :=
  let src := wrap64 (Machine.xreg s Rsrc_ptr) in
  let s1 := Machine.set_xreg
              (Machine.set_xreg s Rsrc_ptr (wrap64 (Machine.xreg s Rsrc_ptr + wordSize)))
              Rtmp (Machine.load s src 8) in
  let dst := wrap64 (Machine.xreg s1 Rdst_ptr) in
  let s2 := Machine.store
              (Machine.set_xreg s1 Rdst_ptr (wrap64 (Machine.xreg s1 Rdst_ptr + wordSize)))
              dst 8 (Machine.xreg s1 Rtmp) false in
  Machine.set_xreg s2 Rwords (wrap64 (Machine.xreg s2 Rwords - 1)).

Fixpoint copy_words (w : nat) (s : Machine.mstate) : Machine.mstate :=
  match w with
  | O => s
  | S w' => copy_words w' (copy_word s)
  end.

(** The state after the frame is set up and the record address saved. *)
Definition after_enter (s : Machine.mstate) : Machine.mstate :=
  let new_sp := wrap64 (Machine.xreg s sp - 2 * wordSize) in
  let s1 := Machine.store s new_sp 8 (Machine.xreg s rfp) false in
  let s2 := Machine.store s1 (new_sp + wordSize) 8 (Machine.xreg s lr) false in
  let s3 := Machine.set_xreg (Machine.set_xreg s2 sp new_sp) rfp new_sp in
  let s4 := Machine.set_xreg s3 Rctx (Machine.xreg s3 c_rarg0) in
  let ea := wrap64 (Machine.xreg s4 sp + -2 * wordSize) in
  Machine.store (Machine.set_xreg s4 sp ea) ea 8 (Machine.xreg s4 Rctx) false.

(** The state after the stack arguments' area is reserved. *)
Definition after_alloc (abi : ABIDescriptor) (layout : BufferLayout)
    (s : Machine.mstate) : Machine.mstate :=
  let s1 := Machine.set_xreg s Rstack_size
              (Machine.load s
                 (wrap64 (Machine.xreg s Rctx + int32 (stack_args_bytes layout))) 8) in
  let s2 := Machine.set_xreg s1 rscratch2
              (wrap64 (Machine.xreg s1 Rstack_size
                       + int32 (_stack_alignment_bytes abi - 1))) in
  let s3 := Machine.set_xreg s2 rscratch2
              (Z.land (Machine.xreg s2 rscratch2)
                      (wrap64 (int32 (- _stack_alignment_bytes abi)))) in
  Machine.set_xreg s3 sp (wrap64 (Machine.xreg s3 sp - Machine.xreg s3 rscratch2)).

(** A callee that follows the procedure-call standard: it returns with
    the caller's frame pointer, and it does not write at or above the
    stack pointer it was called with. *)
Definition callee_preserves_frame
    (extern : Z -> Machine.mstate -> Machine.mstate) : Prop :=
  forall target s,
    Machine.xreg (extern target s) rfp = Machine.xreg s rfp
    /\ forall a, Machine.xreg s sp <= a ->
                 Machine.mem (extern target s) a = Machine.mem s a.

(** The state at [Lnext] the first time round: source pointer, word count
    and destination pointer are set up. *)
Definition copy_setup (layout : BufferLayout) (s : Machine.mstate) : Machine.mstate :=
  Machine.set_xreg
    (Machine.set_xreg
       (Machine.set_xreg s Rsrc_ptr
          (Machine.load s (wrap64 (Machine.xreg s Rctx + int32 (stack_args layout))) 8))
       Rwords (Z.shiftr (Machine.xreg s Rstack_size) LogBytesPerWord))
    Rdst_ptr (Machine.xreg s sp).

End Adapter.

(** A context record for the standard C convention, holding 17 bytes of
    stack arguments, and the machine state on entry to the adapter. *)
Module AdapterExamples.

Definition example_abi : ABIDescriptor :=
  {| _integer_argument_registers := [X 0; X 1; X 2; X 3; X 4; X 5; X 6; X 7];
     _integer_return_registers := [X 0; X 1];
     _vector_argument_registers := [V 0; V 1; V 2; V 3; V 4; V 5; V 6; V 7];
     _vector_return_registers := [V 0; V 1; V 2; V 3];
     _stack_alignment_bytes := 16;
     _shadow_space_bytes := 0 |}.

Definition example_layout : BufferLayout :=
  {| stack_args_bytes := 0;
     stack_args := 8;
     arguments_vector := 16;
     arguments_integer := 144;
     arguments_next_pc := 208;
     returns_integer := 216;
     returns_vector := 232 |}.

(** The record sits at address 4096: its first word is the byte count 17,
    its second word the address 8192 of the stack-argument block, whose
    bytes are 1, 2, 3, ... *)
Definition example_memory : Z -> byte :=
  fun a =>
    if a =? 4096 then byte.of_Z 17
    else if a =? 4105 then byte.of_Z 32
    else if (8192 <=? a) && (a <? 8192 + 32) then byte.of_Z (a - 8192 + 1)
    else byte.of_Z 0.

Definition entry_state : Machine.mstate :=
  {| Machine.xreg := fun r => if Register_eqb r c_rarg0 then 4096
                              else if Register_eqb r sp then 65536
                              else if Register_eqb r rfp then 65600
                              else 0;
     Machine.vreg := fun _ => 0;
     Machine.slot := fun _ => 0;
     Machine.mem := example_memory;
     Machine.flag_eq := false;
     Machine.anchor := {| Machine.last_Java_sp := 0;
                          Machine.last_Java_fp := 0;
                          Machine.last_Java_pc := 0 |};
     Machine.poll_armed := false;
     Machine.trace := [] |}.

(** The state the example is in at the [allocate_stack] block. *)
Definition alloc_state : Machine.mstate :=
  {| Machine.xreg := fun r => if Register_eqb r ProgrammableInvoker.Rctx then 4096
                              else if Register_eqb r sp then 65504
                              else if Register_eqb r rfp then 65520
                              else 0;
     Machine.vreg := fun _ => 0;
     Machine.slot := fun _ => 0;
     Machine.mem := example_memory;
     Machine.flag_eq := false;
     Machine.anchor := {| Machine.last_Java_sp := 0;
                          Machine.last_Java_fp := 0;
                          Machine.last_Java_pc := 0 |};
     Machine.poll_armed := false;
     Machine.trace := [] |}.

(** The state the example is in at the [load_arguments] block: 17 bytes
    declared, 32 bytes reserved. *)
Definition load_state : Machine.mstate :=
  {| Machine.xreg := fun r => if Register_eqb r ProgrammableInvoker.Rctx then 4096
                              else if Register_eqb r ProgrammableInvoker.Rstack_size then 17
                              else if Register_eqb r sp then 65472
                              else if Register_eqb r rfp then 65520
                              else 0;
     Machine.vreg := fun _ => 0;
     Machine.slot := fun _ => 0;
     Machine.mem := example_memory;
     Machine.flag_eq := false;
     Machine.anchor := {| Machine.last_Java_sp := 0;
                          Machine.last_Java_fp := 0;
                          Machine.last_Java_pc := 0 |};
     Machine.poll_armed := false;
     Machine.trace := [] |}.

(** A callee that destroys every caller-saved general register and keeps
    the rest of the state. *)
Definition clobbering_callee (target : Z) (s : Machine.mstate) : Machine.mstate :=
  {| Machine.xreg := fun r => match r with
                              | X n => if (n <=? 18)%nat then 3735928559
                                       else Machine.xreg s r
                              end;
     Machine.vreg := Machine.vreg s;
     Machine.slot := Machine.slot s;
     Machine.mem := Machine.mem s;
     Machine.flag_eq := Machine.flag_eq s;
     Machine.anchor := Machine.anchor s;
     Machine.poll_armed := Machine.poll_armed s;
     Machine.trace := Machine.trace s |}.

End AdapterExamples.

(** *** Traces of the downcall stub *)

Module Traces.

Import Machine.

(** Events other than a release store and the two anchor updates. *)
Definition quiet_event (e : event) : bool :=
  match e with
  | Ev_store _ _ _ release => negb release
  | Ev_set_last_Java_frame _ _ _ => false
  | Ev_reset_last_Java_frame => false
  | _ => true
  end.

Definition quiet (l : list event) : Prop := forallb quiet_event l = true.

(** Items that fall through to the next item, cannot fault, and produce
    quiet events only. *)
Definition safe (i : insn) : bool :=
  match i with
  | b _ | br _ _ | cbz _ _ | cbnzw _ _ | ret _ | safepoint_poll _ _ _ _ _ => false
  | stlrw _ _ | set_last_Java_frame _ _ _ _ | reset_last_Java_frame _ => false
  | shuffle_move src dst => is_valid src && is_valid dst
  | _ => true
  end.

Definition is_call (e : event) : bool :=
  match e with Ev_call _ _ => true | _ => false end.

(** The calls recorded in a trace. *)
Definition calls_of (l : list event) : list event := filter is_call l.

(** What another thread has seen of a trace: a set of positions.  It
    respects release ordering when seeing a release store implies seeing
    everything the thread did before it. *)
Definition release_closed (tr : list event) (sees : nat -> bool) : Prop :=
  forall i j addr n v,
    nth_error tr i = Some (Ev_store addr n v true) ->
    sees i = true -> (j < i)%nat -> sees j = true.

Definition is_bind (i : insn) : bool :=
  match i with bind _ => true | _ => false end.

(** [runs extern P c s c' s' evs]: from point [c] and state [s] the program
    [P] reaches point [c'] and state [s'], adding the events [evs]. *)
Definition runs `{Runtime} (extern : Z -> mstate -> mstate) (P c : list insn)
    (s : mstate) (c' : list insn) (s' : mstate) (evs : list event) : Prop :=
  exists n, run extern n P c s = Next c' s' /\ trace s' = trace s ++ evs.

End Traces.

(** *** Spilling and refilling the return locations *)

Module Spill.

Import Machine.

(** The spill region that starts [off] bytes above [base] holds, in order,
    the values [orig] gives to the registers of [regs]. *)
Fixpoint spill_holds (m : Z -> byte) (base off : Z) (regs : list VMReg)
    (orig : VMReg -> Z) : Prop :=
  match regs with
  | [] => True
  | reg :: regs' =>
      match reg with
      | VMReg_Register _ => load_bytes m (base + off) 8 = le_split 8 (orig reg)
      | VMReg_FloatRegister _ => load_bytes m (base + off) 16 = le_split 16 (orig reg)
      | _ => True
      end
      /\ spill_holds m base (off + RegSpiller.pd_reg_size reg) regs' orig
  end.

(** A register holds a value of its width. *)
Definition in_range (s : mstate) (reg : VMReg) : Prop :=
  match reg with
  | VMReg_Register r => 0 <= xreg s r < 2 ^ 64
  | VMReg_FloatRegister f => 0 <= vreg s f < 2 ^ 128
  | _ => True
  end.

(** A runtime service follows the procedure-call standard towards its
    caller's frame: it returns with the caller's stack pointer and has not
    written at or above it, nor to the caller's stack slots. *)
Definition callee_preserves_stack (extern : Z -> mstate -> mstate) : Prop :=
  forall target s,
    xreg (extern target s) sp = xreg s sp
    /\ slot (extern target s) = slot s
    /\ forall a, xreg s sp <= a -> mem (extern target s) a = mem s a.

End Spill.

(** *** Areas of the context record *)

(** The [n] bytes at offset [off] of the record at [base] lie in the
    address space, the offset fits the signed displacement the generator
    computes, and the bytes are outside [lo, hi). *)
Definition area_clear_of (lo hi base off n : Z) : Prop :=
  - 2 ^ 63 <= off /\ off + n < 2 ^ 63
  /\ 0 <= base + off /\ base + off + n <= 2 ^ 64
  /\ (base + off + n <= lo \/ hi <= base + off).

(** *** What an item does besides stepping on *)

Module Effects.

Import Machine.

(** Items that add no event to the trace. *)
Definition silent (i : insn) : bool :=
  match i with
  | block_comment _ | bind _ | mov _ _ | mov_imm _ _ | add_imm _ _ _
  | sub_imm _ _ _ | sub _ _ _ | andr _ _ _ | lsr _ _ _ | ubfx _ _ _ _
  | sbfx _ _ _ _ | c2bool _ | lea _ _ | cmpw _ _ | ldr _ _ | ldrw _ _
  | ldrb _ _ | ldrq _ _ | leave | verify_sve_vector_length _ => true
  | shuffle_move src dst => is_valid src && is_valid dst
  | _ => false
  end.

(** Items that call nothing. *)
Definition no_call (i : insn) : bool :=
  match i with
  | blr _ | rt_call _ _ => false
  | _ => true
  end.

Definition address_keeps (r : Register) (a : Address) : bool :=
  match a with
  | pre base _ | post base _ => negb (Register_eqb base r)
  | _ => true
  end.

(** Items that do not write the general register [r] themselves (a call
    leaves it to the callee). *)
Definition keeps_reg (r : Register) (i : insn) : bool :=
  match i with
  | mov rd _ | mov_imm rd _ | add_imm rd _ _ | sub_imm rd _ _ | sub rd _ _
  | andr rd _ _ | lsr rd _ _ | ubfx rd _ _ _ | sbfx rd _ _ _ | c2bool rd =>
      negb (Register_eqb rd r)
  | lea rd a | ldr rd a | ldrw rd a | ldrb rd a =>
      negb (Register_eqb rd r) && address_keeps r a
  | str _ a | strw _ a | strq _ a | ldrq _ a => address_keeps r a
  | set_last_Java_frame _ _ _ scratch => negb (Register_eqb scratch r)
  | safepoint_poll _ _ _ _ tmp => negb (Register_eqb tmp r)
  | rt_call _ tmp => negb (Register_eqb tmp r)
  | enter => negb (Register_eqb sp r) && negb (Register_eqb rfp r)
  | leave =>
      negb (Register_eqb sp r) && negb (Register_eqb rfp r)
      && negb (Register_eqb lr r)
  | shuffle_move _ dst => negb (VMReg_eqb dst (VMReg_Register r))
  | _ => true
  end.

(** Items whose only events are plain stores. *)
Definition store_item (i : insn) : bool :=
  match i with
  | str _ _ | strw _ _ | strq _ _ | enter => true
  | _ => silent i
  end.

(** A store without release ordering. *)
Definition plain_store (e : event) : bool :=
  match e with
  | Ev_store _ _ _ release => negb release
  | _ => false
  end.

(** Every called function returns with the register [r] as it found it. *)
Definition extern_keeps (extern : Z -> mstate -> mstate) (r : Register) : Prop :=
  forall target s, xreg (extern target s) r = xreg s r.

End Effects.

(** The events of the spill code run in state [s]: one plain store per
    register among the return locations, in order, into the region that
    starts [off] bytes above the stack pointer. *)
Fixpoint spill_events (s : Machine.mstate) (off : Z) (regs : list VMReg)
    : list Machine.event :=
  match regs with
  | [] => []
  | reg :: regs' =>
      match reg with
      | VMReg_Register r =>
          [Machine.Ev_store (wrap64 (Machine.xreg s sp + off)) 8
             (Machine.xreg s r) false]
      | VMReg_FloatRegister f =>
          [Machine.Ev_store (wrap64 (Machine.xreg s sp + off)) 16
             (Machine.vreg s f) false]
      | _ => []
      end
      ++ spill_events s (off + RegSpiller.pd_reg_size reg) regs'
  end.

(** Nothing on the way writes the frame pointer: the called functions
    return with it, no move of the shuffle targets it, and it is no return
    location. *)
Definition frame_pointer_kept (extern : Z -> Machine.mstate -> Machine.mstate)
    (moves : list Shuffle.Move) (outs : list VMReg) : Prop :=
  Effects.extern_keeps extern rfp
  /\ (forall m, In m moves -> snd m <> VMReg_Register rfp)
  /\ ~ In (VMReg_Register rfp) outs.

(** The return locations hold in [s] what they held in [s0], and the stack
    pointer is where it was. *)
Definition results_kept (outs : list VMReg) (s0 s : Machine.mstate) : Prop :=
  (forall reg, In reg outs -> Machine.get_loc s reg = Machine.get_loc s0 reg)
  /\ Machine.xreg s sp = Machine.xreg s0 sp.

(** The thread-state word, the suspend-flags word and the stack-guard byte
    of the thread at [thr] lie in the address space, and the state word
    overlaps neither of the other two. *)
Definition thread_fields_apart `{Runtime} (thr : Z) : Prop :=
  0 <= thr + thread_state_offset /\ thr + thread_state_offset + 4 <= 2 ^ 64
  /\ 0 <= thr + suspend_flags_offset /\ thr + suspend_flags_offset + 4 <= 2 ^ 64
  /\ 0 <= thr + stack_guard_state_offset
  /\ thr + stack_guard_state_offset + 1 <= 2 ^ 64
  /\ (thread_state_offset + 4 <= suspend_flags_offset
      \/ suspend_flags_offset + 4 <= thread_state_offset)
  /\ (thread_state_offset + 4 <= stack_guard_state_offset
      \/ stack_guard_state_offset + 1 <= thread_state_offset).

(** Nothing on the way writes the general register [r]: the called
    functions return with it, no move of the shuffle targets it, and it is
    no return location. *)
Definition register_kept (extern : Z -> Machine.mstate -> Machine.mstate)
    (moves : list Shuffle.Move) (outs : list VMReg) (r : Register) : Prop :=
  Effects.extern_keeps extern r
  /\ (forall m, In m moves -> snd m <> VMReg_Register r)
  /\ ~ In (VMReg_Register r) outs.

(** * Properties *)

(** ** The assembler monad *)

Lemma for_each_emit {A} (f : Z -> A -> insn) (l : list A) :
  forall i c, for_each i l (fun i a => emit (f i a)) c = Some (tt, c ++ mapi f i l).
Proof.
  induction l as [|a l IH]; intros i c; simpl.
  - unfold pure. now rewrite app_nil_r.
  - unfold bnd, emit at 1. rewrite IH. now rewrite <- app_assoc.
Qed.

Lemma for_each_emit_unfolded {A} (f : Z -> A -> insn) (l : list A) i c :
  for_each i l (fun i a c => Some (tt, c ++ [f i a])) c = Some (tt, c ++ mapi f i l).
Proof. exact (for_each_emit f l i c). Qed.

(** ** Equality tests *)

Lemma Register_eqb_eq a b : Register_eqb a b = true <-> a = b.
Proof.
  destruct a as [n], b as [m]; simpl. rewrite Nat.eqb_eq.
  split; [intros ->; reflexivity | intros E; now inversion E].
Qed.

Lemma FloatRegister_eqb_eq a b : FloatRegister_eqb a b = true <-> a = b.
Proof.
  destruct a as [n], b as [m]; simpl. rewrite Nat.eqb_eq.
  split; [intros ->; reflexivity | intros E; now inversion E].
Qed.

Lemma VMReg_eqb_eq a b : VMReg_eqb a b = true <-> a = b.
Proof.
  destruct a, b; simpl; try (split; [discriminate | intros E; discriminate E]);
    try tauto.
  - rewrite Register_eqb_eq. split; [now intros -> | intros E; now inversion E].
  - rewrite FloatRegister_eqb_eq. split; [now intros -> | intros E; now inversion E].
  - rewrite Z.eqb_eq. split; [now intros -> | intros E; now inversion E].
Qed.

Lemma VMReg_eqb_refl a : VMReg_eqb a a = true.
Proof. now apply VMReg_eqb_eq. Qed.

Lemma VMReg_eqb_neq a b : VMReg_eqb a b = false <-> a <> b.
Proof.
  rewrite <- VMReg_eqb_eq. destruct (VMReg_eqb a b); split; congruence.
Qed.

Lemma Register_eqb_refl a : Register_eqb a a = true.
Proof. now apply Register_eqb_eq. Qed.

Lemma Register_eqb_neq a b : Register_eqb a b = false <-> a <> b.
Proof.
  rewrite <- Register_eqb_eq. destruct (Register_eqb a b); split; congruence.
Qed.

(** ** The shuffle planner *)

Module ShuffleFacts.

Import Shuffle.

Lemma upd_same e l v : upd e l v l = v.
Proof. unfold upd. now rewrite VMReg_eqb_refl. Qed.

Lemma upd_other e l v x : x <> l -> upd e l v x = e x.
Proof. unfold upd. intros N. apply VMReg_eqb_neq in N. now rewrite N. Qed.

Lemma extract_some f l m r :
  extract f l = Some (m, r) ->
  f m = true /\ exists l1 l2, l = l1 ++ m :: l2 /\ r = l1 ++ l2.
Proof.
  revert m r. induction l as [|a l IH]; intros m r; simpl; [discriminate|].
  destruct (f a) eqn:Fa.
  - intros E; inversion E; subst. split; [assumption|]. now exists [], r.
  - destruct (extract f l) as [[x r']|] eqn:E'; [|discriminate].
    intros E; inversion E; subst.
    destruct (IH _ _ eq_refl) as (Fm & l1 & l2 & -> & ->).
    split; [assumption|]. now exists (a :: l1), l2.
Qed.

Lemma extract_none f l :
  extract f l = None -> forall m, In m l -> f m = false.
Proof.
  induction l as [|a l IH]; simpl; [contradiction|].
  destruct (f a) eqn:Fa; [discriminate|].
  destruct (extract f l) as [[x r']|]; [discriminate|].
  intros _ m [<-|Hm]; [assumption | now apply IH].
Qed.

Lemma is_free_spec P m :
  is_free P m = true -> forall s d, In (s, d) P -> s <> move_dst m.
Proof.
  unfold is_free. rewrite forallb_forall. intros F s d Hin.
  specialize (F _ Hin). simpl in F. apply negb_true_iff in F.
  now apply VMReg_eqb_neq in F.
Qed.

Lemma not_free_spec P m :
  is_free P m = false -> In (move_dst m) (srcs_of P).
Proof.
  unfold is_free, srcs_of. induction P as [|a P IH]; simpl; [discriminate|].
  destruct (VMReg_eqb (move_src a) (move_dst m)) eqn:E; simpl.
  - intros _. left. now apply VMReg_eqb_eq in E.
  - intros F. right. now apply IH.
Qed.

Lemma scratch_pending_spec scratch P :
  existsb (fun m' => VMReg_eqb (move_src m') scratch) P = false ->
  forall s d, In (s, d) P -> s <> scratch.
Proof.
  intros E s d Hin ->.
  assert (X : existsb (fun m' => VMReg_eqb (move_src m') scratch) P = true).
  { apply existsb_exists. exists (scratch, d). split; [assumption|].
    apply VMReg_eqb_refl. }
  congruence.
Qed.

(** When every pending move conflicts, the sources are among the
    destinations: the pending moves are made of cycles only. *)
Lemma blocked_sources P :
  NoDup (dsts_of P) ->
  extract (is_free P) P = None ->
  incl (srcs_of P) (dsts_of P).
Proof.
  intros ND E. apply NoDup_length_incl; [assumption | |].
  - unfold srcs_of, dsts_of. now rewrite !length_map.
  - intros d Hd. unfold dsts_of in Hd. apply in_map_iff in Hd.
    destruct Hd as (m & <- & Hm).
    apply (not_free_spec P m). now apply (extract_none _ _ E).
Qed.

Lemma blocked_scratch_unused scratch P :
  NoDup (dsts_of P) -> ~ In scratch (dsts_of P) ->
  extract (is_free P) P = None ->
  existsb (fun m' => VMReg_eqb (move_src m') scratch) P = false.
Proof.
  intros ND NS E.
  destruct (existsb _ P) eqn:X; [|reflexivity]. exfalso.
  apply existsb_exists in X. destruct X as (m & Hm & Em).
  apply VMReg_eqb_eq in Em. apply NS, (blocked_sources P ND E).
  unfold srcs_of. apply in_map_iff. now exists m.
Qed.

Lemma dsts_remove l1 (m : Move) l2 :
  NoDup (dsts_of (l1 ++ m :: l2)) ->
  NoDup (dsts_of (l1 ++ l2)) /\ ~ In (snd m) (dsts_of (l1 ++ l2)).
Proof.
  unfold dsts_of. rewrite !map_app. simpl. apply NoDup_remove.
Qed.

Lemma plan_nil scratch fuel : plan scratch (S fuel) [] = Some [].
Proof. reflexivity. Qed.

Lemma plan_cons scratch fuel s d rest :
  plan scratch (S fuel) ((s, d) :: rest) =
  match extract (is_free ((s, d) :: rest)) ((s, d) :: rest) with
  | Some (m, pending') => option_map (cons m) (plan scratch fuel pending')
  | None =>
      if existsb (fun m' => VMReg_eqb (move_src m') scratch) ((s, d) :: rest)
      then None
      else option_map (cons (s, scratch)) (plan scratch fuel ((scratch, d) :: rest))
  end.
Proof. reflexivity. Qed.

(** The program computed for pending moves [P] realises them as one
    simultaneous assignment, and only the scratch location is disturbed. *)
Lemma plan_correct scratch :
  forall fuel P prog,
    plan scratch fuel P = Some prog ->
    NoDup (dsts_of P) -> ~ In scratch (dsts_of P) ->
    forall e,
      (forall s d, In (s, d) P -> exec_moves prog e d = e s)
      /\ (forall l, ~ In l (dsts_of P) -> l <> scratch -> exec_moves prog e l = e l).
Proof.
  induction fuel as [|fuel IH]; intros P prog Hp ND NS e; [discriminate|].
  destruct P as [|[s0 d0] rest].
  { inversion Hp; subst. simpl. split; [contradiction | reflexivity]. }
  rewrite plan_cons in Hp.
  destruct (extract (is_free ((s0, d0) :: rest)) ((s0, d0) :: rest))
    as [[m P']|] eqn:Ex.
  - destruct (plan scratch fuel P') as [prog'|] eqn:Hp'; simpl in Hp; [|discriminate].
    inversion Hp; subst prog; clear Hp.
    destruct (extract_some _ _ _ _ Ex) as (Fm & l1 & l2 & EP & ->).
    rewrite EP in *. clear EP Ex.
    destruct (dsts_remove _ _ _ ND) as (ND' & Nm).
    assert (NS' : ~ In scratch (dsts_of (l1 ++ l2))).
    { intros X. apply NS. unfold dsts_of in *. rewrite map_app in *.
      apply in_app_iff in X. apply in_app_iff. simpl. tauto. }
    destruct m as [ms md]. simpl in Nm.
    assert (Dm : md <> scratch).
    { intros ->. apply NS. unfold dsts_of. rewrite map_app. apply in_app_iff.
      right. now left. }
    pose proof (is_free_spec _ _ Fm) as Free. simpl in Free.
    destruct (IH _ _ Hp' ND' NS' (exec_move e (ms, md))) as (A & B).
    simpl. split.
    + intros s d Hin. apply in_app_iff in Hin. simpl in Hin.
      assert (Hcase : (s, d) = (ms, md) \/ In (s, d) (l1 ++ l2)).
      { rewrite in_app_iff. destruct Hin as [|[|]]; auto. }
      destruct Hcase as [E|Hin'].
      * inversion E; subst. rewrite (B md Nm Dm). unfold exec_move. simpl.
        apply upd_same.
      * rewrite (A _ _ Hin'). unfold exec_move. simpl. apply upd_other.
        apply (Free s d). apply in_app_iff. simpl.
        apply in_app_iff in Hin'. tauto.
    + intros l Nl Ls.
      assert (Nl' : ~ In l (dsts_of (l1 ++ l2))).
      { intros X. apply Nl. unfold dsts_of in *. rewrite map_app in *.
        apply in_app_iff in X. apply in_app_iff. simpl. tauto. }
      rewrite (B l Nl' Ls). unfold exec_move. simpl. apply upd_other.
      intros ->. apply Nl. unfold dsts_of. rewrite map_app. apply in_app_iff.
      right. now left.
  - destruct (existsb _ ((s0, d0) :: rest)) eqn:Sc; [discriminate|].
    destruct (plan scratch fuel ((scratch, d0) :: rest)) as [prog'|] eqn:Hp';
      simpl in Hp; [|discriminate].
    inversion Hp; subst prog; clear Hp.
    pose proof (scratch_pending_spec _ _ Sc) as NoSc.
    destruct (IH _ _ Hp' ND NS (exec_move e (s0, scratch))) as (A & B).
    simpl. split.
    + intros s d [E|Hin].
      * inversion E; subst. rewrite (A scratch d (or_introl eq_refl)).
        unfold exec_move. simpl. apply upd_same.
      * rewrite (A s d (or_intror Hin)). unfold exec_move. simpl.
        apply upd_other. apply (NoSc s d). now right.
    + intros l Nl Ls. rewrite (B l Nl Ls). unfold exec_move. simpl.
      now apply upd_other.
Qed.

(** With fuel above twice the number of pending moves the planner returns
    a program: a blocked state never finds the scratch location in use. *)
Lemma plan_succeeds scratch :
  forall fuel P,
    NoDup (dsts_of P) -> ~ In scratch (dsts_of P) ->
    (2 * length P < fuel
       + (if existsb (fun m' => VMReg_eqb (move_src m') scratch) P then 1 else 0))%nat ->
    exists prog, plan scratch fuel P = Some prog.
Proof.
  induction fuel as [|fuel IH]; intros P ND NS Hf.
  - destruct P; simpl in Hf; [lia|]. destruct (_ || _); lia.
  - destruct P as [|[s0 d0] rest]; [now exists []|].
    rewrite plan_cons.
    destruct (extract (is_free ((s0, d0) :: rest)) ((s0, d0) :: rest))
      as [[m P']|] eqn:Ex.
    + destruct (extract_some _ _ _ _ Ex) as (_ & l1 & l2 & EP & ->).
      assert (L : length ((s0, d0) :: rest) = S (length (l1 ++ l2))).
      { rewrite EP, !length_app. simpl. lia. }
      rewrite EP in ND, NS.
      destruct (dsts_remove _ _ _ ND) as (ND' & _).
      assert (NS' : ~ In scratch (dsts_of (l1 ++ l2))).
      { intros X. apply NS. unfold dsts_of in *. rewrite map_app in *.
        apply in_app_iff in X. apply in_app_iff. simpl. tauto. }
      destruct (IH (l1 ++ l2) ND' NS') as (prog & ->).
      * rewrite L in Hf.
        destruct (existsb _ ((s0, d0) :: rest)); destruct (existsb _ (l1 ++ l2)); lia.
      * now eexists.
    + rewrite (blocked_scratch_unused scratch _ ND NS Ex).
      rewrite (blocked_scratch_unused scratch _ ND NS Ex) in Hf.
      destruct (IH ((scratch, d0) :: rest) ND NS) as (prog & ->).
      * simpl. unfold move_src at 1. simpl. rewrite VMReg_eqb_refl. simpl.
        simpl in Hf. lia.
      * now eexists.
Qed.

Lemma plan_valid scratch :
  is_valid scratch = true ->
  forall fuel P prog,
    plan scratch fuel P = Some prog ->
    (forall m, In m P -> is_valid (fst m) = true /\ is_valid (snd m) = true) ->
    forall m, In m prog -> is_valid (fst m) = true /\ is_valid (snd m) = true.
Proof.
  intros Vs. induction fuel as [|fuel IH]; intros P prog Hp VP; [discriminate|].
  destruct P as [|[s0 d0] rest].
  { inversion Hp; subst. contradiction. }
  rewrite plan_cons in Hp.
  destruct (extract (is_free ((s0, d0) :: rest)) ((s0, d0) :: rest))
    as [[m P']|] eqn:Ex.
  - destruct (plan scratch fuel P') as [prog'|] eqn:Hp'; simpl in Hp; [|discriminate].
    inversion Hp; subst prog; clear Hp.
    destruct (extract_some _ _ _ _ Ex) as (_ & l1 & l2 & EP & ->).
    intros x [<-|Hx].
    + apply VP. rewrite EP. apply in_app_iff. right. now left.
    + apply (IH _ _ Hp'); [|assumption].
      intros y Hy. apply VP. rewrite EP. apply in_app_iff.
      apply in_app_iff in Hy. simpl. tauto.
  - destruct (existsb _ ((s0, d0) :: rest)); [discriminate|].
    destruct (plan scratch fuel ((scratch, d0) :: rest)) as [prog'|] eqn:Hp';
      simpl in Hp; [|discriminate].
    inversion Hp; subst prog; clear Hp.
    intros x [<-|Hx].
    + simpl. split; [|assumption]. apply (VP (s0, d0)). now left.
    + apply (IH _ _ Hp'); [|assumption].
      intros y [<-|Hy].
      * simpl. split; [assumption|]. apply (VP (s0, d0)). now left.
      * apply VP. now right.
Qed.

End ShuffleFacts.

Module PlannerFacts.

Import Shuffle ShuffleFacts.

Lemma dsts_of_filter_NoDup (keep : Move -> bool) (P : list Move) :
  NoDup (dsts_of P) -> NoDup (dsts_of (filter keep P)).
Proof.
  unfold dsts_of. induction P as [|m P IH]; simpl; intros ND; [constructor|].
  inversion ND as [|x xs Nx ND']; subst.
  destruct (keep m); [|now apply IH].
  simpl. constructor; [|now apply IH].
  intros X. apply Nx. apply in_map_iff in X. destruct X as (y & E & Hy).
  apply in_map_iff. exists y. split; [assumption|].
  apply filter_In in Hy. tauto.
Qed.

Lemma NoDup_snd_functional {A B} (l : list (A * B)) a1 a2 d :
  NoDup (map snd l) -> In (a1, d) l -> In (a2, d) l -> a1 = a2.
Proof.
  induction l as [|[x y] l IH]; simpl; intros ND H1 H2; [contradiction|].
  inversion ND as [|? ? Ny ND']; subst.
  destruct H1 as [E1|H1], H2 as [E2|H2].
  - congruence.
  - inversion E1; subst. exfalso. apply Ny. apply in_map_iff. now exists (a2, d).
  - inversion E2; subst. exfalso. apply Ny. apply in_map_iff. now exists (a1, d).
  - now apply IH.
Qed.

Lemma pending_moves_filter srcs dsts :
  pending_moves srcs dsts =
  filter (fun m => negb (VMReg_eqb (fst m) (snd m))) (valid_pairs srcs dsts).
Proof.
  unfold pending_moves, valid_pairs, move_src, move_dst.
  induction (combine srcs dsts) as [|[s d] l IH]; simpl; [reflexivity|].
  destruct (is_valid s && is_valid d); simpl.
  - destruct (negb (VMReg_eqb s d)); now rewrite IH.
  - assumption.
Qed.

Lemma in_pending srcs dsts s d :
  In (s, d) (pending_moves srcs dsts) <->
  In (s, d) (valid_pairs srcs dsts) /\ s <> d.
Proof.
  rewrite pending_moves_filter, filter_In. simpl.
  rewrite negb_true_iff, VMReg_eqb_neq. tauto.
Qed.

Lemma in_valid_pairs srcs dsts s d :
  In (s, d) (valid_pairs srcs dsts) <->
  In (s, d) (combine srcs dsts) /\ is_valid s = true /\ is_valid d = true.
Proof.
  unfold valid_pairs. rewrite filter_In. simpl. rewrite andb_true_iff. tauto.
Qed.

Lemma nth_error_combine {A B} (l1 : list A) :
  forall (l2 : list B) i a c,
    nth_error l1 i = Some a -> nth_error l2 i = Some c ->
    In (a, c) (combine l1 l2).
Proof.
  induction l1 as [|x l1 IH]; intros l2 [|i] a c H1 H2; simpl in *; try discriminate;
    destruct l2 as [|y l2]; simpl in *; try discriminate.
  - inversion H1; inversion H2; subst. now left.
  - right. now apply (IH l2 i).
Qed.

(** The planner, run on a well-formed pair of conventions, returns a move
    program, and the program is a simultaneous assignment of every valid
    argument pair. *)
Lemma compute_move_order_correct scratch srcs dsts :
  shuffle_wf scratch srcs dsts ->
  exists prog,
    compute_move_order scratch srcs dsts = Some prog
    /\ (forall m, In m prog -> is_valid (fst m) = true /\ is_valid (snd m) = true)
    /\ forall e s d,
         In (s, d) (valid_pairs srcs dsts) -> exec_moves prog e d = e s.
Proof.
  intros (Vs & ND & NSs & NSd). unfold compute_move_order.
  set (P := pending_moves srcs dsts).
  assert (NDP : NoDup (dsts_of P)).
  { unfold P. rewrite pending_moves_filter. now apply dsts_of_filter_NoDup. }
  assert (Sub : forall m, In m P -> In m (valid_pairs srcs dsts)).
  { intros [s d] Hm. now apply in_pending in Hm. }
  assert (NSP : ~ In scratch (dsts_of P)).
  { intros X. apply NSd. unfold dsts_of in *. apply in_map_iff in X.
    destruct X as (m & E & Hm). apply in_map_iff. exists m. auto. }
  assert (NSS : existsb (fun m' => VMReg_eqb (move_src m') scratch) P = false).
  { destruct (existsb _ P) eqn:X; [|reflexivity]. exfalso.
    apply existsb_exists in X. destruct X as (m & Hm & Em).
    apply VMReg_eqb_eq in Em. apply NSs. unfold srcs_of. apply in_map_iff.
    exists m. auto. }
  destruct (plan_succeeds scratch (2 * length P + 1) P NDP NSP) as (prog & Hprog).
  { rewrite NSS. lia. }
  exists prog. split; [assumption|]. split.
  - apply (plan_valid scratch Vs _ _ _ Hprog).
    intros [s d] Hm. apply Sub, in_valid_pairs in Hm. simpl. tauto.
  - intros e s d Hin.
    destruct (plan_correct scratch _ _ _ Hprog NDP NSP e) as (A & B).
    destruct (VMReg_eqb s d) eqn:E.
    + apply VMReg_eqb_eq in E. subst d. apply B.
      * intros X. unfold dsts_of in X. apply in_map_iff in X.
        destruct X as ([s' d'] & E' & Hm). simpl in E'. subst d'.
        apply in_pending in Hm. destruct Hm as (Hv & Ne).
        apply Ne. apply (NoDup_snd_functional _ _ _ _ ND Hv Hin).
      * intros ->. apply NSs. unfold srcs_of. apply in_map_iff.
        now exists (scratch, scratch).
    + apply A. apply in_pending. split; [assumption|]. now apply VMReg_eqb_neq.
Qed.

End PlannerFacts.

(** ** Shape of the downcall stub *)

Module DowncallShape.

Import NativeInvoker Downcall.

Section Shape.

Context `{Runtime}.

Lemma unpack_native_result_code bt c :
  unpack_native_result bt c = option_map (fun u => (tt, c ++ u)) (unpack_code bt).
Proof.
  destruct bt; unfold unpack_code, unpack_native_result, emit, pure, ShouldNotReachHere;
    simpl; try reflexivity; now rewrite app_nil_r.
Qed.

Lemma Some_pair_inj {A B} (a c : A) (b d : B) :
  Some (a, b) = Some (c, d) -> a = c /\ b = d.
Proof. intros E. now inversion E. Qed.

(** A successful generation passed every assertion, and its code and
    results are the ones below. *)
Lemma generate_inv g r code :
  Masm.run (generate g) = Some (r, code) ->
  exists a unpack,
    the_shuffle g = Some a
    /\ unpack_code (_ret_bt g) = Some unpack
    /\ target_uses_register g (as_VMReg r9) = false
    /\ target_uses_register g (as_VMReg r10) = false
    /\ target_uses_register g (as_VMReg rthread) = false
    /\ NativeInvoker._shadow_space_bytes g = 0
    /\ code = downcall_code (insts_begin (_buffer g)) (computed_framesize g a)
                (Shuffle._moves a) unpack (_output_registers g)
    /\ r = {| _frame_complete := code_size (seg_prologue (computed_framesize g a));
              _framesize := computed_framesize g a;
              _oop_maps :=
                [(code_size (seg_prologue (computed_framesize g a)),
                  new_OopMap (computed_framesize g a) 0)] |}.
Proof.
  unfold Masm.run, generate.
  unfold bnd at 1. unfold assert at 1.
  destruct (negb (target_uses_register g (as_VMReg r9))) eqn:A1; [|discriminate].
  unfold bnd at 1. unfold assert at 1.
  destruct (negb (target_uses_register g (as_VMReg r10))) eqn:A2; [|discriminate].
  unfold bnd at 1. unfold assert at 1.
  destruct (negb (target_uses_register g (as_VMReg rthread))) eqn:A3; [|discriminate].
  unfold bnd at 1. unfold lift at 1.
  fold (the_shuffle g).
  destruct (the_shuffle g) as [a|] eqn:Sh; [|discriminate].
  unfold bnd at 1. unfold assert at 1.
  destruct (NativeInvoker._shadow_space_bytes g =? 0) eqn:A4; [|discriminate].
  fold (computed_framesize g a).
  unfold bnd at 1. unfold assert at 1.
  destruct (is_even (Z.quot (computed_framesize g a) 2)) eqn:A5; [|discriminate].
  unfold Shuffle.generate, RegSpiller.generate_spill, RegSpiller.generate_fill.
  unfold bnd, emit, pc, emit_all, pure, assert.
  cbv beta iota.
  rewrite unpack_native_result_code.
  destruct (unpack_code (_ret_bt g)) as [unpack|] eqn:U; [|discriminate].
  cbv beta iota delta [option_map].
  destruct (arg_reg_save_area_bytes =? 0) eqn:A6; [|discriminate].
  intros E. apply Some_pair_inj in E. destruct E as (<- & <-).
  exists a, unpack.
  apply negb_true_iff in A1, A2, A3. apply Z.eqb_eq in A4.
  split; [reflexivity|]. split; [reflexivity|].
  split; [assumption|]. split; [assumption|]. split; [assumption|].
  split; [assumption|]. split.
  - unfold downcall_code, seg_to_native, seg_shuffle, seg_poll, seg_to_java,
      seg_epilogue, seg_slow_paths, seg_poll_slow_body, seg_reguard_body, seg_moves,
      seg_prologue.
    cbn [RegSpiller._regs RegSpiller.new].
    repeat (progress (rewrite <- ?app_assoc; cbn [app])). reflexivity.
  - unfold seg_prologue, add_gc_map, code_size. cbn [app fold_right]. f_equal.
    + lia.
    + f_equal. f_equal. lia.
Qed.

End Shape.

End DowncallShape.

(** ** Integer facts *)

Lemma align_up_pow2 x k :
  0 <= k -> align_up x (2 ^ k) = 2 ^ k * ((x + (2 ^ k - 1)) / 2 ^ k).
Proof.
  intros Hk. unfold align_up.
  replace (2 ^ k - 1) with (Z.ones k) by (rewrite Z.ones_equiv; lia).
  rewrite <- Z.ldiff_land, Z.ldiff_ones_r by assumption.
  rewrite Z.shiftl_mul_pow2, Z.shiftr_div_pow2 by assumption. lia.
Qed.

Lemma align_up_4 x : align_up x 4 = 4 * ((x + 3) / 4).
Proof. apply (align_up_pow2 x 2). lia. Qed.

Lemma int32_small x : - 2 ^ 31 <= x < 2 ^ 31 -> int32 x = x.
Proof. intros Hx. unfold int32. rewrite Z.mod_small; lia. Qed.

Lemma int32_mod4 x : int32 (4 * x) mod 4 = 0.
Proof.
  unfold int32.
  pose proof (Z.div_mod (4 * x + 2 ^ 31) (2 ^ 32) ltac:(lia)) as E.
  replace ((4 * x + 2 ^ 31) mod 2 ^ 32 - 2 ^ 31)
    with (4 * (x - 2 ^ 30 * ((4 * x + 2 ^ 31) / 2 ^ 32))) by lia.
  now rewrite Z.mul_comm, Z.mod_mul.
Qed.

Lemma is_even_quot2 x : x mod 4 = 0 -> is_even (Z.quot x 2) = true.
Proof.
  intros Hx. unfold is_even. apply Z.eqb_eq.
  apply Z.mod_divide in Hx; [|lia]. destruct Hx as (q & ->).
  replace (q * 4) with (2 * q * 2) by lia. rewrite Z.quot_mul by lia.
  change 1 with (Z.ones 1). rewrite Z.land_ones by lia.
  now rewrite Z.mul_comm, Z.mod_mul.
Qed.

Lemma compute_spill_area_nonneg regs : 0 <= RegSpiller.compute_spill_area regs.
Proof.
  unfold RegSpiller.compute_spill_area.
  induction regs as [|r regs IH]; cbn [fold_right]; [lia|].
  destruct r; cbn [RegSpiller.pd_reg_size]; lia.
Qed.

Lemma stack_slots_needed_nonneg dsts : 0 <= Shuffle.stack_slots_needed dsts.
Proof.
  unfold Shuffle.stack_slots_needed.
  induction dsts as [|d dsts IH]; cbn [fold_right]; [lia|]. destruct d; lia.
Qed.

(** ** The downcall generator: construction, frame size, root map *)

Section DowncallGenerator.

Context `{Runtime}.

Import NativeInvoker Downcall DowncallShape.

(** C6: the constructor accepts an output-register list exactly when it is
    empty, has one entry, or has two entries of which the second is the
    invalid handle; every other list (two valid entries, three or more
    entries) is rejected by the construction-time assertion. *)
Theorem C6_multi_register_return_rejected :
  forall buffer signature num_args ret_bt shadow ins outs,
    (exists g, new_NativeInvokerGenerator buffer signature num_args ret_bt
                 shadow ins outs = Some g)
    <-> (outs = [] \/ (exists a, outs = [a]) \/ (exists a, outs = [a; VMReg_Bad])).
Proof.
  intros. unfold new_NativeInvokerGenerator.
  destruct outs as [|a [|b [|c outs]]]; simpl.
  - split; [auto | intros _; eexists; reflexivity].
  - split; [intros _; right; left; now exists a | intros _; eexists; reflexivity].
  - destruct b; simpl.
    + split; [intros (g & E); discriminate E|].
      intros [E|[(x & E)|(x & E)]]; discriminate E.
    + split; [intros (g & E); discriminate E|].
      intros [E|[(x & E)|(x & E)]]; discriminate E.
    + split; [intros (g & E); discriminate E|].
      intros [E|[(x & E)|(x & E)]]; discriminate E.
    + split; [intros _; right; right; now exists a | intros _; eexists; reflexivity].
  - split; [intros (g & E); discriminate E|].
    intros [E|[(x & E)|(x & E)]]; discriminate E.
Qed.


Lemma computed_framesize_mod4 g a : computed_framesize g a mod 4 = 0.
Proof. unfold computed_framesize. rewrite align_up_4. apply int32_mod4. Qed.

Lemma the_shuffle_slots g a :
  the_shuffle g = Some a ->
  Shuffle.out_arg_stack_slots a
  = 4 * ((Shuffle.stack_slots_needed (out_regs g) + 3) / 4).
Proof.
  unfold the_shuffle, Shuffle.new_ArgumentShuffle.
  destruct (Shuffle.compute_move_order _ _ _) as [moves|]; [|discriminate].
  intros E. inversion E; subst a; clear E.
  unfold Shuffle.out_arg_stack_slots, Shuffle.StackAlignmentInSlots.
  cbn [Shuffle._out_arg_stack_slots]. apply align_up_4.
Qed.


Lemma spill_code_no_anchor spill regs :
  forall off, forallb (fun i => negb (is_set_last_Java_frame i))
                (RegSpiller.spill_code spill off regs) = true.
Proof.
  induction regs as [|r regs IH]; intros off; simpl; [reflexivity|].
  rewrite forallb_app, IH, andb_true_r. destruct r, spill; reflexivity.
Qed.

Lemma seg_moves_no_anchor moves :
  forallb (fun i => negb (is_set_last_Java_frame i)) (seg_moves moves) = true.
Proof. induction moves as [|m moves IH]; simpl; auto. Qed.

Lemma unpack_code_no_anchor bt u :
  unpack_code bt = Some u ->
  forallb (fun i => negb (is_set_last_Java_frame i)) u = true.
Proof.
  destruct bt; unfold unpack_code; simpl; intros E; inversion E; reflexivity.
Qed.

(** C10: a generated stub has exactly one garbage-collector map; its key
    is the code offset at which the stub records the last-managed-frame
    program counter (the only [set_last_Java_frame] of the code carries the
    address at that offset), and the map has no entry. *)
Theorem C10_single_empty_oop_map :
  forall g r code,
    Masm.run (generate g) = Some (r, code) ->
    exists off map pre post,
      oop_maps r = [(off, map)]
      /\ oop_entries map = []
      /\ oop_frame_size map = _framesize r
      /\ code = pre ++ set_last_Java_frame sp rfp (insts_begin (_buffer g) + off) r9
                  :: post
      /\ off = code_size pre
      /\ forallb (fun i => negb (is_set_last_Java_frame i)) (pre ++ post) = true.
Proof.
  intros g r code Hrun.
  destruct (generate_inv g r code Hrun)
    as (a & unpack & Sh & U & _ & _ & _ & _ & -> & ->).
  exists (code_size (seg_prologue (computed_framesize g a))),
         (new_OopMap (computed_framesize g a) 0),
         (seg_prologue (computed_framesize g a)).
  eexists.
  split; [reflexivity|]. split; [reflexivity|]. split; [reflexivity|].
  split; [unfold downcall_code, seg_to_native; cbn [app]; reflexivity|].
  split; [reflexivity|].
  unfold seg_shuffle, seg_slow_paths, seg_poll_slow_body, seg_reguard_body,
    seg_prologue, seg_poll, seg_to_java, seg_epilogue.
  repeat (rewrite ?forallb_app;
          cbn [forallb app is_set_last_Java_frame negb andb]).
  rewrite !spill_code_no_anchor, seg_moves_no_anchor, (unpack_code_no_anchor _ _ U).
  reflexivity.
Qed.

End DowncallGenerator.

Lemma C10_single_empty_oop_map_witness :
  exists r code,
    Masm.run (@NativeInvoker.generate Examples.example_runtime Examples.swap_generator)
      = Some (r, code)
    /\ exists off map,
         NativeInvoker.oop_maps r = [(off, map)] /\ oop_entries map = [] /\ off = 12.
Proof.
  eexists. eexists. split; [vm_compute; reflexivity|].
  destruct (@C10_single_empty_oop_map Examples.example_runtime
              Examples.swap_generator _ _ eq_refl)
    as (off & map & pre & post & Hm & He & _).
  exists off, map. split; [assumption|]. split; [assumption|].
  cbv in Hm. now inversion Hm.
Defined.



(** ** Unpacking the native result *)

Lemma sign_extend_range w z :
  0 < w -> - 2 ^ (w - 1) <= sign_extend w z < 2 ^ (w - 1).
Proof.
  intros Hw. unfold sign_extend.
  assert (E : 2 ^ w = 2 * 2 ^ (w - 1)).
  { replace w with (Z.succ (w - 1)) at 1 by lia. apply Z.pow_succ_r. lia. }
  assert (0 < 2 ^ (w - 1)) by (apply Z.pow_pos_nonneg; lia).
  pose proof (Z.mod_pos_bound z (2 ^ w) ltac:(lia)).
  cbv zeta. destruct (z mod 2 ^ w <? 2 ^ (w - 1)) eqn:L.
  - apply Z.ltb_lt in L. lia.
  - apply Z.ltb_ge in L. lia.
Qed.

Lemma sign_extend_mod w z :
  0 < w -> sign_extend w z mod 2 ^ w = z mod 2 ^ w.
Proof.
  intros Hw. unfold sign_extend. cbv zeta.
  assert (0 < 2 ^ w) by (apply Z.pow_pos_nonneg; lia).
  destruct (z mod 2 ^ w <? 2 ^ (w - 1)).
  - apply Z.mod_mod. lia.
  - replace (z mod 2 ^ w - 2 ^ w) with (z mod 2 ^ w + (-1) * 2 ^ w) by lia.
    rewrite Z.mod_add by lia. apply Z.mod_mod. lia.
Qed.

Lemma int64_wrap64 y : - 2 ^ 63 <= y < 2 ^ 63 -> int64 (wrap64 y) = y.
Proof.
  intros Hy. unfold int64, wrap64.
  rewrite Zplus_mod_idemp_l. rewrite Z.mod_small; lia.
Qed.

Lemma wrap64_range y : 0 <= wrap64 y < 2 ^ 64.
Proof. unfold wrap64. apply Z.mod_pos_bound. lia. Qed.

Lemma sign_extend_adjusted w x :
  0 < w <= 64 ->
  adjusted (Sign_extend w) x (wrap64 (sign_extend w (Z.shiftr x 0))).
Proof.
  intros Hw. rewrite Z.shiftr_0_r. simpl.
  pose proof (sign_extend_range w x ltac:(lia)) as R.
  assert (2 ^ (w - 1) <= 2 ^ 63) by (apply Z.pow_le_mono_r; lia).
  split; [apply wrap64_range|].
  rewrite int64_wrap64 by lia. split; [assumption|].
  apply sign_extend_mod. lia.
Qed.

Section Unpack.

Context `{Runtime}.

Variable extern : Z -> Machine.mstate -> Machine.mstate.

Import NativeInvoker Downcall DowncallShape Machine.

(** The items the switch on the return type emits, run from any state:
    they adjust the result register r0 as the type declares and touch
    nothing else. *)
Lemma unpack_adjusts bt u :
  unpack_code bt = Some u ->
  (forall c, unpack_native_result bt c = Some (tt, c ++ u))
  /\ forall P rest s,
       exists s',
         run extern (length u) P (u ++ rest) s = Next rest s'
         /\ adjusted (declared_adjustment bt) (xreg s r0) (xreg s' r0)
         /\ (forall r, r <> r0 -> xreg s' r = xreg s r)
         /\ vreg s' = vreg s
         /\ mem s' = mem s
         /\ trace s' = trace s.
Proof.
  assert (Other : forall s v r, r <> r0 -> xreg (set_xreg s r0 v) r = xreg s r).
  { intros s v r N. simpl. apply Register_eqb_neq in N. now rewrite N. }
  assert (Same : forall s v, xreg (set_xreg s r0 v) r0 = v).
  { intros s v. reflexivity. }
  intros U. split.
  { intros c. rewrite unpack_native_result_code, U. reflexivity. }
  destruct bt; unfold unpack_code in U; cbn in U; try discriminate U;
    inversion U; subst u; clear U; cbn [declared_adjustment]; intros P rest s.
  - (* T_BOOLEAN *)
    eexists. split; [reflexivity|]. rewrite Same.
    split; [|split; [apply Other | repeat split]].
    simpl. change 255 with (Z.ones 8). rewrite Z.land_ones by lia. reflexivity.
  - (* T_CHAR *)
    eexists. split; [reflexivity|]. rewrite Same.
    split; [|split; [apply Other | repeat split]].
    rewrite Z.shiftr_0_r. simpl. split; [apply Z.mod_pos_bound; lia|].
    apply Z.mod_mod. lia.
  - (* T_FLOAT *)
    exists s. repeat split.
  - (* T_DOUBLE *)
    exists s. repeat split.
  - (* T_BYTE *)
    eexists. split; [reflexivity|]. rewrite Same.
    split; [|split; [apply Other | repeat split]].
    apply sign_extend_adjusted. lia.
  - (* T_SHORT *)
    eexists. split; [reflexivity|]. rewrite Same.
    split; [|split; [apply Other | repeat split]].
    apply sign_extend_adjusted. lia.
  - (* T_INT *)
    eexists. split; [reflexivity|]. rewrite Same.
    split; [|split; [apply Other | repeat split]].
    apply sign_extend_adjusted. lia.
  - (* T_LONG *)
    exists s. repeat split.
  - (* T_VOID *)
    exists s. repeat split.
Qed.

(** A return type the switch does not accept aborts generation. *)
Lemma unpack_rejected bt :
  unpack_code bt = None ->
  (forall c, unpack_native_result bt c = None)
  /\ forall g, _ret_bt g = bt -> Masm.run (generate g) = None.
Proof.
  intros U. split.
  - intros c. rewrite unpack_native_result_code, U. reflexivity.
  - intros g E. destruct (Masm.run (generate g)) as [[r code]|] eqn:Hrun;
      [|reflexivity].
    destruct (generate_inv g r code Hrun) as (a & u & _ & U' & _).
    rewrite E in U'. congruence.
Qed.

End Unpack.

(** ** The argument shuffle of the downcall stub *)

Section ShuffleRun.

Context `{Runtime}.

Variable extern : Z -> Machine.mstate -> Machine.mstate.

Import NativeInvoker Downcall DowncallShape Machine Shuffle.

Lemma get_loc_set_loc s d v l :
  is_valid d = true -> get_loc (set_loc s d v) l = upd (get_loc s) d v l.
Proof.
  intros Vd. unfold upd.
  destruct d; try discriminate; destruct l; reflexivity.
Qed.

Lemma exec_moves_ext prog :
  forall e1 e2, (forall l, e1 l = e2 l) ->
                forall l, exec_moves prog e1 l = exec_moves prog e2 l.
Proof.
  induction prog as [|m prog IH]; intros e1 e2 E l; simpl; [apply E|].
  apply IH. intros x. unfold exec_move, upd. rewrite !E. reflexivity.
Qed.

Lemma get_loc_apply_moves moves :
  (forall m, In m moves -> is_valid (fst m) = true /\ is_valid (snd m) = true) ->
  forall s l, get_loc (apply_moves moves s) l = exec_moves moves (get_loc s) l.
Proof.
  induction moves as [|m moves IH]; intros V s l; [reflexivity|].
  simpl. rewrite IH by (intros x Hx; apply V; now right).
  apply exec_moves_ext. intros x. unfold exec_move, move_src, move_dst.
  apply get_loc_set_loc. apply (V m). now left.
Qed.

Lemma run_seg_moves P moves rest :
  (forall m, In m moves -> is_valid (fst m) = true /\ is_valid (snd m) = true) ->
  forall s, run extern (length moves) P (seg_moves moves ++ rest) s
            = Next rest (apply_moves moves s).
Proof.
  induction moves as [|m moves IH]; intros V s; [reflexivity|].
  destruct (V m (or_introl eq_refl)) as (V1 & V2).
  cbn [length seg_moves map app run step]. unfold move_src, move_dst.
  rewrite V1, V2. cbn [andb].
  apply IH. intros x Hx. apply V. now right.
Qed.

(** C1: for conventions that give distinct arguments distinct
    destinations and do not use the shuffle scratch register r19, the
    planner returns a move program; the generated stub runs exactly that
    program between the transition to native state and the call; and
    running it leaves in the destination of every argument the value its
    source held before the first move. *)
Theorem C1_argument_shuffle_simultaneous :
  forall g,
    shuffle_wf (as_VMReg r19) (in_regs g) (out_regs g) ->
    exists a,
      the_shuffle g = Some a
      /\ (forall r code,
            Masm.run (NativeInvoker.generate g) = Some (r, code) ->
            exists pre post,
              code = pre ++ seg_to_native (insts_begin (_buffer g) + code_size pre)
                         ++ block_comment "{ argument shuffle"
                         :: seg_moves (_moves a)
                         ++ block_comment "} argument shuffle" :: blr r9 :: post)
      /\ forall P rest s,
           exists s',
             run extern (length (_moves a)) P (seg_moves (_moves a) ++ rest) s
               = Next rest s'
             /\ forall i src dst,
                  nth_error (in_regs g) i = Some src ->
                  nth_error (out_regs g) i = Some dst ->
                  is_valid src = true -> is_valid dst = true ->
                  get_loc s' dst = get_loc s src.
Proof.
  intros g WF.
  destruct (PlannerFacts.compute_move_order_correct _ _ _ WF)
    as (prog & Hprog & Vprog & Hsim).
  unfold the_shuffle, new_ArgumentShuffle. fold (in_regs g) (out_regs g).
  rewrite Hprog. eexists. split; [reflexivity|]. cbn [_moves]. split.
  - intros r code Hrun.
    destruct (generate_inv g r code Hrun)
      as (a & unpack & Sh & _ & _ & _ & _ & _ & -> & _).
    unfold the_shuffle, new_ArgumentShuffle in Sh.
    fold (in_regs g) (out_regs g) in Sh. rewrite Hprog in Sh.
    inversion Sh; subst a; clear Sh. cbn [_moves].
    exists (seg_prologue
              (computed_framesize g
                 {| _moves := prog;
                    _out_arg_stack_slots :=
                      align_up (stack_slots_needed (out_regs g))
                        StackAlignmentInSlots |})).
    eexists. unfold downcall_code, seg_shuffle.
    repeat (progress (rewrite <- ?app_assoc; cbn [app])). reflexivity.
  - intros P rest s. exists (apply_moves prog s).
    split; [now apply run_seg_moves|].
    intros i src dst Hs Hd Vs Vd.
    rewrite get_loc_apply_moves by assumption.
    apply Hsim. apply PlannerFacts.in_valid_pairs.
    split; [now apply (PlannerFacts.nth_error_combine _ _ i)|]. tauto.
Qed.

End ShuffleRun.

Lemma C1_argument_shuffle_simultaneous_witness :
  shuffle_wf (as_VMReg r19)
    (@Downcall.in_regs Examples.example_runtime Examples.swap_generator)
    (@Downcall.out_regs Examples.example_runtime Examples.swap_generator)
  /\ exists a,
       @Downcall.the_shuffle Examples.example_runtime Examples.swap_generator = Some a
       /\ Shuffle._moves a
          = [(VMReg_Register (X 1), VMReg_Register r19);
             (VMReg_Register (X 2), VMReg_Register (X 1));
             (VMReg_Register r19, VMReg_Register (X 2))].
Proof.
  assert (WF : shuffle_wf (as_VMReg r19)
                 (@Downcall.in_regs Examples.example_runtime Examples.swap_generator)
                 (@Downcall.out_regs Examples.example_runtime Examples.swap_generator)).
  { split; [reflexivity|]. cbv. split; [|split].
    - constructor; [intros [E|[]]; discriminate E|].
      constructor; [intros []|constructor].
    - intros [E|[E|[]]]; discriminate E.
    - intros [E|[E|[]]]; discriminate E. }
  split; [exact WF|].
  destruct (@C1_argument_shuffle_simultaneous Examples.example_runtime
              (fun _ s => s) Examples.swap_generator WF) as (a & Sh & _).
  exists a. split; [exact Sh|].
  cbv in Sh. now inversion Sh.
Defined.

(** ** Shape of the context-buffer adapter *)

Section AdapterShape.

Context `{Runtime}.

Import ProgrammableInvoker Adapter.

Lemma generate_adapter_inv abi layout P :
  generate_adapter abi layout = Some P ->
  Z.rem (_stack_alignment_bytes abi) 16 = 0
  /\ _shadow_space_bytes abi = 0
  /\ P = adapter_code abi layout.
Proof.
  unfold generate_adapter, Masm.run, generate.
  unfold bnd, emit, assert.
  change (assert_different_registers [Rctx; Rstack_size; rscratch1; rscratch2])
    with true. cbv beta iota.
  destruct (Z.rem (_stack_alignment_bytes abi) 16 =? 0) eqn:A1;
    [|discriminate].
  rewrite for_each_emit_unfolded. cbv beta iota.
  rewrite for_each_emit_unfolded. cbv beta iota.
  destruct (_shadow_space_bytes abi =? 0) eqn:A2; [|discriminate].
  rewrite for_each_emit_unfolded. cbv beta iota.
  rewrite for_each_emit_unfolded. cbv beta iota.
  cbn [option_map snd]. intros E.
  apply Z.eqb_eq in A1, A2. split; [assumption|]. split; [assumption|].
  injection E as <-.
  unfold adapter_code, after_copy, seg_store, seg_call, seg_load_integer,
    seg_load_vector, seg_copy_setup, seg_alloc, seg_enter, copy_loop.
  repeat (progress (rewrite <- ?app_assoc; cbn [app])). reflexivity.
Qed.

End AdapterShape.

(** ** Byte memory *)

Module MemFacts.

Import Machine.

Lemma wrap64_small a : 0 <= a < 2 ^ 64 -> wrap64 a = a.
Proof. intros Ha. unfold wrap64. now apply Z.mod_small. Qed.

Lemma length_load_bytes m n : forall a, length (load_bytes m a n) = n.
Proof. induction n as [|n IH]; intros a; simpl; [reflexivity | now rewrite IH]. Qed.

(** A store leaves the bytes outside its range alone. *)
Lemma store_bytes_outside bs :
  forall m a x,
    0 <= a -> a + Z.of_nat (length bs) <= 2 ^ 64 ->
    x < a \/ a + Z.of_nat (length bs) <= x ->
    store_bytes m a bs x = m x.
Proof.
  induction bs as [|b0 bs IH]; intros m a x Ha Hb Hx; [reflexivity|].
  cbn [store_bytes]. cbn [length] in Hb, Hx.
  rewrite IH by lia. rewrite wrap64_small by lia.
  destruct (Z.eqb_spec x a); [lia | reflexivity].
Qed.

Lemma load_store_bytes bs :
  forall m a,
    0 <= a -> a + Z.of_nat (length bs) <= 2 ^ 64 ->
    load_bytes (store_bytes m a bs) a (length bs) = bs.
Proof.
  induction bs as [|b0 bs IH]; intros m a Ha Hb; [reflexivity|].
  cbn [length] in Hb. cbn [length load_bytes store_bytes]. f_equal.
  - rewrite wrap64_small by lia. rewrite store_bytes_outside by lia.
    now rewrite Z.eqb_refl.
  - apply IH; lia.
Qed.

Lemma load_bytes_ext n :
  forall m1 m2 a,
    0 <= a -> a + Z.of_nat n <= 2 ^ 64 ->
    (forall x, a <= x < a + Z.of_nat n -> m1 x = m2 x) ->
    load_bytes m1 a n = load_bytes m2 a n.
Proof.
  induction n as [|n IH]; intros m1 m2 a Ha Hb E; [reflexivity|].
  cbn [load_bytes]. f_equal.
  - rewrite wrap64_small by lia. apply E. lia.
  - apply IH; try lia. intros x Hx. apply E. lia.
Qed.

(** The [j]-th byte of a range that was stored. *)
Lemma store_bytes_inside bs :
  forall m a j d,
    0 <= a -> a + Z.of_nat (length bs) <= 2 ^ 64 ->
    (j < length bs)%nat ->
    store_bytes m a bs (a + Z.of_nat j) = nth j bs d.
Proof.
  induction bs as [|b0 bs IH]; intros m a j d Ha Hb Hj; cbn [length] in *; [lia|].
  cbn [store_bytes]. destruct j as [|j].
  - rewrite store_bytes_outside by lia. rewrite wrap64_small by lia.
    replace (a + Z.of_nat 0) with a by lia. now rewrite Z.eqb_refl.
  - replace (a + Z.of_nat (S j)) with (a + 1 + Z.of_nat j) by lia.
    cbn [nth]. apply IH; lia.
Qed.

Lemma nth_load_bytes n :
  forall m a j d,
    0 <= a -> a + Z.of_nat n <= 2 ^ 64 -> (j < n)%nat ->
    nth j (load_bytes m a n) d = m (a + Z.of_nat j).
Proof.
  induction n as [|n IH]; intros m a j d Ha Hb Hj; [lia|].
  cbn [load_bytes]. destruct j as [|j]; cbn [nth].
  - rewrite wrap64_small by lia. f_equal. lia.
  - rewrite IH by lia. f_equal. lia.
Qed.

(** Storing a word that was just loaded stores the loaded bytes. *)
Lemma split_loaded m a n :
  le_split n (le_combine (load_bytes m a n)) = load_bytes m a n.
Proof.
  rewrite <- (length_load_bytes m n a) at 1. apply split_le_combine.
Qed.

Lemma load_range s a n : 0 <= load s a n < 2 ^ (8 * Z.of_nat n).
Proof.
  unfold load. pose proof (le_combine_bound (load_bytes (mem s) a n)) as B.
  rewrite length_load_bytes in B. exact B.
Qed.

End MemFacts.

(** ** Stack reservation of the adapter *)

Lemma wrap64_idem_sub a b : wrap64 (a - wrap64 b) = wrap64 (a - b).
Proof. unfold wrap64. now rewrite Zminus_mod_idemp_r. Qed.

(** [y & -2^k], on 64 bits, clears the low [k] bits. *)
Lemma land_neg_pow2 y k :
  0 <= y < 2 ^ 64 -> 0 <= k ->
  Z.land y (wrap64 (- 2 ^ k)) = 2 ^ k * (y / 2 ^ k).
Proof.
  intros Hy Hk. unfold wrap64.
  rewrite <- Z.land_ones by lia.
  rewrite Z.land_assoc, (Z.land_comm y), <- Z.land_assoc.
  rewrite (Z.land_ones y 64) by lia. rewrite (Z.mod_small y) by lia.
  replace (- 2 ^ k) with (Z.lnot (Z.ones k))
    by (rewrite Z.ones_equiv; unfold Z.lnot; lia).
  rewrite Z.land_comm, <- Z.ldiff_land, Z.ldiff_ones_r by assumption.
  rewrite Z.shiftl_mul_pow2, Z.shiftr_div_pow2 by assumption. lia.
Qed.

(** The reservation computed by the stub is the byte count rounded up to
    the alignment, modulo the register width. *)
Lemma reserve_round_up spv count k :
  0 <= count < 2 ^ 64 -> 4 <= k <= 30 ->
  wrap64 (spv - Z.land (wrap64 (count + int32 (2 ^ k - 1))) (wrap64 (int32 (- 2 ^ k))))
  = wrap64 (spv - 2 ^ k * ((count + 2 ^ k - 1) / 2 ^ k)).
Proof.
  intros Hc Hk.
  assert (P1 : 2 ^ 4 <= 2 ^ k) by (apply Z.pow_le_mono_r; lia).
  assert (P2 : 2 ^ k <= 2 ^ 30) by (apply Z.pow_le_mono_r; lia).
  rewrite !int32_small by lia.
  rewrite land_neg_pow2 by (try apply wrap64_range; lia).
  assert (E64 : 2 ^ 64 = 2 ^ k * 2 ^ (64 - k)).
  { rewrite <- Z.pow_add_r by lia. f_equal. lia. }
  set (T := count + (2 ^ k - 1)).
  replace (count + 2 ^ k - 1) with T by (unfold T; lia).
  unfold wrap64 at 2.
  pose proof (Z.div_mod T (2 ^ 64) ltac:(lia)) as DM.
  assert (EQ : 2 ^ 64 * (T / 2 ^ 64) = 2 ^ k * 2 ^ (64 - k) * (T / 2 ^ 64))
    by (now rewrite <- E64).
  assert (ET : T mod 2 ^ 64 = T + (- (2 ^ (64 - k) * (T / 2 ^ 64))) * 2 ^ k) by lia.
  rewrite ET, Z.div_add by lia.
  unfold wrap64.
  replace (spv - 2 ^ k * (T / 2 ^ k + - (2 ^ (64 - k) * (T / 2 ^ 64))))
    with (spv - 2 ^ k * (T / 2 ^ k) + (T / 2 ^ 64) * 2 ^ 64) by lia.
  apply Z.mod_add. lia.
Qed.

Section AdapterReserve.

Context `{Runtime}.

Variable extern : Z -> Machine.mstate -> Machine.mstate.

Import ProgrammableInvoker Adapter Machine.

(** C7: at the [allocate_stack] block of a generated adapter, whatever the
    context record, the four items read the declared byte count and lower
    the stack pointer by that count rounded up to the (power of two)
    stack alignment, in 64-bit arithmetic; the copy of the stack arguments
    comes after them. *)
Theorem C7_stack_reservation :
  forall abi layout P k,
    generate_adapter abi layout = Some P ->
    _stack_alignment_bytes abi = 2 ^ k -> 4 <= k <= 30 ->
    let rest := block_comment "load_arguments"
                  :: seg_copy layout ++ after_copy abi layout in
    exists pre,
      P = pre ++ seg_alloc abi layout ++ rest
      /\ forall s,
           let count :=
             load s (wrap64 (xreg s Rctx + int32 (stack_args_bytes layout))) 8 in
           exists s',
             run extern 4 P (seg_alloc abi layout ++ rest) s = Next rest s'
             /\ xreg s' sp
                = wrap64 (xreg s sp - 2 ^ k * ((count + 2 ^ k - 1) / 2 ^ k))
             /\ xreg s' Rstack_size = count
             /\ mem s' = mem s.
Proof.
  intros abi layout P k Hgen HA Hk rest.
  destruct (generate_adapter_inv abi layout P Hgen) as (_ & _ & ->).
  exists seg_enter. split.
  { unfold adapter_code, rest, seg_copy.
    repeat (progress (rewrite <- ?app_assoc; cbn [app])). reflexivity. }
  intros s count. eexists. split; [reflexivity|].
  split; [|split; reflexivity].
  cbn [xreg set_xreg Register_eqb sp rscratch2 r9 Nat.eqb resolve fst snd
       Rstack_size r11 Rctx r10].
  rewrite HA. fold count.
  apply reserve_round_up; [|assumption].
  apply (MemFacts.load_range s _ 8).
Qed.

End AdapterReserve.

Lemma C7_stack_reservation_witness :
  exists P,
    ProgrammableInvoker.generate_adapter
      AdapterExamples.example_abi AdapterExamples.example_layout = Some P
    /\ _stack_alignment_bytes AdapterExamples.example_abi = 2 ^ 4
    /\ 4 <= 4 <= 30
    /\ Machine.load AdapterExamples.alloc_state 4096 8 = 17
    /\ exists s' c,
         Machine.run (H := Examples.example_runtime)
           AdapterExamples.clobbering_callee 4 P
           (Adapter.seg_alloc AdapterExamples.example_abi AdapterExamples.example_layout
              ++ c) AdapterExamples.alloc_state = Machine.Next c s'
         /\ Machine.xreg s' sp = 65504 - 32.
Proof.
  eexists. split; [vm_compute; reflexivity|].
  split; [reflexivity|]. split; [lia|]. split; [vm_compute; reflexivity|].
  destruct (@C7_stack_reservation Examples.example_runtime
              AdapterExamples.clobbering_callee
              AdapterExamples.example_abi AdapterExamples.example_layout
              _ 4 eq_refl eq_refl ltac:(lia))
    as (pre & _ & Hs).
  destruct (Hs AdapterExamples.alloc_state) as (s' & Hr & Hsp & _).
  exists s'. eexists. split; [exact Hr|].
  rewrite Hsp. vm_compute. reflexivity.
Defined.

(** ** The copy loop of the adapter *)

Section CopyLoop.

Context `{Runtime}.

Variable extern : Z -> Machine.mstate -> Machine.mstate.

Import ProgrammableInvoker Adapter Machine MemFacts.

Lemma run_add n :
  forall m P c s,
    run extern (n + m) P c s =
    match run extern n P c s with
    | Next c' s' => run extern m P c' s'
    | o => o
    end.
Proof.
  induction n as [|n IH]; intros m P c s; [reflexivity|].
  cbn [Nat.add run]. destruct c as [|i c]; [reflexivity|].
  destruct (step extern P i c s); [apply IH | reflexivity | reflexivity].
Qed.

Lemma run_next n m P c s c' s' :
  run extern n P c s = Next c' s' ->
  run extern (n + m) P c s = run extern m P c' s'.
Proof. intros E. now rewrite run_add, E. Qed.

Variable P : list insn.
Variable rest : list insn.
Hypothesis Lnext_at : find_label Lnext P = Some (copy_loop ++ bind Ldone :: rest).
Hypothesis Ldone_at : find_label Ldone P = Some rest.

Lemma loop_iter s :
  xreg s Rwords <> 0 ->
  run extern 5 P (copy_loop ++ bind Ldone :: rest) s
  = Next (copy_loop ++ bind Ldone :: rest) (copy_word s).
Proof.
  intros Nz. apply Z.eqb_neq in Nz.
  cbn [run copy_loop app step]. rewrite Nz.
  cbn [step resolve]. unfold goto. rewrite Lnext_at. reflexivity.
Qed.

Lemma loop_exit s :
  xreg s Rwords = 0 ->
  run extern 1 P (copy_loop ++ bind Ldone :: rest) s = Next rest s.
Proof.
  intros Z0. cbn [run copy_loop app step]. rewrite Z0. cbn [Z.eqb].
  unfold goto. now rewrite Ldone_at.
Qed.

Lemma copy_word_Rwords s : xreg (copy_word s) Rwords = wrap64 (xreg s Rwords - 1).
Proof. reflexivity. Qed.

Lemma copy_word_Rsrc s : xreg (copy_word s) Rsrc_ptr = wrap64 (xreg s Rsrc_ptr + 8).
Proof. reflexivity. Qed.

Lemma copy_word_Rdst s : xreg (copy_word s) Rdst_ptr = wrap64 (xreg s Rdst_ptr + 8).
Proof. reflexivity. Qed.

Lemma copy_word_other s r :
  r <> Rwords -> r <> Rtmp -> r <> Rsrc_ptr -> r <> Rdst_ptr ->
  xreg (copy_word s) r = xreg s r.
Proof.
  intros N1 N2 N3 N4. apply Register_eqb_neq in N1, N2, N3, N4.
  unfold copy_word, store, log, set_trace, set_mem.
  cbn [xreg set_xreg]. now rewrite N1, N2, N3, N4.
Qed.

Lemma copy_word_vreg s : vreg (copy_word s) = vreg s.
Proof. reflexivity. Qed.

Lemma copy_word_mem s :
  mem (copy_word s)
  = store_bytes (mem s) (wrap64 (xreg s Rdst_ptr))
      (load_bytes (mem s) (wrap64 (xreg s Rsrc_ptr)) 8).
Proof.
  unfold copy_word, store, log, set_trace, set_mem.
  cbn [mem set_xreg xreg].
  cbn [Register_eqb Rtmp Rdst_ptr Rsrc_ptr r13 r14 r15 Nat.eqb].
  unfold load. cbn [mem]. now rewrite split_loaded.
Qed.

Lemma loop_run :
  forall w s,
    xreg s Rwords = Z.of_nat w -> Z.of_nat w < 2 ^ 64 ->
    run extern (5 * w + 1) P (copy_loop ++ bind Ldone :: rest) s
    = Next rest (copy_words w s).
Proof.
  induction w as [|w IH]; intros s Hw Hb.
  - now apply loop_exit.
  - replace (5 * S w + 1)%nat with (5 + (5 * w + 1))%nat by lia.
    rewrite (run_next _ _ _ _ _ _ _ (loop_iter s ltac:(lia))).
    cbn [copy_words]. apply IH; [|lia].
    rewrite copy_word_Rwords, Hw. rewrite wrap64_small; lia.
Qed.

End CopyLoop.

Section CopyWords.

Import ProgrammableInvoker Adapter Machine MemFacts.

Lemma copy_word_mem_outside s x :
  0 <= xreg s Rdst_ptr -> xreg s Rdst_ptr + 8 <= 2 ^ 64 ->
  x < xreg s Rdst_ptr \/ xreg s Rdst_ptr + 8 <= x ->
  mem (copy_word s) x = mem s x.
Proof.
  intros Hd Hb Hx. rewrite copy_word_mem, wrap64_small by lia.
  apply store_bytes_outside; rewrite ?length_load_bytes; lia.
Qed.

Lemma copy_word_mem_inside s j :
  0 <= xreg s Rdst_ptr -> xreg s Rdst_ptr + 8 <= 2 ^ 64 ->
  0 <= xreg s Rsrc_ptr -> xreg s Rsrc_ptr + 8 <= 2 ^ 64 ->
  0 <= j < 8 ->
  mem (copy_word s) (xreg s Rdst_ptr + j) = mem s (xreg s Rsrc_ptr + j).
Proof.
  intros Hd Hdb Hs Hsb Hj. rewrite copy_word_mem, !wrap64_small by lia.
  replace j with (Z.of_nat (Z.to_nat j)) by lia.
  rewrite (store_bytes_inside _ _ _ _ Byte.x00)
    by (rewrite ?length_load_bytes; lia).
  apply nth_load_bytes; lia.
Qed.

(** What [w] iterations leave alone. *)
Lemma copy_words_frame :
  forall w s dst,
    xreg s Rdst_ptr = dst -> 0 <= dst -> dst + 8 * Z.of_nat w < 2 ^ 64 ->
    (forall x, x < dst \/ dst + 8 * Z.of_nat w <= x ->
               mem (copy_words w s) x = mem s x)
    /\ xreg (copy_words w s) Rdst_ptr = dst + 8 * Z.of_nat w
    /\ (forall r, r <> Rwords -> r <> Rtmp -> r <> Rsrc_ptr -> r <> Rdst_ptr ->
                  xreg (copy_words w s) r = xreg s r)
    /\ vreg (copy_words w s) = vreg s.
Proof.
  induction w as [|w IH]; intros s dst Hd H0 Hb.
  - cbn [copy_words]. repeat split; try reflexivity. lia.
  - cbn [copy_words].
    assert (Hd1 : xreg (copy_word s) Rdst_ptr = dst + 8).
    { rewrite copy_word_Rdst, Hd. apply wrap64_small. lia. }
    destruct (IH (copy_word s) (dst + 8) Hd1 ltac:(lia) ltac:(lia))
      as (M & D & R & V).
    split; [|split; [|split]].
    + intros x Hx. rewrite M by lia. apply copy_word_mem_outside; lia.
    + rewrite D. lia.
    + intros r N1 N2 N3 N4. rewrite R by assumption. now apply copy_word_other.
    + rewrite V. apply copy_word_vreg.
Qed.

(** What [w] iterations copy, when the two blocks do not overlap. *)
Lemma copy_words_copy :
  forall w s src dst,
    xreg s Rsrc_ptr = src -> xreg s Rdst_ptr = dst ->
    0 <= src -> src + 8 * Z.of_nat w < 2 ^ 64 ->
    0 <= dst -> dst + 8 * Z.of_nat w < 2 ^ 64 ->
    src + 8 * Z.of_nat w <= dst \/ dst + 8 * Z.of_nat w <= src ->
    forall j, 0 <= j < 8 * Z.of_nat w ->
              mem (copy_words w s) (dst + j) = mem s (src + j).
Proof.
  induction w as [|w IH]; intros s src dst Hs Hd Hs0 Hsb Hd0 Hdb Dis j Hj; [lia|].
  cbn [copy_words].
  assert (Hs1 : xreg (copy_word s) Rsrc_ptr = src + 8).
  { rewrite copy_word_Rsrc, Hs. apply wrap64_small. lia. }
  assert (Hd1 : xreg (copy_word s) Rdst_ptr = dst + 8).
  { rewrite copy_word_Rdst, Hd. apply wrap64_small. lia. }
  destruct (Z_lt_ge_dec j 8) as [Lt|Ge].
  - destruct (copy_words_frame w (copy_word s) (dst + 8) Hd1 ltac:(lia) ltac:(lia))
      as (M & _).
    rewrite M by lia. rewrite <- Hd, <- Hs.
    apply copy_word_mem_inside; lia.
  - replace (dst + j) with (dst + 8 + (j - 8)) by lia.
    rewrite (IH (copy_word s) (src + 8) (dst + 8)) by lia.
    replace (src + 8 + (j - 8)) with (src + j) by lia.
    apply copy_word_mem_outside; lia.
Qed.

Lemma copy_words_Rwords :
  forall w s, xreg s Rwords = Z.of_nat w -> Z.of_nat w < 2 ^ 64 ->
              xreg (copy_words w s) Rwords = 0.
Proof.
  induction w as [|w IH]; intros s Hw Hb; [assumption|].
  cbn [copy_words]. apply IH; [|lia].
  rewrite copy_word_Rwords, Hw. rewrite wrap64_small; lia.
Qed.

End CopyWords.

Section AdapterCopy.

Context `{Runtime}.

Variable extern : Z -> Machine.mstate -> Machine.mstate.

Import ProgrammableInvoker Adapter Machine MemFacts.

Lemma adapter_Lnext abi layout :
  find_label Lnext (adapter_code abi layout)
  = Some (copy_loop ++ bind Ldone :: after_copy abi layout).
Proof. reflexivity. Qed.

Lemma adapter_Ldone abi layout :
  find_label Ldone (adapter_code abi layout) = Some (after_copy abi layout).
Proof. reflexivity. Qed.

(** From the [load_arguments] block to [Ldone]. *)
Lemma run_copy abi layout s :
  0 <= xreg s Rstack_size < 2 ^ 64 ->
  let w := Z.to_nat (xreg s Rstack_size / 8) in
  run extern (5 + (5 * w + 1)) (adapter_code abi layout)
    (block_comment "load_arguments" :: seg_copy layout ++ after_copy abi layout) s
  = Next (after_copy abi layout) (copy_words w (copy_setup layout s)).
Proof.
  intros Hn w.
  assert (Hq : 0 <= xreg s Rstack_size / 8 < 2 ^ 64).
  { split; [apply Z.div_pos; lia|]. apply Z.div_lt_upper_bound; lia. }
  rewrite (run_next extern 5 _ _ _ _
             (copy_loop ++ bind Ldone :: after_copy abi layout)
             (copy_setup layout s)).
  - apply (loop_run extern _ _ (adapter_Lnext abi layout) (adapter_Ldone abi layout)).
    + unfold copy_setup, w. cbn [xreg set_xreg Register_eqb Rwords Rdst_ptr r12 r15 Nat.eqb].
      unfold LogBytesPerWord. rewrite Z.shiftr_div_pow2 by lia.
      change (2 ^ 3) with 8. lia.
    + unfold w. lia.
  - unfold seg_copy, seg_copy_setup.
    repeat (progress (rewrite <- ?app_assoc; cbn [app])). reflexivity.
Qed.

(** C3 (amended): the copy loop of a generated adapter terminates with a
    zero word count after copying [count / 8] whole words, forward, from
    the block the record points to onto the stack area at the stack
    pointer; the bytes past the last whole word are not written, so the
    declared block is copied in full exactly when its size is a multiple of
    the word size. *)
Theorem C3_copy_loop_whole_words :
  forall abi layout P,
    generate_adapter abi layout = Some P ->
    let rest := after_copy abi layout in
    exists pre,
      P = pre ++ block_comment "load_arguments" :: seg_copy layout ++ rest
      /\ forall s,
           let n := xreg s Rstack_size in
           let src := load s (wrap64 (xreg s Rctx + int32 (stack_args layout))) 8 in
           let dst := xreg s sp in
           0 <= n < 2 ^ 64 ->
           0 <= dst -> dst + n < 2 ^ 64 -> src + n < 2 ^ 64 ->
           src + n <= dst \/ dst + n <= src ->
           exists fuel s',
             run extern fuel P
               (block_comment "load_arguments" :: seg_copy layout ++ rest) s
             = Next rest s'
             /\ xreg s' Rwords = 0
             /\ xreg s' Rdst_ptr = dst + 8 * (n / 8)
             /\ (forall j, 0 <= j < 8 * (n / 8) ->
                           mem s' (dst + j) = mem s (src + j))
             /\ (forall x, x < dst \/ dst + 8 * (n / 8) <= x ->
                           mem s' x = mem s x)
             /\ (n mod 8 = 0 ->
                 forall j, 0 <= j < n -> mem s' (dst + j) = mem s (src + j)).
Proof.
  intros abi layout P Hgen rest.
  destruct (generate_adapter_inv abi layout P Hgen) as (_ & _ & ->).
  exists (seg_enter ++ seg_alloc abi layout). split.
  { unfold adapter_code, rest, seg_copy.
    repeat (progress (rewrite <- ?app_assoc; cbn [app])). reflexivity. }
  intros s n src dst Hn Hd Hdb Hsb Dis.
  set (w := Z.to_nat (n / 8)).
  assert (Hq : 0 <= n / 8) by (apply Z.div_pos; lia).
  assert (Hw : 8 * Z.of_nat w = 8 * (n / 8)) by (unfold w; lia).
  assert (Hle : 8 * (n / 8) <= n) by (apply Z.mul_div_le; lia).
  pose proof (load_range s (wrap64 (xreg s Rctx + int32 (stack_args layout))) 8) as Hsrc.
  fold src in Hsrc.
  exists (5 + (5 * w + 1))%nat, (copy_words w (copy_setup layout s)).
  split; [apply (run_copy abi layout s Hn)|].
  assert (S1 : xreg (copy_setup layout s) Rsrc_ptr = src) by reflexivity.
  assert (S2 : xreg (copy_setup layout s) Rdst_ptr = dst) by reflexivity.
  assert (S3 : xreg (copy_setup layout s) Rwords = Z.of_nat w).
  { unfold copy_setup, w. cbn [xreg set_xreg Register_eqb Rwords Rdst_ptr r12 r15 Nat.eqb].
    unfold LogBytesPerWord. rewrite Z.shiftr_div_pow2 by lia.
    change (2 ^ 3) with 8. fold n. lia. }
  destruct (copy_words_frame w _ dst S2 Hd ltac:(lia)) as (M & D & _ & _).
  pose proof (copy_words_copy w _ src dst S1 S2 ltac:(lia) ltac:(lia) Hd
                ltac:(lia) ltac:(lia)) as C.
  rewrite Hw in M, D, C.
  split; [apply copy_words_Rwords; [assumption | lia]|].
  split; [assumption|]. split; [exact C|]. split; [exact M|].
  intros Hmod j Hj. apply C.
  pose proof (Z.div_mod n 8 ltac:(lia)). lia.
Qed.

End AdapterCopy.

Lemma C3_copy_loop_whole_words_witness :
  exists P,
    ProgrammableInvoker.generate_adapter
      AdapterExamples.example_abi AdapterExamples.example_layout = Some P
    /\ exists fuel s' c,
         Machine.run (H := Examples.example_runtime)
           AdapterExamples.clobbering_callee fuel P
           (block_comment "load_arguments"
              :: Adapter.seg_copy AdapterExamples.example_layout ++ c)
           AdapterExamples.load_state = Machine.Next c s'
         /\ Machine.xreg s' ProgrammableInvoker.Rwords = 0
         /\ Machine.mem s' (65472 + 15) = Machine.mem AdapterExamples.load_state (8192 + 15).
Proof.
  exists (Adapter.adapter_code AdapterExamples.example_abi AdapterExamples.example_layout).
  assert (G : ProgrammableInvoker.generate_adapter
                AdapterExamples.example_abi AdapterExamples.example_layout
              = Some (Adapter.adapter_code AdapterExamples.example_abi
                        AdapterExamples.example_layout))
    by (vm_compute; reflexivity).
  split; [exact G|].
  destruct (@C3_copy_loop_whole_words Examples.example_runtime
              AdapterExamples.clobbering_callee
              AdapterExamples.example_abi AdapterExamples.example_layout _ G)
    as (pre & _ & Hs).
  assert (H1 : 0 <= 17 < 2 ^ 64) by lia.
  assert (H2 : 0 <= 65472) by lia.
  assert (H3 : 65472 + 17 < 2 ^ 64) by lia.
  assert (H4 : 8192 + 17 < 2 ^ 64) by lia.
  assert (H5 : 8192 + 17 <= 65472 \/ 65472 + 17 <= 8192) by lia.
  destruct (Hs AdapterExamples.load_state H1 H2 H3 H4 H5)
    as (fuel & s' & Hr & Hw & _ & Hc & _).
  exists fuel, s'. eexists. split; [exact Hr|]. split; [exact Hw|].
  apply (Hc 15). change (0 <= 15 < 8 * (17 / 8)). change (17 / 8) with 2. lia.
Defined.

(** C3 (as stated, refuted): the seventeenth byte of a 17-byte block is
    not copied: from the entry of the example stub to [Ldone] two words are copied, the destination
    pointer stops 16 bytes above the stack pointer, and the byte at offset
    16 of the reserved area differs from the one of the block. *)
Lemma C3_counterexample :
  let P := Adapter.adapter_code AdapterExamples.example_abi
             AdapterExamples.example_layout in
  ProgrammableInvoker.generate_adapter
    AdapterExamples.example_abi AdapterExamples.example_layout = Some P
  /\ match Machine.run (H := Examples.example_runtime)
             AdapterExamples.clobbering_callee 25 P P AdapterExamples.entry_state
     with
     | Machine.Next c s' =>
         c = Adapter.after_copy AdapterExamples.example_abi
               AdapterExamples.example_layout
         /\ Machine.xreg s' ProgrammableInvoker.Rstack_size = 17
         /\ Machine.xreg s' ProgrammableInvoker.Rdst_ptr = Machine.xreg s' sp + 16
         /\ Machine.mem s' (Machine.xreg s' sp + 16)
            <> Machine.mem AdapterExamples.entry_state (8192 + 16)
     | _ => False
     end.
Proof.
  vm_compute. split; [reflexivity|]. split; [reflexivity|].
  split; [reflexivity|]. split; [reflexivity|]. intros E; discriminate E.
Qed.

(** ** The context-record address across the call *)

Section AdapterCall.

Context `{Runtime}.

Variable extern : Z -> Machine.mstate -> Machine.mstate.

Import ProgrammableInvoker Adapter Machine MemFacts.

Lemma run_enter P rest s :
  run extern 5 P (seg_enter ++ rest) s = Next rest (after_enter s).
Proof. reflexivity. Qed.

Lemma run_alloc P abi layout rest s :
  run extern 4 P (seg_alloc abi layout ++ rest) s = Next rest (after_alloc abi layout s).
Proof. reflexivity. Qed.

Lemma after_enter_regs s :
  32 <= xreg s sp < 2 ^ 64 ->
  xreg (after_enter s) rfp = xreg s sp - 16
  /\ xreg (after_enter s) sp = xreg s sp - 32
  /\ xreg (after_enter s) Rctx = xreg s c_rarg0.
Proof.
  intros Hsp. unfold after_enter, store, log, set_trace, set_mem, wordSize.
  cbn [xreg set_xreg Register_eqb rfp sp Rctx c_rarg0 r0 r10 r29 Nat.eqb].
  rewrite (wrap64_small (xreg s sp - 2 * 8)) by lia.
  rewrite wrap64_small by lia.
  repeat split; lia.
Qed.

Lemma after_enter_mem s :
  32 <= xreg s sp < 2 ^ 64 ->
  load_bytes (mem (after_enter s)) (xreg s sp - 32) 8 = le_split 8 (xreg s c_rarg0)
  /\ forall x, x < xreg s sp - 32 \/ xreg s sp <= x -> mem (after_enter s) x = mem s x.
Proof.
  intros Hsp. unfold after_enter, store, log, set_trace, set_mem, wordSize.
  cbn [xreg set_xreg mem Register_eqb rfp sp Rctx c_rarg0 r0 r10 r29 Nat.eqb].
  rewrite (wrap64_small (xreg s sp - 2 * 8)) by lia.
  rewrite wrap64_small by lia.
  replace (xreg s sp - 2 * 8 + -2 * 8) with (xreg s sp - 32) by lia.
  split.
  - rewrite <- (length_le_split 8 (xreg s c_rarg0)) at 2.
    apply load_store_bytes; rewrite ?length_le_split; lia.
  - intros x Hx.
    rewrite !store_bytes_outside; rewrite ?length_le_split; try lia. reflexivity.
Qed.

Lemma after_alloc_regs abi layout s r :
  r <> Rstack_size -> r <> rscratch2 -> r <> sp ->
  xreg (after_alloc abi layout s) r = xreg s r.
Proof.
  intros N1 N2 N3. apply Register_eqb_neq in N1, N2, N3.
  unfold after_alloc. cbn [xreg set_xreg]. now rewrite N1, N2, N3.
Qed.

Lemma after_alloc_sp abi layout s k :
  _stack_alignment_bytes abi = 2 ^ k -> 4 <= k <= 30 ->
  let count := load s (wrap64 (xreg s Rctx + int32 (stack_args_bytes layout))) 8 in
  xreg (after_alloc abi layout s) sp
  = wrap64 (xreg s sp - 2 ^ k * ((count + 2 ^ k - 1) / 2 ^ k))
  /\ xreg (after_alloc abi layout s) Rstack_size = count.
Proof.
  intros HA Hk count. split; [|reflexivity].
  unfold after_alloc.
  cbn [xreg set_xreg Register_eqb sp rscratch2 r9 Nat.eqb Rstack_size r11 Rctx r10].
  rewrite HA. fold count.
  apply reserve_round_up; [|assumption]. apply (load_range s _ 8).
Qed.

(** Loading the vector argument registers changes neither the general
    registers nor memory. *)
Lemma run_load_vector P layout rest :
  forall l i s,
    exists s',
      run extern (length l) P
        (mapi (fun i reg =>
                 ldrq reg (Address_disp Rctx
                   (int64 (arguments_vector layout + i * float_reg_size)))) i l
           ++ rest) s = Next rest s'
      /\ xreg s' = xreg s /\ mem s' = mem s.
Proof.
  induction l as [|reg l IH]; intros i s.
  - exists s. repeat split.
  - cbn [mapi app length run step resolve].
    destruct (IH (i + 1) (set_vreg s reg
               (load s (wrap64 (xreg s Rctx
                  + int64 (arguments_vector layout + i * float_reg_size))) 16)))
      as (s' & Hr & Hx & Hm).
    exists s'. split; [exact Hr|]. split; [exact Hx | exact Hm].
Qed.

(** Loading the integer argument registers changes only those registers. *)
Lemma run_load_integer P layout rest :
  forall l i s,
    exists s',
      run extern (length l) P
        (mapi (fun i reg =>
                 ldr reg (Address_disp Rctx
                   (int64 (arguments_integer layout + i * sizeof_uintptr_t)))) i l
           ++ rest) s = Next rest s'
      /\ (forall r, ~ In r l -> xreg s' r = xreg s r) /\ mem s' = mem s.
Proof.
  induction l as [|reg l IH]; intros i s.
  - exists s. repeat split.
  - cbn [mapi app length run step resolve].
    destruct (IH (i + 1) (set_xreg s reg
               (load s (wrap64 (xreg s Rctx
                  + int64 (arguments_integer layout + i * sizeof_uintptr_t))) 8)))
      as (s' & Hr & Hx & Hm).
    exists s'. split; [exact Hr|]. split; [|exact Hm].
    intros r Nr. rewrite Hx by (intros X; apply Nr; now right).
    cbn [xreg set_xreg].
    assert (N : r <> reg) by (intros ->; apply Nr; now left).
    apply Register_eqb_neq in N. now rewrite N.
Qed.

End AdapterCall.

Section AdapterContext.

Context `{Runtime}.

Variable extern : Z -> Machine.mstate -> Machine.mstate.

Import ProgrammableInvoker Adapter Machine MemFacts.

Lemma round_up_bounds count k :
  0 <= count -> 0 <= k ->
  count <= 2 ^ k * ((count + 2 ^ k - 1) / 2 ^ k) <= count + 2 ^ k - 1.
Proof.
  intros Hc Hk.
  assert (0 < 2 ^ k) by (apply Z.pow_pos_nonneg; lia).
  pose proof (Z.div_mod (count + 2 ^ k - 1) (2 ^ k) ltac:(lia)).
  pose proof (Z.mod_pos_bound (count + 2 ^ k - 1) (2 ^ k) ltac:(lia)).
  lia.
Qed.

Lemma run_call P layout rest s :
  run extern 4 P (seg_call layout ++ rest) s
  = Next rest
      (let s1 := set_xreg s rscratch2
                   (load s (wrap64 (xreg s Rctx + int32 (arguments_next_pc layout))) 8) in
       let s2 := call extern (xreg s1 rscratch2) s1 in
       set_xreg s2 Rctx (load s2 (wrap64 (xreg s2 rfp + -2 * wordSize)) 8)).
Proof. reflexivity. Qed.

Lemma after_alloc_mem abi layout s : mem (after_alloc abi layout s) = mem s.
Proof. reflexivity. Qed.

Lemma copy_setup_mem layout s : mem (copy_setup layout s) = mem s.
Proof. reflexivity. Qed.

Lemma copy_setup_other layout s r :
  r <> Rsrc_ptr -> r <> Rwords -> r <> Rdst_ptr ->
  xreg (copy_setup layout s) r = xreg s r.
Proof.
  intros N1 N2 N3. apply Register_eqb_neq in N1, N2, N3.
  unfold copy_setup. cbn [xreg set_xreg]. now rewrite N1, N2, N3.
Qed.

(** C9: a generated adapter, entered with the record address in its
    argument register, saves it two words below the frame pointer it
    establishes and reloads it from there after the call; for any callee
    that preserves the frame pointer and the caller's frame (whatever it
    does to the other registers), the register used as the base of the
    return-register stores holds the record address again. *)
Theorem C9_context_address_survives_call :
  forall abi layout P k s0,
    generate_adapter abi layout = Some P ->
    _stack_alignment_bytes abi = 2 ^ k -> 4 <= k <= 30 ->
    ~ In rfp (_integer_argument_registers abi) ->
    ~ In sp (_integer_argument_registers abi) ->
    callee_preserves_frame extern ->
    let ctx := xreg s0 c_rarg0 in
    let sp0 := xreg s0 sp in
    let field := wrap64 (ctx + int32 (stack_args_bytes layout)) in
    let count := load s0 field 8 in
    0 <= ctx < 2 ^ 64 ->
    field + 8 <= sp0 - 32 \/ (sp0 <= field /\ field + 8 <= 2 ^ 64) ->
    count + 2 ^ k + 32 <= sp0 < 2 ^ 64 ->
    exists fuel s',
      run extern fuel P P s0 = Next (seg_store abi layout) s'
      /\ xreg s' Rctx = ctx
      /\ xreg s' rfp = sp0 - 2 * wordSize
      /\ load s' (xreg s' rfp - 2 * wordSize) 8 = ctx.
Proof.
  intros abi layout P k s0 Hgen HA Hk Nfp Nsp Hext ctx sp0 field count Hctx Hfield Hroom.
  destruct (generate_adapter_inv abi layout P Hgen) as (_ & _ & ->).
  assert (Hcount : 0 <= count < 2 ^ 64) by apply (load_range s0 field 8).
  assert (Hf0 : 0 <= field < 2 ^ 64) by apply wrap64_range.
  assert (P4 : 2 ^ 4 <= 2 ^ k) by (apply Z.pow_le_mono_r; lia).
  assert (Hsp0 : 32 <= sp0 < 2 ^ 64) by lia.
  (* frame set-up *)
  destruct (after_enter_regs s0 Hsp0) as (Rfp1 & Rsp1 & Rctx1).
  destruct (after_enter_mem s0 Hsp0) as (Slot1 & Out1).
  pose proof (run_enter extern (adapter_code abi layout)
                (seg_alloc abi layout
                   ++ block_comment "load_arguments"
                   :: seg_copy layout ++ after_copy abi layout) s0) as Run1.
  remember (after_enter s0) as s1 eqn:E1. clear E1.
  fold sp0 ctx in Rfp1, Rsp1, Rctx1, Slot1, Out1.
  assert (Hc1 : load s1 (wrap64 (xreg s1 Rctx + int32 (stack_args_bytes layout))) 8
                = count).
  { rewrite Rctx1. fold field. unfold count, load. f_equal.
    apply load_bytes_ext; try lia. intros x Hx. apply Out1. lia. }
  (* reservation *)
  destruct (after_alloc_sp abi layout s1 k HA Hk) as (Rsp2 & Rn2).
  pose proof (after_alloc_regs abi layout s1 rfp) as Rfp2.
  pose proof (after_alloc_mem abi layout s1) as Mem2.
  pose proof (run_alloc extern (adapter_code abi layout) abi layout
                (block_comment "load_arguments"
                   :: seg_copy layout ++ after_copy abi layout) s1) as Run2.
  remember (after_alloc abi layout s1) as s2 eqn:E2. clear E2.
  rewrite Hc1 in Rsp2, Rn2. rewrite Rsp1 in Rsp2.
  pose proof (round_up_bounds count k ltac:(lia) ltac:(lia)) as HX.
  remember (2 ^ k * ((count + 2 ^ k - 1) / 2 ^ k)) as X eqn:EX. clear EX.
  rewrite wrap64_small in Rsp2 by lia.
  rewrite Rfp1 in Rfp2. specialize (Rfp2 ltac:(discriminate) ltac:(discriminate)
                                      ltac:(discriminate)).
  (* copy *)
  assert (Hq : 0 <= count / 8) by (apply Z.div_pos; lia).
  assert (Hw : 8 * Z.of_nat (Z.to_nat (count / 8)) <= count).
  { rewrite Z2Nat.id by lia. apply Z.mul_div_le. lia. }
  pose proof (run_copy extern abi layout s2) as Run3.
  rewrite Rn2 in Run3. specialize (Run3 Hcount). cbv zeta in Run3.
  remember (Z.to_nat (count / 8)) as w eqn:Ew. clear Ew.
  destruct (copy_words_frame w (copy_setup layout s2) (sp0 - 32 - X))
    as (Mem3 & _ & Regs3 & _); [exact Rsp2 | lia | lia |].
  pose proof (Regs3 rfp ltac:(discriminate) ltac:(discriminate)
                ltac:(discriminate) ltac:(discriminate)) as Rfp3.
  pose proof (Regs3 sp ltac:(discriminate) ltac:(discriminate)
                ltac:(discriminate) ltac:(discriminate)) as Rsp3.
  clear Regs3.
  rewrite (copy_setup_other layout s2 rfp) in Rfp3 by discriminate.
  rewrite (copy_setup_other layout s2 sp) in Rsp3 by discriminate.
  rewrite Rfp2 in Rfp3. rewrite Rsp2 in Rsp3.
  assert (Mem3' : forall x, sp0 - 32 <= x ->
                            mem (copy_words w (copy_setup layout s2)) x = mem s1 x).
  { intros x Hx. rewrite Mem3 by lia. rewrite copy_setup_mem. now rewrite Mem2. }
  clear Mem3.
  remember (copy_words w (copy_setup layout s2)) as s3 eqn:E3. clear E3.
  (* argument registers *)
  destruct (run_load_vector extern (adapter_code abi layout) layout
              (seg_load_integer abi layout ++ seg_call layout ++ seg_store abi layout)
              (_vector_argument_registers abi) 0 s3)
    as (s4 & Run4 & Regs4 & Mem4).
  destruct (run_load_integer extern (adapter_code abi layout) layout
              (seg_call layout ++ seg_store abi layout)
              (_integer_argument_registers abi) 0 s4)
    as (s5 & Run5 & Regs5 & Mem5).
  assert (Rfp5 : xreg s5 rfp = sp0 - 16).
  { rewrite Regs5 by assumption. rewrite Regs4. exact Rfp3. }
  assert (Rsp5 : xreg s5 sp = sp0 - 32 - X).
  { rewrite Regs5 by assumption. rewrite Regs4. exact Rsp3. }
  (* the call and the reload *)
  pose proof (run_call (adapter_code abi layout) layout (seg_store abi layout) s5)
    as Run6.
  cbv zeta in Run6.
  remember (set_xreg s5 rscratch2
              (load s5 (wrap64 (xreg s5 Rctx + int32 (arguments_next_pc layout))) 8))
    as s5' eqn:E5.
  assert (Rfp5' : xreg s5' rfp = sp0 - 16) by (rewrite E5; exact Rfp5).
  assert (Rsp5' : xreg s5' sp = sp0 - 32 - X) by (rewrite E5; exact Rsp5).
  assert (Mem5' : mem s5' = mem s5) by (rewrite E5; reflexivity).
  clear E5.
  destruct (Hext (xreg s5' rscratch2) s5') as (Efp & Emem).
  assert (Rfp6 : xreg (call extern (xreg s5' rscratch2) s5') rfp = sp0 - 16).
  { unfold call. cbn [xreg set_trace]. rewrite Efp. exact Rfp5'. }
  assert (Mem6 : forall x, sp0 - 32 <= x ->
                           mem (call extern (xreg s5' rscratch2) s5') x = mem s1 x).
  { intros x Hx. unfold call. cbn [mem set_trace].
    rewrite Emem by lia. rewrite Mem5', Mem5, Mem4. now apply Mem3'. }
  remember (call extern (xreg s5' rscratch2) s5') as s6 eqn:E6. clear E6.
  assert (Slot6 : load s6 (sp0 - 32) 8 = ctx).
  { unfold load. rewrite (load_bytes_ext 8 (mem s6) (mem s1)); try lia.
    - rewrite Slot1, le_combine_split. apply Z.mod_small.
      change (Z.of_nat 8 * 8) with 64. exact Hctx.
    - intros x Hx. apply Mem6. lia. }
  exists (5 + (4 + ((5 + (5 * w + 1))
           + (length (_vector_argument_registers abi)
              + (length (_integer_argument_registers abi) + 4)))))%nat.
  eexists.
  split.
  { replace (adapter_code abi layout) with
      (seg_enter ++ seg_alloc abi layout
         ++ block_comment "load_arguments"
         :: seg_copy layout ++ after_copy abi layout) at 2
      by (unfold adapter_code, seg_copy;
          repeat (progress (rewrite <- ?app_assoc; cbn [app])); reflexivity).
    rewrite (run_next extern 5 _ _ _ _ _ _ Run1).
    rewrite (run_next extern 4 _ _ _ _ _ _ Run2).
    rewrite (run_next extern _ _ _ _ _ _ _ Run3).
    unfold after_copy, seg_load_vector, seg_load_integer.
    rewrite (run_next extern _ _ _ _ _ _ _ Run4).
    rewrite (run_next extern _ _ _ _ _ _ _ Run5).
    exact Run6. }
  cbn [xreg set_xreg Register_eqb Rctx rfp r10 r29 Nat.eqb].
  unfold wordSize. rewrite Rfp6.
  replace (sp0 - 16 + -2 * 8) with (sp0 - 32) by lia.
  rewrite (wrap64_small (sp0 - 32)) by lia.
  split; [exact Slot6|]. split; [lia|].
  replace (sp0 - 16 - 2 * 8) with (sp0 - 32) by lia.
  unfold load. cbn [mem set_xreg]. exact Slot6.
Qed.

End AdapterContext.

Lemma C9_context_address_survives_call_witness :
  let P := Adapter.adapter_code AdapterExamples.example_abi
             AdapterExamples.example_layout in
  ProgrammableInvoker.generate_adapter
    AdapterExamples.example_abi AdapterExamples.example_layout = Some P
  /\ Adapter.callee_preserves_frame AdapterExamples.clobbering_callee
  /\ Machine.xreg AdapterExamples.entry_state c_rarg0 = 4096
  /\ exists fuel s',
       Machine.run (H := Examples.example_runtime)
         AdapterExamples.clobbering_callee fuel P P AdapterExamples.entry_state
       = Machine.Next (Adapter.seg_store AdapterExamples.example_abi
                         AdapterExamples.example_layout) s'
       /\ Machine.xreg s' ProgrammableInvoker.Rctx = 4096.
Proof.
  intros P.
  assert (G : ProgrammableInvoker.generate_adapter
                AdapterExamples.example_abi AdapterExamples.example_layout = Some P)
    by (vm_compute; reflexivity).
  assert (C : Adapter.callee_preserves_frame AdapterExamples.clobbering_callee).
  { intros target s. split; [reflexivity | intros a _; reflexivity]. }
  split; [exact G|]. split; [exact C|]. split; [reflexivity|].
  assert (N1 : ~ In rfp (_integer_argument_registers AdapterExamples.example_abi)).
  { cbv. intros X. repeat (destruct X as [X|X]; [discriminate X|]). exact X. }
  assert (N2 : ~ In sp (_integer_argument_registers AdapterExamples.example_abi)).
  { cbv. intros X. repeat (destruct X as [X|X]; [discriminate X|]). exact X. }
  assert (Ectx : Machine.xreg AdapterExamples.entry_state c_rarg0 = 4096)
    by reflexivity.
  assert (Esp : Machine.xreg AdapterExamples.entry_state sp = 65536) by reflexivity.
  assert (Efield : wrap64 (4096 + int32 (stack_args_bytes AdapterExamples.example_layout))
                   = 4096) by reflexivity.
  assert (Ecount : Machine.load AdapterExamples.entry_state 4096 8 = 17)
    by (vm_compute; reflexivity).
  destruct (@C9_context_address_survives_call Examples.example_runtime
              AdapterExamples.clobbering_callee
              AdapterExamples.example_abi AdapterExamples.example_layout
              P 4 AdapterExamples.entry_state G eq_refl ltac:(lia) N1 N2 C)
    as (fuel & s' & Hr & Hc & _).
  - rewrite Ectx. lia.
  - rewrite Ectx, Efield, Esp. left. lia.
  - rewrite Ectx, Efield, Ecount, Esp. lia.
  - exists fuel, s'. split; [exact Hr|]. rewrite Hc. exact Ectx.
Defined.

(** ** Running the downcall stub *)

Section DowncallRun.

Context `{Runtime}.

Variable extern : Z -> Machine.mstate -> Machine.mstate.

Import NativeInvoker Downcall DowncallShape Machine Traces.

Lemma quiet_nil : quiet [].
Proof. reflexivity. Qed.

Lemma quiet_app l1 l2 : quiet l1 -> quiet l2 -> quiet (l1 ++ l2).
Proof. unfold quiet. intros A B. now rewrite forallb_app, A, B. Qed.

Lemma resolve_trace a s : trace (snd (resolve a s)) = trace s.
Proof. destruct a; reflexivity. Qed.

Ltac no_event :=
  eexists; exists (@nil event);
  split; [intros; reflexivity
         | split; [cbn [trace set_xreg set_vreg set_flag_eq];
                   now rewrite app_nil_r
                  | reflexivity]].

Ltac via_resolve a s :=
  let ea := fresh "ea" in
  let s1 := fresh "s1" in
  let R := fresh "R" in
  let T := fresh "T" in
  pose proof (resolve_trace a s) as T;
  destruct (resolve a s) as [ea s1] eqn:R; cbn [snd] in T.

(** A safe item steps to the next item whatever the program around it,
    and adds quiet events only. *)
Lemma step_safe i s :
  safe i = true ->
  exists s' evs,
    (forall P c, step extern P i c s = Next c s')
    /\ trace s' = trace s ++ evs
    /\ quiet evs.
Proof.
  destruct i; intros S; try discriminate S; try no_event.
  - (* lea *)
    via_resolve a s. eexists. exists [].
    split; [intros; cbn [step]; rewrite R; reflexivity|].
    split; [cbn [trace set_xreg]; now rewrite T, app_nil_r | reflexivity].
  - (* ldr *)
    via_resolve a s. eexists. exists [].
    split; [intros; cbn [step]; rewrite R; reflexivity|].
    split; [cbn [trace set_xreg]; now rewrite T, app_nil_r | reflexivity].
  - (* str *)
    via_resolve a s. eexists. eexists.
    split; [intros; cbn [step]; rewrite R; reflexivity|].
    split; [unfold store, log; cbn [trace set_trace set_mem]; now rewrite T
           | reflexivity].
  - (* ldrw *)
    via_resolve a s. eexists. exists [].
    split; [intros; cbn [step]; rewrite R; reflexivity|].
    split; [cbn [trace set_xreg]; now rewrite T, app_nil_r | reflexivity].
  - (* strw *)
    via_resolve a s. eexists. eexists.
    split; [intros; cbn [step]; rewrite R; reflexivity|].
    split; [unfold store, log; cbn [trace set_trace set_mem]; now rewrite T
           | reflexivity].
  - (* ldrb *)
    via_resolve a s. eexists. exists [].
    split; [intros; cbn [step]; rewrite R; reflexivity|].
    split; [cbn [trace set_xreg]; now rewrite T, app_nil_r | reflexivity].
  - (* ldrq *)
    via_resolve a s. eexists. exists [].
    split; [intros; cbn [step]; rewrite R; reflexivity|].
    split; [cbn [trace set_vreg]; now rewrite T, app_nil_r | reflexivity].
  - (* strq *)
    via_resolve a s. eexists. eexists.
    split; [intros; cbn [step]; rewrite R; reflexivity|].
    split; [unfold store, log; cbn [trace set_trace set_mem]; now rewrite T
           | reflexivity].
  - (* membar *)
    eexists. eexists. split; [intros; reflexivity|].
    split; [reflexivity | reflexivity].
  - (* blr *)
    eexists. eexists. split; [intros; reflexivity|].
    split; [reflexivity | reflexivity].
  - (* enter *)
    eexists. eexists. split; [intros; reflexivity|].
    split; [unfold store, log; cbn [trace set_trace set_mem set_xreg];
            rewrite <- app_assoc; reflexivity
           | reflexivity].
  - (* rt_call *)
    eexists. eexists. split; [intros; reflexivity|].
    split; [reflexivity | reflexivity].
  - (* shuffle_move *)
    cbn [safe] in S. eexists. exists [].
    split; [intros; cbn [step]; rewrite S; reflexivity|].
    split; [|reflexivity].
    rewrite app_nil_r. destruct dst; reflexivity.
Qed.

Lemma runs_refl P c s : runs extern P c s c s [].
Proof. exists 0%nat. split; [reflexivity | now rewrite app_nil_r]. Qed.

Lemma runs_trans P c s c1 s1 e1 c2 s2 e2 :
  runs extern P c s c1 s1 e1 -> runs extern P c1 s1 c2 s2 e2 ->
  runs extern P c s c2 s2 (e1 ++ e2).
Proof.
  intros (n1 & R1 & T1) (n2 & R2 & T2). exists (n1 + n2)%nat. split.
  - now rewrite (run_next extern _ _ _ _ _ _ _ R1).
  - now rewrite T2, T1, app_assoc.
Qed.

Lemma runs_then P c s c1 s1 e1 c2 s2 e2 evs :
  runs extern P c s c1 s1 e1 -> runs extern P c1 s1 c2 s2 e2 ->
  evs = e1 ++ e2 ->
  runs extern P c s c2 s2 evs.
Proof. intros R1 R2 ->. exact (runs_trans _ _ _ _ _ _ _ _ _ R1 R2). Qed.

Lemma runs_step P i c s c' s' evs :
  step extern P i c s = Next c' s' -> trace s' = trace s ++ evs ->
  runs extern P (i :: c) s c' s' evs.
Proof.
  intros St T. exists 1%nat. split; [|exact T]. cbn [run]. now rewrite St.
Qed.

(** A list of safe items runs to its end, quietly. *)
Lemma runs_safe P l rest :
  forallb safe l = true ->
  forall s, exists s' evs, runs extern P (l ++ rest) s rest s' evs /\ quiet evs.
Proof.
  induction l as [|i l IH]; intros Sf s.
  - exists s, []. split; [apply runs_refl | reflexivity].
  - cbn [forallb] in Sf. apply andb_true_iff in Sf. destruct Sf as (Si & Sl).
    destruct (step_safe i s Si) as (s1 & e1 & St & T1 & Q1).
    destruct (IH Sl s1) as (s2 & e2 & R2 & Q2).
    exists s2, (e1 ++ e2). split; [|now apply quiet_app].
    apply (runs_trans _ _ _ (l ++ rest) s1 e1); [|exact R2].
    apply runs_step; [apply St | exact T1].
Qed.

Lemma find_label_app l c1 c2 :
  forallb (fun i => negb (is_bind i)) c1 = true ->
  find_label l (c1 ++ c2) = find_label l c2.
Proof.
  induction c1 as [|i c1 IH]; intros Nb; [reflexivity|].
  cbn [forallb] in Nb. apply andb_true_iff in Nb. destruct Nb as (Ni & Nb).
  destruct i; try discriminate Ni; cbn [app find_label]; now apply IH.
Qed.

Lemma spill_code_safe spill regs :
  forall off, forallb safe (RegSpiller.spill_code spill off regs) = true.
Proof.
  induction regs as [|r regs IH]; intros off; [reflexivity|].
  cbn [RegSpiller.spill_code]. rewrite forallb_app, IH, andb_true_r.
  destruct r, spill; reflexivity.
Qed.

Lemma spill_code_no_bind spill regs :
  forall off, forallb (fun i => negb (is_bind i))
                (RegSpiller.spill_code spill off regs) = true.
Proof.
  induction regs as [|r regs IH]; intros off; [reflexivity|].
  cbn [RegSpiller.spill_code]. rewrite forallb_app, IH, andb_true_r.
  destruct r, spill; reflexivity.
Qed.

Lemma seg_moves_no_bind moves :
  forallb (fun i => negb (is_bind i)) (seg_moves moves) = true.
Proof. induction moves as [|m moves IH]; [reflexivity | exact IH]. Qed.

Lemma seg_moves_safe moves :
  (forall m, In m moves -> is_valid (fst m) = true /\ is_valid (snd m) = true) ->
  forallb safe (seg_moves moves) = true.
Proof.
  induction moves as [|m moves IH]; intros V; [reflexivity|].
  cbn [seg_moves map forallb safe]. unfold Shuffle.move_src, Shuffle.move_dst.
  destruct (V m (or_introl eq_refl)) as (-> & ->). cbn [andb].
  apply IH. intros x Hx. apply V. now right.
Qed.

Lemma unpack_code_safe bt u :
  unpack_code bt = Some u ->
  forallb safe u = true /\ forallb (fun i => negb (is_bind i)) u = true.
Proof.
  destruct bt; unfold unpack_code; cbn; intros E; inversion E; split; reflexivity.
Qed.

End DowncallRun.

Section DowncallPaths.

Context `{Runtime}.

Variable extern : Z -> Machine.mstate -> Machine.mstate.

Import NativeInvoker Downcall DowncallShape Machine Traces.

Variables (begin fs : Z) (moves : list Shuffle.Move) (unpack : list insn)
          (outs : list VMReg).

Hypothesis unpack_no_bind : forallb (fun i => negb (is_bind i)) unpack = true.

Let P := downcall_code begin fs moves unpack outs.

Lemma seg_shuffle_no_bind :
  forallb (fun i => negb (is_bind i)) (seg_shuffle moves) = true.
Proof.
  unfold seg_shuffle. cbn [forallb is_bind negb andb].
  now rewrite forallb_app, seg_moves_no_bind.
Qed.

Lemma label_after_safepoint_poll :
  find_label L_after_safepoint_poll P = Some (at_after_safepoint_poll outs).
Proof.
  unfold P, downcall_code.
  rewrite find_label_app by reflexivity.
  rewrite find_label_app by reflexivity.
  rewrite find_label_app by apply seg_shuffle_no_bind.
  cbn [find_label]. rewrite find_label_app by exact unpack_no_bind.
  rewrite find_label_app by reflexivity. reflexivity.
Qed.

Lemma label_after_reguard :
  find_label L_after_reguard P = Some (at_after_reguard outs).
Proof.
  unfold P, downcall_code.
  rewrite find_label_app by reflexivity.
  rewrite find_label_app by reflexivity.
  rewrite find_label_app by apply seg_shuffle_no_bind.
  cbn [find_label]. rewrite find_label_app by exact unpack_no_bind.
  rewrite find_label_app by reflexivity. reflexivity.
Qed.

Lemma label_safepoint_poll_slow_path :
  find_label L_safepoint_poll_slow_path P = Some (at_safepoint_poll_slow_path outs).
Proof.
  unfold P, downcall_code.
  rewrite find_label_app by reflexivity.
  rewrite find_label_app by reflexivity.
  rewrite find_label_app by apply seg_shuffle_no_bind.
  cbn [find_label]. rewrite find_label_app by exact unpack_no_bind.
  rewrite find_label_app by reflexivity. reflexivity.
Qed.

Lemma seg_poll_slow_body_no_bind :
  forallb (fun i => negb (is_bind i)) (seg_poll_slow_body outs) = true.
Proof.
  unfold seg_poll_slow_body. rewrite !forallb_app, !spill_code_no_bind. reflexivity.
Qed.

Lemma label_reguard : find_label L_reguard P = Some (at_reguard outs).
Proof.
  unfold P, downcall_code.
  rewrite find_label_app by reflexivity.
  rewrite find_label_app by reflexivity.
  rewrite find_label_app by apply seg_shuffle_no_bind.
  cbn [find_label]. rewrite find_label_app by exact unpack_no_bind.
  rewrite find_label_app by reflexivity.
  cbn [find_label Label_eqb]. rewrite find_label_app by reflexivity.
  cbn [find_label Label_eqb]. rewrite find_label_app by reflexivity.
  unfold seg_slow_paths. cbn [find_label Label_eqb].
  rewrite find_label_app by apply seg_poll_slow_body_no_bind. reflexivity.
Qed.

End DowncallPaths.

(** ** The moves of the planned shuffle *)

Section DowncallOrder.

Context `{Runtime}.

Variable extern : Z -> Machine.mstate -> Machine.mstate.

Import NativeInvoker Downcall DowncallShape Machine Traces.

Lemma the_shuffle_valid g a :
  the_shuffle g = Some a ->
  forall m, In m (Shuffle._moves a) ->
            is_valid (fst m) = true /\ is_valid (snd m) = true.
Proof.
  unfold the_shuffle, Shuffle.new_ArgumentShuffle, Shuffle.compute_move_order.
  fold (in_regs g) (out_regs g).
  destruct (Shuffle.plan _ _ _) as [prog|] eqn:Hp; [|discriminate].
  intros E. inversion E; subst a; clear E. cbn [Shuffle._moves].
  apply (ShuffleFacts.plan_valid (as_VMReg r19) eq_refl _ _ _ Hp).
  intros [s d] Hm. apply PlannerFacts.in_pending in Hm. destruct Hm as (Hv & _).
  apply PlannerFacts.in_valid_pairs in Hv. cbn [fst snd]. tauto.
Qed.

End DowncallOrder.

(** ** Spill and fill around the slow paths *)

Lemma VMReg_eq_dec (a b : VMReg) : {a = b} + {a <> b}.
Proof. repeat decide equality. Qed.

Section SpillFill.

Context `{Runtime}.

Variable extern : Z -> Machine.mstate -> Machine.mstate.

Import Machine Traces Spill MemFacts.

Variable P : list insn.

Lemma get_loc_store s a n v rel reg : get_loc (store s a n v rel) reg = get_loc s reg.
Proof. destruct reg; reflexivity. Qed.

Lemma spill_holds_ext regs :
  forall m1 m2 base off orig,
    0 <= base + off ->
    base + off + RegSpiller.compute_spill_area regs <= 2 ^ 64 ->
    (forall x, base + off <= x -> m1 x = m2 x) ->
    spill_holds m1 base off regs orig -> spill_holds m2 base off regs orig.
Proof.
  unfold RegSpiller.compute_spill_area.
  induction regs as [|reg regs IH]; intros m1 m2 base off orig H0 Hb E Hh;
    [exact I|].
  cbn [spill_holds fold_right] in *.
  pose proof (compute_spill_area_nonneg regs) as Hn.
  unfold RegSpiller.compute_spill_area in Hn.
  destruct Hh as (Hd & Hr). split.
  - destruct reg; try exact I; cbn [RegSpiller.pd_reg_size] in Hb.
    + rewrite <- Hd. symmetry. apply load_bytes_ext; try lia.
      intros x Hx. apply E. lia.
    + rewrite <- Hd. symmetry. apply load_bytes_ext; try lia.
      intros x Hx. apply E. lia.
  - apply (IH m1); try assumption.
    + destruct reg; cbn [RegSpiller.pd_reg_size]; lia.
    + destruct reg; cbn [RegSpiller.pd_reg_size] in *; lia.
    + intros x Hx. apply E. destruct reg; cbn [RegSpiller.pd_reg_size] in *; lia.
Qed.

(** Spilling stores every register of the list in its place of the region
    and changes nothing else. *)
Lemma run_spill rest regs :
  forall off s orig,
    (forall reg, orig reg = get_loc s reg) ->
    0 <= xreg s sp + off ->
    xreg s sp + off + RegSpiller.compute_spill_area regs <= 2 ^ 64 ->
    exists s' evs,
      runs extern P (RegSpiller.spill_code true off regs ++ rest) s rest s' evs
      /\ calls_of evs = []
      /\ xreg s' = xreg s /\ vreg s' = vreg s /\ slot s' = slot s
      /\ spill_holds (mem s') (xreg s sp) off regs orig
      /\ forall x, x < xreg s sp + off -> mem s' x = mem s x.
Proof.
  unfold RegSpiller.compute_spill_area.
  induction regs as [|reg regs IH]; intros off s orig Ho H0 Hb.
  - exists s, []. split; [apply runs_refl|]. repeat split.
  - cbn [fold_right] in Hb.
    pose proof (compute_spill_area_nonneg regs) as Hn.
    unfold RegSpiller.compute_spill_area in Hn.
    destruct reg as [r|f|n|].
    + (* general register *)
      cbn [RegSpiller.pd_reg_size] in Hb.
      cbn [RegSpiller.spill_code RegSpiller.pd_reg_size app].
      set (s1 := store s (wrap64 (xreg s sp + off)) 8 (xreg s r) false).
      destruct (IH (off + 8) s1 orig) as (s' & evs & R & C & X & V & S & Hh & Out).
      { intros reg. rewrite Ho. unfold s1. now rewrite get_loc_store. }
      { change (xreg s1 sp) with (xreg s sp). lia. }
      { change (xreg s1 sp) with (xreg s sp). lia. }
      change (xreg s1 sp) with (xreg s sp) in Hh, Out.
      assert (M1 : mem s1 = store_bytes (mem s) (xreg s sp + off) (le_split 8 (xreg s r))).
      { unfold s1, store, log. cbn [mem set_trace set_mem].
        now rewrite wrap64_small by lia. }
      exists s', (Ev_store (wrap64 (xreg s sp + off)) 8 (xreg s r) false :: evs).
      split.
      { eapply runs_then; [apply runs_step; reflexivity | exact R | reflexivity]. }
      split; [exact C|]. split; [exact X|]. split; [exact V|]. split; [exact S|].
      split.
      * cbn [spill_holds RegSpiller.pd_reg_size]. split; [|exact Hh].
        rewrite (load_bytes_ext 8 (mem s') (mem s1)); try lia.
        -- rewrite M1, Ho. cbn [get_loc].
           rewrite <- (length_le_split 8 (xreg s r)) at 2.
           apply load_store_bytes; rewrite ?length_le_split; lia.
        -- intros x Hx. apply Out. lia.
      * intros x Hx. rewrite Out by lia. rewrite M1.
        apply store_bytes_outside; rewrite ?length_le_split; lia.
    + (* vector register *)
      cbn [RegSpiller.pd_reg_size] in Hb.
      cbn [RegSpiller.spill_code RegSpiller.pd_reg_size app].
      set (s1 := store s (wrap64 (xreg s sp + off)) 16 (vreg s f) false).
      destruct (IH (off + 16) s1 orig) as (s' & evs & R & C & X & V & S & Hh & Out).
      { intros reg. rewrite Ho. unfold s1. now rewrite get_loc_store. }
      { change (xreg s1 sp) with (xreg s sp). lia. }
      { change (xreg s1 sp) with (xreg s sp). lia. }
      change (xreg s1 sp) with (xreg s sp) in Hh, Out.
      assert (M1 : mem s1 = store_bytes (mem s) (xreg s sp + off) (le_split 16 (vreg s f))).
      { unfold s1, store, log. cbn [mem set_trace set_mem].
        now rewrite wrap64_small by lia. }
      exists s', (Ev_store (wrap64 (xreg s sp + off)) 16 (vreg s f) false :: evs).
      split.
      { eapply runs_then; [apply runs_step; reflexivity | exact R | reflexivity]. }
      split; [exact C|]. split; [exact X|]. split; [exact V|]. split; [exact S|].
      split.
      * cbn [spill_holds RegSpiller.pd_reg_size]. split; [|exact Hh].
        rewrite (load_bytes_ext 16 (mem s') (mem s1)); try lia.
        -- rewrite M1, Ho. cbn [get_loc].
           rewrite <- (length_le_split 16 (vreg s f)) at 2.
           apply load_store_bytes; rewrite ?length_le_split; lia.
        -- intros x Hx. apply Out. lia.
      * intros x Hx. rewrite Out by lia. rewrite M1.
        apply store_bytes_outside; rewrite ?length_le_split; lia.
    + (* stack slot: nothing to spill *)
      cbn [RegSpiller.pd_reg_size] in Hb.
      cbn [RegSpiller.spill_code RegSpiller.pd_reg_size app].
      destruct (IH (off + 0) s orig Ho ltac:(lia) ltac:(lia))
        as (s' & evs & R & C & X & V & S & Hh & Out).
      exists s', evs. repeat (split; [assumption|]).
      split; [cbn [spill_holds RegSpiller.pd_reg_size]; split; [exact I | exact Hh]|].
      intros x Hx. apply Out. lia.
    + (* invalid handle: nothing to spill *)
      cbn [RegSpiller.pd_reg_size] in Hb.
      cbn [RegSpiller.spill_code RegSpiller.pd_reg_size app].
      destruct (IH (off + 0) s orig Ho ltac:(lia) ltac:(lia))
        as (s' & evs & R & C & X & V & S & Hh & Out).
      exists s', evs. repeat (split; [assumption|]).
      split; [cbn [spill_holds RegSpiller.pd_reg_size]; split; [exact I | exact Hh]|].
      intros x Hx. apply Out. lia.
Qed.

Lemma load_bytes_congr m n :
  forall a a', wrap64 a = wrap64 a' -> load_bytes m a n = load_bytes m a' n.
Proof.
  induction n as [|n IH]; intros a a' E; [reflexivity|].
  cbn [load_bytes]. rewrite E. f_equal. apply IH.
  unfold wrap64 in *. rewrite <- (Zplus_mod_idemp_l a), <- (Zplus_mod_idemp_l a').
  now rewrite E.
Qed.

Lemma load_bytes_wrap m a n : load_bytes m (wrap64 a) n = load_bytes m a n.
Proof.
  apply load_bytes_congr. unfold wrap64. apply Z.mod_mod. lia.
Qed.

Lemma get_loc_set_xreg_other s r v reg :
  reg <> VMReg_Register r -> get_loc (set_xreg s r v) reg = get_loc s reg.
Proof.
  intros N. destruct reg as [r'| | |]; try reflexivity.
  cbn [get_loc set_xreg xreg].
  assert (N' : r' <> r) by (intros ->; now apply N).
  apply Register_eqb_neq in N'. now rewrite N'.
Qed.

Lemma get_loc_set_vreg_other s f v reg :
  reg <> VMReg_FloatRegister f -> get_loc (set_vreg s f v) reg = get_loc s reg.
Proof.
  intros N. destruct reg as [|f'| |]; try reflexivity.
  cbn [get_loc set_vreg vreg].
  assert (N' : f' <> f) by (intros ->; now apply N).
  destruct (FloatRegister_eqb f' f) eqn:E; [|reflexivity].
  apply FloatRegister_eqb_eq in E. contradiction.
Qed.

(** Filling reloads every register of the list from its place of the
    region and changes nothing else. *)
Lemma run_fill rest regs :
  forall off s orig,
    spill_holds (mem s) (xreg s sp) off regs orig ->
    orig (VMReg_Register sp) = xreg s sp ->
    (forall r, In (VMReg_Register r) regs -> 0 <= orig (VMReg_Register r) < 2 ^ 64) ->
    (forall f, In (VMReg_FloatRegister f) regs ->
               0 <= orig (VMReg_FloatRegister f) < 2 ^ 128) ->
    exists s',
      runs extern P (RegSpiller.spill_code false off regs ++ rest) s rest s' []
      /\ mem s' = mem s /\ slot s' = slot s
      /\ xreg s' sp = xreg s sp
      /\ (forall r, In (VMReg_Register r) regs ->
                    get_loc s' (VMReg_Register r) = orig (VMReg_Register r))
      /\ (forall f, In (VMReg_FloatRegister f) regs ->
                    get_loc s' (VMReg_FloatRegister f) = orig (VMReg_FloatRegister f))
      /\ (forall reg, ~ In reg regs -> get_loc s' reg = get_loc s reg).
Proof.
  induction regs as [|reg regs IH]; intros off s orig Hh Hsp Rx Rv.
  - exists s. split; [apply runs_refl|]. repeat split; contradiction.
  - cbn [spill_holds] in Hh. destruct Hh as (Hd & Hh).
    destruct reg as [r|f|n|].
    + (* general register *)
      cbn [RegSpiller.spill_code RegSpiller.pd_reg_size app] in *.
      set (v := load s (wrap64 (xreg s sp + off)) 8).
      assert (Ev : v = orig (VMReg_Register r)).
      { unfold v, load. rewrite load_bytes_wrap, Hd, le_combine_split.
        apply Z.mod_small. change (Z.of_nat 8 * 8) with 64. apply Rx. now left. }
      set (s1 := set_xreg s r v).
      assert (Sp1 : xreg s1 sp = xreg s sp).
      { unfold s1. cbn [xreg set_xreg]. destruct (Register_eqb sp r) eqn:E;
          [|reflexivity].
        apply Register_eqb_eq in E. subst r. now rewrite Ev. }
      destruct (IH (off + 8) s1 orig) as (s' & R & M & S & Sp & Gx & Gv & Gf).
      { rewrite Sp1. exact Hh. }
      { now rewrite Sp1. }
      { intros r' Hr'. apply Rx. now right. }
      { intros f' Hf'. apply Rv. now right. }
      exists s'. split.
      { eapply runs_then;
          [apply runs_step; [reflexivity | now rewrite app_nil_r]
          | exact R | reflexivity]. }
      split; [exact M|]. split; [exact S|]. split; [now rewrite Sp|].
      split; [|split].
      * intros r' [E|Hin]; [|now apply Gx].
        inversion E; subst r'.
        destruct (in_dec VMReg_eq_dec (VMReg_Register r) regs) as [Hin|Nin];
          [now apply Gx|].
        rewrite Gf by assumption. unfold s1. cbn [get_loc set_xreg xreg].
        now rewrite Register_eqb_refl.
      * intros f' [E|Hin]; [discriminate E | now apply Gv].
      * intros reg Nin.
        rewrite Gf by (intros X; apply Nin; now right).
        unfold s1. apply get_loc_set_xreg_other. intros ->. apply Nin. now left.
    + (* vector register *)
      cbn [RegSpiller.spill_code RegSpiller.pd_reg_size app] in *.
      set (v := load s (wrap64 (xreg s sp + off)) 16).
      assert (Ev : v = orig (VMReg_FloatRegister f)).
      { unfold v, load. rewrite load_bytes_wrap, Hd, le_combine_split.
        apply Z.mod_small. change (Z.of_nat 16 * 8) with 128. apply Rv. now left. }
      set (s1 := set_vreg s f v).
      destruct (IH (off + 16) s1 orig) as (s' & R & M & S & Sp & Gx & Gv & Gf).
      { exact Hh. }
      { exact Hsp. }
      { intros r' Hr'. apply Rx. now right. }
      { intros f' Hf'. apply Rv. now right. }
      exists s'. split.
      { eapply runs_then;
          [apply runs_step; [reflexivity | now rewrite app_nil_r]
          | exact R | reflexivity]. }
      split; [exact M|]. split; [exact S|]. split; [exact Sp|].
      split; [|split].
      * intros r' [E|Hin]; [discriminate E | now apply Gx].
      * intros f' [E|Hin]; [|now apply Gv].
        inversion E; subst f'.
        destruct (in_dec VMReg_eq_dec (VMReg_FloatRegister f) regs) as [Hin|Nin];
          [now apply Gv|].
        rewrite Gf by assumption. unfold s1. cbn [get_loc set_vreg vreg].
        destruct (FloatRegister_eqb f f) eqn:E'; [exact Ev|].
        assert (X : FloatRegister_eqb f f = true) by now apply FloatRegister_eqb_eq.
        congruence.
      * intros reg Nin.
        rewrite Gf by (intros X; apply Nin; now right).
        unfold s1. apply get_loc_set_vreg_other. intros ->. apply Nin. now left.
    + (* stack slot *)
      cbn [RegSpiller.spill_code RegSpiller.pd_reg_size app] in *.
      destruct (IH (off + 0) s orig Hh Hsp) as (s' & R & M & S & Sp & Gx & Gv & Gf).
      { intros r' Hr'. apply Rx. now right. }
      { intros f' Hf'. apply Rv. now right. }
      exists s'. repeat (split; [assumption|]). split; [|split].
      * intros r' [E|Hin]; [discriminate E | now apply Gx].
      * intros f' [E|Hin]; [discriminate E | now apply Gv].
      * intros reg Nin. apply Gf. intros X. apply Nin. now right.
    + (* invalid handle *)
      cbn [RegSpiller.spill_code RegSpiller.pd_reg_size app] in *.
      destruct (IH (off + 0) s orig Hh Hsp) as (s' & R & M & S & Sp & Gx & Gv & Gf).
      { intros r' Hr'. apply Rx. now right. }
      { intros f' Hf'. apply Rv. now right. }
      exists s'. repeat (split; [assumption|]). split; [|split].
      * intros r' [E|Hin]; [discriminate E | now apply Gx].
      * intros f' [E|Hin]; [discriminate E | now apply Gv].
      * intros reg Nin. apply Gf. intros X. apply Nin. now right.
Qed.

End SpillFill.

Section Detour.

Context `{Runtime}.

Variable extern : Z -> Machine.mstate -> Machine.mstate.

Import NativeInvoker Downcall Machine Traces Spill MemFacts.

Variable P : list insn.

Hypothesis extern_ok : callee_preserves_stack extern.

(** A detour: spill, some items [mid] that make one call and keep the
    stack, fill, branch to [L].  The return locations come back with the
    values they had, and the call of [mid] is the only one. *)
Lemma detour_preserves (mid : list insn) (L : Label) (target : list insn)
    (evc : (Register -> Z) -> event) (outs : list VMReg) (rest0 : list insn) :
  (forall tail s1,
     exists s4,
       runs extern P (mid ++ tail) s1 tail s4 [evc (xreg s1)]
       /\ xreg s4 sp = xreg s1 sp /\ slot s4 = slot s1
       /\ forall a, xreg s1 sp <= a -> mem s4 a = mem s1 a) ->
  (forall x, is_call (evc x) = true) ->
  find_label L P = Some target ->
  forall s,
    (forall reg, In reg outs -> in_range s reg) ->
    0 <= xreg s sp ->
    xreg s sp + RegSpiller.compute_spill_area outs <= 2 ^ 64 ->
    exists s' evs,
      runs extern P
        ((RegSpiller.spill_code true 0 outs ++ mid
          ++ RegSpiller.spill_code false 0 outs ++ [b L]) ++ rest0) s target s' evs
      /\ (forall reg, In reg outs -> get_loc s' reg = get_loc s reg)
      /\ calls_of evs = [evc (xreg s)].
Proof.
  intros Hmid Hcall Hlabel s Hrange H0 Hb.
  replace ((RegSpiller.spill_code true 0 outs ++ mid
            ++ RegSpiller.spill_code false 0 outs ++ [b L]) ++ rest0)
    with (RegSpiller.spill_code true 0 outs
          ++ (mid ++ (RegSpiller.spill_code false 0 outs ++ b L :: rest0)))
    by (repeat (progress (rewrite <- ?app_assoc; cbn [app])); reflexivity).
  destruct (run_spill extern P
              (mid ++ (RegSpiller.spill_code false 0 outs ++ b L :: rest0))
              outs 0 s (get_loc s) (fun _ => eq_refl) ltac:(lia) ltac:(lia))
    as (s1 & e1 & R1 & C1 & X1 & V1 & S1 & Hh & Out1).
  destruct (Hmid (RegSpiller.spill_code false 0 outs ++ b L :: rest0) s1)
    as (s4 & R2 & Sp4 & S4 & M4).
  rewrite X1 in R2, Sp4, M4.
  assert (Hh4 : spill_holds (mem s4) (xreg s4 sp) 0 outs (get_loc s)).
  { rewrite Sp4. apply (spill_holds_ext outs (mem s1)); try lia; [|exact Hh].
    intros x Hx. symmetry. apply M4. lia. }
  destruct (run_fill extern P (b L :: rest0) outs 0 s4 (get_loc s) Hh4)
    as (s5 & R3 & M5 & S5 & Sp5 & Gx & Gv & Gf).
  { cbn [get_loc]. now rewrite Sp4. }
  { intros r Hr. exact (Hrange _ Hr). }
  { intros f Hf. exact (Hrange _ Hf). }
  assert (R4 : runs extern P (b L :: rest0) s5 target s5 []).
  { apply runs_step; [|now rewrite app_nil_r].
    cbn [step]. unfold goto. now rewrite Hlabel. }
  exists s5, (e1 ++ [evc (xreg s)] ++ [] ++ []).
  split; [|split].
  - exact (runs_then extern _ _ _ _ _ _ _ _ _ _ R1
             (runs_then extern _ _ _ _ _ _ _ _ _ _ R2
                (runs_then extern _ _ _ _ _ _ _ _ _ _ R3 R4 eq_refl) eq_refl)
             eq_refl).
  - intros reg Hin. destruct reg as [r|f|n|].
    + now apply Gx.
    + now apply Gv.
    + cbn [get_loc]. now rewrite S5, S4, S1.
    + reflexivity.
  - unfold calls_of in *. rewrite filter_app, C1. cbn [app filter].
    now rewrite Hcall.
Qed.

End Detour.

(** ** The two slow paths *)

Section SlowPaths.

Context `{Runtime}.

Variable extern : Z -> Machine.mstate -> Machine.mstate.

Import NativeInvoker Downcall DowncallShape Machine Traces Spill.

Hypothesis extern_ok : callee_preserves_stack extern.

Lemma check_call_keeps_stack P tail s1 :
  exists s4,
    runs extern P
      ([mov c_rarg0 rthread;
        lea r9 (RuntimeAddress check_special_condition_for_native_trans);
        blr r9] ++ tail) s1 tail s4
      [Ev_call (entry_address check_special_condition_for_native_trans)
         (xreg s1 rthread)]
    /\ xreg s4 sp = xreg s1 sp /\ slot s4 = slot s1
    /\ forall a, xreg s1 sp <= a -> mem s4 a = mem s1 a.
Proof.
  set (s3 := set_xreg (set_xreg s1 c_rarg0 (xreg s1 rthread)) r9
               (entry_address check_special_condition_for_native_trans)).
  destruct (extern_ok (entry_address check_special_condition_for_native_trans) s3)
    as (Esp & Eslot & Emem).
  exists (call extern (entry_address check_special_condition_for_native_trans) s3).
  split; [exists 3%nat; split; reflexivity|].
  unfold call. cbn [xreg slot mem set_trace].
  split; [exact Esp|]. split; [exact Eslot|]. exact Emem.
Qed.

Lemma reguard_call_keeps_stack P tail s1 :
  exists s4,
    runs extern P ([rt_call reguard_yellow_pages r9] ++ tail) s1 tail s4
      [Ev_call (entry_address reguard_yellow_pages) (xreg s1 c_rarg0)]
    /\ xreg s4 sp = xreg s1 sp /\ slot s4 = slot s1
    /\ forall a, xreg s1 sp <= a -> mem s4 a = mem s1 a.
Proof.
  set (s3 := set_xreg s1 r9 (entry_address reguard_yellow_pages)).
  destruct (extern_ok (entry_address reguard_yellow_pages) s3)
    as (Esp & Eslot & Emem).
  exists (call extern (entry_address reguard_yellow_pages) s3).
  split; [exists 1%nat; split; reflexivity|].
  unfold call. cbn [xreg slot mem set_trace].
  split; [exact Esp|]. split; [exact Eslot|]. exact Emem.
Qed.

(** C8: in a generated stub each slow path is: spill the return locations
    at offset 0, one call (the special-condition check with the thread as
    argument, or the reguard service), fill from offset 0, branch back (to
    the store of the managed state, or to the point after the reguard
    check).  For services that keep the caller's stack, the return
    locations hold after the detour the values they held before it. *)
Theorem C8_slow_paths_preserve_results :
  forall g r code,
    Masm.run (generate g) = Some (r, code) ->
    let outs := _output_registers g in
    find_label L_safepoint_poll_slow_path code = Some (at_safepoint_poll_slow_path outs)
    /\ find_label L_after_safepoint_poll code = Some (at_after_safepoint_poll outs)
    /\ find_label L_reguard code = Some (at_reguard outs)
    /\ find_label L_after_reguard code = Some (at_after_reguard outs)
    /\ forall s,
         (forall reg, In reg outs -> in_range s reg) ->
         0 <= xreg s sp ->
         xreg s sp + RegSpiller.spill_size_bytes (RegSpiller.new outs) <= 2 ^ 64 ->
         (exists s' evs,
            runs extern code (at_safepoint_poll_slow_path outs) s
              (at_after_safepoint_poll outs) s' evs
            /\ (forall reg, In reg outs -> get_loc s' reg = get_loc s reg)
            /\ calls_of evs
               = [Ev_call (entry_address check_special_condition_for_native_trans)
                    (xreg s rthread)])
         /\ (exists s' evs,
               runs extern code (at_reguard outs) s (at_after_reguard outs) s' evs
               /\ (forall reg, In reg outs -> get_loc s' reg = get_loc s reg)
               /\ calls_of evs
                  = [Ev_call (entry_address reguard_yellow_pages) (xreg s c_rarg0)]).
Proof.
  intros g r code Hrun outs.
  destruct (generate_inv g r code Hrun)
    as (a & unpack & Sh & U & _ & _ & _ & _ & -> & _).
  destruct (unpack_code_safe _ _ U) as (Us & Ub).
  pose proof (label_safepoint_poll_slow_path (insts_begin (_buffer g))
                (computed_framesize g a) (Shuffle._moves a) unpack outs Ub) as LS.
  pose proof (label_after_safepoint_poll (insts_begin (_buffer g))
                (computed_framesize g a) (Shuffle._moves a) unpack outs Ub) as LJ.
  pose proof (label_reguard (insts_begin (_buffer g))
                (computed_framesize g a) (Shuffle._moves a) unpack outs Ub) as LR.
  pose proof (label_after_reguard (insts_begin (_buffer g))
                (computed_framesize g a) (Shuffle._moves a) unpack outs Ub) as LE.
  split; [exact LS|]. split; [exact LJ|]. split; [exact LR|]. split; [exact LE|].
  intros s Hrange H0 Hb.
  unfold RegSpiller.spill_size_bytes in Hb.
  cbn [RegSpiller._spill_size_bytes RegSpiller.new] in Hb.
  split.
  - unfold at_safepoint_poll_slow_path, seg_poll_slow_body.
    apply (detour_preserves extern _
             [mov c_rarg0 rthread;
              lea r9 (RuntimeAddress check_special_condition_for_native_trans);
              blr r9]
             L_after_safepoint_poll (at_after_safepoint_poll outs)
             (fun x => Ev_call (entry_address check_special_condition_for_native_trans)
                         (x rthread)));
      try assumption; [|reflexivity].
    intros tail s1. apply check_call_keeps_stack.
  - unfold at_reguard, seg_reguard_body.
    apply (detour_preserves extern _
             [rt_call reguard_yellow_pages r9]
             L_after_reguard (at_after_reguard outs)
             (fun x => Ev_call (entry_address reguard_yellow_pages) (x c_rarg0)));
      try assumption; [|reflexivity].
    intros tail s1. apply reguard_call_keeps_stack.
Qed.

End SlowPaths.

Lemma C8_slow_paths_preserve_results_witness :
  exists r code,
    Masm.run (@NativeInvoker.generate Examples.example_runtime Examples.swap_generator)
      = Some (r, code)
    /\ Spill.callee_preserves_stack AdapterExamples.clobbering_callee
    /\ exists s' evs,
         Traces.runs (H := Examples.example_runtime)
           AdapterExamples.clobbering_callee code
           (Downcall.at_reguard [VMReg_Register r0]) AdapterExamples.entry_state
           (Downcall.at_after_reguard [VMReg_Register r0]) s' evs
         /\ Machine.get_loc s' (VMReg_Register r0) = 4096.
Proof.
  eexists. eexists. split; [vm_compute; reflexivity|].
  assert (C : Spill.callee_preserves_stack AdapterExamples.clobbering_callee).
  { intros target s. split; [reflexivity|]. split; [reflexivity|].
    intros a _. reflexivity. }
  split; [exact C|].
  destruct (@C8_slow_paths_preserve_results Examples.example_runtime
              AdapterExamples.clobbering_callee C Examples.swap_generator _ _ eq_refl)
    as (_ & _ & _ & _ & Hs).
  destruct (Hs AdapterExamples.entry_state) as (_ & (s' & evs & Hr & Hp & _)).
  - intros reg [<-|[]]. cbn. lia.
  - cbn. lia.
  - cbn. lia.
  - exists s', evs. split; [exact Hr|].
    rewrite (Hp (VMReg_Register r0) (or_introl eq_refl)). reflexivity.
Defined.

(** * Further properties of the two generators *)

(** ** When generation aborts *)

Section AdapterAssertions.

Import ProgrammableInvoker Adapter.

(** X1: the adapter generator aborts exactly when the ABI's stack alignment
    is not a multiple of 16 bytes or the ABI asks for shadow space; the
    check that the stub's working registers are distinct never fires.
    Otherwise it produces the code of the stub. *)
Theorem generate_adapter_aborts_iff :
  forall abi layout,
    generate_adapter abi layout = None
    <-> (Z.rem (_stack_alignment_bytes abi) 16 <> 0 \/ _shadow_space_bytes abi <> 0).
Proof.
  intros abi layout. split.
  - intros E.
    destruct (Z.eq_dec (Z.rem (_stack_alignment_bytes abi) 16) 0) as [A1|A1];
      [|now left].
    destruct (Z.eq_dec (_shadow_space_bytes abi) 0) as [A2|A2]; [|now right].
    exfalso. revert E.
    unfold generate_adapter, Masm.run, generate.
    unfold bnd, emit, assert.
    change (assert_different_registers [Rctx; Rstack_size; rscratch1; rscratch2])
      with true. cbv beta iota.
    apply Z.eqb_eq in A1, A2. rewrite A1.
    rewrite for_each_emit_unfolded. cbv beta iota.
    rewrite for_each_emit_unfolded. cbv beta iota.
    rewrite A2.
    rewrite for_each_emit_unfolded. cbv beta iota.
    rewrite for_each_emit_unfolded. cbv beta iota.
    discriminate.
  - intros D. destruct (generate_adapter abi layout) as [P|] eqn:E; [|reflexivity].
    destruct (generate_adapter_inv abi layout P E) as (A1 & A2 & _).
    destruct D as [D|D]; contradiction.
Qed.

End AdapterAssertions.

Section DowncallAssertions.

Context `{Runtime}.

Import NativeInvoker Downcall DowncallShape.

Lemma contains_In l v : contains l v = true <-> In v l.
Proof.
  unfold contains. rewrite existsb_exists. split.
  - intros (x & Hx & E). apply VMReg_eqb_eq in E. now subst x.
  - intros Hv. exists v. split; [assumption | apply VMReg_eqb_refl].
Qed.

Lemma target_uses_register_In g reg :
  target_uses_register g reg = false
  <-> ~ In reg (_input_registers g ++ _output_registers g).
Proof.
  unfold target_uses_register. rewrite orb_false_iff, in_app_iff.
  rewrite <- !contains_In.
  destruct (contains (_input_registers g) reg),
           (contains (_output_registers g) reg); intuition congruence.
Qed.

Lemma unpack_code_accepted bt :
  unpack_code bt <> None <-> declared_adjustment bt <> Not_accepted.
Proof. destruct bt; unfold unpack_code; cbn; split; congruence. Qed.

(** Once the other assertions hold, generation goes through exactly when
    the platform has no register save area. *)
Lemma generate_succeeds g a unpack :
  target_uses_register g (as_VMReg r9) = false ->
  target_uses_register g (as_VMReg r10) = false ->
  target_uses_register g (as_VMReg rthread) = false ->
  the_shuffle g = Some a ->
  NativeInvoker._shadow_space_bytes g = 0 ->
  unpack_code (_ret_bt g) = Some unpack ->
  exists r code,
    Masm.run (generate g)
    = if arg_reg_save_area_bytes =? 0 then Some (r, code) else None.
Proof.
  intros A1 A2 A3 Sh A4 U.
  unfold Masm.run, generate.
  unfold bnd at 1. unfold assert at 1. rewrite A1. cbn [negb].
  unfold bnd at 1. unfold assert at 1. rewrite A2. cbn [negb].
  unfold bnd at 1. unfold assert at 1. rewrite A3. cbn [negb].
  unfold bnd at 1. unfold lift at 1.
  fold (the_shuffle g). rewrite Sh.
  unfold bnd at 1. unfold assert at 1.
  apply Z.eqb_eq in A4. rewrite A4.
  fold (computed_framesize g a).
  unfold bnd at 1. unfold assert at 1.
  rewrite (is_even_quot2 _ (computed_framesize_mod4 g a)).
  unfold Shuffle.generate, RegSpiller.generate_spill, RegSpiller.generate_fill.
  unfold bnd, emit, pc, emit_all, pure, assert.
  cbv beta iota.
  rewrite unpack_native_result_code. rewrite U.
  cbv beta iota delta [option_map].
  destruct (arg_reg_save_area_bytes =? 0).
  - eexists. eexists. reflexivity.
  - exists {| _frame_complete := 0; _framesize := 0; _oop_maps := [] |}, [].
    reflexivity.
Qed.

(** X2: [make_native_invoker] returns a stub exactly when the output
    registers pass the constructor's check, none of r9, r10 and the thread
    register is among the input or output registers, the planner returns a
    move program, no shadow space is asked for, the return type is one the
    unpacking switch accepts, and the platform has no register save area.
    In particular the stack-alignment assertion on the frame size never
    fires. *)
Theorem make_native_invoker_succeeds_iff :
  forall buffer signature num_args ret_bt shadow ins outs,
    (exists stub, make_native_invoker buffer signature num_args ret_bt shadow
                    ins outs = Some stub)
    <-> ((length outs <= 1)%nat \/ (exists a, outs = [a; VMReg_Bad]))
        /\ (forall reg, In reg [as_VMReg r9; as_VMReg r10; as_VMReg rthread] ->
                        ~ In reg (ins ++ outs))
        /\ Shuffle.new_ArgumentShuffle signature num_args JavaCallConv
             (DowncallNativeCallConv ins (as_VMReg r9)) (as_VMReg r19) <> None
        /\ shadow = 0
        /\ declared_adjustment ret_bt <> Not_accepted
        /\ arg_reg_save_area_bytes = 0.
Proof.
  intros buffer signature num_args ret_bt shadow ins outs.
  unfold make_native_invoker, new_NativeInvokerGenerator.
  set (g := {| _buffer := buffer; _signature := signature; _num_args := num_args;
               _ret_bt := ret_bt; NativeInvoker._shadow_space_bytes := shadow;
               _input_registers := ins; _output_registers := outs |}).
  assert (Hc : (length outs <=? 1)%nat
               || (length outs =? 2)%nat && negb (is_valid (nth 1 outs VMReg_Bad))
               = true
               <-> ((length outs <= 1)%nat \/ (exists a, outs = [a; VMReg_Bad]))).
  { destruct outs as [|x [|y [|z outs']]]; cbn.
    - split; [intros _; left; lia | reflexivity].
    - split; [intros _; left; lia | reflexivity].
    - destruct y; cbn; split; try discriminate;
        try (intros [L|(a0 & E)]; [lia | discriminate E]).
      + intros _. right. now exists x.
      + reflexivity.
    - split; [discriminate|]. intros [L|(a0 & E)]; [lia | discriminate E]. }
  split.
  - intros (stub & E).
    destruct ((length outs <=? 1)%nat
              || (length outs =? 2)%nat && negb (is_valid (nth 1 outs VMReg_Bad)))
      eqn:C; [|discriminate E].
    destruct (Masm.run (generate g)) as [[r code]|] eqn:G; [|discriminate E].
    destruct (generate_inv g r code G)
      as (a & unpack & Sh & U & A1 & A2 & A3 & A4 & _ & _).
    split; [now apply Hc|]. split.
    { intros reg [<-|[<-|[<-|[]]]].
      - now apply (target_uses_register_In g).
      - now apply (target_uses_register_In g).
      - now apply (target_uses_register_In g). }
    split; [unfold the_shuffle in Sh; cbn in Sh; now rewrite Sh|].
    split; [exact A4|].
    split; [apply unpack_code_accepted; cbn in U; now rewrite U|].
    destruct (generate_succeeds g a unpack A1 A2 A3 Sh A4 U) as (r' & code' & G').
    rewrite G in G'.
    destruct (arg_reg_save_area_bytes =? 0) eqn:A6; [|discriminate G'].
    now apply Z.eqb_eq.
  - intros (C & Hregs & Sh & A4 & U & A6).
    apply Hc in C. rewrite C.
    destruct (Shuffle.new_ArgumentShuffle signature num_args JavaCallConv
                (DowncallNativeCallConv ins (as_VMReg r9)) (as_VMReg r19))
      as [a|] eqn:Sh'; [|congruence].
    apply unpack_code_accepted in U.
    destruct (unpack_code ret_bt) as [unpack|] eqn:U'; [|congruence].
    destruct (generate_succeeds g a unpack) as (r & code & G); try assumption.
    + apply target_uses_register_In. apply Hregs. now left.
    + apply target_uses_register_In. apply Hregs. right. now left.
    + apply target_uses_register_In. apply Hregs. right. right. now left.
    + rewrite G. apply Z.eqb_eq in A6. rewrite A6. eexists. reflexivity.
Qed.

End DowncallAssertions.


(** ** What the stub record says about the frame *)

Section StubRecord.

Context `{Runtime}.

Import NativeInvoker Downcall DowncallShape.

Lemma make_native_invoker_inv buffer signature num_args ret_bt shadow ins outs stub :
  make_native_invoker buffer signature num_args ret_bt shadow ins outs = Some stub ->
  exists g r,
    new_NativeInvokerGenerator buffer signature num_args ret_bt shadow ins outs
      = Some g
    /\ Masm.run (generate g) = Some (r, stub_code stub)
    /\ stub_frame_complete stub = frame_complete r
    /\ stub_frame_size stub = framesize r
    /\ stub_oop_maps stub = oop_maps r.
Proof.
  unfold make_native_invoker.
  destruct (new_NativeInvokerGenerator _ _ _ _ _ _ _) as [g|]; [|discriminate].
  destruct (Masm.run (generate g)) as [[r code]|] eqn:G; [|discriminate].
  intros E. inversion E; subst stub; clear E. cbn.
  exists g, r. split; [reflexivity|]. split; [exact G|]. repeat split.
Qed.

(** X3: in the stub [make_native_invoker] returns, the frame size handed
    to the runtime is in words: it is half the slot count the collector map
    records, and it is even, so the frame is a multiple of 16 bytes.  The
    offset at which the frame is complete is the size of the two prologue
    items, and the one collector map is keyed at that same offset. *)
Theorem stub_frame_record :
  forall buffer signature num_args ret_bt shadow ins outs stub,
    make_native_invoker buffer signature num_args ret_bt shadow ins outs = Some stub ->
    exists map imm post,
      stub_oop_maps stub = [(stub_frame_complete stub, map)]
      /\ oop_frame_size map = 2 * stub_frame_size stub
      /\ stub_frame_size stub mod 2 = 0
      /\ stub_code stub = enter :: sub_imm sp rfp imm :: post
      /\ stub_frame_complete stub = insn_size enter + insn_size (sub_imm sp rfp imm).
Proof.
  intros buffer signature num_args ret_bt shadow ins outs stub E.
  destruct (make_native_invoker_inv _ _ _ _ _ _ _ _ E)
    as (g & r & _ & G & -> & -> & ->).
  destruct (generate_inv g r _ G) as (a & unpack & _ & _ & _ & _ & _ & _ & -> & ->).
  pose proof (computed_framesize_mod4 g a) as M.
  apply Z.mod_divide in M; [|lia]. destruct M as (q & Eq).
  unfold oop_maps, frame_complete, framesize, LogBytesPerWord, LogBytesPerInt.
  cbn [_oop_maps _frame_complete _framesize].
  change (3 - 2) with 1. rewrite Z.shiftr_div_pow2 by lia. change (2 ^ 1) with 2.
  exists (new_OopMap (computed_framesize g a) 0).
  eexists. eexists.
  split; [reflexivity|]. cbn [oop_frame_size new_OopMap].
  rewrite Eq. replace (q * 4) with (2 * q * 2) by lia. rewrite Z.div_mul by lia.
  split; [lia|]. split; [rewrite Z.mul_comm; apply Z.mod_mul; lia|].
  split; [unfold downcall_code, seg_prologue; cbn [app]; reflexivity|].
  unfold seg_prologue, code_size. cbn [fold_right]. lia.
Qed.

End StubRecord.

Lemma stub_frame_record_witness :
  exists stub map,
    @NativeInvoker.make_native_invoker Examples.example_runtime
      {| insts_begin := 4096 |} [T_INT; T_INT] 2 T_INT 0
      [VMReg_Register (X 2); VMReg_Register (X 1)] [VMReg_Register r0] = Some stub
    /\ NativeInvoker.stub_oop_maps stub = [(12, map)]
    /\ NativeInvoker.stub_frame_complete stub = 12
    /\ NativeInvoker.stub_frame_size stub = 4.
Proof.
  destruct (@NativeInvoker.make_native_invoker Examples.example_runtime
              {| insts_begin := 4096 |} [T_INT; T_INT] 2 T_INT 0
              [VMReg_Register (X 2); VMReg_Register (X 1)] [VMReg_Register r0])
    as [stub|] eqn:E; [|vm_compute in E; discriminate E].
  destruct (@stub_frame_record Examples.example_runtime _ _ _ _ _ _ _ stub E)
    as (map & imm & post & Hm & _ & _ & _ & _).
  exists stub, map.
  split; [reflexivity|].
  assert (F : NativeInvoker.stub_frame_complete stub = 12
              /\ NativeInvoker.stub_frame_size stub = 4).
  { vm_compute in E. inversion E; subst stub. split; reflexivity. }
  destruct F as (F1 & F2).
  split; [rewrite Hm, F1; reflexivity|]. split; assumption.
Defined.

(** ** The frame the prologue sets up *)

Section Prologue.

Context `{Runtime}.

Variable extern : Z -> Machine.mstate -> Machine.mstate.

Import NativeInvoker Downcall DowncallShape Machine MemFacts.

Lemma prologue_imm fs :
  4 <= fs < 2 ^ 30 ->
  wrap32 (Z.shiftl (wrap32 (fs - 4)) LogBytesPerInt) = 4 * (fs - 4).
Proof.
  intros Hfs. unfold wrap32, LogBytesPerInt.
  rewrite (Z.mod_small (_ - 4)) by lia.
  rewrite Z.shiftl_mul_pow2 by lia. rewrite Z.mod_small; lia.
Qed.

Lemma compute_spill_area_mod8 regs : RegSpiller.compute_spill_area regs mod 8 = 0.
Proof.
  induction regs as [|reg l IH]; [reflexivity|].
  change (RegSpiller.compute_spill_area (reg :: l))
    with (RegSpiller.pd_reg_size reg + RegSpiller.compute_spill_area l).
  rewrite Z.add_mod by lia. rewrite IH. destruct reg; reflexivity.
Qed.

(** [enter] and the subtraction: the frame pointer/link pair is pushed,
    the frame pointer points at it, and the stack pointer is [4 * fs]
    bytes below its value on entry. *)
Lemma run_prologue P fs rest s :
  4 <= fs < 2 ^ 30 ->
  4 * fs <= xreg s sp < 2 ^ 64 ->
  exists s',
    run extern 2 P (seg_prologue fs ++ rest) s = Next rest s'
    /\ xreg s' sp = xreg s sp - 4 * fs
    /\ xreg s' rfp = xreg s sp - 16
    /\ (forall r, r <> sp -> r <> rfp -> xreg s' r = xreg s r)
    /\ load_bytes (mem s') (xreg s sp - 16) 8 = le_split 8 (xreg s rfp)
    /\ load_bytes (mem s') (xreg s sp - 8) 8 = le_split 8 (xreg s lr)
    /\ (forall x, x < xreg s sp - 16 \/ xreg s sp <= x -> mem s' x = mem s x)
    /\ vreg s' = vreg s /\ slot s' = slot s.
Proof.
  intros Hfs Hsp. eexists. split; [reflexivity|].
  rewrite (prologue_imm fs Hfs).
  unfold store, log, set_trace, set_mem, wordSize.
  cbn [xreg vreg slot mem set_xreg Register_eqb rfp sp lr r29 r30 Nat.eqb].
  rewrite !(wrap64_small (xreg s sp - 2 * 8)) by lia.
  split; [rewrite wrap64_small; lia|]. split; [lia|]. split.
  { intros r N1 N2. apply Register_eqb_neq in N1, N2.
    fold sp rfp r29. now rewrite N1, N2. }
  replace (xreg s sp - 2 * 8) with (xreg s sp - 16) by lia.
  replace (xreg s sp - 16 + 8) with (xreg s sp - 8) by lia.
  split.
  { rewrite (load_bytes_ext 8 _ (store_bytes (mem s) (xreg s sp - 16)
                                   (le_split 8 (xreg s rfp)))); try lia.
    - rewrite <- (length_le_split 8 (xreg s rfp)) at 2.
      apply load_store_bytes; rewrite ?length_le_split; lia.
    - intros x Hx. apply store_bytes_outside; rewrite ?length_le_split; lia. }
  split.
  { rewrite <- (length_le_split 8 (xreg s lr)) at 2.
    apply load_store_bytes; rewrite ?length_le_split; lia. }
  split; [|split; reflexivity].
  intros x Hx.
  rewrite !store_bytes_outside; rewrite ?length_le_split; try lia. reflexivity.
Qed.

(** X4: the frame size handed to the runtime describes the frame the
    stub really sets up.  Running a generated stub up to the point where
    its frame is complete pushes the caller's frame pointer and return
    address, leaves the frame pointer pointing at that pair, and leaves the
    stack pointer exactly [framesize()] words below its value on entry; an
    entry stack pointer aligned to 16 bytes stays aligned. *)
Theorem prologue_builds_the_frame :
  forall g r code s,
    Masm.run (generate g) = Some (r, code) ->
    4 <= _framesize r < 2 ^ 30 ->
    wordSize * framesize r <= xreg s sp < 2 ^ 64 ->
    0 <= xreg s rfp < 2 ^ 64 ->
    0 <= xreg s lr < 2 ^ 64 ->
    exists pro rest s',
      code = pro ++ rest
      /\ code_size pro = frame_complete r
      /\ run extern (length pro) code code s = Next rest s'
      /\ xreg s' sp = xreg s sp - wordSize * framesize r
      /\ xreg s' rfp = xreg s sp - 2 * wordSize
      /\ load s' (xreg s' rfp) 8 = xreg s rfp
      /\ load s' (xreg s' rfp + wordSize) 8 = xreg s lr
      /\ (xreg s sp mod 16 = 0 -> xreg s' sp mod 16 = 0).
Proof.
  intros g r code s Hrun Hfs Hsp Hfp Hlr.
  destruct (generate_inv g r code Hrun)
    as (a & unpack & _ & _ & _ & _ & _ & _ & -> & ->).
  cbn [_framesize] in Hfs.
  pose proof (computed_framesize_mod4 g a) as M.
  apply Z.mod_divide in M; [|lia]. destruct M as (q & Eq).
  assert (Ew : wordSize * framesize
                 {| _frame_complete := code_size (seg_prologue (computed_framesize g a));
                    _framesize := computed_framesize g a;
                    _oop_maps := [(code_size (seg_prologue (computed_framesize g a)),
                                   new_OopMap (computed_framesize g a) 0)] |}
               = 4 * computed_framesize g a).
  { unfold framesize, wordSize, LogBytesPerWord, LogBytesPerInt. cbn [_framesize].
    change (3 - 2) with 1. rewrite Z.shiftr_div_pow2 by lia. change (2 ^ 1) with 2.
    rewrite Eq. replace (q * 4) with (2 * q * 2) by lia. rewrite Z.div_mul by lia.
    lia. }
  rewrite Ew in *. clear Ew.
  unfold downcall_code.
  set (rest := seg_to_native _ ++ _).
  destruct (run_prologue (seg_prologue (computed_framesize g a) ++ rest)
              (computed_framesize g a) rest s Hfs Hsp)
    as (s' & Hr & Rsp & Rfp & _ & Mfp & Mlr & _).
  exists (seg_prologue (computed_framesize g a)), rest, s'.
  split; [reflexivity|]. split; [reflexivity|]. split; [exact Hr|].
  split; [exact Rsp|]. unfold wordSize. split; [rewrite Rfp; lia|].
  rewrite Rfp. unfold load.
  replace (xreg s sp - 16 + 8) with (xreg s sp - 8) by lia.
  rewrite Mfp, Mlr, !le_combine_split.
  change (Z.of_nat 8 * 8) with 64.
  split; [apply Z.mod_small; lia|]. split; [apply Z.mod_small; lia|].
  intros Al. rewrite Rsp, Eq.
  replace (xreg s sp - 4 * (q * 4)) with (xreg s sp + (- q) * 16) by lia.
  now rewrite Z.mod_add by lia.
Qed.

(** X5: the frame has room, below the pushed frame pointer/link pair, for
    the out-argument area and the spill region of the return locations:
    the slow paths' spills at offset 0 from the stack pointer stay below
    the pair. *)
Theorem frame_holds_spill_and_out_args :
  forall g r code a s,
    Masm.run (generate g) = Some (r, code) ->
    the_shuffle g = Some a ->
    let spill := RegSpiller.spill_size_bytes (RegSpiller.new (_output_registers g)) in
    let slots := Shuffle.out_arg_stack_slots a in
    framesize_base + spill / 4 + slots + 3 < 2 ^ 30 ->
    wordSize * framesize r <= xreg s sp < 2 ^ 64 ->
    exists rest s',
      run extern 2 code code s = Next rest s'
      /\ 0 <= xreg s' sp
      /\ xreg s' sp + 4 * slots + spill <= xreg s' rfp.
Proof.
  intros g r code a s Hrun Sh spill slots Hb Hsp.
  destruct (generate_inv g r code Hrun)
    as (a' & unpack & Sh' & _ & _ & _ & _ & _ & -> & ->).
  rewrite Sh in Sh'. inversion Sh'; subst a'; clear Sh'.
  pose proof (compute_spill_area_nonneg (_output_registers g)) as Hs.
  pose proof (stack_slots_needed_nonneg (out_regs g)) as Hn.
  pose proof (the_shuffle_slots g a Sh) as Esl.
  assert (Hsl : 0 <= slots).
  { unfold slots. rewrite Esl. apply Z.mul_nonneg_nonneg; [lia|].
    apply Z.div_pos; lia. }
  assert (S8 : spill mod 8 = 0).
  { apply compute_spill_area_mod8. }
  assert (S0 : 0 <= spill) by exact Hs.
  assert (S4 : spill = 4 * (spill / 4)).
  { pose proof (Z.div_mod spill 8 ltac:(lia)) as D. rewrite S8 in D.
    rewrite D at 2. replace (8 * (spill / 8) + 0) with (2 * (spill / 8) * 4) by lia.
    rewrite Z.div_mul by lia. lia. }
  assert (Q0 : 0 <= spill / 4) by (apply Z.div_pos; lia).
  assert (Efs : computed_framesize g a
                = 4 * ((framesize_base + spill / 4 + slots + 3) / 4)).
  { unfold computed_framesize, framesize_base, LogBytesPerInt in *.
    fold spill slots.
    rewrite Z.shiftr_div_pow2 by lia. change (2 ^ 2) with 4.
    rewrite (int32_small (4 + _)) by lia.
    rewrite (int32_small (4 + _ + _)) by lia.
    rewrite align_up_4.
    assert (0 <= (4 + spill / 4 + slots + 3) / 4) by (apply Z.div_pos; lia).
    assert (4 * ((4 + spill / 4 + slots + 3) / 4) <= 4 + spill / 4 + slots + 3)
      by (apply Z.mul_div_le; lia).
    apply int32_small. lia. }
  unfold framesize_base in *.
  set (t := 4 + spill / 4 + slots) in *.
  assert (T1 : t <= 4 * ((t + 3) / 4) <= t + 3).
  { pose proof (Z.div_mod (t + 3) 4 ltac:(lia)).
    pose proof (Z.mod_pos_bound (t + 3) 4 ltac:(lia)). lia. }
  assert (Hfs : 4 <= computed_framesize g a < 2 ^ 30) by (unfold t in *; lia).
  assert (Ew : wordSize * framesize
                 {| _frame_complete := code_size (seg_prologue (computed_framesize g a));
                    _framesize := computed_framesize g a;
                    _oop_maps := [(code_size (seg_prologue (computed_framesize g a)),
                                   new_OopMap (computed_framesize g a) 0)] |}
               = 4 * computed_framesize g a).
  { unfold framesize, wordSize, LogBytesPerWord, LogBytesPerInt. cbn [_framesize].
    change (3 - 2) with 1. rewrite Z.shiftr_div_pow2 by lia. change (2 ^ 1) with 2.
    rewrite Efs. replace (4 * ((t + 3) / 4)) with (2 * ((t + 3) / 4) * 2) by lia.
    rewrite Z.div_mul by lia. lia. }
  rewrite Ew in Hsp. clear Ew.
  unfold downcall_code.
  set (rest := seg_to_native _ ++ _).
  destruct (run_prologue (seg_prologue (computed_framesize g a) ++ rest)
              (computed_framesize g a) rest s Hfs Hsp)
    as (s' & Hr & Rsp & Rfp & _).
  exists rest, s'. split; [exact Hr|]. rewrite Rsp, Rfp.
  split; [lia|]. unfold t in *. lia.
Qed.

End Prologue.

Lemma prologue_builds_the_frame_witness :
  exists r code,
    Masm.run (@NativeInvoker.generate Examples.example_runtime Examples.swap_generator)
      = Some (r, code)
    /\ NativeInvoker.framesize r = 4
    /\ exists pro rest s',
         code = pro ++ rest
         /\ Machine.run (H := Examples.example_runtime)
              AdapterExamples.clobbering_callee (length pro) code code
              AdapterExamples.entry_state = Machine.Next rest s'
         /\ Machine.xreg s' sp = 65536 - 32
         /\ Machine.load s' (Machine.xreg s' rfp) 8 = 65600.
Proof.
  destruct (Masm.run (@NativeInvoker.generate Examples.example_runtime
                        Examples.swap_generator)) as [[r code]|] eqn:G;
    [|vm_compute in G; discriminate G].
  assert (F : NativeInvoker._framesize r = 8).
  { destruct (@DowncallShape.generate_inv Examples.example_runtime _ _ _ G)
      as (a & u & Sh & _ & _ & _ & _ & _ & _ & ->).
    cbn [NativeInvoker._framesize]. vm_compute in Sh.
    inversion Sh; subst a. reflexivity. }
  assert (F' : NativeInvoker.framesize r = 4)
    by (unfold NativeInvoker.framesize; rewrite F; reflexivity).
  exists r, code. split; [reflexivity|]. split; [exact F'|].
  assert (Esp : Machine.xreg AdapterExamples.entry_state sp = 65536) by reflexivity.
  assert (Efp : Machine.xreg AdapterExamples.entry_state rfp = 65600) by reflexivity.
  assert (Elr : Machine.xreg AdapterExamples.entry_state lr = 0) by reflexivity.
  destruct (@prologue_builds_the_frame Examples.example_runtime
              AdapterExamples.clobbering_callee Examples.swap_generator r code
              AdapterExamples.entry_state G)
    as (pro & rest & s' & Ec & _ & Hr & Rsp & _ & Mfp & _).
  - rewrite F. lia.
  - rewrite F', Esp. unfold wordSize. lia.
  - rewrite Efp. lia.
  - rewrite Elr. lia.
  - exists pro, rest, s'. split; [exact Ec|]. split; [exact Hr|].
    rewrite Rsp, F', Esp, Mfp, Efp. unfold wordSize. split; reflexivity.
Defined.

Lemma frame_holds_spill_and_out_args_witness :
  exists r code a,
    Masm.run (@NativeInvoker.generate Examples.example_runtime Examples.swap_generator)
      = Some (r, code)
    /\ @Downcall.the_shuffle Examples.example_runtime Examples.swap_generator = Some a
    /\ exists rest s',
         Machine.run (H := Examples.example_runtime)
           AdapterExamples.clobbering_callee 2 code code AdapterExamples.entry_state
         = Machine.Next rest s'
         /\ Machine.xreg s' sp + 8 <= Machine.xreg s' rfp.
Proof.
  destruct (Masm.run (@NativeInvoker.generate Examples.example_runtime
                        Examples.swap_generator)) as [[r code]|] eqn:G;
    [|vm_compute in G; discriminate G].
  destruct (@DowncallShape.generate_inv Examples.example_runtime _ _ _ G)
    as (a & u & Sh & _ & _ & _ & _ & _ & _ & Er).
  assert (Ea : Shuffle.out_arg_stack_slots a = 0).
  { pose proof Sh as Sh'. vm_compute in Sh'. inversion Sh'; subst a. reflexivity. }
  assert (F' : NativeInvoker.framesize r = 4).
  { rewrite Er. unfold NativeInvoker.framesize. cbn [NativeInvoker._framesize].
    pose proof Sh as Sh'. vm_compute in Sh'. inversion Sh'; subst a. reflexivity. }
  assert (Esp : Machine.xreg AdapterExamples.entry_state sp = 65536) by reflexivity.
  assert (Es : RegSpiller.spill_size_bytes
                 (RegSpiller.new
                    (NativeInvoker._output_registers Examples.swap_generator)) = 8)
    by reflexivity.
  exists r, code, a. split; [reflexivity|]. split; [exact Sh|].
  destruct (@frame_holds_spill_and_out_args Examples.example_runtime
              AdapterExamples.clobbering_callee Examples.swap_generator r code a
              AdapterExamples.entry_state G Sh)
    as (rest & s' & Hr & _ & Hfit).
  - rewrite Es, Ea. unfold NativeInvoker.framesize_base. cbn. lia.
  - rewrite F', Esp. unfold wordSize. lia.
  - exists rest, s'. split; [exact Hr|]. rewrite Es, Ea in Hfit. lia.
Defined.

(** ** The adapter: argument registers, return registers, and the return *)

Section AdapterRegisters.

Context `{Runtime}.

Variable extern : Z -> Machine.mstate -> Machine.mstate.

Import ProgrammableInvoker Adapter Machine MemFacts.

Variable P : list insn.

(** The vector argument loads, register by register. *)
Lemma run_load_vector_values layout rest :
  forall l i s,
    NoDup l ->
    exists s',
      run extern (length l) P
        (mapi (fun i reg =>
                 ldrq reg (Address_disp Rctx
                   (int64 (arguments_vector layout + i * float_reg_size)))) i l
           ++ rest) s = Next rest s'
      /\ xreg s' = xreg s /\ mem s' = mem s /\ trace s' = trace s
      /\ (forall f, ~ In f l -> vreg s' f = vreg s f)
      /\ forall j reg,
           nth_error l j = Some reg ->
           vreg s' reg
           = load s (wrap64 (xreg s Rctx
                             + int64 (arguments_vector layout
                                      + (i + Z.of_nat j) * float_reg_size))) 16.
Proof.
  induction l as [|reg l IH]; intros i s ND.
  - exists s. repeat split. intros [|j] r E; discriminate E.
  - inversion ND as [|? ? Nin ND']; subst.
    cbn [mapi app length run step resolve].
    set (s1 := set_vreg s reg
                 (load s (wrap64 (xreg s Rctx
                    + int64 (arguments_vector layout + i * float_reg_size))) 16)).
    destruct (IH (i + 1) s1 ND') as (s' & Hr & Hx & Hm & Ht & Hv & Hval).
    exists s'. split; [exact Hr|]. split; [exact Hx|]. split; [exact Hm|].
    split; [exact Ht|]. split.
    + intros f Nf. rewrite Hv by (intros X; apply Nf; now right).
      unfold s1. cbn [vreg set_vreg].
      destruct (FloatRegister_eqb f reg) eqn:E; [|reflexivity].
      apply FloatRegister_eqb_eq in E. subst f. exfalso. apply Nf. now left.
    + intros [|j] r E.
      * cbn [nth_error] in E. inversion E; subst r.
        rewrite Hv by exact Nin. unfold s1. cbn [vreg set_vreg].
        replace (FloatRegister_eqb reg reg) with true
          by (symmetry; now apply FloatRegister_eqb_eq).
        now rewrite Z.add_0_r.
      * cbn [nth_error] in E. rewrite (Hval j r E).
        replace (i + 1 + Z.of_nat j) with (i + Z.of_nat (S j)) by lia.
        reflexivity.
Qed.

(** The integer argument loads, register by register; the base register
    must not be one of them. *)
Lemma run_load_integer_values layout rest :
  forall l i s,
    NoDup l -> ~ In Rctx l ->
    exists s',
      run extern (length l) P
        (mapi (fun i reg =>
                 ldr reg (Address_disp Rctx
                   (int64 (arguments_integer layout + i * sizeof_uintptr_t)))) i l
           ++ rest) s = Next rest s'
      /\ vreg s' = vreg s /\ mem s' = mem s /\ trace s' = trace s
      /\ (forall r, ~ In r l -> xreg s' r = xreg s r)
      /\ forall j reg,
           nth_error l j = Some reg ->
           xreg s' reg
           = load s (wrap64 (xreg s Rctx
                             + int64 (arguments_integer layout
                                      + (i + Z.of_nat j) * sizeof_uintptr_t))) 8.
Proof.
  induction l as [|reg l IH]; intros i s ND Nc.
  - exists s. repeat split. intros [|j] r E; discriminate E.
  - inversion ND as [|? ? Nin ND']; subst.
    assert (Nc' : ~ In Rctx l) by (intros X; apply Nc; now right).
    assert (Nr : Rctx <> reg) by (intros X; apply Nc; now left).
    cbn [mapi app length run step resolve].
    set (s1 := set_xreg s reg
                 (load s (wrap64 (xreg s Rctx
                    + int64 (arguments_integer layout + i * sizeof_uintptr_t))) 8)).
    assert (Ec : xreg s1 Rctx = xreg s Rctx).
    { unfold s1. cbn [xreg set_xreg]. apply Register_eqb_neq in Nr. now rewrite Nr. }
    destruct (IH (i + 1) s1 ND' Nc') as (s' & Hr & Hv & Hm & Ht & Hx & Hval).
    exists s'. split; [exact Hr|]. split; [exact Hv|]. split; [exact Hm|].
    split; [exact Ht|]. split.
    + intros r Nr'. rewrite Hx by (intros X; apply Nr'; now right).
      unfold s1. cbn [xreg set_xreg].
      destruct (Register_eqb r reg) eqn:E; [|reflexivity].
      apply Register_eqb_eq in E. subst r. exfalso. apply Nr'. now left.
    + intros [|j] r E.
      * cbn [nth_error] in E. inversion E; subst r.
        rewrite Hx by exact Nin. unfold s1. cbn [xreg set_xreg].
        rewrite Register_eqb_refl. now rewrite Z.add_0_r.
      * cbn [nth_error] in E. rewrite (Hval j r E), Ec.
        replace (i + 1 + Z.of_nat j) with (i + Z.of_nat (S j)) by lia.
        reflexivity.
Qed.

End AdapterRegisters.

Section AdapterArguments.

Context `{Runtime}.

Variable extern : Z -> Machine.mstate -> Machine.mstate.

Import ProgrammableInvoker Adapter Machine MemFacts.

(** X6: from [Ldone] a generated adapter loads every argument register
    from its own field of the context record: the [i]-th vector register
    from the 16 bytes at [arguments_vector + 16 i], the [i]-th integer
    register from the 8 bytes at [arguments_integer + 8 i], and then stands
    at the block that calls the target, memory unchanged.  The registers of
    each class must be distinct and the record's base register r10 must
    not be an integer argument register. *)
Theorem argument_registers_loaded :
  forall abi layout P,
    generate_adapter abi layout = Some P ->
    NoDup (_vector_argument_registers abi) ->
    NoDup (_integer_argument_registers abi) ->
    ~ In Rctx (_integer_argument_registers abi) ->
    find_label Ldone P = Some (after_copy abi layout)
    /\ forall s,
         exists s',
           run extern (length (_vector_argument_registers abi)
                       + length (_integer_argument_registers abi)) P
             (after_copy abi layout) s
           = Next (seg_call layout ++ seg_store abi layout) s'
           /\ (forall i reg,
                 nth_error (_vector_argument_registers abi) i = Some reg ->
                 vreg s' reg
                 = load s (wrap64 (xreg s Rctx
                                   + int64 (arguments_vector layout
                                            + Z.of_nat i * float_reg_size))) 16)
           /\ (forall i reg,
                 nth_error (_integer_argument_registers abi) i = Some reg ->
                 xreg s' reg
                 = load s (wrap64 (xreg s Rctx
                                   + int64 (arguments_integer layout
                                            + Z.of_nat i * sizeof_uintptr_t))) 8)
           /\ (forall r, ~ In r (_integer_argument_registers abi) ->
                         xreg s' r = xreg s r)
           /\ mem s' = mem s.
Proof.
  intros abi layout P Hgen NDv NDi Nc.
  destruct (generate_adapter_inv abi layout P Hgen) as (_ & _ & ->).
  split; [reflexivity|]. intros s.
  destruct (run_load_vector_values extern (adapter_code abi layout) layout
              (seg_load_integer abi layout ++ seg_call layout ++ seg_store abi layout)
              (_vector_argument_registers abi) 0 s NDv)
    as (s1 & R1 & X1 & M1 & _ & _ & V1).
  destruct (run_load_integer_values extern (adapter_code abi layout) layout
              (seg_call layout ++ seg_store abi layout)
              (_integer_argument_registers abi) 0 s1 NDi Nc)
    as (s2 & R2 & V2 & M2 & _ & X2 & I2).
  exists s2. split.
  { unfold after_copy, seg_load_vector, seg_load_integer.
    rewrite (run_next extern _ _ _ _ _ _ _ R1). exact R2. }
  split.
  { intros i reg E. rewrite V2. rewrite (V1 i reg E). reflexivity. }
  split.
  { intros i reg E. rewrite (I2 i reg E). unfold load. now rewrite X1, M1. }
  split.
  { intros r Nr. rewrite X2 by exact Nr. now rewrite X1. }
  now rewrite M2, M1.
Qed.

End AdapterArguments.

Lemma argument_registers_loaded_witness :
  exists P s',
    ProgrammableInvoker.generate_adapter
      AdapterExamples.example_abi AdapterExamples.example_layout = Some P
    /\ Machine.run (H := Examples.example_runtime)
         AdapterExamples.clobbering_callee 16 P
         (Adapter.after_copy AdapterExamples.example_abi AdapterExamples.example_layout)
         AdapterExamples.load_state
       = Machine.Next
           (Adapter.seg_call AdapterExamples.example_layout
              ++ Adapter.seg_store AdapterExamples.example_abi
                   AdapterExamples.example_layout) s'
    /\ Machine.xreg s' (X 1)
       = Machine.load AdapterExamples.load_state (4096 + 152) 8.
Proof.
  exists (Adapter.adapter_code AdapterExamples.example_abi AdapterExamples.example_layout).
  assert (G : ProgrammableInvoker.generate_adapter
                AdapterExamples.example_abi AdapterExamples.example_layout
              = Some (Adapter.adapter_code AdapterExamples.example_abi
                        AdapterExamples.example_layout))
    by (vm_compute; reflexivity).
  assert (NDv : NoDup (_vector_argument_registers AdapterExamples.example_abi)).
  { cbn. repeat (constructor; [cbn; intuition discriminate|]). constructor. }
  assert (NDi : NoDup (_integer_argument_registers AdapterExamples.example_abi)).
  { cbn. repeat (constructor; [cbn; intuition discriminate|]). constructor. }
  assert (Nc : ~ In ProgrammableInvoker.Rctx
                    (_integer_argument_registers AdapterExamples.example_abi)).
  { cbn. intuition discriminate. }
  destruct (@argument_registers_loaded Examples.example_runtime
              AdapterExamples.clobbering_callee
              AdapterExamples.example_abi AdapterExamples.example_layout _
              G NDv NDi Nc) as (_ & Hs).
  destruct (Hs AdapterExamples.load_state) as (s' & Hr & _ & Hi & _).
  exists s'. split; [exact G|]. split; [exact Hr|].
  exact (Hi 1%nat (X 1) eq_refl).
Defined.

Section AdapterStores.

Context `{Runtime}.

Variable extern : Z -> Machine.mstate -> Machine.mstate.

Import ProgrammableInvoker Adapter Machine MemFacts.

Variable P : list insn.

Lemma int64_small z : - 2 ^ 63 <= z < 2 ^ 63 -> int64 z = z.
Proof. intros Hz. unfold int64. rewrite Z.mod_small; lia. Qed.

Lemma mem_store s a n v rel :
  mem (store s a n v rel) = store_bytes (mem s) a (le_split n v).
Proof. reflexivity. Qed.

(** The integer return stores: the registers are written, in order, to
    consecutive words from [base + off]. *)
Lemma run_store_integer base off rest :
  forall l i s,
    xreg s Rctx = base ->
    0 <= i -> - 2 ^ 63 <= off -> off + (i + Z.of_nat (length l)) * 8 < 2 ^ 63 ->
    0 <= base + off -> base + off + (i + Z.of_nat (length l)) * 8 <= 2 ^ 64 ->
    exists s',
      run extern (length l) P
        (mapi (fun i reg =>
                 str reg (Address_disp Rctx (int64 (off + i * sizeof_uintptr_t)))) i l
           ++ rest) s = Next rest s'
      /\ xreg s' = xreg s /\ vreg s' = vreg s
      /\ (forall x, x < base + off + i * 8
                    \/ base + off + (i + Z.of_nat (length l)) * 8 <= x ->
                    mem s' x = mem s x)
      /\ forall j reg,
           nth_error l j = Some reg -> 0 <= xreg s reg < 2 ^ 64 ->
           load s' (base + off + (i + Z.of_nat j) * 8) 8 = xreg s reg.
Proof.
  induction l as [|reg l IH]; intros i s Hb Hi Ho1 Ho2 Ha1 Ha2.
  - exists s. repeat split. intros [|j] r E; discriminate E.
  - cbn [length] in Ho2, Ha2. rewrite Nat2Z.inj_succ in Ho2, Ha2.
    cbn [mapi app length run step resolve]. unfold sizeof_uintptr_t.
    rewrite int64_small by lia. rewrite Hb.
    rewrite (wrap64_small (base + (off + i * 8))) by lia.
    set (s1 := store s (base + (off + i * 8)) 8 (xreg s reg) false).
    assert (X1 : xreg s1 = xreg s) by reflexivity.
    destruct (IH (i + 1) s1) as (s' & Hr & Hx & Hvr & Hout & Hval);
      try lia.
    { now rewrite X1. }
    exists s'. split; [exact Hr|]. split; [now rewrite Hx|].
    split; [now rewrite Hvr|]. split.
    + intros x Hx'. rewrite Hout by lia. unfold s1. rewrite mem_store.
      apply store_bytes_outside; rewrite ?length_le_split; lia.
    + intros [|j] r E Hv.
      * cbn [nth_error] in E. inversion E; subst r.
        unfold load.
        rewrite (load_bytes_ext 8 (mem s') (mem s1)); try lia.
        -- unfold s1. rewrite mem_store.
           replace (base + off + (i + Z.of_nat 0) * 8) with (base + (off + i * 8))
             by lia.
           rewrite <- (length_le_split 8 (xreg s reg)) at 2.
           rewrite load_store_bytes by (rewrite ?length_le_split; lia).
           rewrite le_combine_split. apply Z.mod_small.
           change (Z.of_nat 8 * 8) with 64. exact Hv.
        -- intros x Hx'. apply Hout. lia.
      * cbn [nth_error] in E. rewrite <- X1 in *.
        replace (i + Z.of_nat (S j)) with (i + 1 + Z.of_nat j) by lia.
        now apply Hval.
Qed.

(** The vector return stores, likewise, 16 bytes each. *)
Lemma run_store_vector base off rest :
  forall l i s,
    xreg s Rctx = base ->
    0 <= i -> - 2 ^ 63 <= off -> off + (i + Z.of_nat (length l)) * 16 < 2 ^ 63 ->
    0 <= base + off -> base + off + (i + Z.of_nat (length l)) * 16 <= 2 ^ 64 ->
    exists s',
      run extern (length l) P
        (mapi (fun i reg =>
                 strq reg (Address_disp Rctx (int64 (off + i * float_reg_size)))) i l
           ++ rest) s = Next rest s'
      /\ xreg s' = xreg s /\ vreg s' = vreg s
      /\ (forall x, x < base + off + i * 16
                    \/ base + off + (i + Z.of_nat (length l)) * 16 <= x ->
                    mem s' x = mem s x)
      /\ forall j reg,
           nth_error l j = Some reg -> 0 <= vreg s reg < 2 ^ 128 ->
           load s' (base + off + (i + Z.of_nat j) * 16) 16 = vreg s reg.
Proof.
  induction l as [|reg l IH]; intros i s Hb Hi Ho1 Ho2 Ha1 Ha2.
  - exists s. repeat split. intros [|j] r E; discriminate E.
  - cbn [length] in Ho2, Ha2. rewrite Nat2Z.inj_succ in Ho2, Ha2.
    cbn [mapi app length run step resolve]. unfold float_reg_size.
    rewrite int64_small by lia. rewrite Hb.
    rewrite (wrap64_small (base + (off + i * 16))) by lia.
    set (s1 := store s (base + (off + i * 16)) 16 (vreg s reg) false).
    assert (X1 : xreg s1 = xreg s) by reflexivity.
    assert (V1 : vreg s1 = vreg s) by reflexivity.
    destruct (IH (i + 1) s1) as (s' & Hr & Hx & Hvr & Hout & Hval);
      try lia.
    { now rewrite X1. }
    exists s'. split; [exact Hr|]. split; [now rewrite Hx|].
    split; [now rewrite Hvr|]. split.
    + intros x Hx'. rewrite Hout by lia. unfold s1. rewrite mem_store.
      apply store_bytes_outside; rewrite ?length_le_split; lia.
    + intros [|j] r E Hv.
      * cbn [nth_error] in E. inversion E; subst r.
        unfold load.
        rewrite (load_bytes_ext 16 (mem s') (mem s1)); try lia.
        -- unfold s1. rewrite mem_store.
           replace (base + off + (i + Z.of_nat 0) * 16) with (base + (off + i * 16))
             by lia.
           rewrite <- (length_le_split 16 (vreg s reg)) at 2.
           rewrite load_store_bytes by (rewrite ?length_le_split; lia).
           rewrite le_combine_split. apply Z.mod_small.
           change (Z.of_nat 16 * 8) with 128. exact Hv.
        -- intros x Hx'. apply Hout. lia.
      * cbn [nth_error] in E. rewrite <- V1 in *.
        replace (i + Z.of_nat (S j)) with (i + 1 + Z.of_nat j) by lia.
        now apply Hval.
Qed.

End AdapterStores.

Section AdapterReturns.

Context `{Runtime}.

Variable extern : Z -> Machine.mstate -> Machine.mstate.

Import ProgrammableInvoker Adapter Machine MemFacts.

Lemma nth_error_index {A} (l : list A) i a :
  nth_error l i = Some a -> Z.of_nat i + 1 <= Z.of_nat (length l).
Proof.
  intros E. assert (i < length l)%nat; [|lia].
  apply nth_error_Some. congruence.
Qed.

(** X7: after the call a generated adapter writes every return register
    to its own field of the context record: the [i]-th integer register to
    the 8 bytes at [returns_integer + 8 i], the [i]-th vector register to
    the 16 bytes at [returns_vector + 16 i]; reading the fields back gives
    the values the callee left in the registers.  No register changes and
    no byte outside the two areas is written.  The two areas must lie in
    the address space without wrapping and must not overlap. *)
Theorem return_registers_stored :
  forall abi layout P s,
    generate_adapter abi layout = Some P ->
    let base := xreg s Rctx in
    let ni := Z.of_nat (length (_integer_return_registers abi)) in
    let nv := Z.of_nat (length (_vector_return_registers abi)) in
    let ri := returns_integer layout in
    let rv := returns_vector layout in
    (forall r, In r (_integer_return_registers abi) -> 0 <= xreg s r < 2 ^ 64) ->
    (forall f, In f (_vector_return_registers abi) -> 0 <= vreg s f < 2 ^ 128) ->
    - 2 ^ 63 <= ri -> ri + 8 * ni < 2 ^ 63 ->
    - 2 ^ 63 <= rv -> rv + 16 * nv < 2 ^ 63 ->
    0 <= base + ri -> base + ri + 8 * ni <= 2 ^ 64 ->
    0 <= base + rv -> base + rv + 16 * nv <= 2 ^ 64 ->
    ri + 8 * ni <= rv \/ rv + 16 * nv <= ri ->
    (exists pre, P = pre ++ seg_store abi layout)
    /\ exists s',
         run extern (1 + length (_integer_return_registers abi)
                     + length (_vector_return_registers abi)) P
           (seg_store abi layout) s
         = Next [leave; ret lr] s'
         /\ xreg s' = xreg s /\ vreg s' = vreg s
         /\ (forall i reg,
               nth_error (_integer_return_registers abi) i = Some reg ->
               load s' (base + ri + 8 * Z.of_nat i) 8 = xreg s reg)
         /\ (forall i reg,
               nth_error (_vector_return_registers abi) i = Some reg ->
               load s' (base + rv + 16 * Z.of_nat i) 16 = vreg s reg)
         /\ (forall x,
               x < base + ri \/ base + ri + 8 * ni <= x ->
               x < base + rv \/ base + rv + 16 * nv <= x ->
               mem s' x = mem s x).
Proof.
  intros abi layout P s Hgen base ni nv ri rv Hxi Hxv I1 I2 V1 V2 A1 A2 B1 B2 Dis.
  destruct (generate_adapter_inv abi layout P Hgen) as (_ & _ & ->).
  split.
  { eexists. unfold adapter_code, after_copy.
    repeat (rewrite ?app_assoc, ?app_comm_cons). reflexivity. }
  destruct (run_store_integer extern (adapter_code abi layout) base ri
              (mapi (fun i reg =>
                       strq reg (Address_disp Rctx
                         (int64 (returns_vector layout + i * float_reg_size))))
                    0 (_vector_return_registers abi) ++ [leave; ret lr])
              (_integer_return_registers abi) 0 s eq_refl)
    as (s1 & R1 & X1 & Vr1 & Out1 & Val1); try (fold ni; lia).
  destruct (run_store_vector extern (adapter_code abi layout) base rv [leave; ret lr]
              (_vector_return_registers abi) 0 s1)
    as (s2 & R2 & X2 & Vr2 & Out2 & Val2); try (fold nv; lia).
  { now rewrite X1. }
  fold ni in Out1. fold nv in Out2.
  exists s2. split.
  { unfold seg_store. cbn [run step Nat.add].
    replace (length (_integer_return_registers abi)
             + length (_vector_return_registers abi))%nat
      with (length (_integer_return_registers abi)
            + (length (_vector_return_registers abi)))%nat by reflexivity.
    rewrite (run_next extern _ _ _ _ _ _ _ R1). exact R2. }
  split; [now rewrite X2, X1|]. split; [now rewrite Vr2, Vr1|].
  split.
  { intros i reg E. pose proof (nth_error_index _ _ _ E) as Hi. fold ni in Hi.
    rewrite <- (Val1 i reg E (Hxi reg (nth_error_In _ _ E))). unfold load. f_equal.
    replace (base + ri + (0 + Z.of_nat i) * 8) with (base + ri + 8 * Z.of_nat i)
      by lia.
    apply load_bytes_ext; try lia.
    intros x Hx. apply Out2. lia. }
  split.
  { intros i reg E. rewrite <- Vr1.
    rewrite <- (Val2 i reg E); [f_equal; lia|].
    rewrite Vr1. apply Hxv. exact (nth_error_In _ _ E). }
  intros x Hi Hv. rewrite Out2 by lia. apply Out1. lia.
Qed.

End AdapterReturns.

Lemma return_registers_stored_witness :
  exists P s',
    ProgrammableInvoker.generate_adapter
      AdapterExamples.example_abi AdapterExamples.example_layout = Some P
    /\ Machine.run (H := Examples.example_runtime)
         AdapterExamples.clobbering_callee 7 P
         (Adapter.seg_store AdapterExamples.example_abi AdapterExamples.example_layout)
         AdapterExamples.load_state
       = Machine.Next [leave; ret lr] s'
    /\ Machine.load s' (4096 + 216 + 8) 8 = 0
    /\ Machine.mem s' 4096 = Machine.mem AdapterExamples.load_state 4096.
Proof.
  exists (Adapter.adapter_code AdapterExamples.example_abi AdapterExamples.example_layout).
  assert (G : ProgrammableInvoker.generate_adapter
                AdapterExamples.example_abi AdapterExamples.example_layout
              = Some (Adapter.adapter_code AdapterExamples.example_abi
                        AdapterExamples.example_layout))
    by (vm_compute; reflexivity).
  assert (Hx : forall r, 0 <= Machine.xreg AdapterExamples.load_state r < 2 ^ 64).
  { intros r. unfold AdapterExamples.load_state. cbn [Machine.xreg].
    repeat (destruct (Register_eqb r _)); lia. }
  assert (Hv : forall f, 0 <= Machine.vreg AdapterExamples.load_state f < 2 ^ 128).
  { intros f. unfold AdapterExamples.load_state. cbn [Machine.vreg]. lia. }
  assert (Eb : Machine.xreg AdapterExamples.load_state ProgrammableInvoker.Rctx = 4096)
    by reflexivity.
  assert (Ei : returns_integer AdapterExamples.example_layout = 216) by reflexivity.
  assert (Ev : returns_vector AdapterExamples.example_layout = 232) by reflexivity.
  assert (Li : Z.of_nat (length (_integer_return_registers
                                   AdapterExamples.example_abi)) = 2) by reflexivity.
  assert (Lv : Z.of_nat (length (_vector_return_registers
                                   AdapterExamples.example_abi)) = 4) by reflexivity.
  destruct (@return_registers_stored Examples.example_runtime
              AdapterExamples.clobbering_callee
              AdapterExamples.example_abi AdapterExamples.example_layout _
              AdapterExamples.load_state G (fun r _ => Hx r) (fun f _ => Hv f))
    as (_ & s' & Hr & _ & _ & Hi & _ & Hout);
    rewrite ?Eb, ?Ei, ?Ev, ?Li, ?Lv; try lia.
  exists s'. split; [exact G|]. split; [exact Hr|]. split.
  - rewrite Eb, Ei in Hi. exact (Hi 1%nat (X 1) eq_refl).
  - rewrite Eb, Ei, Ev, Li, Lv in Hout. apply Hout; lia.
Defined.

Section AdapterRun.

Context `{Runtime}.

Variable extern : Z -> Machine.mstate -> Machine.mstate.

Import ProgrammableInvoker Adapter Machine MemFacts.

Lemma copy_words_other :
  forall w s r,
    r <> Rwords -> r <> Rtmp -> r <> Rsrc_ptr -> r <> Rdst_ptr ->
    xreg (copy_words w s) r = xreg s r.
Proof.
  induction w as [|w IH]; intros s r N1 N2 N3 N4; [reflexivity|].
  cbn [copy_words]. rewrite IH by assumption. now apply copy_word_other.
Qed.

(** From the entry of the adapter to the block that calls the target:
    frame set-up, reservation, copy loop, argument loads. *)
Lemma adapter_run_to_call abi layout s0 :
  let s1 := after_enter s0 in
  let s2 := after_alloc abi layout s1 in
  let w := Z.to_nat (xreg s2 Rstack_size / 8) in
  let s3 := copy_words w (copy_setup layout s2) in
  exists s5,
    run extern
      (5 + (4 + ((5 + (5 * w + 1))
                 + (length (_vector_argument_registers abi)
                    + length (_integer_argument_registers abi)))))
      (adapter_code abi layout) (adapter_code abi layout) s0
    = Next (seg_call layout ++ seg_store abi layout) s5
    /\ (forall r, ~ In r (_integer_argument_registers abi) -> xreg s5 r = xreg s3 r)
    /\ mem s5 = mem s3.
Proof.
  intros s1 s2 w s3.
  pose proof (run_enter extern (adapter_code abi layout)
                (seg_alloc abi layout
                   ++ block_comment "load_arguments"
                   :: seg_copy layout ++ after_copy abi layout) s0) as Run1.
  fold s1 in Run1.
  pose proof (run_alloc extern (adapter_code abi layout) abi layout
                (block_comment "load_arguments"
                   :: seg_copy layout ++ after_copy abi layout) s1) as Run2.
  fold s2 in Run2.
  assert (Hn : 0 <= xreg s2 Rstack_size < 2 ^ 64).
  { unfold s2, after_alloc.
    cbn [xreg set_xreg Register_eqb sp rscratch2 r9 Nat.eqb Rstack_size r11].
    apply (load_range s1 _ 8). }
  pose proof (run_copy extern abi layout s2 Hn) as Run3. cbv zeta in Run3.
  fold w in Run3. fold s3 in Run3.
  clearbody s3. clearbody w. clearbody s2. clearbody s1.
  destruct (run_load_vector extern (adapter_code abi layout) layout
              (seg_load_integer abi layout ++ seg_call layout ++ seg_store abi layout)
              (_vector_argument_registers abi) 0 s3)
    as (s4 & Run4 & Regs4 & Mem4).
  destruct (run_load_integer extern (adapter_code abi layout) layout
              (seg_call layout ++ seg_store abi layout)
              (_integer_argument_registers abi) 0 s4)
    as (s5 & Run5 & Regs5 & Mem5).
  exists s5. split.
  { replace (adapter_code abi layout) with
      (seg_enter ++ seg_alloc abi layout
         ++ block_comment "load_arguments"
         :: seg_copy layout ++ after_copy abi layout) at 2
      by (unfold adapter_code, seg_copy;
          repeat (progress (rewrite <- ?app_assoc; cbn [app])); reflexivity).
    rewrite (run_next extern 5 _ _ _ _ _ _ Run1).
    rewrite (run_next extern 4 _ _ _ _ _ _ Run2).
    rewrite (run_next extern _ _ _ _ _ _ _ Run3).
    unfold after_copy, seg_load_vector, seg_load_integer.
    rewrite (run_next extern _ _ _ _ _ _ _ Run4).
    exact Run5. }
  split.
  - intros r Nr. rewrite Regs5 by exact Nr. now rewrite Regs4.
  - now rewrite Mem5, Mem4.
Qed.

Lemma wrap64_mod16 x : wrap64 x mod 16 = x mod 16.
Proof.
  unfold wrap64.
  rewrite (Z.div_mod x (2 ^ 64)) at 2 by lia.
  change (2 ^ 64) with (16 * 2 ^ 60) at 2.
  rewrite <- Z.mul_assoc, Z.add_comm, Z.mul_comm, Z_mod_plus_full. reflexivity.
Qed.

Lemma int32_mod16 x : int32 x mod 16 = x mod 16.
Proof.
  unfold int32.
  replace ((x + 2 ^ 31) mod 2 ^ 32 - 2 ^ 31)
    with (x + (- ((x + 2 ^ 31) / 2 ^ 32) * 2 ^ 28) * 16)
    by (pose proof (Z.div_mod (x + 2 ^ 31) (2 ^ 32) ltac:(lia)); lia).
  apply Z_mod_plus_full.
Qed.

Lemma land_mod16 x m : m mod 16 = 0 -> Z.land x m mod 16 = 0.
Proof.
  intros Hm. change 16 with (2 ^ 4) in *.
  rewrite <- Z.land_ones in * by lia.
  now rewrite <- Z.land_assoc, Hm, Z.land_0_r.
Qed.

Lemma after_enter_sp s :
  xreg (after_enter s) sp = wrap64 (wrap64 (xreg s sp - 2 * wordSize) + -2 * wordSize).
Proof. reflexivity. Qed.

Lemma after_alloc_sp_value abi layout s :
  xreg (after_alloc abi layout s) sp
  = wrap64 (xreg s sp
            - Z.land (wrap64 (load s (wrap64 (xreg s Rctx
                                              + int32 (stack_args_bytes layout))) 8
                              + int32 (_stack_alignment_bytes abi - 1)))
                     (wrap64 (int32 (- _stack_alignment_bytes abi)))).
Proof. reflexivity. Qed.

(** The block that calls the target: the entry address is loaded from the
    record and the branch is next. *)
Lemma run_to_branch P layout rest s :
  run extern 2 P (seg_call layout ++ rest) s
  = Next (blr rscratch2 :: ldr Rctx (Address_disp rfp (-2 * wordSize)) :: rest)
      (set_xreg s rscratch2
         (load s (wrap64 (xreg s Rctx + int32 (arguments_next_pc layout))) 8)).
Proof. reflexivity. Qed.

(** X8: a generated adapter keeps the stack pointer's alignment up to the
    call: whatever byte count the record declares, the stack pointer at
    the branch to the target is congruent modulo 16 to the stack pointer on
    entry.  The alignment assertion of the generator is what makes the
    rounded reservation a multiple of 16. *)
Theorem stack_alignment_kept_to_call :
  forall abi layout P s0,
    generate_adapter abi layout = Some P ->
    ~ In sp (_integer_argument_registers abi) ->
    exists fuel s',
      run extern fuel P P s0
      = Next (blr rscratch2
                :: ldr Rctx (Address_disp rfp (-2 * wordSize))
                :: seg_store abi layout) s'
      /\ xreg s' sp mod 16 = xreg s0 sp mod 16.
Proof.
  intros abi layout P s0 Hgen Nsp.
  destruct (generate_adapter_inv abi layout P Hgen) as (A16 & _ & ->).
  destruct (adapter_run_to_call abi layout s0) as (s5 & Run & Regs & _).
  cbv zeta in Run, Regs.
  specialize (Regs sp Nsp).
  rewrite copy_words_other in Regs by discriminate.
  rewrite copy_setup_other in Regs by discriminate.
  rewrite after_alloc_sp_value, after_enter_sp in Regs.
  remember (after_enter s0) as s1 eqn:E1. clear E1.
  remember (Z.to_nat (xreg (after_alloc abi layout s1) Rstack_size / 8)) as w eqn:Ew.
  clear Ew.
  exists (5 + (4 + (5 + (5 * w + 1)
                    + (length (_vector_argument_registers abi)
                       + length (_integer_argument_registers abi)))) + 2)%nat.
  exists (set_xreg s5 rscratch2
            (load s5 (wrap64 (xreg s5 Rctx + int32 (arguments_next_pc layout))) 8)).
  split.
  { rewrite (run_next extern _ 2 _ _ _ _ _ Run). apply run_to_branch. }
  assert (Es : xreg (set_xreg s5 rscratch2
                       (load s5 (wrap64 (xreg s5 Rctx
                                         + int32 (arguments_next_pc layout))) 8)) sp
               = xreg s5 sp) by reflexivity.
  rewrite Es, Regs. clear Es Regs Run.
  assert (M16 : wrap64 (int32 (- _stack_alignment_bytes abi)) mod 16 = 0).
  { rewrite wrap64_mod16, int32_mod16.
    apply Z.rem_divide in A16; [|lia]. destruct A16 as (c & ->).
    replace (- (c * 16)) with ((- c) * 16) by lia. apply Z.mod_mul. lia. }
  rewrite wrap64_mod16, Zminus_mod, (land_mod16 _ _ M16), Z.sub_0_r, Z.mod_mod by lia.
  unfold wordSize.
  rewrite wrap64_mod16, Z.add_mod, wrap64_mod16, <- Z.add_mod by lia.
  replace (xreg s0 sp - 2 * 8 + -2 * 8) with (xreg s0 sp + (-2) * 16) by lia.
  apply Z_mod_plus_full.
Qed.

End AdapterRun.

Lemma stack_alignment_kept_to_call_witness :
  exists P fuel s',
    ProgrammableInvoker.generate_adapter
      AdapterExamples.example_abi AdapterExamples.example_layout = Some P
    /\ Machine.run (H := Examples.example_runtime)
         AdapterExamples.clobbering_callee fuel P P AdapterExamples.entry_state
       = Machine.Next
           (blr rscratch2
              :: ldr ProgrammableInvoker.Rctx (Address_disp rfp (-2 * wordSize))
              :: Adapter.seg_store AdapterExamples.example_abi
                   AdapterExamples.example_layout) s'
    /\ Machine.xreg s' sp mod 16 = 0.
Proof.
  exists (Adapter.adapter_code AdapterExamples.example_abi AdapterExamples.example_layout).
  assert (G : ProgrammableInvoker.generate_adapter
                AdapterExamples.example_abi AdapterExamples.example_layout
              = Some (Adapter.adapter_code AdapterExamples.example_abi
                        AdapterExamples.example_layout))
    by (vm_compute; reflexivity).
  assert (Nsp : ~ In sp (_integer_argument_registers AdapterExamples.example_abi)).
  { cbn. intuition discriminate. }
  destruct (@stack_alignment_kept_to_call Examples.example_runtime
              AdapterExamples.clobbering_callee
              AdapterExamples.example_abi AdapterExamples.example_layout _
              AdapterExamples.entry_state G Nsp) as (fuel & s' & Hr & Hal).
  exists fuel, s'. split; [exact G|]. split; [exact Hr|].
  rewrite Hal. reflexivity.
Defined.

Section AdapterReturn.

Context `{Runtime}.

Variable extern : Z -> Machine.mstate -> Machine.mstate.

Import ProgrammableInvoker Adapter Machine MemFacts.

(** The frame record [enter] pushes survives the store of the record
    address below it. *)
Lemma after_enter_frame s :
  32 <= xreg s sp < 2 ^ 64 ->
  load_bytes (mem (after_enter s)) (xreg s sp - 16) 8 = le_split 8 (xreg s rfp)
  /\ load_bytes (mem (after_enter s)) (xreg s sp - 8) 8 = le_split 8 (xreg s lr).
Proof.
  intros Hsp. unfold after_enter, store, log, set_trace, set_mem, wordSize.
  cbn [xreg set_xreg mem Register_eqb rfp sp Rctx c_rarg0 r0 r10 r29 Nat.eqb].
  rewrite (wrap64_small (xreg s sp - 2 * 8)) by lia.
  rewrite wrap64_small by lia.
  replace (xreg s sp - 2 * 8 + -2 * 8) with (xreg s sp - 32) by lia.
  replace (xreg s sp - 2 * 8) with (xreg s sp - 16) by lia.
  replace (xreg s sp - 16 + 8) with (xreg s sp - 8) by lia.
  set (m1 := store_bytes (mem s) (xreg s sp - 16) (le_split 8 (xreg s rfp))).
  set (m2 := store_bytes m1 (xreg s sp - 8) (le_split 8 (xreg s lr))).
  split.
  - rewrite (load_bytes_ext 8 _ m1); try lia.
    + unfold m1. rewrite <- (length_le_split 8 (xreg s rfp)) at 2.
      apply load_store_bytes; rewrite ?length_le_split; lia.
    + intros x Hx. rewrite store_bytes_outside by (rewrite ?length_le_split; lia).
      unfold m2. apply store_bytes_outside; rewrite ?length_le_split; lia.
  - rewrite (load_bytes_ext 8 _ m2); try lia.
    + unfold m2. rewrite <- (length_le_split 8 (xreg s lr)) at 2.
      apply load_store_bytes; rewrite ?length_le_split; lia.
    + intros x Hx. apply store_bytes_outside; rewrite ?length_le_split; lia.
Qed.

(** [leave] and [ret]: the frame pointer/link pair is reloaded from the
    frame record and the stack pointer is put back above it. *)
Lemma run_leave_ret P s :
  run extern 2 P [leave; ret lr] s
  = Halt (set_xreg
            (set_xreg (set_xreg s rfp (load s (xreg s rfp) 8))
               lr (load s (xreg s rfp + wordSize) 8))
            sp (wrap64 (xreg s rfp + 2 * wordSize))).
Proof. reflexivity. Qed.

Section Reach.

Variables (abi : ABIDescriptor) (layout : BufferLayout) (k : Z) (s0 : mstate).

Hypothesis HA : _stack_alignment_bytes abi = 2 ^ k.
Hypothesis Hk : 4 <= k <= 30.
Hypothesis Nfp : ~ In rfp (_integer_argument_registers abi).
Hypothesis Nsp : ~ In sp (_integer_argument_registers abi).
Hypothesis Hext : callee_preserves_frame extern.

Let ctx := xreg s0 c_rarg0.
Let sp0 := xreg s0 sp.
Let field := wrap64 (ctx + int32 (stack_args_bytes layout)).
Let count := load s0 field 8.

Hypothesis Hctx : 0 <= ctx < 2 ^ 64.
Hypothesis Hfield : field + 8 <= sp0 - 32 \/ (sp0 <= field /\ field + 8 <= 2 ^ 64).
Hypothesis Hroom : count + 2 ^ k + 32 <= sp0 < 2 ^ 64.

(** The adapter reaches the return-register stores with the record
    address back in its base register, the frame pointer where [enter] put
    it, and the frame (the record-address slot and the pushed pair) as
    [enter] left it. *)
Lemma adapter_reaches_store :
  exists fuel s6,
    run extern fuel (adapter_code abi layout) (adapter_code abi layout) s0
    = Next (seg_store abi layout) s6
    /\ xreg s6 Rctx = ctx
    /\ xreg s6 rfp = sp0 - 16
    /\ load_bytes (mem s6) (sp0 - 16) 8 = le_split 8 (xreg s0 rfp)
    /\ load_bytes (mem s6) (sp0 - 8) 8 = le_split 8 (xreg s0 lr).
Proof.
  assert (Hcount : 0 <= count < 2 ^ 64) by apply (load_range s0 field 8).
  assert (Hf0 : 0 <= field < 2 ^ 64) by apply wrap64_range.
  assert (P4 : 2 ^ 4 <= 2 ^ k) by (apply Z.pow_le_mono_r; lia).
  assert (Hsp0 : 32 <= sp0 < 2 ^ 64) by lia.
  destruct (adapter_run_to_call extern abi layout s0) as (s5 & Run & Regs5 & Mem5).
  cbv zeta in Run, Regs5, Mem5.
  destruct (after_enter_regs s0 Hsp0) as (Rfp1 & Rsp1 & Rctx1).
  destruct (after_enter_mem s0 Hsp0) as (Slot1 & Out1).
  destruct (after_enter_frame s0 Hsp0) as (Ffp1 & Flr1).
  fold sp0 in Ffp1, Flr1.
  remember (after_enter s0) as s1 eqn:E1. clear E1.
  fold sp0 ctx in Rfp1, Rsp1, Rctx1, Out1, Slot1.
  assert (Hc1 : load s1 (wrap64 (xreg s1 Rctx + int32 (stack_args_bytes layout))) 8
                = count).
  { rewrite Rctx1. fold field. unfold count, load. f_equal.
    apply load_bytes_ext; try lia. intros x Hx. apply Out1. lia. }
  destruct (after_alloc_sp abi layout s1 k HA Hk) as (Rsp2 & Rn2).
  pose proof (after_alloc_regs abi layout s1 rfp) as Rfp2.
  pose proof (after_alloc_mem abi layout s1) as Mem2.
  remember (after_alloc abi layout s1) as s2 eqn:E2. clear E2.
  rewrite Hc1 in Rsp2, Rn2. rewrite Rsp1 in Rsp2.
  pose proof (round_up_bounds count k ltac:(lia) ltac:(lia)) as HX.
  remember (2 ^ k * ((count + 2 ^ k - 1) / 2 ^ k)) as X eqn:EX. clear EX.
  rewrite wrap64_small in Rsp2 by lia.
  rewrite Rfp1 in Rfp2. specialize (Rfp2 ltac:(discriminate) ltac:(discriminate)
                                      ltac:(discriminate)).
  rewrite Rn2 in *.
  assert (Hq : 0 <= count / 8) by (apply Z.div_pos; lia).
  assert (Hw : 8 * Z.of_nat (Z.to_nat (count / 8)) <= count).
  { rewrite Z2Nat.id by lia. apply Z.mul_div_le. lia. }
  remember (Z.to_nat (count / 8)) as w eqn:Ew. clear Ew.
  destruct (copy_words_frame w (copy_setup layout s2) (sp0 - 32 - X))
    as (Mem3 & _ & Regs3 & _); [exact Rsp2 | lia | lia |].
  pose proof (Regs3 rfp ltac:(discriminate) ltac:(discriminate)
                ltac:(discriminate) ltac:(discriminate)) as Rfp3.
  pose proof (Regs3 sp ltac:(discriminate) ltac:(discriminate)
                ltac:(discriminate) ltac:(discriminate)) as Rsp3.
  clear Regs3.
  rewrite (copy_setup_other layout s2 rfp) in Rfp3 by discriminate.
  rewrite (copy_setup_other layout s2 sp) in Rsp3 by discriminate.
  rewrite Rfp2 in Rfp3. rewrite Rsp2 in Rsp3.
  assert (Mem3' : forall x, sp0 - 32 <= x ->
                            mem (copy_words w (copy_setup layout s2)) x = mem s1 x).
  { intros x Hx. rewrite Mem3 by lia. rewrite copy_setup_mem. now rewrite Mem2. }
  clear Mem3.
  remember (copy_words w (copy_setup layout s2)) as s3 eqn:E3. clear E3.
  assert (Rfp5 : xreg s5 rfp = sp0 - 16) by (rewrite Regs5 by assumption; exact Rfp3).
  assert (Rsp5 : xreg s5 sp = sp0 - 32 - X) by (rewrite Regs5 by assumption; exact Rsp3).
  pose proof (run_call extern (adapter_code abi layout) layout (seg_store abi layout) s5)
    as Run6.
  cbv zeta in Run6.
  remember (set_xreg s5 rscratch2
              (load s5 (wrap64 (xreg s5 Rctx + int32 (arguments_next_pc layout))) 8))
    as s5' eqn:E5.
  assert (Rfp5' : xreg s5' rfp = sp0 - 16) by (rewrite E5; exact Rfp5).
  assert (Rsp5' : xreg s5' sp = sp0 - 32 - X) by (rewrite E5; exact Rsp5).
  assert (Mem5' : mem s5' = mem s5) by (rewrite E5; reflexivity).
  clear E5.
  destruct (Hext (xreg s5' rscratch2) s5') as (Efp & Emem).
  assert (Rfp6 : xreg (call extern (xreg s5' rscratch2) s5') rfp = sp0 - 16).
  { unfold call. cbn [xreg set_trace]. rewrite Efp. exact Rfp5'. }
  assert (Mem6 : forall x, sp0 - 32 <= x ->
                           mem (call extern (xreg s5' rscratch2) s5') x = mem s1 x).
  { intros x Hx. unfold call. cbn [mem set_trace].
    rewrite Emem by lia. rewrite Mem5', Mem5. now apply Mem3'. }
  remember (call extern (xreg s5' rscratch2) s5') as s6 eqn:E6. clear E6.
  assert (Slot6 : load s6 (sp0 - 32) 8 = ctx).
  { unfold load. rewrite (load_bytes_ext 8 (mem s6) (mem s1)); try lia.
    - rewrite Slot1, le_combine_split. apply Z.mod_small.
      change (Z.of_nat 8 * 8) with 64. exact Hctx.
    - intros x Hx. apply Mem6. lia. }
  eexists.
  exists (set_xreg s6 Rctx (load s6 (wrap64 (xreg s6 rfp + -2 * wordSize)) 8)).
  split.
  { rewrite (run_next extern _ 4 _ _ _ _ _ Run). exact Run6. }
  cbn [xreg set_xreg mem Register_eqb Rctx rfp r10 r29 Nat.eqb].
  unfold wordSize. rewrite Rfp6.
  replace (sp0 - 16 + -2 * 8) with (sp0 - 32) by lia.
  rewrite (wrap64_small (sp0 - 32)) by lia.
  split; [exact Slot6|]. split; [reflexivity|].
  split.
  - rewrite <- Ffp1. apply load_bytes_ext; try lia. intros x Hx. apply Mem6. lia.
  - rewrite <- Flr1. apply load_bytes_ext; try lia. intros x Hx. apply Mem6. lia.
Qed.

End Reach.

End AdapterReturn.

Section AdapterReturnsToCaller.

Context `{Runtime}.

Variable extern : Z -> Machine.mstate -> Machine.mstate.

Import ProgrammableInvoker Adapter Machine MemFacts.

(** X9: a generated adapter returns to its caller with the stack pointer,
    the frame pointer and the link register it was entered with, whatever
    the callee did to the caller-saved registers.  The callee must preserve
    the frame pointer and the caller's frame; the stack must have room for
    the frame and the rounded stack-argument block; the byte-count field
    and the two return areas of the record must not overlap the frame. *)
Theorem adapter_returns_to_caller :
  forall abi layout P k s0,
    generate_adapter abi layout = Some P ->
    _stack_alignment_bytes abi = 2 ^ k -> 4 <= k <= 30 ->
    ~ In rfp (_integer_argument_registers abi) ->
    ~ In sp (_integer_argument_registers abi) ->
    callee_preserves_frame extern ->
    let ctx := xreg s0 c_rarg0 in
    let sp0 := xreg s0 sp in
    let field := wrap64 (ctx + int32 (stack_args_bytes layout)) in
    let count := load s0 field 8 in
    0 <= ctx < 2 ^ 64 ->
    field + 8 <= sp0 - 32 \/ (sp0 <= field /\ field + 8 <= 2 ^ 64) ->
    count + 2 ^ k + 32 <= sp0 < 2 ^ 64 ->
    0 <= xreg s0 rfp < 2 ^ 64 ->
    0 <= xreg s0 lr < 2 ^ 64 ->
    area_clear_of (sp0 - 16) sp0 ctx (returns_integer layout)
      (8 * Z.of_nat (length (_integer_return_registers abi))) ->
    area_clear_of (sp0 - 16) sp0 ctx (returns_vector layout)
      (16 * Z.of_nat (length (_vector_return_registers abi))) ->
    exists fuel s',
      run extern fuel P P s0 = Halt s'
      /\ xreg s' sp = sp0
      /\ xreg s' rfp = xreg s0 rfp
      /\ xreg s' lr = xreg s0 lr.
Proof.
  intros abi layout P k s0 Hgen HA Hk Nfp Nsp Hext ctx sp0 field count
    Hctx Hfield Hroom Hfp Hlr (I1 & I2 & I3 & I4 & I5) (V1 & V2 & V3 & V4 & V5).
  destruct (generate_adapter_inv abi layout P Hgen) as (_ & _ & ->).
  destruct (adapter_reaches_store extern abi layout k s0 HA Hk Nfp Nsp Hext
              Hctx Hfield Hroom)
    as (fuel & s6 & Run & Rc & Rfp & Ffp & Flr).
  fold ctx in Rc. fold sp0 in Rfp, Ffp, Flr.
  assert (P4 : 2 ^ 4 <= 2 ^ k) by (apply Z.pow_le_mono_r; lia).
  assert (Hcount : 0 <= count) by apply (load_range s0 field 8).
  destruct (run_store_integer extern (adapter_code abi layout) ctx
              (returns_integer layout)
              (mapi (fun i reg =>
                       strq reg (Address_disp Rctx
                         (int64 (returns_vector layout + i * float_reg_size))))
                    0 (_vector_return_registers abi) ++ [leave; ret lr])
              (_integer_return_registers abi) 0 s6 Rc)
    as (s7 & R7 & X7 & _ & Out7 & _); try lia.
  destruct (run_store_vector extern (adapter_code abi layout) ctx
              (returns_vector layout) [leave; ret lr]
              (_vector_return_registers abi) 0 s7)
    as (s8 & R8 & X8 & _ & Out8 & _); try lia.
  { now rewrite X7. }
  pose proof (run_leave_ret extern (adapter_code abi layout) s8) as R9.
  assert (Rfp8 : xreg s8 rfp = sp0 - 16) by now rewrite X8, X7.
  assert (M8 : forall x, sp0 - 16 <= x < sp0 -> mem s8 x = mem s6 x).
  { intros x Hx. rewrite Out8 by lia. apply Out7. lia. }
  exists (fuel + (1 + (length (_integer_return_registers abi)
                       + (length (_vector_return_registers abi) + 2))))%nat.
  eexists. split.
  { rewrite (run_next extern _ _ _ _ _ _ _ Run).
    unfold seg_store. cbn [Nat.add run step].
    rewrite (run_next extern _ _ _ _ _ _ _ R7).
    rewrite (run_next extern _ _ _ _ _ _ _ R8).
    exact R9. }
  cbn [xreg set_xreg Register_eqb sp rfp lr r29 r30 Nat.eqb].
  rewrite Rfp8. unfold wordSize, load.
  split; [rewrite wrap64_small; lia|].
  split.
  - rewrite (load_bytes_ext 8 (mem s8) (mem s6)); try lia.
    + rewrite Ffp, le_combine_split. apply Z.mod_small.
      change (Z.of_nat 8 * 8) with 64. exact Hfp.
    + intros x Hx. apply M8. lia.
  - replace (sp0 - 16 + 8) with (sp0 - 8) by lia.
    rewrite (load_bytes_ext 8 (mem s8) (mem s6)); try lia.
    + rewrite Flr, le_combine_split. apply Z.mod_small.
      change (Z.of_nat 8 * 8) with 64. exact Hlr.
    + intros x Hx. apply M8. lia.
Qed.

End AdapterReturnsToCaller.

Lemma adapter_returns_to_caller_witness :
  let P := Adapter.adapter_code AdapterExamples.example_abi
             AdapterExamples.example_layout in
  ProgrammableInvoker.generate_adapter
    AdapterExamples.example_abi AdapterExamples.example_layout = Some P
  /\ Adapter.callee_preserves_frame AdapterExamples.clobbering_callee
  /\ exists fuel s',
       Machine.run (H := Examples.example_runtime)
         AdapterExamples.clobbering_callee fuel P P AdapterExamples.entry_state
       = Machine.Halt s'
       /\ Machine.xreg s' sp = 65536
       /\ Machine.xreg s' rfp = 65600.
Proof.
  intros P.
  assert (G : ProgrammableInvoker.generate_adapter
                AdapterExamples.example_abi AdapterExamples.example_layout = Some P)
    by (vm_compute; reflexivity).
  assert (C : Adapter.callee_preserves_frame AdapterExamples.clobbering_callee).
  { intros target s. split; [reflexivity | intros a _; reflexivity]. }
  split; [exact G|]. split; [exact C|].
  assert (N1 : ~ In rfp (_integer_argument_registers AdapterExamples.example_abi)).
  { cbn. intuition discriminate. }
  assert (N2 : ~ In sp (_integer_argument_registers AdapterExamples.example_abi)).
  { cbn. intuition discriminate. }
  assert (Ectx : Machine.xreg AdapterExamples.entry_state c_rarg0 = 4096)
    by reflexivity.
  assert (Esp : Machine.xreg AdapterExamples.entry_state sp = 65536) by reflexivity.
  assert (Efp : Machine.xreg AdapterExamples.entry_state rfp = 65600) by reflexivity.
  assert (Elr : Machine.xreg AdapterExamples.entry_state lr = 0) by reflexivity.
  assert (Efield : wrap64 (4096 + int32 (stack_args_bytes AdapterExamples.example_layout))
                   = 4096) by reflexivity.
  assert (Ecount : Machine.load AdapterExamples.entry_state 4096 8 = 17)
    by (vm_compute; reflexivity).
  assert (Ei : returns_integer AdapterExamples.example_layout = 216) by reflexivity.
  assert (Ev : returns_vector AdapterExamples.example_layout = 232) by reflexivity.
  assert (Li : Z.of_nat (length (_integer_return_registers
                                   AdapterExamples.example_abi)) = 2) by reflexivity.
  assert (Lv : Z.of_nat (length (_vector_return_registers
                                   AdapterExamples.example_abi)) = 4) by reflexivity.
  destruct (@adapter_returns_to_caller Examples.example_runtime
              AdapterExamples.clobbering_callee
              AdapterExamples.example_abi AdapterExamples.example_layout
              P 4 AdapterExamples.entry_state G eq_refl ltac:(lia) N1 N2 C)
    as (fuel & s' & Hr & Hsp & Hfp & _).
  - rewrite Ectx. lia.
  - rewrite Ectx, Efield, Esp. left. lia.
  - rewrite Ectx, Efield, Ecount, Esp. lia.
  - rewrite Efp. lia.
  - rewrite Elr. lia.
  - unfold area_clear_of. rewrite Ectx, Esp, Ei, Li. lia.
  - unfold area_clear_of. rewrite Ectx, Esp, Ev, Lv. lia.
  - exists fuel, s'. split; [exact Hr|]. rewrite Hsp, Hfp, Esp, Efp.
    split; reflexivity.
Defined.

(** ** The downcall stub, event by event *)

Section StepEffects.

Context `{Runtime}.

Variable extern : Z -> Machine.mstate -> Machine.mstate.

Import NativeInvoker Downcall DowncallShape Machine Traces Effects.

Lemma resolve_xreg a s r :
  address_keeps r a = true -> xreg (snd (resolve a s)) r = xreg s r.
Proof.
  destruct a; cbn [resolve snd address_keeps xreg set_xreg]; intros K;
    try reflexivity.
  - apply negb_true_iff in K. rewrite Register_eqb_neq in K.
    destruct (Register_eqb r base) eqn:E; [|reflexivity].
    apply Register_eqb_eq in E. congruence.
  - apply negb_true_iff in K. rewrite Register_eqb_neq in K.
    destruct (Register_eqb r base) eqn:E; [|reflexivity].
    apply Register_eqb_eq in E. congruence.
Qed.

Lemma xreg_set_other s rd v r :
  negb (Register_eqb rd r) = true -> xreg (set_xreg s rd v) r = xreg s r.
Proof.
  intros K. apply negb_true_iff in K. rewrite Register_eqb_neq in K.
  cbn [xreg set_xreg]. destruct (Register_eqb r rd) eqn:E; [|reflexivity].
  apply Register_eqb_eq in E. congruence.
Qed.

Lemma xreg_goto P l s c' s' r :
  goto P l s = Next c' s' -> xreg s' r = xreg s r.
Proof.
  unfold goto. destruct (find_label l P); [|discriminate].
  intros E. inversion E. reflexivity.
Qed.

(** An item that keeps [r] steps to a state with the same [r], when the
    called functions keep it too. *)
Lemma step_keeps r P i c s c' s' :
  keeps_reg r i = true -> extern_keeps extern r ->
  step extern P i c s = Next c' s' -> xreg s' r = xreg s r.
Proof.
  intros K Ex St.
  destruct i; cbn [step keeps_reg] in St, K;
    try (inversion St; subst; clear St;
         first [ reflexivity
               | now apply xreg_set_other
               | rewrite xreg_set_other by assumption; reflexivity ]).
  - (* lea *)
    apply andb_true_iff in K. destruct K as (K1 & K2).
    pose proof (resolve_xreg a s r K2) as R. destruct (resolve a s) as [ea s1].
    inversion St; subst. rewrite xreg_set_other by assumption. exact R.
  - (* ldr *)
    apply andb_true_iff in K. destruct K as (K1 & K2).
    pose proof (resolve_xreg a s r K2) as R. destruct (resolve a s) as [ea s1].
    inversion St; subst. rewrite xreg_set_other by assumption. exact R.
  - (* str *)
    pose proof (resolve_xreg a s r K) as R. destruct (resolve a s) as [ea s1].
    inversion St; subst. exact R.
  - (* ldrw *)
    apply andb_true_iff in K. destruct K as (K1 & K2).
    pose proof (resolve_xreg a s r K2) as R. destruct (resolve a s) as [ea s1].
    inversion St; subst. rewrite xreg_set_other by assumption. exact R.
  - (* strw *)
    pose proof (resolve_xreg a s r K) as R. destruct (resolve a s) as [ea s1].
    inversion St; subst. exact R.
  - (* ldrb *)
    apply andb_true_iff in K. destruct K as (K1 & K2).
    pose proof (resolve_xreg a s r K2) as R. destruct (resolve a s) as [ea s1].
    inversion St; subst. rewrite xreg_set_other by assumption. exact R.
  - (* ldrq *)
    pose proof (resolve_xreg a s r K) as R. destruct (resolve a s) as [ea s1].
    inversion St; subst. exact R.
  - (* strq *)
    pose proof (resolve_xreg a s r K) as R. destruct (resolve a s) as [ea s1].
    inversion St; subst. exact R.
  - (* b *) exact (xreg_goto _ _ _ _ _ _ St).
  - (* br *)
    destruct c0, (flag_eq s); try (inversion St; subst; reflexivity);
      exact (xreg_goto _ _ _ _ _ _ St).
  - (* cbz *)
    destruct (xreg s rt =? 0); [exact (xreg_goto _ _ _ _ _ _ St)|].
    inversion St; subst; reflexivity.
  - (* cbnzw *)
    destruct (wrap32 (xreg s rt) =? 0); [inversion St; subst; reflexivity|].
    exact (xreg_goto _ _ _ _ _ _ St).
  - (* blr *)
    inversion St; subst. unfold call. cbn [xreg set_trace]. apply Ex.
  - (* enter *)
    apply andb_true_iff in K. destruct K as (K1 & K2).
    inversion St; subst. now rewrite !xreg_set_other by assumption.
  - (* leave *)
    apply andb_true_iff in K. destruct K as (K12 & K3).
    apply andb_true_iff in K12. destruct K12 as (K1 & K2).
    inversion St; subst. now rewrite !xreg_set_other by assumption.
  - (* safepoint_poll *)
    destruct (poll_armed s).
    + rewrite (xreg_goto _ _ _ _ _ _ St). now apply xreg_set_other.
    + inversion St; subst. now apply xreg_set_other.
  - (* rt_call *)
    inversion St; subst. unfold call. cbn [xreg set_trace]. rewrite Ex.
    now apply xreg_set_other.
  - (* shuffle_move *)
    destruct (is_valid src && is_valid dst); [|discriminate].
    inversion St; subst.
    destruct dst; cbn [set_loc xreg set_vreg set_slot]; try reflexivity.
    apply xreg_set_other. cbn [VMReg_eqb] in K. exact K.
Qed.

(** A silent item leaves the trace alone. *)
Lemma step_silent P i c s c' s' :
  silent i = true -> step extern P i c s = Next c' s' -> trace s' = trace s.
Proof.
  intros S St.
  destruct i; cbn [silent] in S; try discriminate S; cbn [step] in St;
    try (inversion St; subst; reflexivity).
  - pose proof (resolve_trace a s) as T. destruct (resolve a s) as [ea s1].
    inversion St; subst. exact T.
  - pose proof (resolve_trace a s) as T. destruct (resolve a s) as [ea s1].
    inversion St; subst. exact T.
  - pose proof (resolve_trace a s) as T. destruct (resolve a s) as [ea s1].
    inversion St; subst. exact T.
  - pose proof (resolve_trace a s) as T. destruct (resolve a s) as [ea s1].
    inversion St; subst. exact T.
  - pose proof (resolve_trace a s) as T. destruct (resolve a s) as [ea s1].
    inversion St; subst. exact T.
  - rewrite S in St. inversion St; subst. destruct dst; reflexivity.
Qed.

(** A safe item that is no call adds no call to the trace. *)
Lemma step_no_call P i c s c' s' evs :
  safe i = true -> no_call i = true ->
  step extern P i c s = Next c' s' -> trace s' = trace s ++ evs ->
  calls_of evs = [].
Proof.
  intros Sf Nc St T.
  destruct (silent i) eqn:Si.
  { rewrite (step_silent _ _ _ _ _ _ Si St) in T.
    rewrite <- (app_nil_r (trace s)) in T at 1.
    apply app_inv_head in T. now subst evs. }
  destruct i; cbn [safe no_call silent] in Sf, Nc, Si;
    try discriminate; cbn [step] in St.
  - (* str *)
    pose proof (resolve_trace a s) as R. destruct (resolve a s) as [ea s1].
    inversion St; subst. unfold store, log in T.
    cbn [trace set_trace set_mem snd] in T, R. rewrite R in T.
    apply app_inv_head in T. now subst evs.
  - (* strw *)
    pose proof (resolve_trace a s) as R. destruct (resolve a s) as [ea s1].
    inversion St; subst. unfold store, log in T.
    cbn [trace set_trace set_mem snd] in T, R. rewrite R in T.
    apply app_inv_head in T. now subst evs.
  - (* strq *)
    pose proof (resolve_trace a s) as R. destruct (resolve a s) as [ea s1].
    inversion St; subst. unfold store, log in T.
    cbn [trace set_trace set_mem snd] in T, R. rewrite R in T.
    apply app_inv_head in T. now subst evs.
  - (* membar *)
    inversion St; subst. unfold log in T. cbn [trace set_trace] in T.
    apply app_inv_head in T. now subst evs.
  - (* enter *)
    inversion St; subst. unfold store, log in T.
    cbn [trace set_trace set_mem set_xreg] in T. rewrite <- app_assoc in T.
    apply app_inv_head in T. now subst evs.
  - (* shuffle_move *)
    destruct (is_valid src), (is_valid dst); discriminate.
Qed.

(** A list of safe items runs to its end; what it leaves behind follows
    from what its items are. *)
Lemma runs_effects P l rest :
  forallb safe l = true ->
  forall s, exists s' evs,
    runs extern P (l ++ rest) s rest s' evs
    /\ quiet evs
    /\ (forallb silent l = true -> evs = [])
    /\ (forallb no_call l = true -> calls_of evs = [])
    /\ (forall r, forallb (keeps_reg r) l = true -> extern_keeps extern r ->
                  xreg s' r = xreg s r).
Proof.
  induction l as [|i l IH]; intros Sf s.
  - exists s, []. split; [apply runs_refl|]. repeat split.
  - cbn [forallb] in Sf. apply andb_true_iff in Sf. destruct Sf as (Si & Sl).
    destruct (step_safe extern i s Si) as (s1 & e1 & St & T1 & Q1).
    destruct (IH Sl s1) as (s2 & e2 & R2 & Q2 & Sil2 & Nc2 & K2).
    exists s2, (e1 ++ e2). split.
    { apply (runs_trans extern _ _ _ (l ++ rest) s1 e1); [|exact R2].
      apply runs_step; [apply St | exact T1]. }
    split; [now apply quiet_app|]. split; [|split].
    + cbn [forallb]. intros A. apply andb_true_iff in A. destruct A as (A1 & A2).
      rewrite (Sil2 A2), app_nil_r.
      pose proof (step_silent P i (l ++ rest) s _ _ A1 (St P (l ++ rest))) as T.
      rewrite T in T1. rewrite <- (app_nil_r (trace s)) in T1 at 1.
      apply app_inv_head in T1. now subst e1.
    + cbn [forallb]. intros A. apply andb_true_iff in A. destruct A as (A1 & A2).
      unfold calls_of in *. rewrite filter_app, (Nc2 A2), app_nil_r.
      exact (step_no_call P i (l ++ rest) s _ _ e1 Si A1 (St P (l ++ rest)) T1).
    + intros r A Ex. cbn [forallb] in A. apply andb_true_iff in A.
      destruct A as (A1 & A2). rewrite (K2 r A2 Ex).
      exact (step_keeps r P i (l ++ rest) s _ _ A1 Ex (St P (l ++ rest))).
Qed.

Lemma plain_stores_no_calls l : forallb plain_store l = true -> calls_of l = [].
Proof.
  induction l as [|e l IH]; [reflexivity|].
  cbn [forallb]. intros A. apply andb_true_iff in A. destruct A as (A1 & A2).
  unfold calls_of in *. cbn [filter]. rewrite (IH A2).
  destruct e; try discriminate A1; reflexivity.
Qed.

(** A safe store item adds plain stores to the trace, and nothing else. *)
Lemma step_stores P i c s c' s' evs :
  safe i = true -> store_item i = true ->
  step extern P i c s = Next c' s' -> trace s' = trace s ++ evs ->
  forallb plain_store evs = true.
Proof.
  intros Sf Nc St T.
  destruct (silent i) eqn:Si.
  { rewrite (step_silent _ _ _ _ _ _ Si St) in T.
    rewrite <- (app_nil_r (trace s)) in T at 1.
    apply app_inv_head in T. now subst evs. }
  destruct i; cbn [safe store_item silent] in Sf, Nc, Si;
    try discriminate; try congruence; cbn [step] in St.
  - (* str *)
    pose proof (resolve_trace a s) as R. destruct (resolve a s) as [ea s1].
    inversion St; subst. unfold store, log in T.
    cbn [trace set_trace set_mem snd] in T, R. rewrite R in T.
    apply app_inv_head in T. now subst evs.
  - (* strw *)
    pose proof (resolve_trace a s) as R. destruct (resolve a s) as [ea s1].
    inversion St; subst. unfold store, log in T.
    cbn [trace set_trace set_mem snd] in T, R. rewrite R in T.
    apply app_inv_head in T. now subst evs.
  - (* strq *)
    pose proof (resolve_trace a s) as R. destruct (resolve a s) as [ea s1].
    inversion St; subst. unfold store, log in T.
    cbn [trace set_trace set_mem snd] in T, R. rewrite R in T.
    apply app_inv_head in T. now subst evs.
  - (* enter *)
    inversion St; subst. unfold store, log in T.
    cbn [trace set_trace set_mem set_xreg] in T. rewrite <- app_assoc in T.
    apply app_inv_head in T. now subst evs.
Qed.

Lemma runs_stores P l rest :
  forallb safe l = true -> forallb store_item l = true ->
  forall s, exists s' evs,
    runs extern P (l ++ rest) s rest s' evs /\ forallb plain_store evs = true.
Proof.
  induction l as [|i l IH]; intros Sf So s.
  - exists s, []. split; [apply runs_refl | reflexivity].
  - cbn [forallb] in Sf, So. apply andb_true_iff in Sf, So.
    destruct Sf as (Si & Sl), So as (Oi & Ol).
    destruct (step_safe extern i s Si) as (s1 & e1 & St & T1 & _).
    destruct (IH Sl Ol s1) as (s2 & e2 & R2 & Q2).
    exists s2, (e1 ++ e2). split.
    + apply (runs_trans extern _ _ _ (l ++ rest) s1 e1); [|exact R2].
      apply runs_step; [apply St | exact T1].
    + rewrite forallb_app, Q2, andb_true_r.
      exact (step_stores P i (l ++ rest) s _ _ e1 Si Oi (St P (l ++ rest)) T1).
Qed.

End StepEffects.

Section SegmentEffects.

Context `{Runtime}.

Import NativeInvoker Downcall DowncallShape Machine Traces Effects.

Lemma unpack_code_effects bt u :
  unpack_code bt = Some u ->
  forallb silent u = true /\ forallb (keeps_reg rfp) u = true.
Proof.
  destruct bt; unfold unpack_code; simpl; intros E; inversion E; split; reflexivity.
Qed.

Lemma seg_moves_silent moves :
  (forall m, In m moves -> is_valid (fst m) = true /\ is_valid (snd m) = true) ->
  forallb silent (seg_moves moves) = true.
Proof.
  induction moves as [|m moves IH]; intros V; [reflexivity|].
  cbn [seg_moves map forallb silent]. fold (seg_moves moves).
  destruct (V m (or_introl eq_refl)) as (V1 & V2).
  unfold Shuffle.move_src, Shuffle.move_dst. rewrite V1, V2. cbn [andb].
  apply IH. intros m' Hm'. apply V. now right.
Qed.

Lemma seg_moves_keeps r moves :
  (forall m, In m moves -> snd m <> VMReg_Register r) ->
  forallb (keeps_reg r) (seg_moves moves) = true.
Proof.
  induction moves as [|m moves IH]; intros V; [reflexivity|].
  cbn [seg_moves map forallb keeps_reg]. fold (seg_moves moves).
  rewrite IH by (intros m' Hm'; apply V; now right). rewrite andb_true_r.
  apply negb_true_iff, VMReg_eqb_neq. unfold Shuffle.move_dst.
  apply V. now left.
Qed.

Lemma spill_code_no_call spill regs :
  forall off, forallb no_call (RegSpiller.spill_code spill off regs) = true.
Proof.
  induction regs as [|r regs IH]; intros off; simpl; [reflexivity|].
  rewrite forallb_app, IH, andb_true_r. destruct r, spill; reflexivity.
Qed.

Lemma fill_code_silent regs :
  forall off, forallb silent (RegSpiller.spill_code false off regs) = true.
Proof.
  induction regs as [|r regs IH]; intros off; simpl; [reflexivity|].
  rewrite forallb_app, IH, andb_true_r. destruct r; reflexivity.
Qed.

Lemma spill_code_keeps r spill regs :
  ~ In (VMReg_Register r) regs ->
  forall off, forallb (keeps_reg r) (RegSpiller.spill_code spill off regs) = true.
Proof.
  induction regs as [|reg regs IH]; intros Nin off; simpl; [reflexivity|].
  rewrite forallb_app, IH by (intros X; apply Nin; now right).
  rewrite andb_true_r.
  destruct reg as [x| | |], spill; try reflexivity.
  cbn [forallb keeps_reg address_keeps]. rewrite !andb_true_r.
  apply negb_true_iff, Register_eqb_neq. intros ->. apply Nin. now left.
Qed.

End SegmentEffects.

Section DowncallProtocol.

Context `{Runtime}.

Variable extern : Z -> Machine.mstate -> Machine.mstate.

Import NativeInvoker Downcall DowncallShape Machine Traces Effects.

Variables (begin fs : Z) (moves : list Shuffle.Move) (bt : BasicType)
          (unpack : list insn) (outs : list VMReg).

Hypothesis moves_valid :
  forall m, In m moves -> is_valid (fst m) = true /\ is_valid (snd m) = true.
Hypothesis unpack_of : unpack_code bt = Some unpack.

Let P := downcall_code begin fs moves unpack outs.

Let kept (r : Register) := register_kept extern moves outs r.

Let unpack_no_bind : forallb (fun i => negb (is_bind i)) unpack = true :=
  proj2 (unpack_code_safe bt unpack unpack_of).

Let unpack_safe : forallb safe unpack = true :=
  proj1 (unpack_code_safe bt unpack unpack_of).

(** The epilogue clears the anchor, undoes the frame and returns. *)
Lemma proto_epilogue s :
  exists s',
    run extern 3 P (at_after_reguard outs) s = Halt s'
    /\ trace s' = trace s ++ [Ev_reset_last_Java_frame]
    /\ xreg s' sp = wrap64 (xreg s rfp + 2 * wordSize).
Proof. eexists. split; [reflexivity|]. split; reflexivity. Qed.

Lemma plain_stores_quiet l : forallb plain_store l = true -> quiet l.
Proof.
  unfold quiet. induction l as [|e l IH]; [reflexivity|].
  cbn [forallb]. intros A. apply andb_true_iff in A. destruct A as (A1 & A2).
  rewrite (IH A2), andb_true_r. destruct e; try discriminate A1; exact A1.
Qed.

Lemma spill_events_ext s1 s :
  xreg s1 = xreg s -> vreg s1 = vreg s ->
  forall regs off, spill_events s1 off regs = spill_events s off regs.
Proof.
  intros Ex Ev. induction regs as [|reg regs IH]; intros off; [reflexivity|].
  cbn [spill_events]. now rewrite Ex, Ev, IH.
Qed.

Lemma spill_events_plain s regs :
  forall off, forallb plain_store (spill_events s off regs) = true.
Proof.
  induction regs as [|reg regs IH]; intros off; [reflexivity|].
  cbn [spill_events]. rewrite forallb_app, IH, andb_true_r.
  destruct reg; reflexivity.
Qed.

(** The spill code stores the return locations and changes no register;
    its events are exactly [spill_events]. *)
Lemma spill_trace rest regs :
  forall off s,
    exists s',
      runs extern P (RegSpiller.spill_code true off regs ++ rest) s rest s'
        (spill_events s off regs)
      /\ xreg s' = xreg s /\ vreg s' = vreg s.
Proof.
  induction regs as [|reg regs IH]; intros off s.
  - exists s. split; [apply runs_refl|]. split; reflexivity.
  - cbn [RegSpiller.spill_code spill_events].
    destruct reg as [r|f|n|].
    + set (s1 := store s (wrap64 (xreg s sp + off)) 8 (xreg s r) false).
      destruct (IH (off + RegSpiller.pd_reg_size (VMReg_Register r)) s1)
        as (s' & R & Ex & Ev).
      rewrite (spill_events_ext s1 s eq_refl eq_refl) in R.
      exists s'. split; [|split; [now rewrite Ex | now rewrite Ev]].
      rewrite <- app_assoc. cbn [app].
      assert (R0 : runs extern P
                     (str r (Address_disp sp off)
                        :: RegSpiller.spill_code true
                             (off + RegSpiller.pd_reg_size (VMReg_Register r)) regs
                           ++ rest)
                     s
                     (RegSpiller.spill_code true
                        (off + RegSpiller.pd_reg_size (VMReg_Register r)) regs ++ rest)
                     s1 [Ev_store (wrap64 (xreg s sp + off)) 8 (xreg s r) false])
        by (apply runs_step; reflexivity).
      exact (runs_then extern _ _ _ _ _ _ _ _ _ _ R0 R eq_refl).
    + set (s1 := store s (wrap64 (xreg s sp + off)) 16 (vreg s f) false).
      destruct (IH (off + RegSpiller.pd_reg_size (VMReg_FloatRegister f)) s1)
        as (s' & R & Ex & Ev).
      rewrite (spill_events_ext s1 s eq_refl eq_refl) in R.
      exists s'. split; [|split; [now rewrite Ex | now rewrite Ev]].
      rewrite <- app_assoc. cbn [app].
      assert (R0 : runs extern P
                     (strq f (Address_disp sp off)
                        :: RegSpiller.spill_code true
                             (off + RegSpiller.pd_reg_size (VMReg_FloatRegister f)) regs
                           ++ rest)
                     s
                     (RegSpiller.spill_code true
                        (off + RegSpiller.pd_reg_size (VMReg_FloatRegister f)) regs
                        ++ rest)
                     s1 [Ev_store (wrap64 (xreg s sp + off)) 16 (vreg s f) false])
        by (apply runs_step; reflexivity).
      exact (runs_then extern _ _ _ _ _ _ _ _ _ _ R0 R eq_refl).
    + cbn [app]. apply IH.
    + cbn [app]. apply IH.
Qed.

(** A slow path: spill, one call, fill, branch back. *)
Lemma proto_detour (mid : list insn) (L : Label) (target rest0 : list insn)
    (evc : (Register -> Z) -> event) :
  (forall tail s1, exists s4,
       runs extern P (mid ++ tail) s1 tail s4 [evc (xreg s1)]
       /\ (forall r, r = rfp \/ r = rthread -> extern_keeps extern r ->
                     xreg s4 r = xreg s1 r)) ->
  (forall x, is_call (evc x) = true) ->
  find_label L P = Some target ->
  forall s,
  exists s' evs a,
    runs extern P
      ((RegSpiller.spill_code true 0 outs ++ mid
        ++ RegSpiller.spill_code false 0 outs ++ [b L]) ++ rest0) s target s' evs
    /\ quiet evs
    /\ calls_of evs = [evc a]
    /\ evs = spill_events s 0 outs ++ [evc a]
    /\ (forall r, r = rfp \/ r = rthread -> kept r -> xreg s' r = xreg s r).
Proof.
  intros Hmid Hcall HL s.
  destruct (spill_trace (mid ++ RegSpiller.spill_code false 0 outs ++ b L :: rest0)
              outs 0 s)
    as (s1 & R1 & X1 & _).
  set (e1 := spill_events s 0 outs) in *.
  pose proof (plain_stores_quiet e1 (spill_events_plain s outs 0)) as Q1.
  pose proof (plain_stores_no_calls e1 (spill_events_plain s outs 0)) as C1.
  destruct (Hmid (RegSpiller.spill_code false 0 outs ++ b L :: rest0) s1)
    as (s2 & R2 & K2).
  destruct (runs_effects extern P (RegSpiller.spill_code false 0 outs)
              (b L :: rest0) (spill_code_safe _ _ _) s2)
    as (s3 & e3 & R3 & _ & S3 & _ & K3).
  specialize (S3 (fill_code_silent _ _)). subst e3.
  assert (R4 : runs extern P (b L :: rest0) s3 target s3 []).
  { apply runs_step; [|now rewrite app_nil_r].
    cbn [step]. unfold goto. now rewrite HL. }
  exists s3, (e1 ++ [evc (xreg s1)]), (xreg s1). split.
  { replace ((RegSpiller.spill_code true 0 outs ++ mid
              ++ RegSpiller.spill_code false 0 outs ++ [b L]) ++ rest0)
      with (RegSpiller.spill_code true 0 outs
            ++ mid ++ RegSpiller.spill_code false 0 outs ++ b L :: rest0)
      by (repeat (progress (rewrite <- ?app_assoc; cbn [app])); reflexivity).
    apply (runs_then extern _ _ _ _ _ _ _ _ _ _ R1
             (runs_then extern _ _ _ _ _ _ _ _ _ _ R2
                (runs_then extern _ _ _ _ _ _ _ _ _ _ R3 R4 eq_refl) eq_refl)).
    now rewrite !app_nil_r. }
  split.
  { apply quiet_app; [exact Q1|]. unfold quiet. cbn [forallb].
    specialize (Hcall (xreg s1)). destruct (evc (xreg s1)); try discriminate Hcall.
    reflexivity. }
  split.
  { unfold calls_of in *. rewrite filter_app, C1. cbn [filter app].
    now rewrite Hcall. }
  split; [reflexivity|].
  intros r Hr (Kx & Km & Ko).
  rewrite (K3 r (spill_code_keeps _ _ _ Ko _) Kx), (K2 r Hr Kx).
  now rewrite X1.
Qed.

Lemma proto_reguard s :
  exists s' evs a,
    runs extern P (at_reguard outs) s (at_after_reguard outs) s' evs
    /\ quiet evs
    /\ calls_of evs = [Ev_call (entry_address reguard_yellow_pages) a]
    /\ evs = spill_events s 0 outs
             ++ [Ev_call (entry_address reguard_yellow_pages) a]
    /\ (forall r, r = rfp \/ r = rthread -> kept r -> xreg s' r = xreg s r).
Proof.
  unfold at_reguard, seg_reguard_body.
  destruct (proto_detour [rt_call reguard_yellow_pages r9] L_after_reguard
              (at_after_reguard outs) [block_comment "} L_reguard"]
              (fun x => Ev_call (entry_address reguard_yellow_pages) (x c_rarg0)))
    with (s := s) as (s' & evs & a & R & Q & C & E & K).
  - intros tail s1.
    exists (call extern (entry_address reguard_yellow_pages)
              (set_xreg s1 r9 (entry_address reguard_yellow_pages))).
    split; [exists 1%nat; split; reflexivity|].
    intros r Hr Kx. unfold call. cbn [xreg set_trace]. rewrite Kx.
    destruct Hr as [-> | ->]; reflexivity.
  - reflexivity.
  - apply (label_after_reguard begin fs moves unpack outs unpack_no_bind).
  - exists s', evs, (a c_rarg0). repeat split; assumption.
Qed.

Lemma proto_poll_slow s :
  exists s' evs a,
    runs extern P (at_safepoint_poll_slow_path outs) s
      (at_after_safepoint_poll outs) s' evs
    /\ quiet evs
    /\ calls_of evs
       = [Ev_call (entry_address check_special_condition_for_native_trans) a]
    /\ evs = spill_events s 0 outs
             ++ [Ev_call (entry_address check_special_condition_for_native_trans) a]
    /\ (forall r, r = rfp \/ r = rthread -> kept r -> xreg s' r = xreg s r).
Proof.
  unfold at_safepoint_poll_slow_path, seg_poll_slow_body.
  destruct (proto_detour
              [mov c_rarg0 rthread;
               lea r9 (RuntimeAddress check_special_condition_for_native_trans);
               blr r9]
              L_after_safepoint_poll (at_after_safepoint_poll outs)
              (block_comment "} L_safepoint_poll_slow_path"
                 :: block_comment "{ L_reguard" :: bind L_reguard :: at_reguard outs)
              (fun x => Ev_call (entry_address check_special_condition_for_native_trans)
                          (x rthread)))
    with (s := s) as (s' & evs & a & R & Q & C & E & K).
  - intros tail s1.
    exists (call extern (entry_address check_special_condition_for_native_trans)
              (set_xreg (set_xreg s1 c_rarg0 (xreg s1 rthread)) r9
                 (entry_address check_special_condition_for_native_trans))).
    split; [exists 3%nat; split; reflexivity|].
    intros r Hr Kx. unfold call. cbn [xreg set_trace]. rewrite Kx.
    destruct Hr as [-> | ->]; reflexivity.
  - reflexivity.
  - apply (label_after_safepoint_poll begin fs moves unpack outs unpack_no_bind).
  - exists s', evs, (a rthread). repeat split; assumption.
Qed.

End DowncallProtocol.

Section DowncallProtocolRun.

Context `{Runtime}.

Variable extern : Z -> Machine.mstate -> Machine.mstate.

Import NativeInvoker Downcall DowncallShape Machine Traces Effects.

Variables (begin fs : Z) (moves : list Shuffle.Move) (bt : BasicType)
          (unpack : list insn) (outs : list VMReg).

Hypothesis moves_valid :
  forall m, In m moves -> is_valid (fst m) = true /\ is_valid (snd m) = true.
Hypothesis unpack_of : unpack_code bt = Some unpack.

Let P := downcall_code begin fs moves unpack outs.

Let kept (r : Register) := register_kept extern moves outs r.

Let unpack_no_bind : forallb (fun i => negb (is_bind i)) unpack = true :=
  proj2 (unpack_code_safe bt unpack unpack_of).

Let unpack_safe : forallb safe unpack = true :=
  proj1 (unpack_code_safe bt unpack unpack_of).

(** From [L_after_safepoint_poll]: the release store of the managed state
    to the state word of the thread, then the reguard check, which leads to
    [L_after_reguard] directly or through the reguard slow path and its one
    call. *)
Lemma proto_to_java s :
  exists s' slow,
    runs extern P (at_after_safepoint_poll outs) s (at_after_reguard outs) s'
      (Ev_store (wrap64 (wrap64 (xreg s rthread + thread_state_offset))) 4
         (wrap64 _thread_in_Java) true :: slow)
    /\ quiet slow
    /\ (calls_of slow = []
        \/ exists a, calls_of slow
                     = [Ev_call (entry_address reguard_yellow_pages) a])
    /\ (slow = []
        \/ exists ss a,
             slow = spill_events ss 0 outs
                    ++ [Ev_call (entry_address reguard_yellow_pages) a])
    /\ (forall r, r = rfp \/ r = rthread -> kept r -> xreg s' r = xreg s r).
Proof.
  unfold at_after_safepoint_poll, seg_to_java.
  set (rest := bind L_after_reguard :: at_after_reguard outs).
  set (s3 := store (set_xreg (set_xreg s r9 (wrap64 _thread_in_Java)) r10
                      (wrap64 (xreg (set_xreg s r9 (wrap64 _thread_in_Java)) rthread
                               + thread_state_offset)))
               (wrap64 (wrap64 (xreg (set_xreg s r9 (wrap64 _thread_in_Java)) rthread
                                + thread_state_offset)))
               4 (wrap64 _thread_in_Java) true).
  assert (R3 : runs extern P
                 ([mov_imm r9 _thread_in_Java;
                   lea r10 (Address_disp rthread thread_state_offset);
                   stlrw r9 r10;
                   block_comment "reguard stack check";
                   ldrb r9 (Address_disp rthread stack_guard_state_offset);
                   cmpw r9 stack_guard_yellow_reserved_disabled;
                   br EQ L_reguard] ++ rest) s
                 ([block_comment "reguard stack check";
                   ldrb r9 (Address_disp rthread stack_guard_state_offset);
                   cmpw r9 stack_guard_yellow_reserved_disabled]
                  ++ br EQ L_reguard :: rest) s3
                 [Ev_store (wrap64 (wrap64 (xreg s rthread + thread_state_offset)))
                           4 (wrap64 _thread_in_Java) true]).
  { exists 3%nat. split; reflexivity. }
  assert (K3 : forall r, r = rfp \/ r = rthread -> xreg s3 r = xreg s r).
  { intros r [-> | ->]; reflexivity. }
  clearbody s3.
  destruct (runs_effects extern P
              [block_comment "reguard stack check";
               ldrb r9 (Address_disp rthread stack_guard_state_offset);
               cmpw r9 stack_guard_yellow_reserved_disabled]
              (br EQ L_reguard :: rest) eq_refl s3)
    as (s4 & e4 & R4 & _ & S4 & _ & K4).
  specialize (S4 eq_refl). subst e4.
  assert (K4' : forall r, r = rfp \/ r = rthread -> extern_keeps extern r ->
                          xreg s4 r = xreg s r).
  { intros r Hr Kx. rewrite <- (K3 r Hr).
    destruct Hr as [-> | ->];
      [exact (K4 rfp eq_refl Kx) | exact (K4 rthread eq_refl Kx)]. }
  pose proof (runs_then extern _ _ _ _ _ _ _ _ _ _ R3 R4 eq_refl) as R34.
  cbn [app] in R34.
  destruct (flag_eq s4) eqn:F.
  - destruct (proto_reguard extern begin fs moves bt unpack outs unpack_of s4)
      as (s5 & e5 & a & R5 & Q5 & C5 & E5 & K5).
    exists s5, e5. split; [|split; [exact Q5|split; [|split]]].
    + assert (R' : runs extern P (br EQ L_reguard :: rest) s4 (at_reguard outs) s4 []).
      { apply runs_step; [|now rewrite app_nil_r].
        cbn [step]. rewrite F. unfold goto, P.
        now rewrite (label_reguard begin fs moves unpack outs unpack_no_bind). }
      apply (runs_then extern _ _ _ _ _ _ _ _ _ _ R34
               (runs_then extern _ _ _ _ _ _ _ _ _ _ R' R5 eq_refl)).
      reflexivity.
    + right. now exists a.
    + right. now exists s4, a.
    + intros r Hr K. rewrite (K5 r Hr K). destruct K as (Kx & _).
      exact (K4' r Hr Kx).
  - exists s4, []. split; [|split; [reflexivity|split; [|split]]].
    + assert (R' : runs extern P (br EQ L_reguard :: rest) s4 rest s4 []).
      { apply runs_step; [|now rewrite app_nil_r]. cbn [step]. now rewrite F. }
      assert (R'' : runs extern P rest s4 (at_after_reguard outs) s4 []).
      { apply runs_step; [reflexivity | now rewrite app_nil_r]. }
      apply (runs_then extern _ _ _ _ _ _ _ _ _ _ R34
               (runs_then extern _ _ _ _ _ _ _ _ _ _ R' R'' eq_refl)).
      reflexivity.
    + now left.
    + now left.
    + intros r Hr (Kx & _). exact (K4' r Hr Kx).
Qed.

(** After the native call: the plain store of the transitional state to the
    state word of the thread, the full barrier, then the poll, which leads
    to [L_after_safepoint_poll] directly or through the suspension slow path
    and its one call. *)
Lemma proto_poll s :
  exists s' slow,
    runs extern P
      (seg_poll ++ bind L_after_safepoint_poll :: at_after_safepoint_poll outs) s
      (at_after_safepoint_poll outs) s'
      (Ev_store (wrap64 (xreg s rthread + thread_state_offset)) 4
         (wrap64 _thread_in_native_trans) false
         :: Ev_membar [LoadLoad; LoadStore; StoreLoad; StoreStore] :: slow)
    /\ quiet slow
    /\ (calls_of slow = []
        \/ exists a,
             calls_of slow
             = [Ev_call (entry_address check_special_condition_for_native_trans) a])
    /\ (slow = []
        \/ exists ss a,
             slow = spill_events ss 0 outs
                    ++ [Ev_call (entry_address check_special_condition_for_native_trans)
                          a])
    /\ (forall r, r = rfp \/ r = rthread -> kept r -> xreg s' r = xreg s r).
Proof.
  set (atJ := at_after_safepoint_poll outs).
  set (tail := [ldrw r9 (Address_disp rthread suspend_flags_offset)]
               ++ cbnzw r9 L_safepoint_poll_slow_path
               :: bind L_after_safepoint_poll :: atJ).
  set (ts := wrap64 (xreg s rthread + thread_state_offset)).
  set (s1 := log (store (set_xreg s r9 (wrap64 _thread_in_native_trans)) ts 4
                    (wrap64 _thread_in_native_trans) false)
               (Ev_membar [LoadLoad; LoadStore; StoreLoad; StoreStore])).
  assert (R1 : runs extern P
                 (seg_poll ++ bind L_after_safepoint_poll :: atJ) s
                 (safepoint_poll L_safepoint_poll_slow_path true true false r9 :: tail)
                 s1
                 [Ev_store ts 4 (wrap64 _thread_in_native_trans) false;
                  Ev_membar [LoadLoad; LoadStore; StoreLoad; StoreStore]]).
  { exists 4%nat. split; [reflexivity|].
    unfold s1, store, log. cbn [trace set_trace set_mem set_xreg].
    now rewrite <- app_assoc. }
  assert (K1 : forall r, r = rfp \/ r = rthread -> xreg s1 r = xreg s r).
  { intros r [-> | ->]; reflexivity. }
  clearbody s1.
  set (s2 := set_xreg s1 r9 (Z.b2z (poll_armed s1))).
  assert (K2 : forall r, r = rfp \/ r = rthread -> xreg s2 r = xreg s r).
  { intros r Hr. rewrite <- (K1 r Hr). destruct Hr as [-> | ->]; reflexivity. }
  destruct (poll_armed s1) eqn:Armed.
  - (* the poll is armed *)
    destruct (proto_poll_slow extern begin fs moves bt unpack outs unpack_of s2)
      as (s3 & e3 & a & R3 & Q3 & C3 & E3 & K3).
    exists s3, e3. split; [|split; [exact Q3|split; [|split]]].
    + assert (R2 : runs extern P
                     (safepoint_poll L_safepoint_poll_slow_path true true false r9
                        :: tail)
                     s1 (at_safepoint_poll_slow_path outs) s2 []).
      { apply runs_step; [|now rewrite app_nil_r].
        cbn [step]. rewrite Armed. unfold goto, P.
        now rewrite (label_safepoint_poll_slow_path begin fs moves unpack outs
                       unpack_no_bind). }
      apply (runs_then extern _ _ _ _ _ _ _ _ _ _ R1
               (runs_then extern _ _ _ _ _ _ _ _ _ _ R2 R3 eq_refl)).
      reflexivity.
    + right. now exists a.
    + right. now exists s2, a.
    + intros r Hr K. now rewrite (K3 r Hr K), (K2 r Hr).
  - (* not armed: test the suspend flags *)
    assert (R2 : runs extern P
                   (safepoint_poll L_safepoint_poll_slow_path true true false r9 :: tail)
                   s1 tail s2 []).
    { apply runs_step; [|now rewrite app_nil_r]. cbn [step]. now rewrite Armed. }
    clearbody s2.
    destruct (runs_effects extern P
                [ldrw r9 (Address_disp rthread suspend_flags_offset)]
                (cbnzw r9 L_safepoint_poll_slow_path
                   :: bind L_after_safepoint_poll :: atJ) eq_refl s2)
      as (s3 & e3 & R3 & _ & S3 & _ & K3).
    specialize (S3 eq_refl). subst e3.
    assert (K3' : forall r, r = rfp \/ r = rthread -> extern_keeps extern r ->
                            xreg s3 r = xreg s r).
    { intros r Hr Kx. rewrite <- (K2 r Hr).
      destruct Hr as [-> | ->];
      [exact (K3 rfp eq_refl Kx) | exact (K3 rthread eq_refl Kx)]. }
    pose proof (runs_then extern _ _ _ _ _ _ _ _ _ _ R1
                  (runs_then extern _ _ _ _ _ _ _ _ _ _ R2 R3 eq_refl) eq_refl)
      as R13.
    cbn [app] in R13.
    destruct (wrap32 (xreg s3 r9) =? 0) eqn:Flags.
    + exists s3, []. split; [|split; [reflexivity|split; [|split]]].
      * assert (R5 : runs extern P
                       (cbnzw r9 L_safepoint_poll_slow_path
                          :: bind L_after_safepoint_poll :: atJ)
                       s3 (bind L_after_safepoint_poll :: atJ) s3 []).
        { apply runs_step; [|now rewrite app_nil_r]. cbn [step]. now rewrite Flags. }
        assert (R6 : runs extern P (bind L_after_safepoint_poll :: atJ) s3 atJ s3 []).
        { apply runs_step; [reflexivity | now rewrite app_nil_r]. }
        apply (runs_then extern _ _ _ _ _ _ _ _ _ _ R13
                 (runs_then extern _ _ _ _ _ _ _ _ _ _ R5 R6 eq_refl)).
        reflexivity.
      * now left.
      * now left.
      * intros r Hr (Kx & _). exact (K3' r Hr Kx).
    + destruct (proto_poll_slow extern begin fs moves bt unpack outs unpack_of s3)
        as (s4 & e4 & a & R4 & Q4 & C4 & E4 & K4).
      exists s4, e4. split; [|split; [exact Q4|split; [|split]]].
      * assert (R5 : runs extern P
                       (cbnzw r9 L_safepoint_poll_slow_path
                          :: bind L_after_safepoint_poll :: atJ)
                       s3 (at_safepoint_poll_slow_path outs) s3 []).
        { apply runs_step; [|now rewrite app_nil_r].
          cbn [step]. rewrite Flags. unfold goto, P.
          now rewrite (label_safepoint_poll_slow_path begin fs moves unpack outs
                         unpack_no_bind). }
        apply (runs_then extern _ _ _ _ _ _ _ _ _ _ R13
                 (runs_then extern _ _ _ _ _ _ _ _ _ _ R5 R4 eq_refl)).
        reflexivity.
      * right. now exists a.
      * right. now exists s3, a.
      * intros r Hr K. rewrite (K4 r Hr K). destruct K as (Kx & _).
        exact (K3' r Hr Kx).
Qed.

(** From the entry of the stub to the poll after the native call: the
    frame pointer/link pair is pushed, the frame triple is published, the
    native state is stored with release ordering, the arguments are
    shuffled and the target is called; nothing else is recorded. *)
Lemma proto_start s :
  exists s' spv fpv ts tgt a0,
    runs extern P P s
      (seg_poll ++ bind L_after_safepoint_poll :: at_after_safepoint_poll outs) s'
      [Ev_store (wrap64 (xreg s sp - 2 * wordSize)) 8 (xreg s rfp) false;
       Ev_store (wrap64 (xreg s sp - 2 * wordSize) + wordSize) 8 (xreg s lr) false;
       Ev_set_last_Java_frame spv fpv (begin + code_size (seg_prologue fs));
       Ev_store ts 4 (wrap64 _thread_in_native) true;
       Ev_call tgt a0]
    /\ (kept rfp -> xreg s' rfp = wrap64 (xreg s sp - 2 * wordSize)).
Proof.
  set (the_pc := begin + code_size (seg_prologue fs)).
  set (after := seg_poll ++ bind L_after_safepoint_poll :: at_after_safepoint_poll outs).
  set (new_sp := wrap64 (xreg s sp - 2 * wordSize)).
  assert (EP : P = seg_prologue fs ++ seg_to_native the_pc
                   ++ seg_shuffle moves ++ blr r9 :: unpack ++ after).
  { unfold P, downcall_code, after, at_after_safepoint_poll, at_after_reguard.
    repeat (progress (rewrite <- ?app_assoc; cbn [app])). reflexivity. }
  set (s1 := set_xreg
               (set_xreg
                  (set_xreg
                     (store (store s new_sp 8 (xreg s rfp) false)
                        (new_sp + wordSize) 8 (xreg s lr) false)
                     sp new_sp)
                  rfp new_sp)
               sp (wrap64 (new_sp
                           - wrap32 (Z.shiftl (wrap32 (fs - 4)) LogBytesPerInt)))).
  assert (R1 : runs extern P P s
                 (seg_to_native the_pc ++ seg_shuffle moves ++ blr r9 :: unpack ++ after)
                 s1
                 [Ev_store new_sp 8 (xreg s rfp) false;
                  Ev_store (new_sp + wordSize) 8 (xreg s lr) false]).
  { rewrite EP at 2. exists 2%nat. split; [reflexivity|].
    unfold s1, store, log. cbn [trace set_trace set_mem set_xreg].
    now rewrite <- app_assoc. }
  assert (K1 : xreg s1 rfp = new_sp) by reflexivity.
  clearbody s1.
  set (s2 := set_xreg
               (log (set_anchor s1 {| last_Java_sp := xreg s1 sp;
                                      last_Java_fp := xreg s1 rfp;
                                      last_Java_pc := the_pc |})
                    (Ev_set_last_Java_frame (xreg s1 sp) (xreg s1 rfp) the_pc))
               r9 (xreg s1 sp)).
  set (s3 := set_xreg (set_xreg s2 r9 (wrap64 _thread_in_native)) r10
               (wrap64 (xreg (set_xreg s2 r9 (wrap64 _thread_in_native)) rthread
                        + thread_state_offset))).
  set (ts := wrap64 (xreg s3 r10)).
  set (s4 := store s3 ts 4 (wrap64 _thread_in_native) true).
  assert (R2 : runs extern P
                 (seg_to_native the_pc ++ seg_shuffle moves ++ blr r9 :: unpack ++ after)
                 s1 (seg_shuffle moves ++ blr r9 :: unpack ++ after) s4
                 [Ev_set_last_Java_frame (xreg s1 sp) (xreg s1 rfp) the_pc;
                  Ev_store ts 4 (wrap64 _thread_in_native) true]).
  { exists 4%nat. split; [reflexivity|].
    unfold s4, s3, s2, store, log. cbn [trace set_trace set_mem set_xreg set_anchor].
    now rewrite <- app_assoc. }
  assert (K4 : xreg s4 rfp = xreg s1 rfp) by reflexivity.
  clearbody s4 ts. clear s3 s2.
  assert (Sf : forallb safe (seg_shuffle moves) = true).
  { unfold seg_shuffle. cbn [forallb safe andb]. rewrite forallb_app.
    now rewrite (seg_moves_safe moves moves_valid). }
  assert (Si : forallb silent (seg_shuffle moves) = true).
  { unfold seg_shuffle. cbn [forallb silent andb]. rewrite forallb_app.
    now rewrite (seg_moves_silent moves moves_valid). }
  destruct (runs_effects extern P (seg_shuffle moves) (blr r9 :: unpack ++ after) Sf s4)
    as (s5 & e5 & R5 & _ & S5 & _ & K5).
  specialize (S5 Si). subst e5.
  assert (R6 : runs extern P (blr r9 :: unpack ++ after) s5 (unpack ++ after)
                 (call extern (xreg s5 r9) s5)
                 [Ev_call (xreg s5 r9) (xreg s5 c_rarg0)]).
  { apply runs_step; reflexivity. }
  destruct (runs_effects extern P unpack after unpack_safe
              (call extern (xreg s5 r9) s5))
    as (s7 & e7 & R7 & _ & S7 & _ & K7).
  destruct (unpack_code_effects bt unpack unpack_of) as (Us & Uk).
  specialize (S7 Us). subst e7.
  exists s7, (xreg s1 sp), (xreg s1 rfp), ts, (xreg s5 r9), (xreg s5 c_rarg0).
  split.
  { apply (runs_then extern _ _ _ _ _ _ _ _ _ _ R1
             (runs_then extern _ _ _ _ _ _ _ _ _ _ R2
                (runs_then extern _ _ _ _ _ _ _ _ _ _ R5
                   (runs_then extern _ _ _ _ _ _ _ _ _ _ R6 R7 eq_refl)
                   eq_refl) eq_refl)).
    reflexivity. }
  intros (Kx & Km & Ko).
  rewrite (K7 rfp Uk Kx). unfold call. cbn [xreg set_trace]. rewrite Kx.
  rewrite (K5 rfp); [now rewrite K4, K1 | | exact Kx].
  unfold seg_shuffle. cbn [forallb keeps_reg andb]. rewrite forallb_app.
  now rewrite (seg_moves_keeps rfp moves Km).
Qed.

(** Every run of the stub returns, and its events are exactly these, in
    this order. *)
Lemma proto_trace s0 :
  exists fuel s' spv fpv ts1 tgt a0 ts2 slow1 ts3 slow2,
    run extern fuel P P s0 = Halt s'
    /\ trace s' =
       trace s0
       ++ [Ev_store (wrap64 (xreg s0 sp - 2 * wordSize)) 8 (xreg s0 rfp) false;
           Ev_store (wrap64 (xreg s0 sp - 2 * wordSize) + wordSize) 8
             (xreg s0 lr) false;
           Ev_set_last_Java_frame spv fpv (begin + code_size (seg_prologue fs));
           Ev_store ts1 4 (wrap64 _thread_in_native) true;
           Ev_call tgt a0;
           Ev_store ts2 4 (wrap64 _thread_in_native_trans) false;
           Ev_membar [LoadLoad; LoadStore; StoreLoad; StoreStore]]
       ++ slow1
       ++ Ev_store ts3 4 (wrap64 _thread_in_Java) true
       :: slow2 ++ [Ev_reset_last_Java_frame]
    /\ quiet slow1 /\ quiet slow2
    /\ (calls_of slow1 = []
        \/ exists a,
             calls_of slow1
             = [Ev_call (entry_address check_special_condition_for_native_trans) a])
    /\ (calls_of slow2 = []
        \/ exists a, calls_of slow2
                     = [Ev_call (entry_address reguard_yellow_pages) a])
    /\ (kept rfp -> xreg s' sp
                    = wrap64 (wrap64 (xreg s0 sp - 2 * wordSize) + 2 * wordSize)).
Proof.
  destruct (proto_start s0) as (s1 & spv & fpv & ts1 & tgt & a0 & R1 & K1).
  destruct (proto_poll s1) as (s2 & slow1 & R2 & Q1 & C1 & _ & K2).
  destruct (proto_to_java s2) as (s3 & slow2 & R3 & Q2 & C2 & _ & K3).
  destruct (proto_epilogue extern begin fs moves unpack outs s3) as (s4 & R4 & T4 & Sp4).
  pose proof (runs_then extern _ _ _ _ _ _ _ _ _ _ R1
                (runs_then extern _ _ _ _ _ _ _ _ _ _ R2 R3 eq_refl) eq_refl)
    as (n & Rn & Tn).
  exists (n + 3)%nat, s4, spv, fpv, ts1, tgt, a0. eexists. exists slow1.
  eexists. exists slow2.
  split; [now rewrite (run_next extern _ _ _ _ _ _ _ Rn)|].
  split.
  { rewrite T4, Tn. repeat (rewrite <- ?app_assoc; cbn [app]). reflexivity. }
  split; [exact Q1|]. split; [exact Q2|]. split; [exact C1|]. split; [exact C2|].
  intros K.
  now rewrite Sp4, (K3 rfp (or_introl eq_refl) K), (K2 rfp (or_introl eq_refl) K),
    (K1 K).
Qed.

End DowncallProtocolRun.

Section DowncallProtocolTheorems.

Context `{Runtime}.

Variable extern : Z -> Machine.mstate -> Machine.mstate.

Import NativeInvoker Downcall DowncallShape Machine Traces Effects.

(** X11: a generated downcall stub returns with the stack pointer it was
    entered with, on every path, provided nothing on the way writes the
    frame pointer: the called functions return with it, the shuffle does
    not move into it, and it is no return location. *)
Theorem stub_returns_with_entry_sp :
  forall g r code a,
    Masm.run (generate g) = Some (r, code) ->
    the_shuffle g = Some a ->
    frame_pointer_kept extern (Shuffle._moves a) (_output_registers g) ->
    forall s0,
      2 * wordSize <= xreg s0 sp < 2 ^ 64 ->
      exists fuel s',
        run extern fuel code code s0 = Halt s'
        /\ xreg s' sp = xreg s0 sp.
Proof.
  intros g r code a Hrun Sh K s0 Hsp.
  destruct (generate_inv g r code Hrun)
    as (a' & unpack & Sh' & U & _ & _ & _ & _ & -> & _).
  rewrite Sh in Sh'. inversion Sh'; subst a'; clear Sh'.
  destruct (proto_trace extern (insts_begin (_buffer g)) (computed_framesize g a)
              (Shuffle._moves a) (_ret_bt g) unpack (_output_registers g)
              (the_shuffle_valid g a Sh) U s0)
    as (fuel & s' & spv & fpv & ts1 & tgt & a0 & ts2 & slow1 & ts3 & slow2
        & Hr & _ & _ & _ & _ & _ & Sp).
  exists fuel, s'. split; [exact Hr|].
  rewrite (Sp K). unfold wordSize in *.
  rewrite (MemFacts.wrap64_small (xreg s0 sp - 2 * 8)) by lia.
  rewrite MemFacts.wrap64_small by lia. lia.
Qed.

End DowncallProtocolTheorems.

Lemma stub_returns_with_entry_sp_witness :
  exists r code a fuel s',
    Masm.run (@NativeInvoker.generate Examples.example_runtime Examples.swap_generator)
      = Some (r, code)
    /\ @Downcall.the_shuffle Examples.example_runtime Examples.swap_generator = Some a
    /\ frame_pointer_kept AdapterExamples.clobbering_callee (Shuffle._moves a)
         (NativeInvoker._output_registers Examples.swap_generator)
    /\ Machine.run (H := Examples.example_runtime)
         AdapterExamples.clobbering_callee fuel code code AdapterExamples.entry_state
       = Machine.Halt s'
    /\ Machine.xreg s' sp = 65536.
Proof.
  destruct (Masm.run (@NativeInvoker.generate Examples.example_runtime
                        Examples.swap_generator)) as [[r code]|] eqn:G;
    [|vm_compute in G; discriminate G].
  destruct (@Downcall.the_shuffle Examples.example_runtime Examples.swap_generator)
    as [a|] eqn:Sh; [|vm_compute in Sh; discriminate Sh].
  assert (K : frame_pointer_kept AdapterExamples.clobbering_callee (Shuffle._moves a)
                (NativeInvoker._output_registers Examples.swap_generator)).
  { pose proof Sh as Sh'. vm_compute in Sh'. inversion Sh'; subst a.
    split; [intros target s; reflexivity|]. split.
    - intros m Hm. cbn [Shuffle._moves] in Hm.
      repeat (destruct Hm as [<-|Hm]; [discriminate|]). destruct Hm.
    - cbn. intuition discriminate. }
  assert (Esp : Machine.xreg AdapterExamples.entry_state sp = 65536) by reflexivity.
  destruct (@stub_returns_with_entry_sp Examples.example_runtime
              AdapterExamples.clobbering_callee Examples.swap_generator r code a
              G Sh K AdapterExamples.entry_state)
    as (fuel & s' & Hr & Hsp).
  - rewrite Esp. unfold wordSize. lia.
  - exists r, code, a, fuel, s'. split; [reflexivity|]. split; [reflexivity|].
    split; [exact K|]. split; [exact Hr|]. now rewrite Hsp.
Defined.

(** ** The frame anchor *)

Section FrameAnchor.

Context `{Runtime}.

Variable extern : Z -> Machine.mstate -> Machine.mstate.

Import NativeInvoker Downcall DowncallShape Machine Traces Effects.

Lemma run_publish P the_pc rest s :
  run extern 1 P (seg_to_native the_pc ++ rest) s
  = Next ([mov_imm r9 _thread_in_native;
           lea r10 (Address_disp rthread thread_state_offset);
           stlrw r9 r10] ++ rest)
      (set_xreg
         (log (set_anchor s {| last_Java_sp := xreg s sp;
                               last_Java_fp := xreg s rfp;
                               last_Java_pc := the_pc |})
            (Ev_set_last_Java_frame (xreg s sp) (xreg s rfp) the_pc))
         r9 (xreg s sp)).
Proof. reflexivity. Qed.

Lemma epilogue_clears_anchor P outs s :
  exists s',
    run extern 3 P (at_after_reguard outs) s = Halt s'
    /\ anchor s' = {| last_Java_sp := 0; last_Java_fp := 0; last_Java_pc := 0 |}.
Proof. eexists. split; reflexivity. Qed.

Lemma reaches_epilogue begin fs moves bt unpack outs :
  (forall m, In m moves -> is_valid (fst m) = true /\ is_valid (snd m) = true) ->
  unpack_code bt = Some unpack ->
  forall s0,
  exists n s3,
    run extern n (downcall_code begin fs moves unpack outs)
      (downcall_code begin fs moves unpack outs) s0
    = Next (at_after_reguard outs) s3.
Proof.
  intros V U s0.
  destruct (proto_start extern begin fs moves bt unpack outs V U s0)
    as (s1 & spv & fpv & ts1 & tgt & a0 & R1 & _).
  destruct (proto_poll extern begin fs moves bt unpack outs U s1)
    as (s2 & slow1 & R2 & _).
  destruct (proto_to_java extern begin fs moves bt unpack outs U s2)
    as (s3 & slow2 & R3 & _).
  pose proof (runs_then extern _ _ _ _ _ _ _ _ _ _ R1
                (runs_then extern _ _ _ _ _ _ _ _ _ _ R2 R3 eq_refl) eq_refl)
    as (n & Rn & _).
  now exists n, s3.
Qed.

(** X12: the frame triple a generated stub publishes describes the frame
    it has just set up: the stack pointer [framesize()] words below the
    entry stack pointer, the frame pointer two words below it, and the
    code address at which the frame is complete.  On every run the triple
    is cleared again, frame pointer included, when the stub returns. *)
Theorem anchor_describes_the_frame :
  forall g r code,
    Masm.run (generate g) = Some (r, code) ->
    4 <= _framesize r < 2 ^ 30 ->
    forall s,
      wordSize * framesize r <= xreg s sp < 2 ^ 64 ->
      (exists rest s1,
         run extern 3 code code s = Next rest s1
         /\ anchor s1
            = {| last_Java_sp := xreg s sp - wordSize * framesize r;
                 last_Java_fp := xreg s sp - 2 * wordSize;
                 last_Java_pc := insts_begin (_buffer g) + frame_complete r |})
      /\ exists fuel s',
           run extern fuel code code s = Halt s'
           /\ anchor s'
              = {| last_Java_sp := 0; last_Java_fp := 0; last_Java_pc := 0 |}.
Proof.
  intros g r code Hrun Hfs s Hsp.
  destruct (generate_inv g r code Hrun)
    as (a & unpack & Sh & U & _ & _ & _ & _ & -> & ->).
  cbn [_framesize] in Hfs.
  pose proof (computed_framesize_mod4 g a) as M.
  apply Z.mod_divide in M; [|lia]. destruct M as (q & Eq).
  assert (Ew : wordSize * framesize
                 {| _frame_complete := code_size (seg_prologue (computed_framesize g a));
                    _framesize := computed_framesize g a;
                    _oop_maps := [(code_size (seg_prologue (computed_framesize g a)),
                                   new_OopMap (computed_framesize g a) 0)] |}
               = 4 * computed_framesize g a).
  { unfold framesize, wordSize, LogBytesPerWord, LogBytesPerInt. cbn [_framesize].
    change (3 - 2) with 1. rewrite Z.shiftr_div_pow2 by lia. change (2 ^ 1) with 2.
    rewrite Eq. replace (q * 4) with (2 * q * 2) by lia. rewrite Z.div_mul by lia.
    lia. }
  rewrite Ew in *. clear Ew.
  split.
  - unfold downcall_code.
    set (rest := seg_shuffle _ ++ _).
    destruct (run_prologue extern
                (seg_prologue (computed_framesize g a)
                   ++ seg_to_native (insts_begin (_buffer g)
                                     + code_size (seg_prologue (computed_framesize g a)))
                   ++ rest)
                (computed_framesize g a)
                (seg_to_native (insts_begin (_buffer g)
                                + code_size (seg_prologue (computed_framesize g a)))
                   ++ rest) s Hfs Hsp)
      as (s1 & Hr & Rsp & Rfp & _).
    eexists. eexists. split.
    { change 3%nat with (2 + 1)%nat.
      rewrite (run_next extern 2 1 _ _ _ _ _ Hr). apply run_publish. }
    cbn [anchor set_xreg log set_trace set_anchor].
    rewrite Rsp, Rfp. unfold frame_complete, wordSize. cbn [_frame_complete].
    reflexivity.
  - destruct (reaches_epilogue (insts_begin (_buffer g)) (computed_framesize g a)
                (Shuffle._moves a) (_ret_bt g) unpack (_output_registers g)
                (the_shuffle_valid g a Sh) U s)
      as (n & s3 & Rn).
    destruct (epilogue_clears_anchor
                (downcall_code (insts_begin (_buffer g)) (computed_framesize g a)
                   (Shuffle._moves a) unpack (_output_registers g))
                (_output_registers g) s3) as (s4 & R4 & A4).
    exists (n + 3)%nat, s4. split; [|exact A4].
    now rewrite (run_next extern _ _ _ _ _ _ _ Rn).
Qed.

End FrameAnchor.

Lemma anchor_describes_the_frame_witness :
  exists r code rest s1,
    Masm.run (@NativeInvoker.generate Examples.example_runtime Examples.swap_generator)
      = Some (r, code)
    /\ Machine.run (H := Examples.example_runtime)
         AdapterExamples.clobbering_callee 3 code code AdapterExamples.entry_state
       = Machine.Next rest s1
    /\ Machine.anchor s1
       = {| Machine.last_Java_sp := 65504;
            Machine.last_Java_fp := 65520;
            Machine.last_Java_pc := 4108 |}.
Proof.
  destruct (Masm.run (@NativeInvoker.generate Examples.example_runtime
                        Examples.swap_generator)) as [[r code]|] eqn:G;
    [|vm_compute in G; discriminate G].
  destruct (@DowncallShape.generate_inv Examples.example_runtime _ _ _ G)
    as (a & u & Sh & _ & _ & _ & _ & _ & _ & Er).
  assert (Ef : Downcall.computed_framesize Examples.swap_generator a = 8).
  { pose proof Sh as Sh'. vm_compute in Sh'. inversion Sh'; subst a. reflexivity. }
  assert (F : NativeInvoker._framesize r = 8) by (rewrite Er; exact Ef).
  assert (F' : NativeInvoker.framesize r = 4)
    by (unfold NativeInvoker.framesize; rewrite F; reflexivity).
  assert (Fc : NativeInvoker.frame_complete r = 12).
  { rewrite Er. unfold NativeInvoker.frame_complete.
    cbn [NativeInvoker._frame_complete]. rewrite Ef. reflexivity. }
  assert (Esp : Machine.xreg AdapterExamples.entry_state sp = 65536) by reflexivity.
  destruct (@anchor_describes_the_frame Examples.example_runtime
              AdapterExamples.clobbering_callee Examples.swap_generator r code G)
    with (s := AdapterExamples.entry_state)
    as ((rest & s1 & Hr & Ha) & _).
  - rewrite F. lia.
  - rewrite F', Esp. unfold wordSize. lia.
  - exists r, code, rest, s1. split; [reflexivity|]. split; [exact Hr|].
    rewrite Ha, F', Fc, Esp. reflexivity.
Defined.

(** ** The target of the adapter's call *)

Section AdapterTarget.

Context `{Runtime}.

Variable extern : Z -> Machine.mstate -> Machine.mstate.

Import ProgrammableInvoker Adapter Machine MemFacts.

Lemma after_enter_Rctx s : xreg (after_enter s) Rctx = xreg s c_rarg0.
Proof. reflexivity. Qed.

(** X13: a generated adapter branches to the address it reads from the
    [arguments_next_pc] field of the record it was given: at the branch the
    base register still holds the record address, and the branch register
    holds the 8 bytes of that field.  The base register r10 must not be an
    integer argument register. *)
Theorem call_target_from_record :
  forall abi layout P s0,
    generate_adapter abi layout = Some P ->
    ~ In Rctx (_integer_argument_registers abi) ->
    exists fuel s',
      run extern fuel P P s0
      = Next (blr rscratch2
                :: ldr Rctx (Address_disp rfp (-2 * wordSize))
                :: seg_store abi layout) s'
      /\ xreg s' Rctx = xreg s0 c_rarg0
      /\ xreg s' rscratch2
         = load s' (wrap64 (xreg s0 c_rarg0 + int32 (arguments_next_pc layout))) 8.
Proof.
  intros abi layout P s0 Hgen Nc.
  destruct (generate_adapter_inv abi layout P Hgen) as (_ & _ & ->).
  destruct (adapter_run_to_call extern abi layout s0) as (s5 & Run & Regs & _).
  cbv zeta in Run, Regs.
  specialize (Regs Rctx Nc).
  rewrite copy_words_other in Regs by discriminate.
  rewrite copy_setup_other in Regs by discriminate.
  rewrite after_alloc_regs in Regs by discriminate.
  rewrite after_enter_Rctx in Regs.
  remember (Z.to_nat (xreg (after_alloc abi layout (after_enter s0)) Rstack_size / 8))
    as w eqn:Ew.
  clear Ew.
  exists (5 + (4 + (5 + (5 * w + 1)
                    + (length (_vector_argument_registers abi)
                       + length (_integer_argument_registers abi)))) + 2)%nat.
  exists (set_xreg s5 rscratch2
            (load s5 (wrap64 (xreg s5 Rctx + int32 (arguments_next_pc layout))) 8)).
  split.
  { rewrite (run_next extern _ 2 _ _ _ _ _ Run). apply run_to_branch. }
  split; [exact Regs|].
  rewrite <- Regs. reflexivity.
Qed.

End AdapterTarget.

Lemma call_target_from_record_witness :
  exists P fuel s',
    ProgrammableInvoker.generate_adapter
      AdapterExamples.example_abi AdapterExamples.example_layout = Some P
    /\ Machine.run (H := Examples.example_runtime)
         AdapterExamples.clobbering_callee fuel P P AdapterExamples.entry_state
       = Machine.Next
           (blr rscratch2
              :: ldr ProgrammableInvoker.Rctx (Address_disp rfp (-2 * wordSize))
              :: Adapter.seg_store AdapterExamples.example_abi
                   AdapterExamples.example_layout) s'
    /\ Machine.xreg s' ProgrammableInvoker.Rctx = 4096.
Proof.
  exists (Adapter.adapter_code AdapterExamples.example_abi AdapterExamples.example_layout).
  assert (G : ProgrammableInvoker.generate_adapter
                AdapterExamples.example_abi AdapterExamples.example_layout
              = Some (Adapter.adapter_code AdapterExamples.example_abi
                        AdapterExamples.example_layout))
    by (vm_compute; reflexivity).
  assert (Nc : ~ In ProgrammableInvoker.Rctx
                    (_integer_argument_registers AdapterExamples.example_abi)).
  { cbn. intuition discriminate. }
  destruct (@call_target_from_record Examples.example_runtime
              AdapterExamples.clobbering_callee
              AdapterExamples.example_abi AdapterExamples.example_layout _
              AdapterExamples.entry_state G Nc) as (fuel & s' & Hr & Hc & _).
  exists fuel, s'. split; [exact G|]. split; [exact Hr|].
  rewrite Hc. reflexivity.
Defined.

(** ** What the adapter calls *)

Section AdapterCalls.

Context `{Runtime}.

Variable extern : Z -> Machine.mstate -> Machine.mstate.

Import ProgrammableInvoker Adapter Machine MemFacts Traces Effects.

Lemma mapi_forallb {A} (p : insn -> bool) (f : Z -> A -> insn) :
  (forall i a, p (f i a) = true) ->
  forall l i, forallb p (mapi f i l) = true.
Proof.
  intros Hp. induction l as [|a l IH]; intros i; [reflexivity|].
  cbn [mapi forallb]. now rewrite Hp, IH.
Qed.

Lemma calls_of_app l1 l2 : calls_of (l1 ++ l2) = calls_of l1 ++ calls_of l2.
Proof. apply filter_app. Qed.

(** From the entry of the adapter to [Ldone]. *)
Lemma adapter_run_to_loads abi layout s0 :
  exists w,
    run extern (5 + (4 + (5 + (5 * w + 1))))
      (adapter_code abi layout) (adapter_code abi layout) s0
    = Next (after_copy abi layout)
        (copy_words w (copy_setup layout (after_alloc abi layout (after_enter s0)))).
Proof.
  pose proof (run_enter extern (adapter_code abi layout)
                (seg_alloc abi layout
                   ++ block_comment "load_arguments"
                   :: seg_copy layout ++ after_copy abi layout) s0) as Run1.
  remember (after_enter s0) as s1 eqn:E1. clear E1.
  pose proof (run_alloc extern (adapter_code abi layout) abi layout
                (block_comment "load_arguments"
                   :: seg_copy layout ++ after_copy abi layout) s1) as Run2.
  assert (Hn : 0 <= xreg (after_alloc abi layout s1) Rstack_size < 2 ^ 64).
  { unfold after_alloc.
    cbn [xreg set_xreg Register_eqb sp rscratch2 r9 Nat.eqb Rstack_size r11].
    apply (load_range s1 _ 8). }
  remember (after_alloc abi layout s1) as s2 eqn:E2. clear E2.
  pose proof (run_copy extern abi layout s2 Hn) as Run3. cbv zeta in Run3.
  exists (Z.to_nat (xreg s2 Rstack_size / 8)).
  remember (Z.to_nat (xreg s2 Rstack_size / 8)) as w eqn:Ew. clear Ew.
  replace (adapter_code abi layout) with
    (seg_enter ++ seg_alloc abi layout
       ++ block_comment "load_arguments"
       :: seg_copy layout ++ after_copy abi layout) at 2
    by (unfold adapter_code, seg_copy;
        repeat (progress (rewrite <- ?app_assoc; cbn [app])); reflexivity).
  rewrite (run_next extern 5 _ _ _ _ _ _ Run1).
  rewrite (run_next extern 4 _ _ _ _ _ _ Run2).
  exact Run3.
Qed.

Lemma after_enter_trace s :
  exists evs,
    trace (after_enter s) = trace s ++ evs /\ forallb plain_store evs = true.
Proof.
  eexists. split.
  - unfold after_enter, store, log. cbn [trace set_trace set_mem set_xreg].
    rewrite <- !app_assoc. reflexivity.
  - reflexivity.
Qed.

Lemma after_alloc_trace abi layout s : trace (after_alloc abi layout s) = trace s.
Proof. reflexivity. Qed.

Lemma copy_setup_trace layout s : trace (copy_setup layout s) = trace s.
Proof. reflexivity. Qed.

Lemma copy_word_trace s :
  exists e, trace (copy_word s) = trace s ++ [e] /\ plain_store e = true.
Proof. eexists. split; reflexivity. Qed.

Lemma copy_words_trace :
  forall w s,
    exists evs,
      trace (copy_words w s) = trace s ++ evs /\ forallb plain_store evs = true.
Proof.
  induction w as [|w IH]; intros s.
  - exists []. split; [now rewrite app_nil_r | reflexivity].
  - cbn [copy_words]. destruct (copy_word_trace s) as (e & Te & Ce).
    destruct (IH (copy_word s)) as (evs & T & C).
    exists ([e] ++ evs). split.
    + now rewrite T, Te, <- app_assoc.
    + cbn [app forallb]. now rewrite Ce, C.
Qed.

(** Up to [Ldone] the adapter does nothing but plain stores. *)
Lemma adapter_trace_to_loads abi layout s0 :
  exists n s3 evs,
    run extern n (adapter_code abi layout) (adapter_code abi layout) s0
    = Next (after_copy abi layout) s3
    /\ trace s3 = trace s0 ++ evs
    /\ forallb plain_store evs = true.
Proof.
  destruct (adapter_run_to_loads abi layout s0) as (w & Run).
  destruct (after_enter_trace s0) as (e1 & T1 & C1).
  destruct (copy_words_trace w (copy_setup layout (after_alloc abi layout (after_enter s0))))
    as (e3 & T3 & C3).
  exists (5 + (4 + (5 + (5 * w + 1))))%nat,
    (copy_words w (copy_setup layout (after_alloc abi layout (after_enter s0)))),
    (e1 ++ e3).
  split; [exact Run|]. split.
  - now rewrite T3, copy_setup_trace, after_alloc_trace, T1, <- app_assoc.
  - now rewrite forallb_app, C1, C3.
Qed.

(** Up to the block that calls the target the adapter does nothing but
    plain stores. *)
Lemma adapter_trace_to_call abi layout s0 :
  exists n s5 evs,
    run extern n (adapter_code abi layout) (adapter_code abi layout) s0
    = Next (seg_call layout ++ seg_store abi layout) s5
    /\ trace s5 = trace s0 ++ evs
    /\ forallb plain_store evs = true.
Proof.
  destruct (adapter_trace_to_loads abi layout s0) as (n & s3 & e3 & Run & T3 & C3).
  assert (Sf : forallb safe (seg_load_vector abi layout ++ seg_load_integer abi layout)
               = true).
  { rewrite forallb_app. unfold seg_load_vector, seg_load_integer.
    rewrite !mapi_forallb by reflexivity. reflexivity. }
  assert (Si : forallb silent (seg_load_vector abi layout ++ seg_load_integer abi layout)
               = true).
  { rewrite forallb_app. unfold seg_load_vector, seg_load_integer.
    rewrite !mapi_forallb by reflexivity. reflexivity. }
  destruct (runs_effects extern (adapter_code abi layout)
              (seg_load_vector abi layout ++ seg_load_integer abi layout)
              (seg_call layout ++ seg_store abi layout) Sf s3)
    as (s5 & e5 & (n5 & R5 & T5) & _ & S5 & _).
  rewrite (S5 Si), app_nil_r in T5.
  exists (n + n5)%nat, s5, e3.
  split; [|split; [now rewrite T5 | exact C3]].
  rewrite (run_next extern _ _ _ _ _ _ _ Run).
  unfold after_copy. rewrite app_assoc. exact R5.
Qed.

(** X14: every run of a generated adapter returns to its caller, and what
    it does to the outside is exactly this: plain stores, then one call,
    then plain stores.  No other function is called, and there is no
    release store, no barrier and no update of the frame anchor. *)
Theorem adapter_calls_once :
  forall abi layout P,
    generate_adapter abi layout = Some P ->
    forall s0,
    exists fuel s' before tgt a0 after,
      run extern fuel P P s0 = Halt s'
      /\ trace s' = trace s0 ++ before ++ Ev_call tgt a0 :: after
      /\ forallb plain_store before = true
      /\ forallb plain_store after = true
      /\ calls_of before = []
      /\ calls_of after = [].
Proof.
  intros abi layout P Hgen s0.
  destruct (generate_adapter_inv abi layout P Hgen) as (_ & _ & ->).
  destruct (adapter_trace_to_call abi layout s0) as (n & s5 & e5 & Run & T5 & C5).
  pose proof (run_call extern (adapter_code abi layout) layout (seg_store abi layout) s5)
    as Run6.
  cbv zeta in Run6.
  set (s5' := set_xreg s5 rscratch2
                (load s5 (wrap64 (xreg s5 Rctx + int32 (arguments_next_pc layout))) 8))
    in *.
  set (s6 := call extern (xreg s5' rscratch2) s5') in *.
  assert (T6 : trace (set_xreg s6 Rctx (load s6 (wrap64 (xreg s6 rfp + -2 * wordSize)) 8))
               = trace s5 ++ [Ev_call (xreg s5' rscratch2) (xreg s5' c_rarg0)])
    by reflexivity.
  remember (set_xreg s6 Rctx (load s6 (wrap64 (xreg s6 rfp + -2 * wordSize)) 8))
    as s7 eqn:E7.
  remember (xreg s5' rscratch2) as tgt eqn:Et.
  remember (xreg s5' c_rarg0) as a0 eqn:Ea.
  clear E7 Et Ea. clear s6 s5'.
  set (stores := block_comment "store_registers"
                 :: mapi (fun i reg =>
                            str reg (Address_disp Rctx
                              (int64 (returns_integer layout + i * sizeof_uintptr_t))))
                         0 (_integer_return_registers abi)
                 ++ mapi (fun i reg =>
                            strq reg (Address_disp Rctx
                              (int64 (returns_vector layout + i * float_reg_size))))
                         0 (_vector_return_registers abi)).
  assert (Es : seg_store abi layout = stores ++ [leave; ret lr]).
  { unfold seg_store, stores. cbn [app]. now rewrite <- app_assoc. }
  rewrite Es in *.
  destruct (runs_stores extern (adapter_code abi layout) stores [leave; ret lr])
    with (s := s7) as (s8 & e8 & (n8 & R8 & T8) & C8).
  { unfold stores. cbn [forallb safe andb]. rewrite forallb_app.
    rewrite !mapi_forallb by reflexivity. reflexivity. }
  { unfold stores. cbn [forallb store_item silent andb]. rewrite forallb_app.
    rewrite !mapi_forallb by reflexivity. reflexivity. }
  pose proof (run_leave_ret extern (adapter_code abi layout) s8) as R9.
  exists (n + (4 + (n8 + 2)))%nat. eexists. exists e5, tgt, a0, e8.
  split; [|split; [|split; [exact C5 | split; [exact C8 | split]]]].
  - rewrite (run_next extern _ _ _ _ _ _ _ Run).
    rewrite (run_next extern _ _ _ _ _ _ _ Run6).
    rewrite (run_next extern _ _ _ _ _ _ _ R8).
    exact R9.
  - cbn [trace set_xreg]. rewrite T8, T6, T5.
    repeat (rewrite <- ?app_assoc; cbn [app]). reflexivity.
  - exact (plain_stores_no_calls e5 C5).
  - exact (plain_stores_no_calls e8 C8).
Qed.

End AdapterCalls.

Lemma adapter_calls_once_witness :
  exists P fuel s',
    ProgrammableInvoker.generate_adapter
      AdapterExamples.example_abi AdapterExamples.example_layout = Some P
    /\ Machine.run (H := Examples.example_runtime)
         AdapterExamples.clobbering_callee fuel P P AdapterExamples.entry_state
       = Machine.Halt s'
    /\ length (Traces.calls_of (Machine.trace s')) = 1%nat
    /\ length (filter Effects.plain_store (Machine.trace s'))
       = (length (Machine.trace s') - 1)%nat.
Proof.
  exists (Adapter.adapter_code AdapterExamples.example_abi AdapterExamples.example_layout).
  assert (G : ProgrammableInvoker.generate_adapter
                AdapterExamples.example_abi AdapterExamples.example_layout
              = Some (Adapter.adapter_code AdapterExamples.example_abi
                        AdapterExamples.example_layout))
    by (vm_compute; reflexivity).
  destruct (@adapter_calls_once Examples.example_runtime
              AdapterExamples.clobbering_callee
              AdapterExamples.example_abi AdapterExamples.example_layout _ G
              AdapterExamples.entry_state)
    as (fuel & s' & before & tgt & a0 & after & Hr & Ht & Pb & Pa & Cb & Ca).
  exists fuel, s'. split; [exact G|]. split; [exact Hr|].
  assert (F : forall l, forallb Effects.plain_store l = true ->
                        filter Effects.plain_store l = l).
  { induction l as [|e l IH]; [reflexivity|]. cbn [forallb filter].
    intros A. apply andb_true_iff in A. destruct A as (A1 & A2).
    now rewrite A1, (IH A2). }
  rewrite Ht. cbn [Machine.trace AdapterExamples.entry_state app]. split.
  - unfold Traces.calls_of in *. rewrite filter_app, Cb.
    cbn [filter Traces.is_call app]. now rewrite Ca.
  - rewrite filter_app. cbn [filter Effects.plain_store].
    rewrite (F before Pb), (F after Pa), !length_app. cbn [length]. lia.
Defined.


(** ** The return locations on the way back *)

Section ReturnPath.

Context `{Runtime}.

Variable extern : Z -> Machine.mstate -> Machine.mstate.

Import NativeInvoker Downcall DowncallShape Machine Traces Spill MemFacts.

Hypothesis extern_ok : callee_preserves_stack extern.

Variables (begin fs : Z) (moves : list Shuffle.Move) (unpack : list insn)
          (outs : list VMReg).

Hypothesis unpack_no_bind : forallb (fun i => negb (is_bind i)) unpack = true.
Hypothesis Nr9 : ~ In (VMReg_Register r9) outs.
Hypothesis Nr10 : ~ In (VMReg_Register r10) outs.

Let P := downcall_code begin fs moves unpack outs.

Variable s0 : mstate.

Hypothesis range0 : forall reg, In reg outs -> in_range s0 reg.
Hypothesis sp_low : 0 <= xreg s0 sp.
Hypothesis sp_high : xreg s0 sp + RegSpiller.compute_spill_area outs <= 2 ^ 64.

Lemma in_range_get_loc s s' reg :
  get_loc s' reg = get_loc s reg -> in_range s reg -> in_range s' reg.
Proof. destruct reg; cbn [get_loc in_range]; intros E; try rewrite E; auto. Qed.

Lemma kept_set_xreg s r v :
  ~ In (VMReg_Register r) outs -> r <> sp ->
  results_kept outs s0 s -> results_kept outs s0 (set_xreg s r v).
Proof.
  intros Nin Nsp (K & Ksp). split.
  - intros reg Hin. rewrite get_loc_set_xreg_other; [now apply K|].
    intros ->. contradiction.
  - cbn [xreg set_xreg]. apply Register_eqb_neq in Nsp.
    destruct (Register_eqb sp r) eqn:E; [|exact Ksp].
    apply Register_eqb_eq in E. symmetry in E. apply Register_eqb_neq in Nsp.
    contradiction.
Qed.

Lemma kept_store s a n v rel :
  results_kept outs s0 s -> results_kept outs s0 (store s a n v rel).
Proof.
  intros (K & Ksp). split; [|exact Ksp].
  intros reg Hin. rewrite get_loc_store. now apply K.
Qed.

Lemma kept_log s e : results_kept outs s0 s -> results_kept outs s0 (log s e).
Proof.
  intros (K & Ksp). split; [|exact Ksp].
  intros reg Hin. rewrite <- (K reg Hin). destruct reg; reflexivity.
Qed.

Lemma kept_set_flag_eq s f :
  results_kept outs s0 s -> results_kept outs s0 (set_flag_eq s f).
Proof.
  intros (K & Ksp). split; [|exact Ksp].
  intros reg Hin. rewrite <- (K reg Hin). destruct reg; reflexivity.
Qed.

(** A slow path brings the return locations and the stack pointer back. *)
Lemma kept_detour (mid : list insn) (L : Label) (target rest0 : list insn) :
  (forall tail s1,
     exists s4 evs,
       runs extern P (mid ++ tail) s1 tail s4 evs
       /\ xreg s4 sp = xreg s1 sp /\ slot s4 = slot s1
       /\ forall a, xreg s1 sp <= a -> mem s4 a = mem s1 a) ->
  find_label L P = Some target ->
  forall s,
    results_kept outs s0 s ->
    exists s' evs,
      runs extern P
        ((RegSpiller.spill_code true 0 outs ++ mid
          ++ RegSpiller.spill_code false 0 outs ++ [b L]) ++ rest0) s target s' evs
      /\ results_kept outs s0 s'.
Proof.
  intros Hmid Hlabel s (K & Ksp).
  assert (Hrange : forall reg, In reg outs -> in_range s reg).
  { intros reg Hin. apply (in_range_get_loc s0); [now apply K | now apply range0]. }
  replace ((RegSpiller.spill_code true 0 outs ++ mid
            ++ RegSpiller.spill_code false 0 outs ++ [b L]) ++ rest0)
    with (RegSpiller.spill_code true 0 outs
          ++ (mid ++ (RegSpiller.spill_code false 0 outs ++ b L :: rest0)))
    by (repeat (progress (rewrite <- ?app_assoc; cbn [app])); reflexivity).
  destruct (run_spill extern P
              (mid ++ (RegSpiller.spill_code false 0 outs ++ b L :: rest0))
              outs 0 s (get_loc s) (fun _ => eq_refl) ltac:(lia) ltac:(lia))
    as (s1 & e1 & R1 & C1 & X1 & V1 & S1 & Hh & Out1).
  destruct (Hmid (RegSpiller.spill_code false 0 outs ++ b L :: rest0) s1)
    as (s4 & e2 & R2 & Sp4 & S4 & M4).
  rewrite X1 in Sp4, M4.
  assert (Hh4 : spill_holds (mem s4) (xreg s4 sp) 0 outs (get_loc s)).
  { rewrite Sp4. apply (spill_holds_ext outs (mem s1)); try lia; [|exact Hh].
    intros x Hx. symmetry. apply M4. lia. }
  destruct (run_fill extern P (b L :: rest0) outs 0 s4 (get_loc s) Hh4)
    as (s5 & R3 & M5 & S5 & Sp5 & Gx & Gv & Gf).
  { cbn [get_loc]. now rewrite Sp4. }
  { intros r Hr. exact (Hrange _ Hr). }
  { intros f Hf. exact (Hrange _ Hf). }
  assert (R4 : runs extern P (b L :: rest0) s5 target s5 []).
  { apply runs_step; [|now rewrite app_nil_r].
    cbn [step]. unfold goto. now rewrite Hlabel. }
  exists s5, (e1 ++ e2 ++ [] ++ []).
  split; [|split].
  - exact (runs_then extern _ _ _ _ _ _ _ _ _ _ R1
             (runs_then extern _ _ _ _ _ _ _ _ _ _ R2
                (runs_then extern _ _ _ _ _ _ _ _ _ _ R3 R4 eq_refl) eq_refl)
             eq_refl).
  - intros reg Hin. rewrite <- (K reg Hin). destruct reg as [r|f|n|].
    + now apply Gx.
    + now apply Gv.
    + cbn [get_loc]. now rewrite S5, S4, S1.
    + reflexivity.
  - now rewrite Sp5, Sp4.
Qed.

Lemma kept_reguard s :
  results_kept outs s0 s ->
  exists s' evs,
    runs extern P (at_reguard outs) s (at_after_reguard outs) s' evs
    /\ results_kept outs s0 s'.
Proof.
  unfold at_reguard, seg_reguard_body.
  apply (kept_detour [rt_call reguard_yellow_pages r9] L_after_reguard
           (at_after_reguard outs) [block_comment "} L_reguard"]).
  - intros tail s1.
    set (s3 := set_xreg s1 r9 (entry_address reguard_yellow_pages)).
    destruct (extern_ok (entry_address reguard_yellow_pages) s3)
      as (Esp & Eslot & Emem).
    exists (call extern (entry_address reguard_yellow_pages) s3). eexists.
    split; [exists 1%nat; split; reflexivity|].
    unfold call. cbn [xreg slot mem set_trace].
    split; [exact Esp|]. split; [exact Eslot|]. exact Emem.
  - apply (label_after_reguard begin fs moves unpack outs unpack_no_bind).
Qed.

Lemma kept_poll_slow s :
  results_kept outs s0 s ->
  exists s' evs,
    runs extern P (at_safepoint_poll_slow_path outs) s
      (at_after_safepoint_poll outs) s' evs
    /\ results_kept outs s0 s'.
Proof.
  unfold at_safepoint_poll_slow_path, seg_poll_slow_body.
  apply (kept_detour
           [mov c_rarg0 rthread;
            lea r9 (RuntimeAddress check_special_condition_for_native_trans);
            blr r9]
           L_after_safepoint_poll (at_after_safepoint_poll outs)
           (block_comment "} L_safepoint_poll_slow_path"
              :: block_comment "{ L_reguard" :: bind L_reguard :: at_reguard outs)).
  - intros tail s1.
    set (s3 := set_xreg (set_xreg s1 c_rarg0 (xreg s1 rthread)) r9
                 (entry_address check_special_condition_for_native_trans)).
    destruct (extern_ok (entry_address check_special_condition_for_native_trans) s3)
      as (Esp & Eslot & Emem).
    exists (call extern (entry_address check_special_condition_for_native_trans) s3).
    eexists.
    split; [exists 3%nat; split; reflexivity|].
    unfold call. cbn [xreg slot mem set_trace].
    split; [exact Esp|]. split; [exact Eslot|]. exact Emem.
  - apply (label_after_safepoint_poll begin fs moves unpack outs unpack_no_bind).
Qed.

(** From [L_after_safepoint_poll] to [L_after_reguard]. *)
Lemma kept_to_java s :
  results_kept outs s0 s ->
  exists s' evs,
    runs extern P (at_after_safepoint_poll outs) s (at_after_reguard outs) s' evs
    /\ results_kept outs s0 s'.
Proof.
  intros K. unfold at_after_safepoint_poll, seg_to_java.
  set (rest := bind L_after_reguard :: at_after_reguard outs).
  set (s1 := set_xreg s r9 (wrap64 _thread_in_Java)).
  set (s2 := set_xreg s1 r10 (wrap64 (xreg s1 rthread + thread_state_offset))).
  set (s3 := store s2 (wrap64 (xreg s2 r10)) 4 (xreg s2 r9) true).
  set (s4 := set_xreg s3 r9
               (load s3 (wrap64 (xreg s3 rthread + stack_guard_state_offset)) 1)).
  set (s5 := set_flag_eq s4
               (wrap32 (xreg s4 r9) =? wrap32 stack_guard_yellow_reserved_disabled)).
  assert (K5 : results_kept outs s0 s5).
  { apply kept_set_flag_eq, kept_set_xreg; [exact Nr9 | discriminate|].
    apply kept_store, kept_set_xreg; [exact Nr10 | discriminate|].
    apply kept_set_xreg; [exact Nr9 | discriminate | exact K]. }
  assert (R5 : exists evs,
             runs extern P
               ([mov_imm r9 _thread_in_Java;
                 lea r10 (Address_disp rthread thread_state_offset);
                 stlrw r9 r10;
                 block_comment "reguard stack check";
                 ldrb r9 (Address_disp rthread stack_guard_state_offset);
                 cmpw r9 stack_guard_yellow_reserved_disabled;
                 br EQ L_reguard] ++ rest) s (br EQ L_reguard :: rest) s5 evs).
  { eexists. exists 6%nat. split; reflexivity. }
  destruct R5 as (e5 & R5).
  clearbody s5. clear s4 s3 s2 s1.
  destruct (flag_eq s5) eqn:F.
  - destruct (kept_reguard s5 K5) as (s6 & e6 & R6 & K6).
    exists s6. eexists. split; [|exact K6].
    assert (R' : runs extern P (br EQ L_reguard :: rest) s5 (at_reguard outs) s5 []).
    { apply runs_step; [|now rewrite app_nil_r].
      cbn [step]. rewrite F. unfold goto, P.
      now rewrite (label_reguard begin fs moves unpack outs unpack_no_bind). }
    exact (runs_then extern _ _ _ _ _ _ _ _ _ _ R5
             (runs_then extern _ _ _ _ _ _ _ _ _ _ R' R6 eq_refl) eq_refl).
  - exists s5. eexists. split; [|exact K5].
    assert (R' : runs extern P (br EQ L_reguard :: rest) s5 rest s5 []).
    { apply runs_step; [|now rewrite app_nil_r]. cbn [step]. now rewrite F. }
    assert (R'' : runs extern P rest s5 (at_after_reguard outs) s5 []).
    { apply runs_step; [reflexivity | now rewrite app_nil_r]. }
    exact (runs_then extern _ _ _ _ _ _ _ _ _ _ R5
             (runs_then extern _ _ _ _ _ _ _ _ _ _ R' R'' eq_refl) eq_refl).
Qed.

(** From the poll after the unpacking to [L_after_safepoint_poll]. *)
Lemma kept_poll s :
  results_kept outs s0 s ->
  exists s' evs,
    runs extern P
      (seg_poll ++ bind L_after_safepoint_poll :: at_after_safepoint_poll outs) s
      (at_after_safepoint_poll outs) s' evs
    /\ results_kept outs s0 s'.
Proof.
  intros K.
  set (atJ := at_after_safepoint_poll outs).
  set (tail := ldrw r9 (Address_disp rthread suspend_flags_offset)
               :: cbnzw r9 L_safepoint_poll_slow_path
               :: bind L_after_safepoint_poll :: atJ).
  set (s1 := set_xreg s r9 (wrap64 _thread_in_native_trans)).
  set (s2 := log (store s1 (wrap64 (xreg s1 rthread + thread_state_offset)) 4
                    (xreg s1 r9) false)
               (Ev_membar [LoadLoad; LoadStore; StoreLoad; StoreStore])).
  assert (K2 : results_kept outs s0 s2).
  { apply kept_log, kept_store, kept_set_xreg; [exact Nr9 | discriminate | exact K]. }
  assert (R2 : exists evs,
             runs extern P (seg_poll ++ bind L_after_safepoint_poll :: atJ) s
               (safepoint_poll L_safepoint_poll_slow_path true true false r9 :: tail)
               s2 evs).
  { eexists. exists 4%nat. split; [reflexivity|].
    unfold s2, s1, store, log. cbn [trace set_trace set_mem set_xreg].
    rewrite <- app_assoc. reflexivity. }
  destruct R2 as (e2 & R2).
  clearbody s2. clear s1.
  set (s3 := set_xreg s2 r9 (Z.b2z (poll_armed s2))).
  assert (K3 : results_kept outs s0 s3).
  { apply kept_set_xreg; [exact Nr9 | discriminate | exact K2]. }
  destruct (poll_armed s2) eqn:Armed.
  - destruct (kept_poll_slow s3 K3) as (s4 & e4 & R4 & K4).
    exists s4. eexists. split; [|exact K4].
    assert (R3 : runs extern P
                   (safepoint_poll L_safepoint_poll_slow_path true true false r9
                      :: tail)
                   s2 (at_safepoint_poll_slow_path outs) s3 []).
    { apply runs_step; [|now rewrite app_nil_r].
      cbn [step]. rewrite Armed. unfold goto, P.
      now rewrite (label_safepoint_poll_slow_path begin fs moves unpack outs
                     unpack_no_bind). }
    exact (runs_then extern _ _ _ _ _ _ _ _ _ _ R2
             (runs_then extern _ _ _ _ _ _ _ _ _ _ R3 R4 eq_refl) eq_refl).
  - assert (R3 : runs extern P
                   (safepoint_poll L_safepoint_poll_slow_path true true false r9
                      :: tail)
                   s2 tail s3 []).
    { apply runs_step; [|now rewrite app_nil_r]. cbn [step]. now rewrite Armed. }
    clearbody s3.
    set (s4 := set_xreg s3 r9
                 (load s3 (wrap64 (xreg s3 rthread + suspend_flags_offset)) 4)).
    assert (K4 : results_kept outs s0 s4).
    { apply kept_set_xreg; [exact Nr9 | discriminate | exact K3]. }
    assert (R4 : runs extern P tail s3
                   (cbnzw r9 L_safepoint_poll_slow_path
                      :: bind L_after_safepoint_poll :: atJ) s4 []).
    { apply runs_step; [reflexivity | now rewrite app_nil_r]. }
    clearbody s4.
    destruct (wrap32 (xreg s4 r9) =? 0) eqn:Flags.
    + exists s4. eexists. split; [|exact K4].
      assert (R5 : runs extern P
                     (cbnzw r9 L_safepoint_poll_slow_path
                        :: bind L_after_safepoint_poll :: atJ)
                     s4 (bind L_after_safepoint_poll :: atJ) s4 []).
      { apply runs_step; [|now rewrite app_nil_r]. cbn [step]. now rewrite Flags. }
      assert (R6 : runs extern P (bind L_after_safepoint_poll :: atJ) s4 atJ s4 []).
      { apply runs_step; [reflexivity | now rewrite app_nil_r]. }
      exact (runs_then extern _ _ _ _ _ _ _ _ _ _ R2
               (runs_then extern _ _ _ _ _ _ _ _ _ _ R3
                  (runs_then extern _ _ _ _ _ _ _ _ _ _ R4
                     (runs_then extern _ _ _ _ _ _ _ _ _ _ R5 R6 eq_refl)
                     eq_refl) eq_refl) eq_refl).
    + destruct (kept_poll_slow s4 K4) as (s5 & e5 & R5 & K5).
      exists s5. eexists. split; [|exact K5].
      assert (R' : runs extern P
                     (cbnzw r9 L_safepoint_poll_slow_path
                        :: bind L_after_safepoint_poll :: atJ)
                     s4 (at_safepoint_poll_slow_path outs) s4 []).
      { apply runs_step; [|now rewrite app_nil_r].
        cbn [step]. rewrite Flags. unfold goto, P.
        now rewrite (label_safepoint_poll_slow_path begin fs moves unpack outs
                       unpack_no_bind). }
      exact (runs_then extern _ _ _ _ _ _ _ _ _ _ R2
               (runs_then extern _ _ _ _ _ _ _ _ _ _ R3
                  (runs_then extern _ _ _ _ _ _ _ _ _ _ R4
                     (runs_then extern _ _ _ _ _ _ _ _ _ _ R' R5 eq_refl)
                     eq_refl) eq_refl) eq_refl).
Qed.

Hypothesis Nfp : ~ In (VMReg_Register rfp) outs.
Hypothesis Nlr : ~ In (VMReg_Register lr) outs.
Hypothesis Nsp : ~ In (VMReg_Register sp) outs.

(** From the poll after the unpacking to the return. *)
Lemma kept_to_return :
  exists fuel s',
    run extern fuel P
      (seg_poll ++ bind L_after_safepoint_poll :: at_after_safepoint_poll outs) s0
    = Halt s'
    /\ forall reg, In reg outs -> get_loc s' reg = get_loc s0 reg.
Proof.
  assert (K0 : results_kept outs s0 s0) by (split; reflexivity).
  destruct (kept_poll s0 K0) as (s1 & e1 & R1 & K1).
  destruct (kept_to_java s1 K1) as (s2 & e2 & R2 & (K2 & _)).
  destruct (runs_then extern _ _ _ _ _ _ _ _ _ _ R1 R2 eq_refl) as (n & Rn & _).
  exists (n + 3)%nat. eexists. split.
  { rewrite (run_next extern _ _ _ _ _ _ _ Rn). reflexivity. }
  intros reg Hin. rewrite <- (K2 reg Hin).
  rewrite !get_loc_set_xreg_other by (intros ->; contradiction).
  destruct reg; reflexivity.
Qed.

End ReturnPath.

Section ReturnValue.

Context `{Runtime}.

Variable extern : Z -> Machine.mstate -> Machine.mstate.

Import NativeInvoker Downcall DowncallShape Machine Traces Spill.

(** X15: from the poll that follows the unpacking of the native result to
    the return of the stub, every return location keeps its value, on
    every path: the straight code in between writes only r9 and r10, which
    generation asserts are no return locations, and each slow path spills
    the return locations before its call and fills them after it.  The
    runtime services must keep the caller's stack, the spill region must
    not wrap around the address space, and the frame pointer, the link
    register and the stack pointer must not be return locations. *)
Theorem return_locations_survive :
  forall g r code,
    Masm.run (generate g) = Some (r, code) ->
    callee_preserves_stack extern ->
    let outs := _output_registers g in
    ~ In (VMReg_Register rfp) outs ->
    ~ In (VMReg_Register lr) outs ->
    ~ In (VMReg_Register sp) outs ->
    exists pre unpack,
      code = pre ++ blr r9 :: unpack
                 ++ seg_poll ++ bind L_after_safepoint_poll
                 :: at_after_safepoint_poll outs
      /\ unpack_code (_ret_bt g) = Some unpack
      /\ forall s,
           (forall reg, In reg outs -> in_range s reg) ->
           0 <= xreg s sp ->
           xreg s sp + RegSpiller.spill_size_bytes (RegSpiller.new outs) <= 2 ^ 64 ->
           exists fuel s',
             run extern fuel code
               (seg_poll ++ bind L_after_safepoint_poll
                  :: at_after_safepoint_poll outs) s
             = Halt s'
             /\ forall reg, In reg outs -> get_loc s' reg = get_loc s reg.
Proof.
  intros g r code Hrun Hext outs Nfp Nlr Nsp.
  destruct (generate_inv g r code Hrun)
    as (a & unpack & Sh & U & A9 & A10 & _ & _ & -> & _).
  destruct (unpack_code_safe _ _ U) as (_ & Ub).
  apply target_uses_register_In in A9, A10.
  assert (Nr9 : ~ In (VMReg_Register r9) outs).
  { intros X. apply A9. apply in_or_app. now right. }
  assert (Nr10 : ~ In (VMReg_Register r10) outs).
  { intros X. apply A10. apply in_or_app. now right. }
  exists (seg_prologue (computed_framesize g a)
          ++ seg_to_native (insts_begin (_buffer g)
                            + code_size (seg_prologue (computed_framesize g a)))
          ++ seg_shuffle (Shuffle._moves a)), unpack.
  split.
  { unfold downcall_code, at_after_safepoint_poll, at_after_reguard.
    repeat (progress (rewrite <- ?app_assoc; cbn [app])). reflexivity. }
  split; [exact U|].
  intros s Hrange H0 Hb.
  exact (kept_to_return extern Hext (insts_begin (_buffer g)) (computed_framesize g a)
           (Shuffle._moves a) unpack outs Ub Nr9 Nr10 s Hrange H0 Hb Nfp Nlr Nsp).
Qed.

End ReturnValue.

Lemma return_locations_survive_witness :
  exists r code fuel s',
    Masm.run (@NativeInvoker.generate Examples.example_runtime Examples.swap_generator)
      = Some (r, code)
    /\ Spill.callee_preserves_stack AdapterExamples.clobbering_callee
    /\ Machine.run (H := Examples.example_runtime)
         AdapterExamples.clobbering_callee fuel code
         (@Downcall.seg_poll Examples.example_runtime
            ++ bind L_after_safepoint_poll
            :: @Downcall.at_after_safepoint_poll Examples.example_runtime
                 [VMReg_Register r0])
         AdapterExamples.entry_state
       = Machine.Halt s'
    /\ Machine.get_loc s' (VMReg_Register r0) = 4096.
Proof.
  destruct (Masm.run (@NativeInvoker.generate Examples.example_runtime
                        Examples.swap_generator)) as [[r code]|] eqn:G;
    [|vm_compute in G; discriminate G].
  assert (C : Spill.callee_preserves_stack AdapterExamples.clobbering_callee).
  { intros target s. split; [reflexivity|]. split; [reflexivity|].
    intros a _. reflexivity. }
  destruct (@return_locations_survive Examples.example_runtime
              AdapterExamples.clobbering_callee Examples.swap_generator r code G C)
    as (pre & unpack & _ & _ & Hs);
    try (cbn; intuition discriminate).
  destruct (Hs AdapterExamples.entry_state) as (fuel & s' & Hr & Hk).
  - intros reg [<-|[]]. cbn. lia.
  - cbn. lia.
  - cbn. lia.
  - exists r, code, fuel, s'. split; [reflexivity|]. split; [exact C|].
    split; [exact Hr|].
    rewrite (Hk (VMReg_Register r0) (or_introl eq_refl)). reflexivity.
Defined.

(** ** The fast path *)

Section FastPath.

Context `{Runtime}.

Variable extern : Z -> Machine.mstate -> Machine.mstate.

Import NativeInvoker Downcall DowncallShape Machine Traces MemFacts.

Lemma load_store_other s a n v rel b k :
  0 <= a -> a + Z.of_nat n <= 2 ^ 64 ->
  0 <= b -> b + Z.of_nat k <= 2 ^ 64 ->
  a + Z.of_nat n <= b \/ b + Z.of_nat k <= a ->
  load (store s a n v rel) b k = load s b k.
Proof.
  intros A0 A1 B0 B1 Dis. unfold load. f_equal.
  apply load_bytes_ext; try lia.
  intros x Hx. change (mem (store s a n v rel)) with (store_bytes (mem s) a (le_split n v)).
  apply store_bytes_outside; rewrite ?length_le_split; lia.
Qed.

Variables (begin fs : Z) (moves : list Shuffle.Move) (unpack : list insn)
          (outs : list VMReg).

Hypothesis unpack_no_bind : forallb (fun i => negb (is_bind i)) unpack = true.

Let P := downcall_code begin fs moves unpack outs.

(** With the poll disarmed, no suspend flag set and the guard pages in
    place, the stub goes from the poll straight to its return. *)
Lemma run_fast_path s :
  let thr := xreg s rthread in
  poll_armed s = false ->
  thread_fields_apart thr ->
  load s (thr + suspend_flags_offset) 4 = 0 ->
  wrap32 (load s (thr + stack_guard_state_offset) 1)
    <> wrap32 stack_guard_yellow_reserved_disabled ->
  exists s',
    run extern 19 P
      (seg_poll ++ bind L_after_safepoint_poll :: at_after_safepoint_poll outs) s
    = Halt s'
    /\ trace s' =
       trace s
       ++ [Ev_store (thr + thread_state_offset) 4 (wrap64 _thread_in_native_trans) false;
           Ev_membar [LoadLoad; LoadStore; StoreLoad; StoreStore];
           Ev_store (thr + thread_state_offset) 4 (wrap64 _thread_in_Java) true;
           Ev_reset_last_Java_frame].
Proof.
  intros thr Armed (T0 & T1 & F0 & F1 & G0 & G1 & DF & DG) Flags Guard.
  set (ts := thr + thread_state_offset).
  set (atJ := at_after_safepoint_poll outs).
  (* up to the poll *)
  set (s1 := set_xreg s r9 (wrap64 _thread_in_native_trans)).
  set (a1 := wrap64 (xreg s1 rthread + thread_state_offset)).
  set (s2 := log (store s1 a1 4 (xreg s1 r9) false)
               (Ev_membar [LoadLoad; LoadStore; StoreLoad; StoreStore])).
  set (tail := ldrw r9 (Address_disp rthread suspend_flags_offset)
               :: cbnzw r9 L_safepoint_poll_slow_path
               :: bind L_after_safepoint_poll :: atJ).
  assert (R2 : run extern 4 P (seg_poll ++ bind L_after_safepoint_poll :: atJ) s
               = Next (safepoint_poll L_safepoint_poll_slow_path true true false r9
                         :: tail) s2) by reflexivity.
  assert (A1 : a1 = ts).
  { unfold a1. change (xreg s1 rthread) with thr. apply wrap64_small.
    unfold ts. lia. }
  assert (E2 : xreg s2 rthread = thr) by reflexivity.
  assert (A2 : poll_armed s2 = false) by exact Armed.
  assert (L2 : forall b k, 0 <= b -> b + Z.of_nat k <= 2 ^ 64 ->
                           ts + 4 <= b \/ b + Z.of_nat k <= ts ->
                           load s2 b k = load s b k).
  { intros b k B0 B1 Dis.
    change (load s2 b k) with (load (store s1 a1 4 (xreg s1 r9) false) b k).
    rewrite A1. rewrite load_store_other by (unfold ts; lia). reflexivity. }
  assert (T2 : trace s2
               = trace s ++ [Ev_store ts 4 (wrap64 _thread_in_native_trans) false;
                             Ev_membar [LoadLoad; LoadStore; StoreLoad; StoreStore]]).
  { rewrite <- A1. unfold s2, store, log. cbn [trace set_trace set_mem].
    rewrite <- app_assoc. reflexivity. }
  clearbody s2. clear A1 a1 s1.
  (* the poll and the suspend flags *)
  set (s3 := set_xreg s2 r9 (Z.b2z false)).
  set (s4 := set_xreg s3 r9
               (load s3 (wrap64 (xreg s3 rthread + suspend_flags_offset)) 4)).
  assert (E4 : xreg s4 r9 = 0).
  { unfold s4. cbn [xreg set_xreg Register_eqb r9 Nat.eqb].
    change (xreg s3 rthread) with (xreg s2 rthread). rewrite E2.
    rewrite wrap64_small by lia.
    change (load s3 (thr + suspend_flags_offset) 4)
      with (load s2 (thr + suspend_flags_offset) 4).
    rewrite L2 by (unfold ts; change (Z.of_nat 4) with 4; lia). exact Flags. }
  assert (R4 : run extern 4 P
                 (safepoint_poll L_safepoint_poll_slow_path true true false r9 :: tail)
                 s2
               = Next atJ s4).
  { unfold tail. cbn [run step]. rewrite A2.
    cbn [run step resolve]. fold s3. fold s4. rewrite E4. reflexivity. }
  assert (E4' : xreg s4 rthread = thr) by (rewrite <- E2; reflexivity).
  assert (L4 : forall b k, load s4 b k = load s2 b k) by reflexivity.
  assert (T4 : trace s4 = trace s2) by reflexivity.
  clearbody s4. clear s3.
  (* the managed state and the reguard check *)
  set (s5 := set_xreg s4 r9 (wrap64 _thread_in_Java)).
  set (s6 := set_xreg s5 r10 (wrap64 (xreg s5 rthread + thread_state_offset))).
  set (a7 := wrap64 (xreg s6 r10)).
  set (s7 := store s6 a7 4 (xreg s6 r9) true).
  set (s8 := set_xreg s7 r9
               (load s7 (wrap64 (xreg s7 rthread + stack_guard_state_offset)) 1)).
  set (s9 := set_flag_eq s8
               (wrap32 (xreg s8 r9) =? wrap32 stack_guard_yellow_reserved_disabled)).
  assert (R9 : run extern 6 P atJ s4
               = Next (br EQ L_reguard :: bind L_after_reguard :: at_after_reguard outs)
                   s9) by reflexivity.
  assert (A7 : a7 = ts).
  { unfold a7, s6. cbn [xreg set_xreg Register_eqb r10 Nat.eqb].
    change (xreg s5 rthread) with (xreg s4 rthread). rewrite E4'.
    fold ts. rewrite (wrap64_small ts) by (unfold ts; lia).
    apply wrap64_small. unfold ts. lia. }
  assert (F9 : flag_eq s9 = false).
  { unfold s9. cbn [flag_eq set_flag_eq]. apply Z.eqb_neq.
    unfold s8. cbn [xreg set_xreg Register_eqb r9 Nat.eqb].
    change (xreg s7 rthread) with (xreg s4 rthread). rewrite E4'.
    rewrite wrap64_small by lia.
    unfold s7. rewrite A7. rewrite load_store_other
      by (unfold ts; change (Z.of_nat 4) with 4; change (Z.of_nat 1) with 1; lia).
    change (load s6 (thr + stack_guard_state_offset) 1)
      with (load s4 (thr + stack_guard_state_offset) 1).
    rewrite L4, L2 by (unfold ts; change (Z.of_nat 1) with 1; lia).
    exact Guard. }
  assert (T9 : trace s9 = trace s4 ++ [Ev_store ts 4 (wrap64 _thread_in_Java) true]).
  { rewrite <- A7. reflexivity. }
  clearbody s9. clear A7 s8 s7 a7 s6 s5.
  (* the epilogue *)
  eexists. split.
  { change 19%nat with (4 + (4 + (6 + 5)))%nat.
    rewrite (run_next extern 4 _ _ _ _ _ _ R2).
    rewrite (run_next extern 4 _ _ _ _ _ _ R4).
    rewrite (run_next extern 6 _ _ _ _ _ _ R9).
    cbn [run step]. rewrite F9. reflexivity. }
  unfold log. cbn [trace set_xreg set_trace set_anchor].
  rewrite T9, T4, T2. repeat (rewrite <- ?app_assoc; cbn [app]). reflexivity.
Qed.

End FastPath.

Section FastPathTheorem.

Context `{Runtime}.

Variable extern : Z -> Machine.mstate -> Machine.mstate.

Import NativeInvoker Downcall DowncallShape Machine Traces.

(** X16: on the fast path a generated stub calls no runtime service.
    When, at the poll after the native call, the thread's poll is
    disarmed, its suspend-flags word is zero and its stack-guard state is
    not "yellow reserved disabled", the stub returns in 19 steps having
    done exactly this: the plain store of the transitional state, the full
    barrier, the release store of the managed state, the clearing of the
    frame triple. *)
Theorem fast_path_calls_no_service :
  forall g r code,
    Masm.run (generate g) = Some (r, code) ->
    forall s,
      let thr := xreg s rthread in
      poll_armed s = false ->
      thread_fields_apart thr ->
      load s (thr + suspend_flags_offset) 4 = 0 ->
      wrap32 (load s (thr + stack_guard_state_offset) 1)
        <> wrap32 stack_guard_yellow_reserved_disabled ->
      exists s',
        run extern 19 code
          (seg_poll ++ bind L_after_safepoint_poll
             :: at_after_safepoint_poll (_output_registers g)) s
        = Halt s'
        /\ trace s' =
           trace s
           ++ [Ev_store (thr + thread_state_offset) 4
                 (wrap64 _thread_in_native_trans) false;
               Ev_membar [LoadLoad; LoadStore; StoreLoad; StoreStore];
               Ev_store (thr + thread_state_offset) 4 (wrap64 _thread_in_Java) true;
               Ev_reset_last_Java_frame].
Proof.
  intros g r code Hrun s thr Armed Apart Flags Guard.
  destruct (generate_inv g r code Hrun)
    as (a & unpack & _ & _ & _ & _ & _ & _ & -> & _).
  exact (run_fast_path extern (insts_begin (_buffer g)) (computed_framesize g a)
           (Shuffle._moves a) unpack (_output_registers g) s Armed Apart Flags Guard).
Qed.

End FastPathTheorem.

Lemma fast_path_calls_no_service_witness :
  exists r code s',
    Masm.run (@NativeInvoker.generate Examples.example_runtime Examples.swap_generator)
      = Some (r, code)
    /\ Machine.run (H := Examples.example_runtime)
         AdapterExamples.clobbering_callee 19 code
         (@Downcall.seg_poll Examples.example_runtime
            ++ bind L_after_safepoint_poll
            :: @Downcall.at_after_safepoint_poll Examples.example_runtime
                 [VMReg_Register r0])
         AdapterExamples.entry_state
       = Machine.Halt s'
    /\ Traces.calls_of (Machine.trace s') = [].
Proof.
  destruct (Masm.run (@NativeInvoker.generate Examples.example_runtime
                        Examples.swap_generator)) as [[r code]|] eqn:G;
    [|vm_compute in G; discriminate G].
  assert (Et : Machine.xreg AdapterExamples.entry_state rthread = 0) by reflexivity.
  destruct (@fast_path_calls_no_service Examples.example_runtime
              AdapterExamples.clobbering_callee Examples.swap_generator r code G
              AdapterExamples.entry_state)
    as (s' & Hr & Ht).
  - reflexivity.
  - rewrite Et. unfold thread_fields_apart.
    cbn [thread_state_offset suspend_flags_offset stack_guard_state_offset
         Examples.example_runtime]. lia.
  - rewrite Et. vm_compute. reflexivity.
  - rewrite Et. vm_compute. discriminate.
  - exists r, code, s'. split; [reflexivity|]. split; [exact Hr|].
    rewrite Ht. reflexivity.
Defined.

(** ** The downcall stub up to the native call, and from it *)

Section MovesFrame.

Import Machine.

(** The moves of the shuffle write locations only. *)
Lemma apply_moves_frame moves :
  forall s,
    mem (apply_moves moves s) = mem s
    /\ anchor (apply_moves moves s) = anchor s
    /\ trace (apply_moves moves s) = trace s.
Proof.
  induction moves as [|m moves IH]; intros s; [repeat split|].
  change (apply_moves (m :: moves) s)
    with (apply_moves moves (set_loc s (snd m) (get_loc s (fst m)))).
  destruct (IH (set_loc s (snd m) (get_loc s (fst m)))) as (A & B & C).
  rewrite A, B, C. destruct (snd m); repeat split.
Qed.

Lemma apply_moves_xreg moves r :
  (forall m, In m moves -> snd m <> VMReg_Register r) ->
  forall s, xreg (apply_moves moves s) r = xreg s r.
Proof.
  induction moves as [|m moves IH]; intros V s; [reflexivity|].
  change (apply_moves (m :: moves) s)
    with (apply_moves moves (set_loc s (snd m) (get_loc s (fst m)))).
  rewrite IH by (intros x Hx; apply V; now right).
  pose proof (V m (or_introl eq_refl)) as N.
  destruct (snd m) as [x| | |]; try reflexivity.
  cbn [set_loc set_xreg xreg].
  assert (N' : r <> x) by (intros ->; now apply N).
  apply Register_eqb_neq in N'. now rewrite N'.
Qed.

Lemma wrap64_idem x : wrap64 (wrap64 x) = wrap64 x.
Proof. unfold wrap64. apply Z.mod_mod. lia. Qed.

(** A word that was just stored reads back, cut to its width. *)
Lemma load_store_same s a n v rel :
  0 <= a -> a + Z.of_nat n <= 2 ^ 64 ->
  load (store s a n v rel) a n = v mod 2 ^ (Z.of_nat n * 8).
Proof.
  intros Ha Hb. unfold load, store, log. cbn [mem set_trace set_mem].
  rewrite <- (length_le_split n v) at 2.
  rewrite MemFacts.load_store_bytes by (rewrite ?length_le_split; lia).
  apply le_combine_split.
Qed.

End MovesFrame.

Section OrderRun.

Context `{Runtime}.

Variable extern : Z -> Machine.mstate -> Machine.mstate.

Import NativeInvoker Downcall DowncallShape Machine Traces Effects.

Variables (begin fs : Z) (moves : list Shuffle.Move) (bt : BasicType)
          (unpack : list insn) (outs : list VMReg).

Hypothesis moves_valid :
  forall m, In m moves -> is_valid (fst m) = true /\ is_valid (snd m) = true.
Hypothesis unpack_of : unpack_code bt = Some unpack.

Let P := downcall_code begin fs moves unpack outs.

Let after := seg_poll ++ bind L_after_safepoint_poll :: at_after_safepoint_poll outs.

(** The frame pointer, the stack pointer and the address of the thread's
    state word, as the stub has them once the frame is set up. *)
Let fp_of (s : mstate) : Z := wrap64 (xreg s sp - 2 * wordSize).

Let sp_of (s : mstate) : Z :=
  wrap64 (fp_of s - wrap32 (Z.shiftl (wrap32 (fs - 4)) LogBytesPerInt)).

Let word_of (s : mstate) : Z := wrap64 (xreg s rthread + thread_state_offset).

Let the_pc : Z := begin + code_size (seg_prologue fs).

(** The state after the prologue. *)
Lemma run_to_publish s :
  exists s1,
    run extern 2 P P s
    = Next (seg_to_native the_pc ++ seg_shuffle moves ++ blr r9 :: unpack ++ after) s1
    /\ trace s1
       = trace s ++ [Ev_store (fp_of s) 8 (xreg s rfp) false;
                     Ev_store (fp_of s + wordSize) 8 (xreg s lr) false]
    /\ xreg s1 sp = sp_of s
    /\ xreg s1 rfp = fp_of s
    /\ xreg s1 rthread = xreg s rthread
    /\ (forall l, l <> VMReg_Register sp -> l <> VMReg_Register rfp ->
                  get_loc s1 l = get_loc s l).
Proof.
  assert (EP : P = seg_prologue fs ++ seg_to_native the_pc
                   ++ seg_shuffle moves ++ blr r9 :: unpack ++ after).
  { unfold P, downcall_code, after, at_after_safepoint_poll, at_after_reguard.
    repeat (progress (rewrite <- ?app_assoc; cbn [app])). reflexivity. }
  eexists. split; [rewrite EP at 2; reflexivity|].
  split.
  { unfold store, log. cbn [trace set_trace set_mem set_xreg].
    now rewrite <- app_assoc. }
  split; [reflexivity|]. split; [reflexivity|]. split; [reflexivity|].
  intros l Nsp Nfp.
  rewrite !get_loc_set_xreg_other by assumption.
  now rewrite !get_loc_store.
Qed.

(** The publication of the frame triple and the release store of the
    native state, from any state. *)
Lemma run_to_native rest s1 :
  exists sn,
    run extern 4 P (seg_to_native the_pc ++ rest) s1 = Next rest sn
    /\ trace sn
       = trace s1 ++ [Ev_set_last_Java_frame (xreg s1 sp) (xreg s1 rfp) the_pc;
                      Ev_store (wrap64 (wrap64 (xreg s1 rthread + thread_state_offset)))
                        4 (wrap64 _thread_in_native) true]
    /\ anchor sn = {| last_Java_sp := xreg s1 sp;
                      last_Java_fp := xreg s1 rfp;
                      last_Java_pc := the_pc |}
    /\ (wrap64 (xreg s1 rthread + thread_state_offset) + 4 <= 2 ^ 64 ->
        load sn (wrap64 (xreg s1 rthread + thread_state_offset)) 4
        = wrap32 (wrap64 _thread_in_native))
    /\ xreg sn rthread = xreg s1 rthread
    /\ xreg sn rfp = xreg s1 rfp
    /\ (forall l, l <> VMReg_Register r9 -> l <> VMReg_Register r10 ->
                  get_loc sn l = get_loc s1 l).
Proof.
  set (s2 := set_xreg
               (log (set_anchor s1 {| last_Java_sp := xreg s1 sp;
                                      last_Java_fp := xreg s1 rfp;
                                      last_Java_pc := the_pc |})
                    (Ev_set_last_Java_frame (xreg s1 sp) (xreg s1 rfp) the_pc))
               r9 (xreg s1 sp)).
  set (s3 := set_xreg (set_xreg s2 r9 (wrap64 _thread_in_native)) r10
               (wrap64 (xreg s1 rthread + thread_state_offset))).
  set (ts := wrap64 (wrap64 (xreg s1 rthread + thread_state_offset))).
  exists (store s3 ts 4 (wrap64 _thread_in_native) true).
  split; [reflexivity|].
  split.
  { unfold s3, s2, store, log. cbn [trace set_trace set_mem set_xreg set_anchor].
    now rewrite <- app_assoc. }
  split; [reflexivity|].
  split.
  { intros Hw. unfold ts. rewrite wrap64_idem.
    rewrite load_store_same; [reflexivity | | exact Hw].
    unfold wrap64. apply Z.mod_pos_bound. lia. }
  split; [reflexivity|]. split; [reflexivity|].
  intros l N9 N10. rewrite get_loc_store. unfold s3, s2.
  rewrite !get_loc_set_xreg_other by assumption.
  destruct l; reflexivity.
Qed.

(** From the entry of the stub to the native call: the pair is pushed, the
    triple published, the native state stored with release ordering to the
    thread's state word, and the arguments are shuffled. *)
Lemma reaches_call s :
  exists n sn,
    run extern n P P s = Next (blr r9 :: unpack ++ after) (apply_moves moves sn)
    /\ trace sn
       = trace s ++ [Ev_store (fp_of s) 8 (xreg s rfp) false;
                     Ev_store (fp_of s + wordSize) 8 (xreg s lr) false;
                     Ev_set_last_Java_frame (sp_of s) (fp_of s) the_pc;
                     Ev_store (word_of s) 4 (wrap64 _thread_in_native) true]
    /\ anchor sn = {| last_Java_sp := sp_of s;
                      last_Java_fp := fp_of s;
                      last_Java_pc := the_pc |}
    /\ (word_of s + 4 <= 2 ^ 64 ->
        load sn (word_of s) 4 = wrap32 (wrap64 _thread_in_native))
    /\ xreg sn rthread = xreg s rthread
    /\ (forall l, l <> VMReg_Register sp -> l <> VMReg_Register rfp ->
                  l <> VMReg_Register r9 -> l <> VMReg_Register r10 ->
                  get_loc sn l = get_loc s l).
Proof.
  destruct (run_to_publish s) as (s1 & R1 & T1 & Sp1 & Fp1 & Th1 & L1).
  destruct (run_to_native (seg_shuffle moves ++ blr r9 :: unpack ++ after) s1)
    as (sn & R2 & T2 & A2 & M2 & Th2 & _ & L2).
  rewrite Sp1, Fp1, Th1 in *.
  exists (2 + (4 + (1 + (length moves + 1))))%nat, sn.
  split.
  { rewrite (run_next extern 2 _ _ _ _ _ _ R1).
    rewrite (run_next extern 4 _ _ _ _ _ _ R2).
    unfold seg_shuffle. cbn [app]. rewrite <- app_assoc.
    change (run extern (1 + (length moves + 1)) P
              (block_comment "{ argument shuffle"
                 :: seg_moves moves
                 ++ [block_comment "} argument shuffle"] ++ blr r9 :: unpack ++ after) sn)
      with (run extern (length moves + 1) P
              (seg_moves moves
                 ++ [block_comment "} argument shuffle"] ++ blr r9 :: unpack ++ after) sn).
    rewrite (run_next extern _ 1 _ _ _ _ _
               (run_seg_moves extern P moves _ moves_valid sn)).
    reflexivity. }
  split.
  { rewrite T2, T1, <- app_assoc, wrap64_idem. reflexivity. }
  split; [exact A2|]. split; [exact M2|]. split; [exact Th2|].
  intros l Nsp Nfp N9 N10. rewrite (L2 l N9 N10). now apply L1.
Qed.

Let kept (r : Register) := register_kept extern moves outs r.

(** Every run of the stub returns: it reaches the call in the state
    [reaches_call] describes, and from the call on its events are exactly
    these, in this order. *)
Lemma order_trace s0 :
  exists n sn fuel s' w2 slow1 w3 slow2,
    run extern n P P s0 = Next (blr r9 :: unpack ++ after) (apply_moves moves sn)
    /\ trace sn
       = trace s0 ++ [Ev_store (fp_of s0) 8 (xreg s0 rfp) false;
                      Ev_store (fp_of s0 + wordSize) 8 (xreg s0 lr) false;
                      Ev_set_last_Java_frame (sp_of s0) (fp_of s0) the_pc;
                      Ev_store (word_of s0) 4 (wrap64 _thread_in_native) true]
    /\ anchor sn = {| last_Java_sp := sp_of s0;
                      last_Java_fp := fp_of s0;
                      last_Java_pc := the_pc |}
    /\ (word_of s0 + 4 <= 2 ^ 64 ->
        load sn (word_of s0) 4 = wrap32 (wrap64 _thread_in_native))
    /\ (forall l, l <> VMReg_Register sp -> l <> VMReg_Register rfp ->
                  l <> VMReg_Register r9 -> l <> VMReg_Register r10 ->
                  get_loc sn l = get_loc s0 l)
    /\ run extern fuel P P s0 = Halt s'
    /\ trace s'
       = trace sn
         ++ [Ev_call (xreg (apply_moves moves sn) r9)
               (xreg (apply_moves moves sn) c_rarg0);
             Ev_store w2 4 (wrap64 _thread_in_native_trans) false;
             Ev_membar [LoadLoad; LoadStore; StoreLoad; StoreStore]]
         ++ slow1
         ++ Ev_store w3 4 (wrap64 _thread_in_Java) true
         :: slow2 ++ [Ev_reset_last_Java_frame]
    /\ quiet slow1 /\ quiet slow2
    /\ (calls_of slow1 = []
        \/ exists a,
             calls_of slow1
             = [Ev_call (entry_address check_special_condition_for_native_trans) a])
    /\ (calls_of slow2 = []
        \/ exists a, calls_of slow2
                     = [Ev_call (entry_address reguard_yellow_pages) a])
    /\ (slow1 = []
        \/ exists ss a,
             slow1 = spill_events ss 0 outs
                     ++ [Ev_call (entry_address check_special_condition_for_native_trans)
                           a])
    /\ (slow2 = []
        \/ exists ss a,
             slow2 = spill_events ss 0 outs
                     ++ [Ev_call (entry_address reguard_yellow_pages) a])
    /\ (kept rthread -> w2 = word_of s0 /\ w3 = word_of s0).
Proof.
  destruct (reaches_call s0) as (n & sn & Rn & Tn & An & Mn & Thn & Ln).
  destruct (apply_moves_frame moves sn) as (_ & _ & Tc).
  remember (apply_moves moves sn) as sc eqn:Ec.
  assert (Kc : kept rthread -> xreg sc rthread = xreg s0 rthread).
  { intros (_ & Km & _). rewrite Ec, (apply_moves_xreg moves rthread Km). exact Thn. }
  assert (R0 : runs extern P P s0 (blr r9 :: unpack ++ after) sc
                 [Ev_store (fp_of s0) 8 (xreg s0 rfp) false;
                  Ev_store (fp_of s0 + wordSize) 8 (xreg s0 lr) false;
                  Ev_set_last_Java_frame (sp_of s0) (fp_of s0) the_pc;
                  Ev_store (word_of s0) 4 (wrap64 _thread_in_native) true]).
  { exists n. split; [exact Rn|]. now rewrite Tc, Tn. }
  set (s6 := call extern (xreg sc r9) sc).
  assert (R6 : runs extern P (blr r9 :: unpack ++ after) sc (unpack ++ after) s6
                 [Ev_call (xreg sc r9) (xreg sc c_rarg0)]).
  { apply runs_step; reflexivity. }
  assert (K6 : kept rthread -> xreg s6 rthread = xreg s0 rthread).
  { intros K. rewrite <- (Kc K). destruct K as (Kx & _).
    unfold s6, call. cbn [xreg set_trace]. apply Kx. }
  clearbody s6.
  destruct (unpack_adjusts extern bt unpack unpack_of) as (_ & Hu).
  destruct (Hu P after s6) as (s7 & R7 & _ & O7 & _ & _ & T7).
  assert (R7' : runs extern P (unpack ++ after) s6 after s7 []).
  { exists (length unpack). split; [exact R7 | now rewrite T7, app_nil_r]. }
  assert (K7 : xreg s7 rthread = xreg s6 rthread) by (apply O7; discriminate).
  destruct (proto_poll extern begin fs moves bt unpack outs unpack_of s7)
    as (s8 & slow1 & R8 & Q1 & C1 & E1 & K8).
  destruct (proto_to_java extern begin fs moves bt unpack outs unpack_of s8)
    as (s9 & slow2 & R9 & Q2 & C2 & E2 & _).
  destruct (proto_epilogue extern begin fs moves unpack outs s9) as (s' & Re & Te & _).
  pose proof (runs_then extern _ _ _ _ _ _ _ _ _ _ R0
                (runs_then extern _ _ _ _ _ _ _ _ _ _ R6
                   (runs_then extern _ _ _ _ _ _ _ _ _ _ R7'
                      (runs_then extern _ _ _ _ _ _ _ _ _ _ R8 R9 eq_refl)
                      eq_refl) eq_refl) eq_refl)
    as (m & Rm & Tm).
  exists n, sn, (m + 3)%nat, s',
    (wrap64 (xreg s7 rthread + thread_state_offset)), slow1,
    (wrap64 (wrap64 (xreg s8 rthread + thread_state_offset))), slow2.
  rewrite <- Ec.
  split; [exact Rn|]. split; [exact Tn|]. split; [exact An|]. split; [exact Mn|].
  split; [exact Ln|].
  split; [now rewrite (run_next extern _ _ _ _ _ _ _ Rm)|].
  split.
  { rewrite Te, Tm, Tn. repeat (rewrite <- ?app_assoc; cbn [app]). reflexivity. }
  split; [exact Q1|]. split; [exact Q2|]. split; [exact C1|]. split; [exact C2|].
  split; [exact E1|]. split; [exact E2|].
  intros K.
  rewrite (K8 rthread (or_intror eq_refl) K), K7, (K6 K), wrap64_idem.
  split; reflexivity.
Qed.

End OrderRun.

(** ** Ordering of the state transitions and the frame anchor *)

Section OrderTheorems.

Context `{Runtime}.

Variable extern : Z -> Machine.mstate -> Machine.mstate.

Import NativeInvoker Downcall DowncallShape Machine Traces Effects.

Lemma thread_register_kept g a :
  target_uses_register g (as_VMReg rthread) = false ->
  extern_keeps extern rthread ->
  (forall m, In m (Shuffle._moves a) -> snd m <> VMReg_Register rthread) ->
  register_kept extern (Shuffle._moves a) (_output_registers g) rthread.
Proof.
  intros T Kx Km. split; [exact Kx|]. split; [exact Km|].
  apply target_uses_register_In in T. intros Hin. apply T.
  apply in_or_app. now right.
Qed.

(** C2: every run of a generated stub returns, and what it does up to the
    native call is exactly this, in this order: the two plain stores that
    push the frame pointer/link pair, the publication of the frame triple
    (the stack pointer and frame pointer of the frame just set up, and the
    code address at which the frame is complete), the release store of the
    native state to the state word of the thread the thread register
    designates.  The two pushes are the only events before the
    publication, and nothing comes between the publication and the release
    store.  After the call the transitional state is stored with a plain
    store, the managed state with a release store, and only then, as the
    last event of the run, the triple is cleared; the only other events
    are those of a slow path that is taken: the plain stores that spill the
    return locations and the call of the runtime service.  When the called
    functions and the shuffle leave the thread register alone, the two
    later stores go to the same state word.  Hence another thread whose
    view respects release ordering and that sees the native state also
    sees the published triple and everything before it. *)
Theorem C2_frame_published_before_native_state :
  forall g r code,
    Masm.run (generate g) = Some (r, code) ->
    forall s0,
    exists fuel s' tgt a0 w2 slow1 w3 slow2,
      run extern fuel code code s0 = Halt s'
      /\ trace s' =
         trace s0
         ++ [Ev_store (wrap64 (xreg s0 sp - 2 * wordSize)) 8 (xreg s0 rfp) false;
             Ev_store (wrap64 (xreg s0 sp - 2 * wordSize) + wordSize) 8
               (xreg s0 lr) false;
             Ev_set_last_Java_frame
               (wrap64 (wrap64 (xreg s0 sp - 2 * wordSize)
                        - wrap32 (Z.shiftl (wrap32 (_framesize r - 4)) LogBytesPerInt)))
               (wrap64 (xreg s0 sp - 2 * wordSize))
               (insts_begin (_buffer g) + frame_complete r);
             Ev_store (wrap64 (xreg s0 rthread + thread_state_offset)) 4
               (wrap64 _thread_in_native) true;
             Ev_call tgt a0;
             Ev_store w2 4 (wrap64 _thread_in_native_trans) false;
             Ev_membar [LoadLoad; LoadStore; StoreLoad; StoreStore]]
         ++ slow1
         ++ Ev_store w3 4 (wrap64 _thread_in_Java) true
         :: slow2 ++ [Ev_reset_last_Java_frame]
      /\ quiet slow1 /\ quiet slow2
      /\ (slow1 = []
          \/ exists ss a,
               slow1 = spill_events ss 0 (_output_registers g)
                       ++ [Ev_call
                             (entry_address check_special_condition_for_native_trans)
                             a])
      /\ (slow2 = []
          \/ exists ss a,
               slow2 = spill_events ss 0 (_output_registers g)
                       ++ [Ev_call (entry_address reguard_yellow_pages) a])
      /\ (extern_keeps extern rthread ->
          (forall a m, the_shuffle g = Some a -> In m (Shuffle._moves a) ->
                       snd m <> VMReg_Register rthread) ->
          w2 = wrap64 (xreg s0 rthread + thread_state_offset)
          /\ w3 = wrap64 (xreg s0 rthread + thread_state_offset))
      /\ oop_maps r = [(frame_complete r, new_OopMap (_framesize r) 0)]
      /\ forall sees,
           release_closed (trace s') sees ->
           sees (length (trace s0) + 3)%nat = true ->
           forall j, (j < length (trace s0) + 3)%nat -> sees j = true.
Proof.
  intros g r code Hrun s0.
  destruct (generate_inv g r code Hrun)
    as (a & unpack & Sh & U & _ & _ & Tthr & _ & -> & ->).
  destruct (order_trace extern (insts_begin (_buffer g)) (computed_framesize g a)
              (Shuffle._moves a) (_ret_bt g) unpack (_output_registers g)
              (the_shuffle_valid g a Sh) U s0)
    as (n & sn & fuel & s' & w2 & slow1 & w3 & slow2
        & _ & Tn & _ & _ & _ & Hr & Ht & Q1 & Q2 & _ & _ & E1 & E2 & Kw).
  rewrite Tn in Ht. rewrite <- app_assoc in Ht. cbn [app] in Ht.
  exists fuel, s', (xreg (apply_moves (Shuffle._moves a) sn) r9),
    (xreg (apply_moves (Shuffle._moves a) sn) c_rarg0), w2, slow1, w3, slow2.
  split; [exact Hr|]. split; [exact Ht|].
  split; [exact Q1|]. split; [exact Q2|]. split; [exact E1|]. split; [exact E2|].
  split.
  { intros Kx Km. apply Kw. apply (thread_register_kept g a Tthr Kx).
    intros m Hm. exact (Km a m Sh Hm). }
  split; [reflexivity|].
  intros sees RC Hsee j Hj.
  apply (RC (length (trace s0) + 3)%nat j
            (wrap64 (xreg s0 rthread + thread_state_offset)) 4%nat
            (wrap64 _thread_in_native)); [|exact Hsee | exact Hj].
  rewrite Ht. rewrite nth_error_app2 by lia.
  replace (length (trace s0) + 3 - length (trace s0))%nat with 3%nat by lia.
  reflexivity.
Qed.

(** X10: every run of a generated downcall stub reaches the native call
    and returns from the stub.  At the call the events so far are the push
    of the frame pointer/link pair, the publication of the frame triple and
    the release store of the native state to the thread's state word; the
    anchor holds the published triple; the state word reads as the native
    state; and the address called is the content of r9, which is the value
    the managed caller passed in the location the native convention maps
    to r9.  From the call on the events are exactly, in this order: the
    call; the plain store of the transitional state; the full barrier;
    possibly the suspension slow path; the release store of the managed
    state; possibly the reguard slow path; the clearing of the triple.
    A slow path that is taken adds the plain stores that spill the return
    locations and exactly one call, to its own runtime service; nothing
    else is called or stored.  When the called functions and the shuffle
    leave the thread register alone, the later state stores go to the same
    state word. *)
Theorem downcall_protocol :
  forall g r code,
    Masm.run (generate g) = Some (r, code) ->
    forall s0,
    exists n rest s_call fuel s' w2 slow1 w3 slow2,
      run extern n code code s0 = Next (blr r9 :: rest) s_call
      /\ trace s_call =
         trace s0
         ++ [Ev_store (wrap64 (xreg s0 sp - 2 * wordSize)) 8 (xreg s0 rfp) false;
             Ev_store (wrap64 (xreg s0 sp - 2 * wordSize) + wordSize) 8
               (xreg s0 lr) false;
             Ev_set_last_Java_frame
               (wrap64 (wrap64 (xreg s0 sp - 2 * wordSize)
                        - wrap32 (Z.shiftl (wrap32 (_framesize r - 4)) LogBytesPerInt)))
               (wrap64 (xreg s0 sp - 2 * wordSize))
               (insts_begin (_buffer g) + frame_complete r);
             Ev_store (wrap64 (xreg s0 rthread + thread_state_offset)) 4
               (wrap64 _thread_in_native) true]
      /\ anchor s_call =
         {| last_Java_sp :=
              wrap64 (wrap64 (xreg s0 sp - 2 * wordSize)
                      - wrap32 (Z.shiftl (wrap32 (_framesize r - 4)) LogBytesPerInt));
            last_Java_fp := wrap64 (xreg s0 sp - 2 * wordSize);
            last_Java_pc := insts_begin (_buffer g) + frame_complete r |}
      /\ (wrap64 (xreg s0 rthread + thread_state_offset) + 4 <= 2 ^ 64 ->
          load s_call (wrap64 (xreg s0 rthread + thread_state_offset)) 4
          = wrap32 (wrap64 _thread_in_native))
      /\ (forall i src,
            shuffle_wf (as_VMReg r19) (in_regs g) (out_regs g) ->
            nth_error (in_regs g) i = Some src ->
            nth_error (out_regs g) i = Some (VMReg_Register r9) ->
            is_valid src = true ->
            src <> VMReg_Register sp -> src <> VMReg_Register rfp ->
            src <> VMReg_Register r9 -> src <> VMReg_Register r10 ->
            xreg s_call r9 = get_loc s0 src)
      /\ run extern fuel code code s0 = Halt s'
      /\ trace s' =
         trace s_call
         ++ [Ev_call (xreg s_call r9) (xreg s_call c_rarg0);
             Ev_store w2 4 (wrap64 _thread_in_native_trans) false;
             Ev_membar [LoadLoad; LoadStore; StoreLoad; StoreStore]]
         ++ slow1
         ++ Ev_store w3 4 (wrap64 _thread_in_Java) true
         :: slow2 ++ [Ev_reset_last_Java_frame]
      /\ (slow1 = []
          \/ exists ss a,
               slow1 = spill_events ss 0 (_output_registers g)
                       ++ [Ev_call
                             (entry_address check_special_condition_for_native_trans)
                             a])
      /\ (slow2 = []
          \/ exists ss a,
               slow2 = spill_events ss 0 (_output_registers g)
                       ++ [Ev_call (entry_address reguard_yellow_pages) a])
      /\ (extern_keeps extern rthread ->
          (forall a m, the_shuffle g = Some a -> In m (Shuffle._moves a) ->
                       snd m <> VMReg_Register rthread) ->
          w2 = wrap64 (xreg s0 rthread + thread_state_offset)
          /\ w3 = wrap64 (xreg s0 rthread + thread_state_offset)).
Proof.
  intros g r code Hrun s0.
  destruct (generate_inv g r code Hrun)
    as (a & unpack & Sh & U & _ & _ & Tthr & _ & -> & ->).
  pose proof (the_shuffle_valid g a Sh) as V.
  destruct (order_trace extern (insts_begin (_buffer g)) (computed_framesize g a)
              (Shuffle._moves a) (_ret_bt g) unpack (_output_registers g) V U s0)
    as (n & sn & fuel & s' & w2 & slow1 & w3 & slow2
        & Rn & Tn & An & Mn & Ln & Hr & Ht & _ & _ & _ & _ & E1 & E2 & Kw).
  destruct (apply_moves_frame (Shuffle._moves a) sn) as (Mc & Ac & Tc).
  exists n. eexists. exists (apply_moves (Shuffle._moves a) sn), fuel, s',
    w2, slow1, w3, slow2.
  split; [exact Rn|].
  split; [rewrite Tc; exact Tn|].
  split; [rewrite Ac; exact An|].
  split.
  { intros Hw. unfold load. rewrite Mc. exact (Mn Hw). }
  split.
  { intros i src WF Hs Hd Vs Nsp Nfp N9 N10.
    destruct (PlannerFacts.compute_move_order_correct _ _ _ WF)
      as (prog & Hprog & _ & Hsim).
    pose proof Sh as Sh'.
    unfold the_shuffle, Shuffle.new_ArgumentShuffle in Sh'.
    fold (in_regs g) (out_regs g) in Sh'. rewrite Hprog in Sh'.
    inversion Sh' as [Ea]. rewrite <- Ea in *. cbn [Shuffle._moves] in *.
    change (xreg (apply_moves prog sn) r9)
      with (get_loc (apply_moves prog sn) (VMReg_Register r9)).
    rewrite (get_loc_apply_moves prog V sn).
    rewrite (Hsim (get_loc sn) src (VMReg_Register r9)).
    - now apply Ln.
    - apply PlannerFacts.in_valid_pairs.
      split; [now apply (PlannerFacts.nth_error_combine _ _ i)|].
      split; [exact Vs | reflexivity]. }
  split; [exact Hr|]. split; [rewrite Tc; exact Ht|].
  split; [exact E1|]. split; [exact E2|].
  intros Kx Km. apply Kw. apply (thread_register_kept g a Tthr Kx).
  intros m Hm. exact (Km a m Sh Hm).
Qed.

End OrderTheorems.

Lemma C2_frame_published_before_native_state_witness :
  exists r code fuel s' spv fpv the_pc rest,
    Masm.run (@NativeInvoker.generate Examples.example_runtime Examples.swap_generator)
      = Some (r, code)
    /\ Machine.run (H := Examples.example_runtime)
         AdapterExamples.clobbering_callee fuel code code AdapterExamples.entry_state
       = Machine.Halt s'
    /\ Machine.trace s'
       = Machine.Ev_store 65520 8 65600 false
         :: Machine.Ev_store 65528 8 0 false
         :: Machine.Ev_set_last_Java_frame spv fpv the_pc
         :: Machine.Ev_store 904 4 4 true
         :: rest.
Proof.
  destruct (Masm.run (@NativeInvoker.generate Examples.example_runtime
                        Examples.swap_generator)) as [[r code]|] eqn:G;
    [|vm_compute in G; discriminate G].
  destruct (@C2_frame_published_before_native_state Examples.example_runtime
              AdapterExamples.clobbering_callee Examples.swap_generator r code G
              AdapterExamples.entry_state)
    as (fuel & s' & tgt & a0 & w2 & slow1 & w3 & slow2 & Hr & Ht & _).
  exists r, code, fuel, s'.
  assert (E1 : wrap64 (Machine.xreg AdapterExamples.entry_state sp - 2 * wordSize)
               = 65520) by (vm_compute; reflexivity).
  assert (E2 : wrap64 (Machine.xreg AdapterExamples.entry_state rthread
                       + @thread_state_offset Examples.example_runtime)
               = 904) by (vm_compute; reflexivity).
  assert (E3 : wrap64 (@_thread_in_native Examples.example_runtime) = 4)
    by (vm_compute; reflexivity).
  rewrite E1, E2, E3 in Ht.
  eexists. eexists. eexists. eexists. split; [reflexivity|]. split; [exact Hr|].
  rewrite Ht. reflexivity.
Defined.

Lemma downcall_protocol_witness :
  exists r code n rest s_call fuel s',
    Masm.run (@NativeInvoker.generate Examples.example_runtime Examples.swap_generator)
      = Some (r, code)
    /\ Machine.run (H := Examples.example_runtime)
         AdapterExamples.clobbering_callee n code code AdapterExamples.entry_state
       = Machine.Next (blr r9 :: rest) s_call
    /\ Machine.load s_call 904 4 = 4
    /\ Machine.run (H := Examples.example_runtime)
         AdapterExamples.clobbering_callee fuel code code AdapterExamples.entry_state
       = Machine.Halt s'.
Proof.
  destruct (Masm.run (@NativeInvoker.generate Examples.example_runtime
                        Examples.swap_generator)) as [[r code]|] eqn:G;
    [|vm_compute in G; discriminate G].
  destruct (@downcall_protocol Examples.example_runtime
              AdapterExamples.clobbering_callee Examples.swap_generator r code G
              AdapterExamples.entry_state)
    as (n & rest & s_call & fuel & s' & w2 & slow1 & w3 & slow2
        & Rn & _ & _ & Hload & _ & Hr & _).
  assert (E2 : wrap64 (Machine.xreg AdapterExamples.entry_state rthread
                       + @thread_state_offset Examples.example_runtime)
               = 904) by (vm_compute; reflexivity).
  assert (E3 : wrap32 (wrap64 (@_thread_in_native Examples.example_runtime)) = 4)
    by (vm_compute; reflexivity).
  rewrite E2, E3 in Hload.
  exists r, code, n, rest, s_call, fuel, s'.
  split; [reflexivity|]. split; [exact Rn|].
  split; [apply Hload; lia | exact Hr].
Defined.

(** ** The native result after the call *)

Section UnpackAfterCall.

Context `{Runtime}.

Variable extern : Z -> Machine.mstate -> Machine.mstate.

Import NativeInvoker Downcall DowncallShape Machine Traces.

(** What an accepted return type leads to: the items of the switch, what
    they do from any state, and where a generated stub runs them. *)
Lemma unpack_after_call bt u :
  unpack_code bt = Some u ->
  (forall c, unpack_native_result bt c = Some (tt, c ++ u))
  /\ (forall P rest s,
        exists s',
          run extern (length u) P (u ++ rest) s = Next rest s'
          /\ adjusted (declared_adjustment bt) (xreg s r0) (xreg s' r0)
          /\ (forall x, x <> r0 -> xreg s' x = xreg s x)
          /\ vreg s' = vreg s
          /\ mem s' = mem s)
  /\ forall g r code,
       _ret_bt g = bt ->
       Masm.run (generate g) = Some (r, code) ->
       exists a,
         the_shuffle g = Some a
         /\ code
            = seg_prologue (_framesize r)
              ++ seg_to_native (insts_begin (_buffer g) + frame_complete r)
              ++ seg_shuffle (Shuffle._moves a)
              ++ blr r9 :: u
              ++ seg_poll
              ++ bind L_after_safepoint_poll
              :: at_after_safepoint_poll (_output_registers g)
         /\ forall s0,
            exists n s_call s',
              run extern n code code s0
              = Next (blr r9 :: u
                      ++ seg_poll
                      ++ bind L_after_safepoint_poll
                      :: at_after_safepoint_poll (_output_registers g)) s_call
              /\ run extern (n + 1 + length u) code code s0
                 = Next (seg_poll
                         ++ bind L_after_safepoint_poll
                         :: at_after_safepoint_poll (_output_registers g)) s'
              /\ adjusted (declared_adjustment bt)
                   (xreg (call extern (xreg s_call r9) s_call) r0) (xreg s' r0)
              /\ (forall x, x <> r0 ->
                            xreg s' x = xreg (call extern (xreg s_call r9) s_call) x)
              /\ vreg s' = vreg (call extern (xreg s_call r9) s_call)
              /\ mem s' = mem (call extern (xreg s_call r9) s_call).
Proof.
  intros U. destruct (unpack_adjusts extern bt u U) as (Hemit & Hu).
  split; [exact Hemit|]. split.
  { intros P rest s. destruct (Hu P rest s) as (s' & R & A & O & Vr & M & _).
    exists s'. repeat split; assumption. }
  intros g r code E Hrun.
  destruct (generate_inv g r code Hrun)
    as (a & unpack & Sh & U' & _ & _ & _ & _ & -> & ->).
  rewrite E, U in U'. inversion U'; subst unpack; clear U'.
  exists a. split; [exact Sh|]. split.
  { unfold downcall_code, at_after_safepoint_poll, at_after_reguard, frame_complete.
    cbn [_framesize _frame_complete].
    repeat (progress (rewrite <- ?app_assoc; cbn [app])). reflexivity. }
  intros s0.
  destruct (reaches_call extern (insts_begin (_buffer g)) (computed_framesize g a)
              (Shuffle._moves a) u (_output_registers g) (the_shuffle_valid g a Sh) s0)
    as (n & sn & Rn & _).
  remember (apply_moves (Shuffle._moves a) sn) as sc eqn:Ec. clear Ec.
  destruct (Hu (downcall_code (insts_begin (_buffer g)) (computed_framesize g a)
                  (Shuffle._moves a) u (_output_registers g))
               (seg_poll ++ bind L_after_safepoint_poll
                  :: at_after_safepoint_poll (_output_registers g))
               (call extern (xreg sc r9) sc))
    as (s' & R & A & O & Vr & M & _).
  exists n, sc, s'.
  split; [exact Rn|]. split; [|repeat split; assumption].
  rewrite <- Nat.add_assoc. rewrite (run_next extern _ _ _ _ _ _ _ Rn).
  exact R.
Qed.

(** C5: per declared return type, what a generated stub does to the raw
    result once the native call has returned.  For an accepted type the
    items of the switch follow the call immediately in the generated code,
    every run of the stub reaches the call and then runs them, and they
    leave the result register r0 adjusted as the type declares: boolean
    normalised, char zero-extended from 16 bits, byte/short/int
    sign-extended from 8/16/32 bits to the full register, float, double,
    long and void untouched; every other general register, the vector
    registers and memory are as the call left them.  Every other type
    aborts generation. *)
Theorem C5_unpack_native_result :
  forall bt,
    match declared_adjustment bt with
    | Not_accepted =>
        (forall c, unpack_native_result bt c = None)
        /\ (forall g, _ret_bt g = bt -> Masm.run (generate g) = None)
    | adj =>
        exists u,
          (forall c, unpack_native_result bt c = Some (tt, c ++ u))
          /\ (forall P rest s,
                exists s',
                  run extern (length u) P (u ++ rest) s = Next rest s'
                  /\ adjusted adj (xreg s r0) (xreg s' r0)
                  /\ (forall x, x <> r0 -> xreg s' x = xreg s x)
                  /\ vreg s' = vreg s
                  /\ mem s' = mem s)
          /\ forall g r code,
               _ret_bt g = bt ->
               Masm.run (generate g) = Some (r, code) ->
               exists a,
                 the_shuffle g = Some a
                 /\ code
                    = seg_prologue (_framesize r)
                      ++ seg_to_native (insts_begin (_buffer g) + frame_complete r)
                      ++ seg_shuffle (Shuffle._moves a)
                      ++ blr r9 :: u
                      ++ seg_poll
                      ++ bind L_after_safepoint_poll
                      :: at_after_safepoint_poll (_output_registers g)
                 /\ forall s0,
                    exists n s_call s',
                      run extern n code code s0
                      = Next (blr r9 :: u
                              ++ seg_poll
                              ++ bind L_after_safepoint_poll
                              :: at_after_safepoint_poll (_output_registers g)) s_call
                      /\ run extern (n + 1 + length u) code code s0
                         = Next (seg_poll
                                 ++ bind L_after_safepoint_poll
                                 :: at_after_safepoint_poll (_output_registers g)) s'
                      /\ adjusted adj
                           (xreg (call extern (xreg s_call r9) s_call) r0) (xreg s' r0)
                      /\ (forall x, x <> r0 ->
                                    xreg s' x
                                    = xreg (call extern (xreg s_call r9) s_call) x)
                      /\ vreg s' = vreg (call extern (xreg s_call r9) s_call)
                      /\ mem s' = mem (call extern (xreg s_call r9) s_call)
    end.
Proof.
  intros bt. destruct (unpack_code bt) as [u|] eqn:U.
  - pose proof (unpack_after_call bt u U) as A.
    destruct bt; try (exfalso; clear - U; cbv in U; discriminate U);
      cbn [declared_adjustment]; exists u; exact A.
  - pose proof (unpack_rejected bt U) as A.
    destruct bt; try (exfalso; clear - U; cbv in U; discriminate U);
      cbn [declared_adjustment]; exact A.
Qed.

End UnpackAfterCall.

Lemma C5_unpack_native_result_witness :
  exists r code n rest s_call s',
    Masm.run (@NativeInvoker.generate Examples.example_runtime Examples.swap_generator)
      = Some (r, code)
    /\ Machine.run (H := Examples.example_runtime)
         AdapterExamples.clobbering_callee n code code AdapterExamples.entry_state
       = Machine.Next (blr r9 :: sbfx r0 r0 0 32 :: rest) s_call
    /\ Machine.run (H := Examples.example_runtime)
         AdapterExamples.clobbering_callee (n + 1 + 1) code code
         AdapterExamples.entry_state
       = Machine.Next rest s'
    /\ adjusted (Sign_extend 32) 3735928559 (Machine.xreg s' r0).
Proof.
  pose proof (@C5_unpack_native_result Examples.example_runtime
                AdapterExamples.clobbering_callee T_INT) as C.
  cbn [declared_adjustment] in C.
  destruct C as (u & Hemit & _ & Hgen).
  specialize (Hemit []). vm_compute in Hemit. inversion Hemit; subst u; clear Hemit.
  destruct (Masm.run (@NativeInvoker.generate Examples.example_runtime
                        Examples.swap_generator)) as [[r code]|] eqn:G;
    [|vm_compute in G; discriminate G].
  destruct (Hgen Examples.swap_generator r code eq_refl G) as (a & _ & _ & Hrun).
  destruct (Hrun AdapterExamples.entry_state) as (n & s_call & s' & R1 & R2 & A & _).
  exists r, code, n. eexists. exists s_call, s'.
  split; [reflexivity|]. split; [exact R1|]. split; [exact R2 | exact A].
Defined.
